(** * Anchor and mark consistency of the da-live comment plugin

    A shallow embedding of the comment anchoring code of da-live
    (blocks/edit/da-comments/helpers/comment-utils.js and
    blocks/edit/prose/plugins/comments/commentPlugin.js) together with
    the properties its specification states about it.

    Layout: the JavaScript string primitives the code relies on, a model
    of the ProseMirror document API the code calls into, the embedded
    functions of the repository, and then the lemmas and theorems. *)

From Stdlib Require Import ZArith List String Ascii Bool Lia Permutation.
Import ListNotations.

Local Open Scope string_scope.
Local Open Scope list_scope.
Local Open Scope Z_scope.

(* ================================================================== *)
(** ** JavaScript strings *)
(* ================================================================== *)

(** Strings are sequences of code units; the model uses [string] and reads
    a character code as the code unit of the same value.  Indices and
    lengths are [Z], as JavaScript numbers restricted to integers. *)
Module JS.

Definition length (s : string) : Z := Z.of_nat (String.length s).

Fixpoint drop (n : nat) (s : string) : string :=
  match n, s with
  | O, _ => s
  | S _, EmptyString => EmptyString
  | S n', String _ s' => drop n' s'
  end.

Fixpoint take (n : nat) (s : string) : string :=
  match n, s with
  | O, _ => EmptyString
  | S _, EmptyString => EmptyString
  | S n', String c s' => String c (take n' s')
  end.

(** Relative index resolution of [String.prototype.slice]: a negative
    index counts from the end, and the result is clamped to the string. *)
Definition relIndex (size k : Z) : Z :=
  if k <? 0 then Z.max (size + k) 0 else Z.min k size.

(** [s.slice(b, e)] *)
Definition slice (s : string) (b e : Z) : string :=
  let size := length s in
  let start := relIndex size b in
  let stop := relIndex size e in
  take (Z.to_nat (stop - start)) (drop (Z.to_nat start) s).

(** [s.slice(b)] *)
Definition sliceFrom (s : string) (b : Z) : string := slice s b (length s).

(** First index [>= i] of the suffix [s] (which starts at index [i] of
    the searched string) where [t] occurs. *)
Fixpoint search (t s : string) (i : nat) : option nat :=
  if String.prefix t s then Some i
  else match s with
       | EmptyString => None
       | String _ s' => search t s' (S i)
       end.

(** [s.indexOf(t, position)]; [-1] when [t] does not occur. *)
Definition indexOf (s t : string) (position : Z) : Z :=
  let k := Z.to_nat (Z.min (Z.max position 0) (length s)) in
  match search t (drop k s) k with
  | Some i => Z.of_nat i
  | None => -1
  end.

(** [s.includes(t)] *)
Definition includes (s t : string) : bool := negb (indexOf s t 0 =? -1).

(** A string is truthy when it is not empty. *)
Definition truthy (s : string) : bool :=
  match s with EmptyString => false | String _ _ => true end.

(** The class [\s] of regular expressions, on code units below 256:
    tab, line feed, vertical tab, form feed, carriage return, space and
    the no-break space U+00A0. *)
Definition isWhiteSpace (c : ascii) : bool :=
  let n := nat_of_ascii c in
  (Nat.eqb n 9 || Nat.eqb n 10 || Nat.eqb n 11 || Nat.eqb n 12
   || Nat.eqb n 13 || Nat.eqb n 32 || Nat.eqb n 160)%bool.

Fixpoint allWhiteSpace (s : string) : bool :=
  match s with
  | EmptyString => true
  | String c s' => (isWhiteSpace c && allWhiteSpace s')%bool
  end.

Fixpoint trimStart (s : string) : string :=
  match s with
  | EmptyString => EmptyString
  | String c s' => if isWhiteSpace c then trimStart s' else s
  end.

Fixpoint rev (s : string) : string :=
  match s with
  | EmptyString => EmptyString
  | String c s' => String.append (rev s') (String c EmptyString)
  end.

(** [s.trim()] *)
Definition trim (s : string) : string := rev (trimStart (rev (trimStart s))).

End JS.

(** Values that are a string or [null], such as [parentId] or
    [attrs.commentThreadId]. *)
Definition truthyId (v : option string) : bool :=
  match v with Some s => JS.truthy s | None => false end.

Definition eqId (a b : option string) : bool :=
  match a, b with
  | Some x, Some y => String.eqb x y
  | None, None => true
  | _, _ => false
  end.

(* ================================================================== *)
(** ** The ProseMirror document model *)
(* ================================================================== *)

(** The editor library (prosemirror-model, prosemirror-transform and
    prosemirror-state, imported through da-y-wrapper) is not part of the
    repository.  This module models the part of its API the comment code
    calls: nodes with marks and attributes, the integer position scheme,
    [descendants], [nodesBetween], [textContent], [textBetween],
    [resolve], and the mark and attribute transforms of a transaction. *)
Module PM.

(** A mark: its type name and, for the comment mark, [attrs.threadId]. *)
Record Mark := mkMark { markType : string; threadId : option string }.

Definition isComment (m : Mark) : bool := String.eqb (markType m) "comment".

(** [commentMark.create({ threadId })] *)
Definition createComment (tid : string) : Mark := mkMark "comment" (Some tid).

(** [Mark.eq]: same type and same attributes. *)
Definition markEq (a b : Mark) : bool :=
  (String.eqb (markType a) (markType b) && eqId (threadId a) (threadId b))%bool.

(** [m.type === commentMark && m.attrs.threadId === tid] *)
Definition isCommentFor (tid : string) (m : Mark) : bool :=
  (isComment m && eqId (threadId m) (Some tid))%bool.

(** [mark.isInSet(set)] *)
Definition isInSet (m : Mark) (set : list Mark) : bool := existsb (markEq m) set.

Record Attrs := mkAttrs { commentThreadId : option string; alt : option string }.

Definition noAttrs : Attrs := mkAttrs None None.

Record NodeType := mkType { name : string; isBlockType : bool; isTextblockType : bool }.

(** Text nodes, leaf nodes (an image, a rule) and nodes with content. *)
#[warnings="-register-all"]
Inductive Node :=
| Text (text : string) (marks : list Mark)
| Leaf (type : NodeType) (attrs : Attrs) (marks : list Mark)
| Inner (type : NodeType) (attrs : Attrs) (marks : list Mark) (content : list Node).

(** A fragment is the content of a node; a document is the content of
    its top node, whose first child starts at position 0. *)
Definition Fragment := list Node.

Definition isText (n : Node) : bool :=
  match n with Text _ _ => true | _ => false end.

Definition typeName (n : Node) : string :=
  match n with
  | Text _ _ => "text"
  | Leaf ty _ _ => name ty
  | Inner ty _ _ _ => name ty
  end.

Definition isBlock (n : Node) : bool :=
  match n with
  | Text _ _ => false
  | Leaf ty _ _ => isBlockType ty
  | Inner ty _ _ _ => isBlockType ty
  end.

Definition isInline (n : Node) : bool := negb (isBlock n).

Definition isTextblock (n : Node) : bool :=
  match n with
  | Inner ty _ _ _ => (isBlockType ty && isTextblockType ty)%bool
  | _ => false
  end.

Definition marksOf (n : Node) : list Mark :=
  match n with
  | Text _ ms => ms
  | Leaf _ _ ms => ms
  | Inner _ _ ms _ => ms
  end.

Definition attrsOf (n : Node) : Attrs :=
  match n with
  | Text _ _ => noAttrs
  | Leaf _ a _ => a
  | Inner _ a _ _ => a
  end.

Definition isImage (n : Node) : bool := String.eqb (typeName n) "image".

Definition sumSizes (size : Node -> Z) : list Node -> Z :=
  fix go (cs : list Node) : Z :=
    match cs with
    | [] => 0
    | c :: rest => size c + go rest
    end.

(** [node.nodeSize]: the length of a text, 1 for a leaf, and the content
    size plus the opening and closing token otherwise. *)
Fixpoint nodeSize (n : Node) : Z :=
  match n with
  | Text t _ => JS.length t
  | Leaf _ _ _ => 1
  | Inner _ _ _ c => 2 + sumSizes nodeSize c
  end.

(** [fragment.size] *)
Definition fragSize (c : Fragment) : Z := sumSizes nodeSize c.

(** One level of [descendants]: every child is visited at its position
    and then its content. *)
Definition descLoop (visit : Node -> Z -> list (Node * Z)) : list Node -> Z -> list (Node * Z) :=
  fix loop (cs : list Node) (pos : Z) : list (Node * Z) :=
    match cs with
    | [] => []
    | c :: rest => visit c pos ++ loop rest (pos + nodeSize c)
    end.

Fixpoint descNode (n : Node) (pos : Z) : list (Node * Z) :=
  (n, pos) ::
  match n with
  | Inner _ _ _ c => descLoop descNode c (pos + 1)
  | _ => []
  end.

(** [doc.descendants(f)] as the list of the calls [f(node, pos)] it
    makes, in order, when [f] never returns [false]. *)
Definition descendants (doc : Fragment) : list (Node * Z) := descLoop descNode doc 0.

(** One level of [Fragment.nodesBetween(from, to, f, nodeStart)]. *)
Definition betweenLoop (visit : Node -> Z -> Z -> Z -> list (Node * Z))
    (from to nodeStart : Z) : list Node -> Z -> list (Node * Z) :=
  fix loop (cs : list Node) (pos : Z) : list (Node * Z) :=
    match cs with
    | [] => []
    | c :: rest =>
        if pos <? to then
          let e := pos + nodeSize c in
          (if from <? e then visit c (from - (pos + 1)) (to - (pos + 1)) (nodeStart + pos)
           else [])
          ++ loop rest e
        else []
    end.

(** The call [f(child, pos)] and the descent into a child with content;
    [from] and [to] are relative to the start of the child's content. *)
Fixpoint betweenNode (child : Node) (from to pos : Z) : list (Node * Z) :=
  (child, pos) ::
  match child with
  | Inner _ _ _ c =>
      if fragSize c =? 0 then []
      else betweenLoop betweenNode (Z.max 0 from) (Z.min (fragSize c) to) (pos + 1) c 0
  | _ => []
  end.

(** [doc.nodesBetween(from, to, f)] as the list of the calls it makes
    when [f] never returns [false]. *)
Definition nodesBetween (doc : Fragment) (from to : Z) : list (Node * Z) :=
  betweenLoop betweenNode from to 0 doc 0.

Definition concatText (text : Node -> string) : list Node -> string :=
  fix go (cs : list Node) : string :=
    match cs with
    | [] => EmptyString
    | c :: rest => String.append (text c) (go rest)
    end.

Fixpoint nodeText (n : Node) : string :=
  match n with
  | Text t _ => t
  | Leaf _ _ _ => EmptyString
  | Inner _ _ _ c => concatText nodeText c
  end.

(** [doc.textContent]: the text of all text nodes, in order (no node
    type of the schema defines [leafText]). *)
Definition textContent (doc : Fragment) : string := concatText nodeText doc.

(** [doc.textBetween(from, to, blockSeparator, '')] *)
Definition textBetween (doc : Fragment) (from to : Z) (blockSeparator : string) : string :=
  fst (fold_left
         (fun (acc : string * bool) (call : Node * Z) =>
            let '(text, first) := acc in
            let '(node, pos) := call in
            let nodeText :=
              match node with
              | Text t _ => JS.slice t (Z.max from pos - pos) (to - pos)
              | _ => EmptyString
              end in
            let '(text, first) :=
              if (isBlock node && isTextblock node && JS.truthy blockSeparator)%bool
              then (if first then (text, false) else (String.append text blockSeparator, first))
              else (text, first) in
            (String.append text nodeText, first))
         (nodesBetween doc from to) (EmptyString, true)).

(** [Fragment.fromArray]: adjacent text nodes with the same marks are
    joined. *)
Definition sameMarks (a b : list Mark) : bool :=
  ((Nat.eqb (List.length a) (List.length b))
   && forallb (fun p => markEq (fst p) (snd p)) (combine a b))%bool.

Fixpoint fromArray (array : list Node) : Fragment :=
  match array with
  | [] => []
  | n :: rest =>
      match n, fromArray rest with
      | Text t ms, Text t' ms' :: rest' =>
          if sameMarks ms ms' then Text (String.append t t') ms :: rest'
          else n :: Text t' ms' :: rest'
      | _, joined => n :: joined
      end
  end.

(** *** Positions *)

(** [Fragment.findIndex(pos)] with its default rounding: the index and
    start offset of the child that position [pos] falls into, or of the
    child after the boundary [pos] sits on.  [None] is the [RangeError]. *)
Fixpoint findIndexLoop (pos : Z) (cs : list Node) (i : nat) (curPos : Z)
    : option (nat * Z) :=
  match cs with
  | [] => None
  | cur :: rest =>
      let e := curPos + nodeSize cur in
      if pos <=? e then
        if e =? pos then Some (S i, e) else Some (i, curPos)
      else findIndexLoop pos rest (S i) e
  end.

Definition findIndex (content : Fragment) (pos : Z) : option (nat * Z) :=
  if pos =? 0 then Some (0%nat, pos)
  else if pos =? fragSize content then Some (List.length content, pos)
  else if ((fragSize content <? pos) || (pos <? 0))%bool then None
  else findIndexLoop pos content 0%nat 0.

(** [f] applied to [content.child(index)]; [None] without such a child. *)
Definition pickChild {A : Type} (f : Node -> option A) : list Node -> nat -> option A :=
  fix pick (cs : list Node) (i : nat) : option A :=
    match cs, i with
    | [], _ => None
    | cur :: _, O => f cur
    | _ :: rest, S i' => pick rest i'
    end.

(** [Fragment.childBefore(pos)], as the index of the child it finds. *)
Definition childBefore (content : Fragment) (pos : Z) : option nat :=
  if pos =? 0 then None
  else
    match findIndex content pos with
    | Some (index, offset) => if offset <? pos then Some index else Some (index - 1)%nat
    | None => None
    end.

(** A resolved position: the content of [$pos.parent], [$pos.parentOffset],
    [$pos.index()] and [$pos.textOffset]. *)
Record ResolvedPos := mkResolved {
  parent : Fragment;
  parentOffset : Z;
  index : nat;
  textOffset : Z
}.

(** One level of [ResolvedPos.resolve]: stop at a boundary or inside a
    text node, descend otherwise. *)
Definition resolveLoop (visit : Node -> Z -> option ResolvedPos)
    (content : Fragment) (parentOffset : Z) : option ResolvedPos :=
  match findIndex content parentOffset with
  | None => None
  | Some (index, offset) =>
      let rem := parentOffset - offset in
      if rem =? 0 then Some (mkResolved content parentOffset index 0)
      else
        pickChild
          (fun cur =>
             if isText cur then Some (mkResolved content parentOffset index rem)
             else visit cur (rem - 1))
          content index
  end.

Fixpoint resolveNode (n : Node) (parentOffset : Z) : option ResolvedPos :=
  match n with
  | Inner _ _ _ c => resolveLoop resolveNode c parentOffset
  | _ => None
  end.

(** [doc.resolve(pos)]; [None] is the [RangeError]. *)
Definition resolve (doc : Fragment) (pos : Z) : option ResolvedPos :=
  resolveLoop resolveNode doc pos.

Definition nodeAtLoop (visit : Node -> Z -> option Node)
    (content : Fragment) (pos : Z) : option Node :=
  match findIndex content pos with
  | None => None
  | Some (index, offset) =>
      pickChild
        (fun cur =>
           if ((offset =? pos) || isText cur)%bool then Some cur
           else visit cur (pos - (offset + 1)))
        content index
  end.

Fixpoint nodeAtNode (n : Node) (pos : Z) : option Node :=
  match n with
  | Inner _ _ _ c => nodeAtLoop nodeAtNode c pos
  | _ => None
  end.

(** [doc.nodeAt(pos)] *)
Definition nodeAt (doc : Fragment) (pos : Z) : option Node := nodeAtLoop nodeAtNode doc pos.

(** *** Mark sets *)

(** [mark.removeFromSet(set)] *)
Definition removeFromSet (m : Mark) (set : list Mark) : list Mark :=
  filter (fun x => negb (markEq m x)) set.

(** [mark.addToSet(set)].  [excl] tells whether the type of [m] excludes
    marks of its own type, the default of a mark type; no other mark type
    is taken to exclude the type of [m].  The order of mark types by rank
    is not modelled: the new mark comes last, which is its place among
    the marks of its own type. *)
Definition addToSet (excl : bool) (m : Mark) (set : list Mark) : list Mark :=
  if isInSet m set then set
  else filter (fun x => negb (excl && String.eqb (markType x) (markType m))%bool) set ++ [m].

(** [$pos.marks()].  [inclusive] tells whether the comment mark type is
    inclusive (the default); the other mark types are taken to be. *)
Definition marksAtResolved (inclusive : bool) (rp : ResolvedPos) : list Mark :=
  if fragSize (parent rp) =? 0 then []
  else if negb (textOffset rp =? 0) then
    match nth_error (parent rp) (index rp) with
    | Some child => marksOf child
    | None => []
    end
  else
    let before := match index rp with
                  | O => None
                  | S i => nth_error (parent rp) i
                  end in
    let after := nth_error (parent rp) (index rp) in
    let '(main, other) := match before with
                          | Some _ => (before, after)
                          | None => (after, before)
                          end in
    match main with
    | None => []
    | Some mainNode =>
        filter
          (fun m =>
             negb (isComment m && negb inclusive
                   && match other with
                      | Some otherNode => negb (isInSet m (marksOf otherNode))
                      | None => true
                      end)%bool)
          (marksOf mainNode)
    end.

(** *** Transactions *)

Inductive Step :=
| AddMarkStep (from to : Z) (m : Mark)
| RemoveMarkStep (from to : Z) (m : Mark)
| ReplaceStep (pos : Z) (attrs : Attrs).

(** A transaction the comment code builds: the document its steps have
    produced so far, the steps, and the stored marks it sets. *)
Record Transaction := mkTr {
  trDoc : Fragment;
  steps : list Step;
  trStoredMarks : option (option (list Mark))
}.

(** [state.tr] *)
Definition newTr (doc : Fragment) : Transaction := mkTr doc [] None.

(** The range [from, to) and the node of [size] at [pos] share a
    position. *)
Definition overlaps (from to pos size : Z) : bool :=
  Z.max from pos <? Z.min to (pos + size).

Definition textPiece (t : string) (ms : list Mark) : list Node :=
  if JS.truthy t then [Text t ms] else [].

Definition mapLoop (visit : Node -> Z -> list Node) : list Node -> Z -> list Node :=
  fix loop (cs : list Node) (pos : Z) : list Node :=
    match cs with
    | [] => []
    | c :: rest => visit c pos ++ loop rest (pos + nodeSize c)
    end.

(** The document after a mark step over [from, to): [g] rewrites the
    marks of the inline nodes in the range, and a text node that the
    range covers in part is split.  [atoms] restricts the step to text
    and leaf nodes, as [AddMarkStep] does; [RemoveMarkStep] rewrites
    every inline node.  Nodes whose marks [g] leaves alone are kept as
    they are.  The library then joins neighbouring text nodes that have
    the same marks; the split pieces stay apart here. *)
Fixpoint mapMarksNode (atoms : bool) (g : list Mark -> list Mark) (from to : Z)
    (n : Node) (pos : Z) : list Node :=
  match n with
  | Text t ms =>
      let s := Z.max from pos in
      let e := Z.min to (pos + JS.length t) in
      if (overlaps from to pos (JS.length t) && negb (sameMarks (g ms) ms))%bool then
        textPiece (JS.slice t 0 (s - pos)) ms
        ++ [Text (JS.slice t (s - pos) (e - pos)) (g ms)]
        ++ textPiece (JS.slice t (e - pos) (JS.length t)) ms
      else [n]
  | Leaf ty a ms =>
      if (isInline n && overlaps from to pos 1)%bool then [Leaf ty a (g ms)] else [n]
  | Inner ty a ms c =>
      let ms' :=
        if (negb atoms && isInline n && overlaps from to pos (nodeSize n))%bool
        then g ms else ms in
      [Inner ty a ms' (mapLoop (mapMarksNode atoms g from to) c (pos + 1))]
  end.

Definition mapMarks (atoms : bool) (g : list Mark -> list Mark) (from to : Z)
    (doc : Fragment) : Fragment :=
  mapLoop (mapMarksNode atoms g from to) doc 0.

(** [tr.addMark(from, to, mark)]: a step for every inline node of the
    range that lacks the mark (every parent is taken to allow it; the
    library merges the steps of adjacent nodes, and the code only tests
    whether there is a step at all). *)
Definition addMark (excl : bool) (tr : Transaction) (from to : Z) (m : Mark) : Transaction :=
  let new :=
    flat_map
      (fun call : Node * Z =>
         let '(node, pos) := call in
         if (isInline node && negb (isInSet m (marksOf node)))%bool
         then [AddMarkStep (Z.max pos from) (Z.min (pos + nodeSize node) to) m]
         else [])
      (nodesBetween (trDoc tr) from to) in
  mkTr (mapMarks true (addToSet excl m) from to (trDoc tr))
       (steps tr ++ new) (trStoredMarks tr).

(** [tr.removeMark(from, to, mark)]: a step for every inline node of
    the range that carries the mark. *)
Definition removeMark (tr : Transaction) (from to : Z) (m : Mark) : Transaction :=
  let new :=
    flat_map
      (fun call : Node * Z =>
         let '(node, pos) := call in
         if (isInline node && isInSet m (marksOf node))%bool
         then [RemoveMarkStep (Z.max pos from) (Z.min (pos + nodeSize node) to) m]
         else [])
      (nodesBetween (trDoc tr) from to) in
  mkTr (mapMarks false (removeFromSet m) from to (trDoc tr))
       (steps tr ++ new) (trStoredMarks tr).

Fixpoint setAttrsNode (target : Z) (attrs : Attrs) (n : Node) (pos : Z) : list Node :=
  match n with
  | Text _ _ => [n]
  | Leaf ty a ms => if pos =? target then [Leaf ty attrs ms] else [n]
  | Inner ty a ms c =>
      if pos =? target then [Inner ty attrs ms c]
      else [Inner ty a ms (mapLoop (setAttrsNode target attrs) c (pos + 1))]
  end.

(** [tr.setNodeMarkup(pos, null, attrs)] for a position where a node
    other than a text node starts: the node keeps its type, marks and
    content and gets the attributes. *)
Definition setNodeMarkup (tr : Transaction) (pos : Z) (attrs : Attrs) : Transaction :=
  mkTr (mapLoop (setAttrsNode pos attrs) (trDoc tr) 0)
       (steps tr ++ [ReplaceStep pos attrs]) (trStoredMarks tr).

(** [tr.setStoredMarks(marks)] *)
Definition setStoredMarks (tr : Transaction) (marks : option (list Mark)) : Transaction :=
  mkTr (trDoc tr) (steps tr) (Some marks).

(** *** Editor state *)

Inductive Selection :=
| TextSelection (from to : Z)
| NodeSelection (from : Z) (node : Node)
| CellSelection (from to : Z) (cells : list (Node * Z)).

Definition selFrom (sel : Selection) : Z :=
  match sel with
  | TextSelection f _ => f
  | NodeSelection f _ => f
  | CellSelection f _ _ => f
  end.

Definition selTo (sel : Selection) : Z :=
  match sel with
  | TextSelection _ t => t
  | NodeSelection f n => f + nodeSize n
  | CellSelection _ t _ => t
  end.

(** The schema as far as the comment code depends on it: whether
    [schema.marks.comment] exists, whether comment marks exclude each
    other, and whether they are inclusive. *)
Record Schema := mkSchema {
  hasCommentMark : bool;
  commentExcludes : bool;
  commentInclusive : bool
}.

Record EditorState := mkState {
  doc : Fragment;
  selection : Selection;
  storedMarks : option (list Mark);
  schema : Schema
}.

(** The state a transaction of mark and attribute steps yields by
    itself: the document of the transaction, and the stored marks, which
    steps drop unless the transaction sets them afterwards.  What the
    plugin appends to a dispatched transaction comes on top of it, in
    the plugin's [applyTransaction].  The selection is carried over as it is:
    a mark step moves no position.  (After the step of [setNodeMarkup]
    on a selected leaf the library selects anew next to that leaf; this
    is not modelled.) *)
Definition applyTr (state : EditorState) (tr : Transaction) : EditorState :=
  mkState (trDoc tr) (selection state)
          (match trStoredMarks tr, steps tr with
           | Some ms, _ => ms
           | None, [] => storedMarks state
           | None, _ :: _ => None
           end)
          (schema state).

(** A transaction the editor hands to the plugin: [tr.docChanged],
    [tr.getMeta('paste')] and, for every step, the ranges its step map
    reports as (oldStart, oldEnd, newStart, newEnd). *)
Record EditorTr := mkEditorTr {
  docChanged : bool;
  pasteMeta : bool;
  stepMaps : list (list (Z * Z * Z * Z))
}.

(** The ranges the step map of a step reports: a mark step maps no
    range; the step [setNodeMarkup] makes for a leaf node, as an image
    is, replaces the node by one of the same size. *)
Definition stepRanges (s : Step) : list (Z * Z * Z * Z) :=
  match s with
  | ReplaceStep pos _ => [(pos, pos + 1, pos, pos + 1)]
  | _ => []
  end.

(** A transaction of the comment code as the editor hands it to the
    plugins: [tr.docChanged] holds when it has a step, and the comment
    code sets no paste meta. *)
Definition asEditorTr (tr : Transaction) : EditorTr :=
  mkEditorTr (negb (Nat.eqb (List.length (steps tr)) 0)) false (map stepRanges (steps tr)).

End PM.

(* ================================================================== *)
(** ** comment-utils.js *)
(* ================================================================== *)

Module CommentUtils.
Import PM.

Record Span := mkSpan { from : Z; to : Z }.

(** The stored position context.  [blockIndex] is [None] when the field
    is [undefined]; the empty string stands for an absent text. *)
Record PositionContext := mkContext {
  blockIndex : option Z;
  offsetInBlock : option Z;
  textBefore : string;
  textAfter : string
}.

(** The count [doc.descendants] makes of the block nodes that start
    before [from]. *)
Definition countBlocksBefore (doc : Fragment) (from : Z) : Z :=
  fold_left
    (fun (acc : Z) (call : Node * Z) =>
       let '(node, pos) := call in
       if (isBlock node && (pos <? from))%bool then acc + 1 else acc)
    (descendants doc) 0.

(** [getPositionContext(state, from, to)] *)
Definition getPositionContext (doc : Fragment) (from to : Z) : PositionContext :=
  let '(blockIndex, currentBlockPos) :=
    fold_left
      (fun (acc : Z * Z) (call : Node * Z) =>
         let '(node, pos) := call in
         if (isBlock node && (pos <? from))%bool then (fst acc + 1, pos) else acc)
      (descendants doc) (0, 0) in
  let offsetInBlock := if currentBlockPos =? 0 then 0 else from - currentBlockPos in
  let contextRadius := 30 in
  let docText := textContent doc in
  let textBefore := JS.slice docText (Z.max 0 (from - contextRadius)) from in
  let textAfter := JS.slice docText to (Z.min (JS.length docText) (to + contextRadius)) in
  {| blockIndex := Some blockIndex;
     offsetInBlock := Some offsetInBlock;
     textBefore := JS.sliceFrom textBefore (- contextRadius);
     textAfter := JS.slice textAfter 0 contextRadius |}.

(** The [while (idx !== -1)] loop over one text node.  Every iteration
    moves [idx] forward, so [fuel] above the length of the text is never
    used up (lemma [matchLoop_fuel]). *)
Fixpoint matchLoop (fuel : nat) (text selectedText : string) (pos idx : Z)
    (matches : list Span) : list Span :=
  match fuel with
  | O => matches
  | S fuel' =>
      if idx =? -1 then matches
      else matchLoop fuel' text selectedText pos
             (JS.indexOf text selectedText (idx + 1))
             (matches ++ [ {| from := pos + idx;
                             to := pos + idx + JS.length selectedText |} ])
  end.

(** The [doc.descendants] pass that fills [matches]. *)
Definition collectMatches (doc : Fragment) (selectedText : string) : list Span :=
  fold_left
    (fun (matches : list Span) (call : Node * Z) =>
       let '(node, pos) := call in
       match node with
       | Text text _ =>
           if JS.truthy text
           then matchLoop (S (String.length text)) text selectedText pos
                  (JS.indexOf text selectedText 0) matches
           else matches
       | _ => matches
       end)
    (descendants doc) [].

Definition beforeScore (docText : string) (ctx : PositionContext) (m : Span) : Z :=
  if JS.truthy (textBefore ctx) then
    let actualBefore :=
      JS.slice docText (Z.max 0 (from m - JS.length (textBefore ctx))) (from m) in
    if String.eqb actualBefore (textBefore ctx) then 50
    else if JS.includes actualBefore (JS.sliceFrom (textBefore ctx) (-10)) then 20
    else 0
  else 0.

Definition afterScore (docText : string) (ctx : PositionContext) (m : Span) : Z :=
  if JS.truthy (textAfter ctx) then
    let actualAfter :=
      JS.slice docText (to m) (to m + JS.length (textAfter ctx)) in
    if String.eqb actualAfter (textAfter ctx) then 50
    else if JS.includes actualAfter (JS.slice (textAfter ctx) 0 10) then 20
    else 0
  else 0.

Definition blockScore (doc : Fragment) (ctx : PositionContext) (m : Span) : Z :=
  match blockIndex ctx with
  | Some stored =>
      let currentBlockIndex := countBlocksBefore doc (from m) in
      let blockDiff := Z.abs (currentBlockIndex - stored) in
      if blockDiff =? 0 then 30
      else if blockDiff <=? 2 then 15
      else 0
  | None => 0
  end.

(** The score one iteration of [matches.forEach] computes. *)
Definition score (doc : Fragment) (ctx : PositionContext) (m : Span) : Z :=
  beforeScore (textContent doc) ctx m
  + afterScore (textContent doc) ctx m
  + blockScore doc ctx m.

(** [matches.forEach] with the running [bestMatch] and [bestScore]. *)
Definition pickBest (doc : Fragment) (ctx : PositionContext)
    (first : Span) (matches : list Span) : Span * Z :=
  fold_left
    (fun (best : Span * Z) (m : Span) =>
       let s := score doc ctx m in
       if snd best <? s then (m, s) else best)
    matches (first, -1).

(** [findBestMatchPosition(state, selectedText, positionContext)];
    [state] is [None] when the caller passes no state, and the document
    is all the function reads of it. *)
Definition findBestMatchPosition (state : option Fragment) (selectedText : string)
    (positionContext : option PositionContext) : option Span :=
  match state with
  | None => None
  | Some doc =>
      if negb (JS.truthy selectedText) then None
      else
        match collectMatches doc selectedText with
        | [] => None
        | [m] => Some m
        | first :: rest =>
            match positionContext with
            | None => Some first
            | Some ctx => Some (fst (pickBest doc ctx first (first :: rest)))
            end
        end
  end.

(** A comment record.  [parentId] is [None] for [null], the mark of a
    root comment; [content] stands for the fields the anchoring code
    copies along without reading them. *)
Record Comment := mkComment {
  id : string;
  threadId : string;
  parentId : option string;
  content : string;
  createdAt : Z;
  resolved : bool;
  orphaned : bool;
  orphanedAt : option Z;
  selectedText : string;
  positionContext : option PositionContext
}.

(** The shared comments map: its entries in iteration order, one per
    key. *)
Definition CommentsMap := list (string * Comment).

Definition isNull (v : option string) : bool :=
  match v with None => true | Some _ => false end.

(** [threads.get(threadId).push(comment)], creating the array first when
    the thread is new. *)
Fixpoint pushTo (threads : list (string * list Comment)) (tid : string) (c : Comment)
    : list (string * list Comment) :=
  match threads with
  | [] => [(tid, [c])]
  | (k, cs) :: rest =>
      if String.eqb k tid then (k, cs ++ [c]) :: rest
      else (k, cs) :: pushTo rest tid c
  end.

Fixpoint insertByCreatedAt (c : Comment) (l : list Comment) : list Comment :=
  match l with
  | [] => [c]
  | x :: rest =>
      if createdAt c <=? createdAt x then c :: x :: rest
      else x :: insertByCreatedAt c rest
  end.

(** [comments.sort((a, b) => a.createdAt - b.createdAt)]: a stable sort. *)
Definition sortByCreatedAt (comments : list Comment) : list Comment :=
  fold_right insertByCreatedAt [] comments.

(** [groupCommentsByThread(commentsMap)]: the threads in the order their
    first comment is met. *)
Definition groupCommentsByThread (commentsMap : CommentsMap)
    : list (string * list Comment) :=
  let threads :=
    fold_left
      (fun threads (entry : string * Comment) =>
         let comment := snd entry in
         if JS.truthy (threadId comment)
         then pushTo threads (threadId comment) comment
         else threads)
      commentsMap [] in
  map (fun thread : string * list Comment => (fst thread, sortByCreatedAt (snd thread)))
      threads.

End CommentUtils.

(* ================================================================== *)
(** ** commentPlugin.js *)
(* ================================================================== *)

(** The plugin as of the later of the two revisions of the file in the
    sources (src/unnamed/part_004: the one that waits for the initial sync,
    restoration and paste handling).  [EarlierPlugin] below holds what
    differs in src/blocks/edit/prose/plugins/comments/commentPlugin.js.

    Positions passed to the library are taken to lie in the document they
    are used on; a call the library would answer with an exception is
    outside the model. *)
Module CommentPlugin.
Import PM CommentUtils.

Record PendingRange := mkPending { pendingFrom : Z; pendingTo : Z; pendingIsImage : bool }.

(** The module-level [pluginState] (timers left out). *)
Record PluginState := mkPlugin {
  commentsMap : option CommentsMap;
  activeThreadId : option string;
  pendingCommentRange : option PendingRange;
  initialSyncComplete : bool
}.

(** The events the plugin dispatches on [window]. *)
Inductive Event :=
| CommentsOrphaned (orphanedIds : list string).

(** What the plugin functions read and write: [pluginState], the state
    of [window.view] ([None] without a view) and the events dispatched
    so far, oldest first. *)
Record World := mkWorld {
  pluginState : PluginState;
  view : option EditorState;
  events : list Event
}.

(** [window.view.dispatch(tr)], as far as the transaction itself goes:
    the world records the state that [tr] yields from [state].  A
    statement [f w = dispatch w state tr] says that [f] dispatches the
    one transaction [tr]; the state the view has afterwards, with what
    the plugin's own [appendTransaction] adds to [tr], is
    [applyTransaction (pluginState w) state tr]. *)
Definition dispatch (w : World) (state : EditorState) (tr : Transaction) : World :=
  mkWorld (pluginState w) (Some (applyTr state tr)) (events w).

(** [set.add(x)] and [set.has(x)] on a set of thread ids kept in
    insertion order. *)
Definition setHas (ids : list (option string)) (x : option string) : bool :=
  existsb (eqId x) ids.

Definition setAdd (ids : list (option string)) (x : option string) : list (option string) :=
  if setHas ids x then ids else ids ++ [x].

(** [array.includes(x)] *)
Definition includes (ids : list string) (x : string) : bool := existsb (String.eqb x) ids.

(** [commentsMap.set(id, comment)] *)
Fixpoint mapSet (m : CommentsMap) (key : string) (c : Comment) : CommentsMap :=
  match m with
  | [] => [(key, c)]
  | (k, v) :: rest =>
      if String.eqb k key then (k, c) :: rest else (k, v) :: mapSet rest key c
  end.

(** [getThreadIdsWithMarks(state)] *)
Definition getThreadIdsWithMarks (state : EditorState) : list (option string) :=
  if negb (hasCommentMark (schema state)) then []
  else
    fold_left
      (fun (threadIds : list (option string)) (call : Node * Z) =>
         let node := fst call in
         let threadIds :=
           fold_left
             (fun ids mark => if isComment mark then setAdd ids (PM.threadId mark) else ids)
             (marksOf node) threadIds in
         if (isImage node && truthyId (commentThreadId (attrsOf node)))%bool
         then setAdd threadIds (commentThreadId (attrsOf node))
         else threadIds)
      (descendants (doc state)) [].

(** [findRootCommentEntry(threadId)]: the last matching entry wins. *)
Definition findRootCommentEntry (ps : PluginState) (tid : option string)
    : option (string * Comment) :=
  match commentsMap ps with
  | None => None
  | Some m =>
      fold_left
        (fun result (entry : string * Comment) =>
           if (eqId (Some (threadId (snd entry))) tid && isNull (parentId (snd entry)))%bool
           then Some entry else result)
        m None
  end.

(** [comments.find((c) => c.parentId === null)] *)
Definition rootComment (comments : list Comment) : option Comment :=
  find (fun c => isNull (parentId c)) comments.

(** [rootComment?.resolved] and [rootComment?.orphaned] as conditions. *)
Definition rootResolved (comments : list Comment) : bool :=
  match rootComment comments with Some r => resolved r | None => false end.

Definition rootOrphaned (comments : list Comment) : bool :=
  match rootComment comments with Some r => orphaned r | None => false end.

(** The [commentsMap.forEach] loops that rewrite, in place, the root
    comments of the threads in [ids]. *)
Definition rewriteRoots (ids : list string) (f : Comment -> Comment) (m : CommentsMap)
    : CommentsMap :=
  map (fun entry : string * Comment =>
         if (includes ids (threadId (snd entry)) && isNull (parentId (snd entry)))%bool
         then (fst entry, f (snd entry)) else entry)
      m.

Definition setOrphaned (flag : bool) (at_ : option Z) (c : Comment) : Comment :=
  mkComment (id c) (threadId c) (parentId c) (content c) (createdAt c) (resolved c)
            flag at_ (selectedText c) (positionContext c).

Definition setSelected (text : string) (ctx : option PositionContext) (c : Comment) : Comment :=
  mkComment (id c) (threadId c) (parentId c) (content c) (createdAt c) (resolved c)
            (orphaned c) (orphanedAt c) text ctx.

Definition setCommentsMap' (ps : PluginState) (m : CommentsMap) : PluginState :=
  mkPlugin (Some m) (activeThreadId ps) (pendingCommentRange ps) (initialSyncComplete ps).

Definition restoredIds (threadIdsWithMarks : list (option string))
    (threads : list (string * list Comment)) : list string :=
  fold_left
    (fun acc (thread : string * list Comment) =>
       if (rootOrphaned (snd thread) && setHas threadIdsWithMarks (Some (fst thread)))%bool
       then acc ++ [fst thread] else acc)
    threads [].

(** [restoreOrphanedComments(threadIdsWithMarks, threads)] *)
Definition restoreOrphanedComments (threadIdsWithMarks : list (option string))
    (threads : list (string * list Comment)) (w : World) : World :=
  match commentsMap (pluginState w) with
  | None => w
  | Some m =>
      if negb (initialSyncComplete (pluginState w)) then w
      else
        let ids := restoredIds threadIdsWithMarks threads in
        match ids with
        | [] => w
        | _ :: _ =>
            mkWorld (setCommentsMap' (pluginState w)
                       (rewriteRoots ids (setOrphaned false None) m))
                    (view w) (events w)
        end
  end.

Definition newlyOrphanedIds (threadIdsWithMarks : list (option string))
    (threads : list (string * list Comment)) : list string :=
  fold_left
    (fun acc (thread : string * list Comment) =>
       if (negb (setHas threadIdsWithMarks (Some (fst thread)))
           && negb (rootResolved (snd thread))
           && negb (rootOrphaned (snd thread)))%bool
       then acc ++ [fst thread] else acc)
    threads [].

(** [markOrphanedComments(state, threadIdsWithMarks, threads)]; [now] is
    what [Date.now()] returns. *)
Definition markOrphanedComments (now : Z) (threadIdsWithMarks : list (option string))
    (threads : list (string * list Comment)) (w : World) : World :=
  match commentsMap (pluginState w) with
  | None => w
  | Some m =>
      if negb (initialSyncComplete (pluginState w)) then w
      else
        let ids := newlyOrphanedIds threadIdsWithMarks threads in
        match ids with
        | [] => w
        | _ :: _ =>
            let m' := rewriteRoots ids (setOrphaned true (Some now)) m in
            let active :=
              match activeThreadId (pluginState w) with
              | Some a => if includes ids a then None else Some a
              | None => None
              end in
            let ps' := mkPlugin (Some m') active (pendingCommentRange (pluginState w))
                                (initialSyncComplete (pluginState w)) in
            let w' := mkWorld ps' (view w) (events w) in
            let w'' :=
              match view w' with
              | None => w'
              | Some viewState =>
                  match hasCommentMark (schema viewState), storedMarks viewState with
                  | true, Some stored =>
                      let orphanedMark m :=
                        (isComment m
                         && match PM.threadId m with
                            | Some t => includes ids t
                            | None => false
                            end)%bool in
                      if existsb orphanedMark stored then
                        let cleanMarks := filter (fun m => negb (orphanedMark m)) stored in
                        dispatch w' viewState
                          (setStoredMarks (newTr (doc viewState))
                             (match cleanMarks with [] => None | _ :: _ => Some cleanMarks end))
                      else w'
                  | _, _ => w'
                  end
              end in
            mkWorld (pluginState w'') (view w'') (events w'' ++ [CommentsOrphaned ids])
        end
  end.

Record MarkRange := mkRange { rangeFrom : Z; rangeTo : Z; rangeIsImage : bool }.

(** The [while (offset > 0)] loop of [findCommentMarkRange] that walks
    back over the preceding siblings.  Every iteration lowers [offset]
    by the size of a node that ends at it, so [fuel] of the parent
    offset is never used up. *)
Fixpoint walkBack (fuel : nat) (parent : Fragment) (tid : option string)
    (pos parentOffset offset from : Z) : Z :=
  match fuel with
  | O => from
  | S fuel' =>
      if 0 <? offset then
        match childBefore parent offset with
        | None => from
        | Some index =>
            match nth_error parent index with
            | None => from
            | Some prevNode =>
                if negb (isText prevNode) then from
                else if negb (existsb (fun m => (isComment m && eqId (PM.threadId m) tid)%bool)
                                      (marksOf prevNode)) then from
                else
                  let offset' := offset - nodeSize prevNode in
                  walkBack fuel' parent tid pos parentOffset offset'
                           (pos - (parentOffset - offset'))
            end
        end
      else from
  end.

(** [findCommentMarkRange(state, threadId)].  After the first hit the
    callback of [descendants] only returns [false], which is modelled
    by leaving [result] as it is. *)
Definition findCommentMarkRange (state : EditorState) (tid : option string)
    : option MarkRange :=
  if negb (hasCommentMark (schema state)) then None
  else
    let hasMark (n : Node) :=
      existsb (fun m => (isComment m && eqId (PM.threadId m) tid)%bool) (marksOf n) in
    fold_left
      (fun (result : option MarkRange) (call : Node * Z) =>
         let '(node, pos) := call in
         match result with
         | Some _ => result
         | None =>
             if (isImage node && eqId (commentThreadId (attrsOf node)) tid)%bool
             then Some (mkRange pos (pos + nodeSize node) true)
             else if (isText node && hasMark node)%bool then
               let from :=
                 match resolve (doc state) pos with
                 | Some rp =>
                     walkBack (Z.to_nat (parentOffset rp)) (parent rp) tid pos
                              (parentOffset rp) (parentOffset rp) pos
                 | None => pos
                 end in
               let to :=
                 fold_left
                   (fun (to : Z) (call2 : Node * Z) =>
                      let '(n, p) := call2 in
                      if p <? pos then to
                      else if negb (isText n) then to
                      else if hasMark n then p + nodeSize n
                      else to)
                   (nodesBetween (doc state) pos (fragSize (doc state)))
                   (pos + nodeSize node) in
               Some (mkRange from to false)
             else None
         end)
      (descendants (doc state)) None.

(** [updateCommentSelectedText(state, threadIdsWithMarks)] *)
Definition updateCommentSelectedText (state : EditorState)
    (threadIdsWithMarks : list (option string)) (w : World) : World :=
  match commentsMap (pluginState w) with
  | None => w
  | Some _ =>
      if negb (hasCommentMark (schema state)) then w
      else
        fold_left
          (fun (w : World) (tid : option string) =>
             match findCommentMarkRange state tid with
             | None => w
             | Some range =>
                 let '(currentText, currentContext) :=
                   if rangeIsImage range then
                     (match nodeAt (doc state) (rangeFrom range) with
                      | Some node =>
                          if truthyId (alt (attrsOf node))
                          then match alt (attrsOf node) with Some a => a | None => "[Image]" end
                          else "[Image]"
                      | None => "[Image]"
                      end, None)
                   else
                     (textBetween (doc state) (rangeFrom range) (rangeTo range)
                                  (String (ascii_of_nat 10) EmptyString),
                      Some (getPositionContext (doc state) (rangeFrom range) (rangeTo range))) in
                 match findRootCommentEntry (pluginState w) tid, commentsMap (pluginState w) with
                 | Some entry, Some m =>
                     if negb (String.eqb (selectedText (snd entry)) currentText) then
                       let updates :=
                         setSelected currentText
                           (match currentContext with
                            | Some ctx => Some ctx
                            | None => positionContext (snd entry)
                            end)
                           (snd entry) in
                       mkWorld (setCommentsMap' (pluginState w) (mapSet m (fst entry) updates))
                               (view w) (events w)
                     else w
                 | _, _ => w
                 end
             end)
          threadIdsWithMarks w
  end.

(** The bookkeeping [buildDecorations(state)] starts with: restoration,
    orphan detection and the refresh of the stored text. *)
Definition lifecyclePass (now : Z) (state : EditorState) (w : World) : World :=
  let threadIdsWithMarks := getThreadIdsWithMarks state in
  let threads :=
    match commentsMap (pluginState w) with
    | Some m => groupCommentsByThread m
    | None => []
    end in
  updateCommentSelectedText state threadIdsWithMarks
    (markOrphanedComments now threadIdsWithMarks threads
       (restoreOrphanedComments threadIdsWithMarks threads w)).

(** The loop of [recoverMissingMarks] over the threads: [hasRecoveries]
    and the transaction it builds. *)
Definition recoveryTransaction (state : EditorState) (m : CommentsMap)
    : bool * Transaction :=
  let threadIdsWithMarks := getThreadIdsWithMarks state in
  let threads := groupCommentsByThread m in
  fold_left
    (fun (acc : bool * Transaction) (thread : string * list Comment) =>
       let '(tid, comments) := thread in
       if setHas threadIdsWithMarks (Some tid) then acc
       else
         match rootComment comments with
         | None => acc
         | Some root =>
             if resolved root then acc
             else if (negb (JS.truthy (selectedText root))
                      || (JS.length (JS.trim (selectedText root)) =? 0))%bool then acc
             else
               match findBestMatchPosition (Some (doc state)) (selectedText root)
                                           (positionContext root) with
               | Some m =>
                   (true, addMark (commentExcludes (schema state)) (snd acc)
                                  (from m) (to m) (createComment tid))
               | None => acc
               end
         end)
    threads (false, newTr (doc state)).

(** [recoverMissingMarks()] *)
Definition recoverMissingMarks (w : World) : World :=
  match view w, commentsMap (pluginState w) with
  | Some state, Some m =>
      if negb (hasCommentMark (schema state)) then w
      else
        let '(hasRecoveries, tr) := recoveryTransaction state m in
        if (hasRecoveries && negb (Nat.eqb (List.length (steps tr)) 0))%bool
        then dispatch w state tr
        else w
  | _, _ => w
  end.

(** *** Applying a mark *)

(** [isOnlyWhitespace(text)] *)
Definition isOnlyWhitespace (text : string) : bool :=
  (negb (JS.truthy text) || JS.allWhiteSpace text)%bool.

(** [isImageSelection(state)] *)
Definition isImageSelection (state : EditorState) : bool :=
  match selection state with
  | NodeSelection _ node => isImage node
  | _ => false
  end.

Definition withThread (tid : string) (a : Attrs) : Attrs := mkAttrs (Some tid) (alt a).

(** The part of [applyCommentToImage] that goes by the selection. *)
Definition imageBySelection (tid : string) (state : EditorState) (w : World) : bool * World :=
  match selection state with
  | NodeSelection pos node =>
      if isImage node
      then (true, dispatch w state
                    (setNodeMarkup (newTr (doc state)) pos (withThread tid (attrsOf node))))
      else (false, w)
  | _ => (false, w)
  end.

(** [applyCommentToImage(threadId)] *)
Definition applyCommentToImage (tid : string) (w : World) : bool * World :=
  match view w with
  | None => (false, w)
  | Some state =>
      match pendingCommentRange (pluginState w) with
      | Some pending =>
          if pendingIsImage pending then
            match nodeAt (doc state) (pendingFrom pending) with
            | Some node =>
                if isImage node
                then (true, dispatch w state
                              (setNodeMarkup (newTr (doc state)) (pendingFrom pending)
                                             (withThread tid (attrsOf node))))
                else imageBySelection tid state w
            | None => imageBySelection tid state w
            end
          else imageBySelection tid state w
      | None => imageBySelection tid state w
      end
  end.

(** The [options] of [applyCommentMark]; the empty string stands for an
    absent [selectedText]. *)
Record MarkOptions := mkOptions {
  optSelectedText : string;
  optPositionContext : option PositionContext;
  optIsImage : bool
}.

Definition noOptions : MarkOptions := mkOptions EmptyString None false.

Definition contentOf (n : Node) : Fragment :=
  match n with
  | Inner _ _ _ c => c
  | _ => []
  end.

(** The body of [selection.forEachCell] for one cell. *)
Definition markCell (excl : bool) (tid : string) (tr : Transaction) (call : Node * Z)
    : Transaction :=
  let '(cell, pos) := call in
  let cellStart := pos + 1 in
  let cellEnd := pos + nodeSize cell - 1 in
  let tr := if cellStart <? cellEnd
            then addMark excl tr cellStart cellEnd (createComment tid) else tr in
  fold_left
    (fun (tr : Transaction) (inner : Node * Z) =>
       let '(node, nodePos) := inner in
       if isImage node
       then setNodeMarkup tr (pos + 1 + nodePos) (withThread tid (attrsOf node))
       else tr)
    (descLoop descNode (contentOf cell) 0) tr.

(** [applyCommentMark(threadId, options)]: the value returned and the
    world afterwards. *)
Definition applyCommentMark (tid : string) (options : MarkOptions) (w : World)
    : bool * World :=
  match view w with
  | None => (false, w)
  | Some state =>
      if (optIsImage options || isImageSelection state)%bool
      then applyCommentToImage tid w
      else if negb (hasCommentMark (schema state)) then (false, w)
      else
        let excl := commentExcludes (schema state) in
        let finish (tr : Transaction) : bool * World :=
          match steps tr with
          | [] => (false, w)
          | _ :: _ => (true, dispatch w state tr)
          end in
        match selection state with
        | CellSelection _ _ cells =>
            finish (fold_left (markCell excl tid) cells (newTr (doc state)))
        | _ =>
            if JS.truthy (optSelectedText options) then
              match findBestMatchPosition (Some (doc state)) (optSelectedText options)
                                          (optPositionContext options) with
              | None => (false, w)
              | Some m =>
                  finish (addMark excl (newTr (doc state)) (from m) (to m)
                                  (createComment tid))
              end
            else
              let from := selFrom (selection state) in
              let to := selTo (selection state) in
              if from =? to then (false, w)
              else
                let selectedText := textBetween (doc state) from to EmptyString in
                if isOnlyWhitespace selectedText then (false, w)
                else finish (addMark excl (newTr (doc state)) from to (createComment tid))
        end
  end.

(** *** Paste *)

(** [stripCommentMarksFromFragment(fragment, schema)], node by node;
    [hasComment] tells whether [schema.marks.comment] exists. *)
Fixpoint stripNode (hasComment : bool) (node : Node) : Node :=
  match node with
  | Text t ms =>
      if hasComment then Text t (filter (fun m => negb (isComment m)) ms) else node
  | Leaf ty a ms =>
      if (isImage node && truthyId (commentThreadId a))%bool
      then Leaf ty (mkAttrs None (alt a)) []
      else node
  | Inner ty a ms c =>
      if (isImage node && truthyId (commentThreadId a))%bool
      then Inner ty (mkAttrs None (alt a)) [] []
      else Inner ty a ms (fromArray (map (stripNode hasComment) c))
  end.

Definition stripCommentMarksFromFragment (fragment : Fragment) (sch : Schema) : Fragment :=
  fromArray (map (stripNode (hasCommentMark sch)) fragment).

Record Slice := mkSlice { sliceContent : Fragment; openStart : Z; openEnd : Z }.

(** The [transformPasted] prop of the plugin. *)
Definition transformPasted (slice : Slice) (state : EditorState) : Slice :=
  mkSlice (stripCommentMarksFromFragment (sliceContent slice) (schema state))
          (openStart slice) (openEnd slice).

(** *** Maintaining marks across a transaction *)

(** The set [validThreadIds]. *)
Definition validThreadIds (ps : PluginState) : list string :=
  match commentsMap ps with
  | None => []
  | Some m =>
      fold_left
        (fun (ids : list string) (entry : string * Comment) =>
           let tid := threadId (snd entry) in
           if JS.truthy tid then (if includes ids tid then ids else ids ++ [tid]) else ids)
        m []
  end.

(** [threadId && validThreadIds.has(threadId)] *)
Definition isValidThread (valid : list string) (tid : option string) : bool :=
  match tid with
  | Some t => (JS.truthy t && includes valid t)%bool
  | None => false
  end.

(** [fixTr], or [newState.tr] when there is none yet. *)
Definition orNew (fixTr : option Transaction) (newState : EditorState) : Transaction :=
  match fixTr with
  | Some tr => tr
  | None => newTr (doc newState)
  end.

(** The pass over [newState.doc] that removes the marks of unknown
    threads. *)
Definition removeGhostMarks (valid : list string) (newState : EditorState)
    : option Transaction :=
  fold_left
    (fun (fixTr : option Transaction) (call : Node * Z) =>
       let '(node, pos) := call in
       fold_left
         (fun (fixTr : option Transaction) (mark : Mark) =>
            if (isComment mark && negb (isValidThread valid (PM.threadId mark)))%bool
            then Some (removeMark (orNew fixTr newState) pos (pos + nodeSize node) mark)
            else fixTr)
         (marksOf node) fixTr)
    (descendants (doc newState)) None.

(** The callback of the two [nodesBetween] scans for a mark to extend. *)
Definition markOfTextNodes (valid : list string) (calls : list (Node * Z))
    : option Mark :=
  fold_left
    (fun (markToApply : option Mark) (call : Node * Z) =>
       match markToApply with
       | Some _ => markToApply
       | None =>
           if isText (fst call) then
             match find isComment (marksOf (fst call)) with
             | Some mark => if isValidThread valid (PM.threadId mark) then Some mark else None
             | None => None
             end
           else None
       end)
    calls None.

(** The mark to extend over a range that a step inserted. *)
Definition markToApply (valid : list string) (oldState : EditorState)
    (oldStart oldEnd : Z) : option Mark :=
  let m1 :=
    if 0 <? oldStart
    then markOfTextNodes valid (nodesBetween (doc oldState) (oldStart - 1) oldStart)
    else None in
  let m2 :=
    match m1 with
    | Some _ => m1
    | None =>
        if oldEnd <? fragSize (doc oldState)
        then markOfTextNodes valid (nodesBetween (doc oldState) oldEnd (oldEnd + 1))
        else None
    end in
  match m2 with
  | Some _ => m2
  | None =>
      if 0 <? oldStart then
        match resolve (doc oldState) oldStart with
        | Some rp =>
            match find isComment
                       (marksAtResolved (commentInclusive (schema oldState)) rp) with
            | Some mark => if isValidThread valid (PM.threadId mark) then Some mark else None
            | None => None
            end
        | None => None
        end
      else None
  end.

(** The [tr.steps.forEach] pass that extends marks over inserted text. *)
Definition propagateMarks (valid : list string) (tr : EditorTr)
    (oldState newState : EditorState) (fixTr : option Transaction) : option Transaction :=
  fold_left
    (fun (fixTr : option Transaction) (range : Z * Z * Z * Z) =>
       let '(oldStart, oldEnd, newStart, newEnd) := range in
       if newStart <? newEnd then
         match markToApply valid oldState oldStart oldEnd with
         | Some mark =>
             Some (addMark (commentExcludes (schema newState)) (orNew fixTr newState)
                           newStart newEnd mark)
         | None => fixTr
         end
       else fixTr)
    (List.concat (stepMaps tr)) fixTr.

(** [maintainCommentMarks(tr, oldState, newState)]; [None] is [null]. *)
Definition maintainCommentMarks (ps : PluginState) (tr : EditorTr)
    (oldState newState : EditorState) : option Transaction :=
  if negb (docChanged tr) then None
  else if negb (hasCommentMark (schema newState)) then None
  else
    let valid := validThreadIds ps in
    let fixTr := removeGhostMarks valid newState in
    if pasteMeta tr then fixTr
    else propagateMarks valid tr oldState newState fixTr.

(** The [appendTransaction] hook of the plugin. *)
Definition appendTransaction (ps : PluginState) (transactions : list EditorTr)
    (oldState newState : EditorState) : option Transaction :=
  if negb (existsb docChanged transactions) then None
  else
    fold_left
      (fun (found : option Transaction) (tr : EditorTr) =>
         match found with
         | Some _ => found
         | None =>
             match maintainCommentMarks ps tr oldState newState with
             | Some fixTr =>
                 match steps fixTr with
                 | [] => None
                 | _ :: _ => Some fixTr
                 end
             | None => None
             end
         end)
      transactions None.

(** [state.apply(tr)], the state that [view.dispatch(tr)] hands to the
    view, with the plugin installed: the transaction is applied, and
    then the transaction [appendTransaction] answers with, if any.  The
    library calls the hook once for a transaction and does not hand the
    plugin its own appended transaction again; the plugin is taken to be
    the only one that appends or filters transactions.  The hook reads
    of [ps] the thread ids of the records only, which the bookkeeping of
    [buildDecorations] on the new state does not change. *)
Definition applyTransaction (ps : PluginState) (state : EditorState) (tr : Transaction)
    : EditorState :=
  let newState := applyTr state tr in
  match appendTransaction ps [asEditorTr tr] state newState with
  | Some fixTr => applyTr newState fixTr
  | None => newState
  end.

End CommentPlugin.

(** What differs in src/blocks/edit/prose/plugins/comments/commentPlugin.js,
    the earlier revision: [applyCommentMark] takes no options and goes by
    the selection only.  [findCommentMarkRange] is the same in both. *)
Module EarlierPlugin.
Import PM CommentUtils CommentPlugin.

(** [applyCommentToImage(threadId)] *)
Definition applyCommentToImage (tid : string) (w : World) : bool * World :=
  match view w with
  | None => (false, w)
  | Some state => imageBySelection tid state w
  end.

(** [applyCommentMark(threadId)] *)
Definition applyCommentMark (tid : string) (w : World) : bool * World :=
  match view w with
  | None => (false, w)
  | Some state =>
      if isImageSelection state then applyCommentToImage tid w
      else
        let from := selFrom (selection state) in
        let to := selTo (selection state) in
        if from =? to then (false, w)
        else
          let selectedText := textBetween (doc state) from to EmptyString in
          if isOnlyWhitespace selectedText then (false, w)
          else if negb (hasCommentMark (schema state)) then (false, w)
          else
            (true, dispatch w state
                     (addMark (commentExcludes (schema state)) (newTr (doc state))
                              from to (createComment tid)))
  end.

(** [markStart] and [markEnd] of the earlier [maintainCommentMarks]: the
    least start and the greatest end of the text nodes that carry the
    mark of the thread; [None] while both are [null]. *)
Definition markBounds (tid : string) (d : Fragment) : option (Z * Z) :=
  fold_left
    (fun (acc : option (Z * Z)) (call : Node * Z) =>
       let '(node, pos) := call in
       if (isText node
           && existsb (fun m => (isComment m && eqId (PM.threadId m) (Some tid))%bool)
                      (marksOf node))%bool
       then
         match acc with
         | None => Some (pos, pos + nodeSize node)
         | Some (markStart, markEnd) =>
             Some (if pos <? markStart then pos else markStart,
                   if markEnd <? pos + nodeSize node then pos + nodeSize node else markEnd)
         end
       else acc)
    (descendants d) None.

(** The last pass of the earlier [maintainCommentMarks]: for every valid
    thread, the text nodes between its first and its last marked text
    that lack the mark get it.  [docToCheck] and [trToUse] are fixed
    before the pass. *)
Definition fillGaps (valid : list string) (newState : EditorState)
    (fixTr0 : option Transaction) : option Transaction :=
  let docToCheck := match fixTr0 with Some t => trDoc t | None => doc newState end in
  let trToUse := orNew fixTr0 newState in
  fold_left
    (fun (fixTr : option Transaction) (tid : string) =>
       match markBounds tid docToCheck with
       | Some (markStart, markEnd) =>
           fold_left
             (fun (fixTr : option Transaction) (call : Node * Z) =>
                let '(node, pos) := call in
                if (isText node
                    && negb (existsb
                               (fun m => (isComment m && eqId (PM.threadId m) (Some tid))%bool)
                               (marksOf node)))%bool
                then Some (addMark (commentExcludes (schema newState))
                                   (match fixTr with Some t => t | None => trToUse end)
                                   pos (pos + nodeSize node) (createComment tid))
                else fixTr)
             (nodesBetween docToCheck markStart markEnd) fixTr
       | None => fixTr
       end)
    valid fixTr0.

(** [maintainCommentMarks(tr, oldState, newState)] of the earlier
    revision: the removal of ghost marks and the propagation as in the
    later one, without the test for a paste, and then the pass that
    fills the gaps. *)
Definition maintainCommentMarks (ps : PluginState) (tr : EditorTr)
    (oldState newState : EditorState) : option Transaction :=
  if negb (docChanged tr) then None
  else if negb (hasCommentMark (schema newState)) then None
  else
    let valid := validThreadIds ps in
    fillGaps valid newState
      (propagateMarks valid tr oldState newState (removeGhostMarks valid newState)).

(** The [appendTransaction] hook of the earlier revision. *)
Definition appendTransaction (ps : PluginState) (transactions : list EditorTr)
    (oldState newState : EditorState) : option Transaction :=
  if negb (existsb docChanged transactions) then None
  else
    fold_left
      (fun (found : option Transaction) (tr : EditorTr) =>
         match found with
         | Some _ => found
         | None =>
             match maintainCommentMarks ps tr oldState newState with
             | Some fixTr =>
                 match steps fixTr with
                 | [] => None
                 | _ :: _ => Some fixTr
                 end
             | None => None
             end
         end)
      transactions None.

(** [state.apply(tr)] with the earlier plugin installed, as
    [CommentPlugin.applyTransaction] for the later one. *)
Definition applyTransaction (ps : PluginState) (state : EditorState) (tr : Transaction)
    : EditorState :=
  let newState := applyTr state tr in
  match appendTransaction ps [asEditorTr tr] state newState with
  | Some fixTr => applyTr newState fixTr
  | None => newState
  end.

End EarlierPlugin.

(* ================================================================== *)
(** ** The words of the specification *)
(* ================================================================== *)

(** Definitions that follow the specification rather than the code; the
    theorems below compare the embedded functions with them. *)
Module SpecWords.

(** The indices, counted from [i], at which [t] occurs in [s] as a
    contiguous run of characters: every index, in increasing order. *)
Fixpoint occs (t s : string) (i : nat) : list nat :=
  (if String.prefix t s then [i] else []) ++
  match s with
  | EmptyString => []
  | String _ s' => occs t s' (S i)
  end.

Definition occurrencesIn (text t : string) : list nat := occs t text 0.

(** The span of the occurrence at index [i] of the text node at [pos]. *)
Definition spanAt (pos : Z) (t : string) (i : nat) : CommentUtils.Span :=
  CommentUtils.mkSpan (pos + Z.of_nat i) (pos + Z.of_nat i + JS.length t).

(** The occurrences inside one visited node: none unless it is a text
    node. *)
Definition textMatches (t : string) (call : PM.Node * Z) : list CommentUtils.Span :=
  match fst call with
  | PM.Text text _ => map (spanAt (snd call) t) (occurrencesIn text t)
  | _ => []
  end.

(** Every occurrence of [t] inside the text nodes of the document, node
    after node in document order. *)
Definition allOccurrences (doc : PM.Fragment) (t : string) : list CommentUtils.Span :=
  flat_map (textMatches t) (PM.descendants doc).

(** The span [m] is an occurrence of [t] inside one text node of the
    document: the text of the node is [a ++ t ++ b] and [m] starts after
    [a]. *)
Definition occursInNode (doc : PM.Fragment) (t : string) (m : CommentUtils.Span) : Prop :=
  exists text ms pos a b,
    In (PM.Text text ms, pos) (PM.descendants doc)
    /\ text = String.append a (String.append t b)
    /\ CommentUtils.from m = pos + JS.length a
    /\ CommentUtils.to m = CommentUtils.from m + JS.length t.

(** The flattened text of the document that precedes position [pos],
    and the one that follows it. *)
Definition textBeforePos (doc : PM.Fragment) (pos : Z) : string :=
  PM.textBetween doc 0 pos EmptyString.

Definition textFromPos (doc : PM.Fragment) (pos : Z) : string :=
  PM.textBetween doc pos (PM.fragSize doc) EmptyString.

(** The points of the specification for the text around an occurrence:
    the actual preceding text is the text of the document right before
    the occurrence, as long as the stored [textBefore] (shorter at the
    start of the document); the actual following text is the text right
    after it, as long as the stored [textAfter]. *)
Definition specBeforeScore (doc : PM.Fragment) (ctx : CommentUtils.PositionContext)
    (m : CommentUtils.Span) : Z :=
  let before := CommentUtils.textBefore ctx in
  if JS.truthy before then
    let actual := JS.sliceFrom (textBeforePos doc (CommentUtils.from m)) (- JS.length before) in
    if String.eqb actual before then 50
    else if JS.includes actual (JS.sliceFrom before (-10)) then 20
    else 0
  else 0.

Definition specAfterScore (doc : PM.Fragment) (ctx : CommentUtils.PositionContext)
    (m : CommentUtils.Span) : Z :=
  let after := CommentUtils.textAfter ctx in
  if JS.truthy after then
    let actual := JS.slice (textFromPos doc (CommentUtils.to m)) 0 (JS.length after) in
    if String.eqb actual after then 50
    else if JS.includes actual (JS.slice after 0 10) then 20
    else 0
  else 0.

(** The score of the specification: the two text signals and the block
    signal. *)
Definition specScore (doc : PM.Fragment) (ctx : CommentUtils.PositionContext)
    (m : CommentUtils.Span) : Z :=
  specBeforeScore doc ctx m + specAfterScore doc ctx m + CommentUtils.blockScore doc ctx m.

(** The comments of thread [tid], in the order of the map. *)
Definition commentsOf (m : CommentUtils.CommentsMap) (tid : string)
    : list CommentUtils.Comment :=
  filter (fun c => String.eqb (CommentUtils.threadId c) tid) (map snd m).

Definition addKey (keys : list string) (tid : string) : list string :=
  if existsb (String.eqb tid) keys then keys else keys ++ [tid].

(** The thread ids of the map, each once, in the order they first occur. *)
Definition threadKeys (m : CommentUtils.CommentsMap) : list string :=
  fold_left
    (fun keys (entry : string * CommentUtils.Comment) =>
       if JS.truthy (CommentUtils.threadId (snd entry))
       then addKey keys (CommentUtils.threadId (snd entry)) else keys)
    m [].

(** Text and leaf nodes. *)
Definition isAtom (n : PM.Node) : bool :=
  match n with PM.Inner _ _ _ _ => false | _ => true end.

(** The nodes a mark step rewrites where it reaches them: the inline
    nodes, and only the atoms among them when the step adds a mark. *)
Definition affected (atoms : bool) (n : PM.Node) : bool :=
  (PM.isInline n && (negb atoms || isAtom n))%bool.

(** How a node [new] of the document after a mark step over [from, to)
    comes from a node [orig] of the document before it: it lies inside
    [orig], is of the same kind, and has the marks of [orig], rewritten
    by [g] exactly when the step reaches it; a text the step reaches has
    been cut to the range, unless [g] leaves the marks as they are. *)
Definition derives (atoms : bool) (g : list PM.Mark -> list PM.Mark) (from to : Z)
    (orig new : PM.Node * Z) : Prop :=
  snd orig <= snd new
  /\ snd new + PM.nodeSize (fst new) <= snd orig + PM.nodeSize (fst orig)
  /\ PM.isText (fst new) = PM.isText (fst orig)
  /\ PM.isBlock (fst new) = PM.isBlock (fst orig)
  /\ isAtom (fst new) = isAtom (fst orig)
  /\ PM.typeName (fst new) = PM.typeName (fst orig)
  /\ PM.attrsOf (fst new) = PM.attrsOf (fst orig)
  /\ (PM.marksOf (fst new) = PM.marksOf (fst orig)
      \/ PM.marksOf (fst new) = g (PM.marksOf (fst orig)))
  /\ (affected atoms (fst orig) = true ->
      PM.overlaps from to (snd new) (PM.nodeSize (fst new)) = true ->
      PM.marksOf (fst new) = g (PM.marksOf (fst orig)))
  /\ (affected atoms (fst orig) = false \/
      PM.overlaps from to (snd new) (PM.nodeSize (fst new)) = false ->
      PM.marksOf (fst new) = PM.marksOf (fst orig))
  /\ (0 < PM.nodeSize (fst orig) -> 0 < PM.nodeSize (fst new))
  /\ (PM.isText (fst new) = true ->
      PM.overlaps from to (snd new) (PM.nodeSize (fst new)) = true ->
      (from <= snd new /\ snd new + PM.nodeSize (fst new) <= to)
      \/ PM.marksOf (fst orig) = g (PM.marksOf (fst orig))).

(** A comment mark whose thread is not among the [valid] ones. *)
Definition isGhost (valid : list string) (m : PM.Mark) : bool :=
  (PM.isComment m && negb (CommentPlugin.isValidThread valid (PM.threadId m)))%bool.

(** No inline node of the document carries the mark of an unknown
    thread. *)
Definition ghostFree (valid : list string) (d : PM.Fragment) : Prop :=
  forall n p m,
    In (n, p) (PM.descendants d) -> PM.isInline n = true -> In m (PM.marksOf n) ->
    isGhost valid m = false.

(** No text node of the document is empty, as the library has it. *)
Definition noEmptyText (d : PM.Fragment) : Prop :=
  forall n p, In (n, p) (PM.descendants d) -> PM.isText n = true -> 0 < PM.nodeSize n.

(** The property [P] holds of a node and of all nodes below it. *)
Fixpoint allNodes (P : PM.Node -> bool) (n : PM.Node) : bool :=
  (P n && match n with
          | PM.Inner _ _ _ c => forallb (allNodes P) c
          | _ => true
          end)%bool.

(** A node free of comment annotations of the two kinds the paste
    handler names: no comment mark on a text node, no thread id on an
    image. *)
Definition unannotated (n : PM.Node) : bool :=
  (match n with
   | PM.Text _ ms => forallb (fun m => negb (PM.isComment m)) ms
   | _ => true
   end
   && negb (PM.isImage n && truthyId (PM.commentThreadId (PM.attrsOf n))))%bool.

(** No node at all carries a comment mark. *)
Definition unmarked (n : PM.Node) : bool :=
  forallb (fun m => negb (PM.isComment m)) (PM.marksOf n).

(** Two spans share no position. *)
Definition disjointSpans (a b : CommentUtils.Span) : Prop :=
  CommentUtils.to a <= CommentUtils.from b \/ CommentUtils.to b <= CommentUtils.from a.

(** The thread id is new to the document: no mark and no image names
    it. *)
Definition freshThread (tid : string) (d : PM.Fragment) : Prop :=
  forall n p,
    In (n, p) (PM.descendants d) ->
    existsb (fun m => (PM.isComment m && eqId (PM.threadId m) (Some tid))%bool) (PM.marksOf n)
    = false
    /\ (PM.isImage n && eqId (PM.commentThreadId (PM.attrsOf n)) (Some tid))%bool = false.

(** The record [c'] is the record [c] with [orphaned] set to [flag] and
    [orphanedAt] to [at_], field by field. *)
Definition withOrphan (flag : bool) (at_ : option Z) (c c' : CommentUtils.Comment) : Prop :=
  CommentUtils.orphaned c' = flag
  /\ CommentUtils.orphanedAt c' = at_
  /\ CommentUtils.id c' = CommentUtils.id c
  /\ CommentUtils.threadId c' = CommentUtils.threadId c
  /\ CommentUtils.parentId c' = CommentUtils.parentId c
  /\ CommentUtils.content c' = CommentUtils.content c
  /\ CommentUtils.createdAt c' = CommentUtils.createdAt c
  /\ CommentUtils.resolved c' = CommentUtils.resolved c
  /\ CommentUtils.selectedText c' = CommentUtils.selectedText c
  /\ CommentUtils.positionContext c' = CommentUtils.positionContext c.

End SpecWords.

(* ================================================================== *)
(** ** Scenarios *)
(* ================================================================== *)

(** The documents and stores the examples below run the code on. *)
Module Scenario.
Import PM CommentUtils CommentPlugin.

Definition paragraph : NodeType := mkType "paragraph" true true.
Definition image : NodeType := mkType "image" false false.

(** The scenario of the specification: the text node starts at
    position 0, so that the first "quick fox" spans positions 4 to 13. *)
Definition foxText : string := "The quick fox jumps. The quick fox runs.".
Definition foxDoc : Fragment := [Text foxText []].
Definition foxCtx : PositionContext := mkContext None None "The " " jumps".

(** The same text inside a paragraph: it starts at position 1. *)
Definition foxPara : Fragment := [Inner paragraph noAttrs [] [Text foxText []]].

Definition aaaDoc : Fragment := [Text "aaa" []].

(** The two sentences the other way round, inside a paragraph: the
    "quick fox" that is followed by " jumps" is the second one. *)
Definition runsFirstText : string := "The quick fox runs. The quick fox jumps.".
Definition runsFirstPara : Fragment := [Inner paragraph noAttrs [] [Text runsFirstText []]].

(** "quick fox" with "ck" in bold: the word "quick" runs across three
    text nodes. *)
Definition strong : Mark := mkMark "strong" None.
Definition splitQuick : Fragment :=
  [Inner paragraph noAttrs [] [Text "qui" []; Text "ck" [strong]; Text " fox" []]].

Definition plainSchema : Schema := mkSchema true true true.

(** A root comment of thread [tid] on the text [text], and a reply. *)
Definition rootOf (tid text : string) (at_ : Z) : Comment :=
  mkComment tid tid None "root" at_ false false None text None.

Definition replyTo (rid tid : string) (at_ : Z) : Comment :=
  mkComment rid tid (Some tid) "reply" at_ false false None EmptyString None.

Definition worldOf (m : CommentsMap) (state : EditorState) : World :=
  mkWorld (mkPlugin (Some m) None None true) (Some state) [].

(** A thread whose root comment is gone: only the reply "r1" to the
    deleted comment "t1" is left in the store. *)
Definition rootlessStore : CommentsMap := [("r1", replyTo "r1" "t1" 20)].
Definition unmarkedState : EditorState :=
  mkState foxPara (TextSelection 1 1) None plainSchema.

(** One anchored thread, one thread whose text is gone, one resolved. *)
Definition markedPara : Fragment :=
  [Inner paragraph noAttrs []
     [Text "The " []; Text "quick fox" [createComment "t1"]; Text " jumps." []]].
Definition markedState : EditorState :=
  mkState markedPara (TextSelection 1 1) None plainSchema.
Definition threeThreads : CommentsMap :=
  [("t1", rootOf "t1" "quick fox" 10);
   ("t2", rootOf "t2" "lazy dog" 11);
   ("r2", replyTo "r2" "t2" 12);
   ("t3", mkComment "t3" "t3" None "root" 13 true false None "jumps" None)].

(** A paragraph with an inline image between two words. *)
Definition picture : Node := Leaf image (mkAttrs None (Some "a fox")) [].
Definition picturePara : Fragment :=
  [Inner paragraph noAttrs [] [Text "The fox " []; picture; Text " runs" []]].
(** The image node is selected (it sits at position 9). *)
Definition pictureSelected : EditorState :=
  mkState picturePara (NodeSelection 9 picture) None plainSchema.

(** A commented sentence with an image inside: the mark sits on the two
    texts and on the image, as [addMark] over the sentence leaves it. *)
Definition commentedPicture : Node :=
  Leaf image (mkAttrs None (Some "a fox")) [createComment "t1"].
Definition copiedSlice : Fragment :=
  [Inner paragraph noAttrs []
     [Text "The fox " [createComment "t1"]; commentedPicture;
      Text " runs" [createComment "t1"]]].

(** An image whose attribute names a thread that is not in the store. *)
Definition ghostPicture : Node := Leaf image (mkAttrs (Some "gone") (Some "a fox")) [].
Definition ghostPictureState : EditorState :=
  mkState [Inner paragraph noAttrs [] [Text "The fox " []; ghostPicture]]
          (TextSelection 1 1) None plainSchema.
Definition typing : EditorTr := mkEditorTr true false [[(1, 1, 1, 2)]].

(** Two spaces between two words, selected. *)
Definition spacesState : EditorState :=
  mkState [Inner paragraph noAttrs [] [Text "a  b" []]] (TextSelection 2 4) None plainSchema.

(** The whole marked text is selected. *)
Definition markedSelected : EditorState :=
  mkState markedPara (TextSelection 5 14) None plainSchema.


(** The first "quick fox" selected in the paragraph without marks. *)
Definition foxSelected : EditorState :=
  mkState foxPara (TextSelection 5 14) None plainSchema.


(** A schema whose comment mark does not exclude other comment marks. *)
Definition sharingSchema : Schema := mkSchema true false true.


(** The text "bb" selected between two texts of thread "t1": exclusive
    comment marks. *)
Definition gapPara : Fragment :=
  [Inner paragraph noAttrs []
     [Text "aa" [createComment "t1"]; Text "bb" []; Text "cc" [createComment "t1"]]].
Definition gapSelected : EditorState :=
  mkState gapPara (TextSelection 3 5) None plainSchema.
(** The same with comment marks that do not exclude each other. *)
Definition gapSelectedSharing : EditorState :=
  mkState gapPara (TextSelection 3 5) None sharingSchema.
Definition twoThreads : CommentsMap :=
  [("t1", rootOf "t1" "aa" 10); ("t9", rootOf "t9" "bb" 11)].

End Scenario.

(* ================================================================== *)
(** ** Notions the proofs use *)
(* ================================================================== *)

Module Notions.
Import PM CommentUtils CommentPlugin SpecWords.

(** The end of a call's node. *)
Definition callEnd (call : Node * Z) : Z := snd call + nodeSize (fst call).

(** Every node a traversal visits lies inside the traversed range. *)
Definition within (lo hi : Z) (call : Node * Z) : Prop :=
  lo <= snd call /\ callEnd call <= hi.

(** A text node visited earlier ends before a text node visited later
    starts. *)
Definition textBefore2 (x y : Node * Z) : Prop :=
  isText (fst x) = true -> isText (fst y) = true -> callEnd x <= snd y.

(** A traversal stays inside its range and meets the text nodes in the
    order of their positions. *)
Definition ordered (lo hi : Z) (calls : list (Node * Z)) : Prop :=
  Forall (within lo hi) calls /\ ForallOrdPairs textBefore2 calls.

(** What [bestMatch] and [bestScore] hold after the occurrences [done]
    have been scored. *)
Definition bestOf (doc : Fragment) (ctx : PositionContext) (done : list Span)
    (best : Span * Z) : Prop :=
  (done = [] /\ snd best = -1)
  \/ (snd best = score doc ctx (fst best)
      /\ exists l1 l2, done = l1 ++ fst best :: l2
           /\ (forall m, In m l1 -> score doc ctx m < score doc ctx (fst best))
           /\ (forall m, In m l2 -> score doc ctx m <= score doc ctx (fst best))).

(** The pairs of a visited node and one of its marks, in the order
    [removeGhostMarks] meets them. *)
Definition markedCalls (d : Fragment) : list ((Node * Z) * Mark) :=
  flat_map (fun call : Node * Z => map (fun m => (call, m)) (marksOf (fst call))) (descendants d).

(** What [removeGhostMarks] does for one node and one of its marks. *)
Definition ghostStep (valid : list string) (newState : EditorState)
    (fixTr : option Transaction) (x : (Node * Z) * Mark) : option Transaction :=
  if isGhost valid (snd x)
  then Some (removeMark (orNew fixTr newState) (snd (fst x))
                        (snd (fst x) + nodeSize (fst (fst x))) (snd x))
  else fixTr.

(** What holds of the document [d] of the corrective transaction after
    the pairs [done] of the document [doc0] have been dealt with: every
    inline node of [d] lies inside an inline node of [doc0], has no other
    marks than that node, and has lost the ghost marks among [done]. *)
Definition ghostInv (valid : list string) (doc0 : Fragment)
    (done : list ((Node * Z) * Mark)) (d : Fragment) : Prop :=
  forall new,
    In new (descendants d) -> isInline (fst new) = true ->
    0 < nodeSize (fst new)
    /\ exists orig,
         In orig (descendants doc0)
         /\ isInline (fst orig) = true
         /\ snd orig <= snd new
         /\ snd new + nodeSize (fst new) <= snd orig + nodeSize (fst orig)
         /\ forall m, In m (marksOf (fst new)) ->
                      In m (marksOf (fst orig))
                      /\ (isGhost valid m = true -> ~ In (orig, m) done).

(** A step that adds or removes a mark. *)
Definition markStep (step : Step) : Prop :=
  (exists f t m, step = RemoveMarkStep f t m) \/ (exists f t m, step = AddMarkStep f t m).

(** The transaction both revisions of [applyCommentMark] build for a
    range. *)
Definition markRange (state : EditorState) (tid : string) (from to : Z) : Transaction :=
  addMark (commentExcludes (schema state)) (newTr (doc state)) from to (createComment tid).

(** The tokens of a text, and of a node, position by position: a
    character of a text, or the token that opens or closes a node or
    stands for a leaf. *)
Fixpoint strTokens (s : string) : list (option ascii) :=
  match s with
  | EmptyString => []
  | String c s' => Some c :: strTokens s'
  end.

Fixpoint tokens (n : Node) : list (option ascii) :=
  match n with
  | Text t _ => strTokens t
  | Leaf _ _ _ => [None]
  | Inner _ _ _ c => None :: flat_map tokens c ++ [None]
  end.

Definition fragTokens (c : Fragment) : list (option ascii) := flat_map tokens c.

(** The characters among the tokens at the positions from [a] up to [b];
    the first token is at position [pos]. *)
Fixpoint charsBetween (a b pos : Z) (toks : list (option ascii)) : string :=
  match toks with
  | [] => EmptyString
  | Some c :: rest =>
      if ((a <=? pos) && (pos <? b))%bool
      then String c (charsBetween a b (pos + 1) rest)
      else charsBetween a b (pos + 1) rest
  | None :: rest => charsBetween a b (pos + 1) rest
  end.

(** The test of [nodesBetween] for a node, in positions of the document. *)
Definition inRange (a b : Z) (call : Node * Z) : bool :=
  ((a <? snd call + nodeSize (fst call)) && (snd call <? b))%bool.

(** What [textBetween] takes from a visited node. *)
Definition piece (a b : Z) (call : Node * Z) : string :=
  match fst call with
  | Text t _ => JS.slice t (Z.max a (snd call) - snd call) (b - snd call)
  | _ => EmptyString
  end.

Definition joinStrings (l : list string) : string := fold_right String.append EmptyString l.

(** The test of [findCommentMarkRange] for the mark of a thread. *)
Definition hasMarkOf (tid : string) (n : Node) : bool :=
  existsb (fun m => (isComment m && eqId (PM.threadId m) (Some tid))%bool) (marksOf n).

(** The start [findCommentMarkRange] computes for the marked text at
    [pos], and the end it computes by its scan of the nodes after it. *)
Definition walkFrom (state : EditorState) (tid : option string) (pos : Z) : Z :=
  match resolve (doc state) pos with
  | Some rp =>
      walkBack (Z.to_nat (parentOffset rp)) (parent rp) tid pos
               (parentOffset rp) (parentOffset rp) pos
  | None => pos
  end.

Definition scanStep (tid : option string) (pos to : Z) (call2 : Node * Z) : Z :=
  let '(n, p) := call2 in
  if p <? pos then to
  else if negb (isText n) then to
  else if existsb (fun m => (isComment m && eqId (PM.threadId m) tid)%bool) (marksOf n)
       then p + nodeSize n
       else to.

Definition scanTo (state : EditorState) (tid : option string) (node : Node) (pos : Z) : Z :=
  fold_left (scanStep tid pos) (nodesBetween (doc state) pos (fragSize (doc state)))
            (pos + nodeSize node).

(** A text node with the mark of the thread. *)
Definition markedText (tid : string) (call : Node * Z) : bool :=
  (isText (fst call) && hasMarkOf tid (fst call))%bool.

End Notions.

(* ================================================================== *)
(** ** comment-utils.js: reactions and root comments *)
(* ================================================================== *)

(** The reaction helpers of comment-utils.js.  [comment.reactions] is an
    object from an emoji to the array of the users who reacted with it;
    it is modelled by its entries in the order of [Object.entries], every
    key once.  (JavaScript lists keys that are array indices first; an
    emoji is none.) *)
Module Helpers.

(** One element of such an array: [{ userId, name }]. *)
Record Reaction := mkReaction { userId : string; userName : string }.

(** The [user] argument: [user.id] and [user.name]. *)
Record User := mkUser { id : string; name : string }.

Definition ReactionsObject := list (string * list Reaction).

(** A comment with its [reactions] field, [None] when the field is
    absent; [comment] holds the other fields, which the helpers copy. *)
Record Reacted := mkReacted {
  comment : CommentUtils.Comment;
  reactions : option ReactionsObject
}.

(** [obj[key]] *)
Fixpoint get (obj : ReactionsObject) (key : string) : option (list Reaction) :=
  match obj with
  | [] => None
  | (k, v) :: rest => if String.eqb k key then Some v else get rest key
  end.

(** [obj[key] = value] *)
Fixpoint set (obj : ReactionsObject) (key : string) (value : list Reaction)
    : ReactionsObject :=
  match obj with
  | [] => [(key, value)]
  | (k, v) :: rest =>
      if String.eqb k key then (k, value) :: rest else (k, v) :: set rest key value
  end.

(** [delete obj[key]] *)
Definition delete (obj : ReactionsObject) (key : string) : ReactionsObject :=
  filter (fun e : string * list Reaction => negb (String.eqb (fst e) key)) obj.

(** [{ ...(comment.reactions || {}) }] *)
Definition copyOf (c : Reacted) : ReactionsObject :=
  match reactions c with
  | Some r => r
  | None => []
  end.

(** [addReaction(comment, emoji, user)] *)
Definition addReaction (c : Reacted) (emoji : string) (user : User) : Reacted :=
  let reactions := copyOf c in
  let reactions :=
    match get reactions emoji with
    | Some _ => reactions
    | None => set reactions emoji []
    end in
  let current := match get reactions emoji with Some l => l | None => [] end in
  let reactions :=
    match find (fun r => String.eqb (userId r) (id user)) current with
    | Some _ => reactions
    | None => set reactions emoji (current ++ [mkReaction (id user) (name user)])
    end in
  mkReacted (comment c) (Some reactions).

(** [removeReaction(comment, emoji, userId)] *)
Definition removeReaction (c : Reacted) (emoji : string) (uid : string) : Reacted :=
  let reactions := copyOf c in
  let reactions :=
    match get reactions emoji with
    | Some l =>
        let kept := filter (fun r => negb (String.eqb (userId r) uid)) l in
        let reactions := set reactions emoji kept in
        if Nat.eqb (List.length kept) 0 then delete reactions emoji else reactions
    | None => reactions
    end in
  mkReacted (comment c) (Some reactions).

(** [hasUserReacted(comment, emoji, userId)] *)
Definition hasUserReacted (c : Reacted) (emoji : string) (uid : string) : bool :=
  match reactions c with
  | Some r =>
      match get r emoji with
      | Some l => existsb (fun x => String.eqb (userId x) uid) l
      | None => false
      end
  | None => false
  end.

Record ReactionEntry := mkEntry {
  emoji : string;
  users : list Reaction;
  count : nat
}.

(** [getReactionsList(comment)] *)
Definition getReactionsList (c : Reacted) : list ReactionEntry :=
  match reactions c with
  | None => []
  | Some r =>
      map (fun e : string * list Reaction => mkEntry (fst e) (snd e) (List.length (snd e)))
          (filter (fun e : string * list Reaction => Nat.ltb 0 (List.length (snd e))) r)
  end.

(** [getRootComment(threadComments)]; [None] is [undefined]. *)
Definition getRootComment (threadComments : list CommentUtils.Comment)
    : option CommentUtils.Comment :=
  match find (fun c => CommentUtils.isNull (CommentUtils.parentId c)) threadComments with
  | Some c => Some c
  | None => hd_error threadComments
  end.

End Helpers.

(* ================================================================== *)
(** ** da-comments.js: the comments panel *)
(* ================================================================== *)

(** The parts of the panel that compute on comments: toggling a
    reaction, counting the open threads and sorting the threads into
    the sections of the list.  The rendering and the form state are left
    out. *)
Module Panel.
Import CommentUtils.

(** The comments map as the panel writes reactions to it: its entries,
    one per key. *)
Definition ReactedMap := list (string * Helpers.Reacted).

(** [commentsMap.get(id)] and [commentsMap.set(id, comment)] *)
Fixpoint getReacted (m : ReactedMap) (key : string) : option Helpers.Reacted :=
  match m with
  | [] => None
  | (k, v) :: rest => if String.eqb k key then Some v else getReacted rest key
  end.

Fixpoint setReacted (m : ReactedMap) (key : string) (c : Helpers.Reacted) : ReactedMap :=
  match m with
  | [] => [(key, c)]
  | (k, v) :: rest =>
      if String.eqb k key then (k, c) :: rest else (k, v) :: setReacted rest key c
  end.

(** [isAnonymousUser()]; [currentUser] is [None] when there is none. *)
Definition isAnonymousUser (currentUser : option Helpers.User) : bool :=
  match currentUser with
  | None => true
  | Some user =>
      (negb (JS.truthy (Helpers.id user)) || String.prefix "anonymous-" (Helpers.id user))%bool
  end.

(** [toggleReaction(comment, emoji)]: the comments map afterwards. *)
Definition toggleReaction (currentUser : option Helpers.User) (commentsMap : ReactedMap)
    (comment : Helpers.Reacted) (emoji : string) : ReactedMap :=
  match currentUser with
  | None => commentsMap
  | Some user =>
      if isAnonymousUser currentUser then commentsMap
      else
        let userReacted := Helpers.hasUserReacted comment emoji (Helpers.id user) in
        let updatedComment :=
          if userReacted then Helpers.removeReaction comment emoji (Helpers.id user)
          else Helpers.addReaction comment emoji user in
        setReacted commentsMap (id (Helpers.comment comment)) updatedComment
  end.

(** The count [updateThreads] emits: the threads whose root comment is
    neither resolved nor orphaned. *)
Definition openCount (threads : list (string * list Comment)) : nat :=
  fold_left
    (fun (count : nat) (thread : string * list Comment) =>
       match Helpers.getRootComment (snd thread) with
       | Some root => if (negb (resolved root) && negb (orphaned root))%bool
                      then S count else count
       | None => count
       end)
    threads O.

(** An entry [[threadId, comments, root]] of [categorizeThreads]. *)
Record Entry := mkEntry {
  entryThread : string;
  entryComments : list Comment;
  entryRoot : Comment
}.

Record Categories := mkCategories {
  active : list Entry;
  orphanedThreads : list Entry;
  resolvedThreads : list Entry
}.

Fixpoint insertNewest (e : Entry) (l : list Entry) : list Entry :=
  match l with
  | [] => [e]
  | x :: rest =>
      if createdAt (entryRoot x) <=? createdAt (entryRoot e) then e :: x :: rest
      else x :: insertNewest e rest
  end.

(** [entries.sort((a, b) => b[2].createdAt - a[2].createdAt)]: a stable
    sort, newest root comment first. *)
Definition sortNewest (entries : list Entry) : list Entry :=
  fold_right insertNewest [] entries.

(** [categorizeThreads()] over the threads of the panel; [None] is the
    [TypeError] of reading [root.resolved] when a thread has no
    comment. *)
Definition categorizeThreads (threads : list (string * list Comment)) : option Categories :=
  let loop :=
    fold_left
      (fun (acc : option (list Entry * list Entry * list Entry))
           (thread : string * list Comment) =>
         match acc with
         | None => None
         | Some (active, orphaned, resolved) =>
             match Helpers.getRootComment (snd thread) with
             | None => None
             | Some root =>
                 let entry := mkEntry (fst thread) (snd thread) root in
                 if CommentUtils.resolved root
                 then Some (active, orphaned, resolved ++ [entry])
                 else if CommentUtils.orphaned root
                      then Some (active, orphaned ++ [entry], resolved)
                      else Some (active ++ [entry], orphaned, resolved)
             end
         end)
      threads (Some ([], [], [])) in
  match loop with
  | None => None
  | Some (active, orphaned, resolved) =>
      Some (mkCategories (sortNewest active) (sortNewest orphaned) (sortNewest resolved))
  end.

End Panel.

(* ================================================================== *)
(** ** commentPlugin.js: the sync gate, removing a mark, valid selections *)
(* ================================================================== *)

(** Further functions of the later revision of the plugin
    (src/unnamed/part_004). *)
Module PluginMore.
Import PM CommentUtils CommentPlugin.

(** [setCommentsMap(map)] *)
Definition setCommentsMap (map : CommentsMap) (w : World) : World :=
  mkWorld (mkPlugin (Some map) (activeThreadId (pluginState w))
                    (pendingCommentRange (pluginState w)) false)
          (view w) (events w).

(** [onSyncStable()] *)
Definition onSyncStable (w : World) : World :=
  if initialSyncComplete (pluginState w) then w
  else
    recoverMissingMarks
      (mkWorld (mkPlugin (commentsMap (pluginState w)) (activeThreadId (pluginState w))
                         (pendingCommentRange (pluginState w)) true)
               (view w) (events w)).

(** The callback of [doc.descendants] in [removeCommentMark]: [tr] and
    [found] after one node. *)
Definition removeStep (tid : string) (acc : Transaction * bool) (call : Node * Z)
    : Transaction * bool :=
  let '(node, pos) := call in
  let acc :=
    if isText node then
      if existsb (fun m => (isComment m && eqId (PM.threadId m) (Some tid))%bool)
                 (marksOf node)
      then (removeMark (fst acc) pos (pos + nodeSize node) (createComment tid), true)
      else acc
    else acc in
  if (isImage node && eqId (commentThreadId (attrsOf node)) (Some tid))%bool
  then (setNodeMarkup (fst acc) pos (mkAttrs None (alt (attrsOf node))), true)
  else acc.

(** [removeCommentMark(threadId)] *)
Definition removeCommentMark (tid : string) (w : World) : World :=
  match view w with
  | None => w
  | Some state =>
      if negb (hasCommentMark (schema state)) then w
      else
        let '(tr, found) :=
          fold_left (removeStep tid) (descendants (doc state)) (newTr (doc state), false) in
        if found then dispatch w state tr else w
  end.

(** [hasValidCommentSelection(state)]; [None] is a missing state. *)
Definition hasValidCommentSelection (state : option EditorState) : bool :=
  match state with
  | None => false
  | Some state =>
      if isImageSelection state then true
      else
        match selection state with
        | CellSelection _ _ cells =>
            fold_left
              (fun (hasContent : bool) (cell : Node * Z) =>
                 if JS.truthy (JS.trim (nodeText (fst cell))) then true else hasContent)
              cells false
        | _ =>
            let from := selFrom (selection state) in
            let to := selTo (selection state) in
            if from =? to then false
            else negb (isOnlyWhitespace (textBetween (doc state) from to EmptyString))
        end
  end.

End PluginMore.

(* ================================================================== *)
(** ** Further notions *)
(* ================================================================== *)

(** Notions the further properties of the code are stated with. *)
Module Further.
Import PM CommentUtils CommentPlugin.

(** What makes a thread id live at a node: a comment mark of the node
    with the id, or the id as the [commentThreadId] of an image. *)
Definition liveAt (tid : option string) (n : Node) : Prop :=
  (exists m, In m (marksOf n) /\ isComment m = true /\ PM.threadId m = tid)
  \/ (isImage n = true /\ truthyId tid = true /\ commentThreadId (attrsOf n) = tid).

(** The text [updateCommentSelectedText] reads for the range of a
    thread: the [alt] of the image, or "[Image]", and the text of the
    range with a line feed between blocks otherwise. *)
Definition currentTextOf (state : EditorState) (range : MarkRange) : string :=
  if rangeIsImage range then
    match nodeAt (doc state) (rangeFrom range) with
    | Some node =>
        if truthyId (alt (attrsOf node))
        then match alt (attrsOf node) with Some a => a | None => "[Image]" end
        else "[Image]"
    | None => "[Image]"
    end
  else textBetween (doc state) (rangeFrom range) (rangeTo range)
                   (String (ascii_of_nat 10) EmptyString).

(** One iteration of the loop of [updateCommentSelectedText]. *)
Definition updateStep (state : EditorState) (w : World) (tid : option string) : World :=
  match findCommentMarkRange state tid with
  | None => w
  | Some range =>
      let '(currentText, currentContext) :=
        if rangeIsImage range then
          (match nodeAt (doc state) (rangeFrom range) with
           | Some node =>
               if truthyId (alt (attrsOf node))
               then match alt (attrsOf node) with Some a => a | None => "[Image]" end
               else "[Image]"
           | None => "[Image]"
           end, None)
        else
          (textBetween (doc state) (rangeFrom range) (rangeTo range)
                       (String (ascii_of_nat 10) EmptyString),
           Some (getPositionContext (doc state) (rangeFrom range) (rangeTo range))) in
      match findRootCommentEntry (pluginState w) tid, commentsMap (pluginState w) with
      | Some entry, Some m =>
          if negb (String.eqb (selectedText (snd entry)) currentText) then
            let updates :=
              setSelected currentText
                (match currentContext with
                 | Some ctx => Some ctx
                 | None => positionContext (snd entry)
                 end)
                (snd entry) in
            mkWorld (setCommentsMap' (pluginState w) (mapSet m (fst entry) updates))
                    (view w) (events w)
          else w
      | _, _ => w
      end
  end.

(** An image node holds no content, as the image type of the schema
    has it. *)
Definition plainImage (n : Node) : bool :=
  match n with
  | Inner _ _ _ (_ :: _) => negb (isImage n)
  | _ => true
  end.

(** What [setNodeMarkup] at position [target] makes of the node [n]
    that starts at [pos]. *)
Definition reAttr (target : Z) (attrs : Attrs) (n : Node) (pos : Z) : Node :=
  match setAttrsNode target attrs n pos with
  | x :: _ => x
  | [] => n
  end.

(** The same for a call of a traversal. *)
Definition reAttrCall (target : Z) (attrs : Attrs) (call : Node * Z) : Node * Z :=
  (reAttr target attrs (fst call) (snd call), snd call).

(** Two records that differ at most in the stored text and context. *)
Definition sameButText (c c' : Comment) : Prop :=
  c' = setSelected (selectedText c') (positionContext c') c.

(** The test of [findRootCommentEntry] for one entry. *)
Definition isRootOf (tid : option string) (e : string * Comment) : bool :=
  (eqId (Some (threadId (snd e))) tid && isNull (parentId (snd e)))%bool.






(** The record [c'] that one round of the bookkeeping makes of [c] when
    the round restores the threads [restored] and then orphans the
    threads [marked]: thread, parent, time and [resolved] as before, and
    [orphaned] as the two rewritings of the root comments leave it. *)
Definition flagsAfter (restored marked : list string) (c c' : Comment) : Prop :=
  threadId c' = threadId c
  /\ parentId c' = parentId c
  /\ createdAt c' = createdAt c
  /\ resolved c' = resolved c
  /\ orphaned c' =
       (if (includes marked (threadId c) && isNull (parentId c))%bool then true
        else if (includes restored (threadId c) && isNull (parentId c))%bool then false
        else orphaned c).

End Further.

(* ================================================================== *)
(** * Properties *)
(* ================================================================== *)

Import PM CommentUtils CommentPlugin SpecWords Scenario Notions.


(* ------------------------------------------------------------------ *)
(** ** Strings *)
(* ------------------------------------------------------------------ *)

Lemma length_nonneg (s : string) : 0 <= JS.length s.
Proof. unfold JS.length. lia. Qed.

Lemma truthy_length (s : string) : JS.truthy s = true <-> 0 < JS.length s.
Proof.
  unfold JS.length. destruct s; simpl; split; intros H; try lia; try discriminate; reflexivity.
Qed.

Lemma drop_0 (s : string) : JS.drop 0 s = s.
Proof. reflexivity. Qed.

Lemma drop_empty (n : nat) : JS.drop n EmptyString = EmptyString.
Proof. destruct n; reflexivity. Qed.

Lemma drop_drop (a b : nat) (s : string) : JS.drop a (JS.drop b s) = JS.drop (b + a) s.
Proof.
  revert s. induction b as [|b IH]; intros s; simpl.
  - reflexivity.
  - destruct s; simpl.
    + apply drop_empty.
    + apply IH.
Qed.

Lemma drop_cons_S (d : nat) (u : string) (c : ascii) (u' : string) :
  JS.drop d u = String c u' -> JS.drop (S d) u = u'.
Proof.
  revert u. induction d as [|d IH]; intros u H; simpl in *.
  - subst u. reflexivity.
  - destruct u as [|c0 u0]; [discriminate|]. apply IH in H. exact H.
Qed.

Lemma drop_length (d : nat) (u : string) :
  (d <= String.length u)%nat -> String.length (JS.drop d u) = (String.length u - d)%nat.
Proof.
  revert u. induction d as [|d IH]; intros u H; simpl.
  - lia.
  - destruct u; simpl in *; [lia|]. apply IH. lia.
Qed.

Lemma drop_app (a u : string) : JS.drop (String.length a) (String.append a u) = u.
Proof. induction a; simpl; auto. Qed.

Lemma drop_split (d : nat) (s : string) :
  (d <= String.length s)%nat ->
  exists a, s = String.append a (JS.drop d s) /\ String.length a = d.
Proof.
  revert s. induction d as [|d IH]; intros s H.
  - exists EmptyString. split; reflexivity.
  - destruct s as [|c s]; simpl in H; [lia|].
    destruct (IH s) as [a [Ha Hl]]; [lia|].
    exists (String c a). simpl. split; [f_equal; exact Ha | f_equal; exact Hl].
Qed.

Lemma prefix_app (t u : string) :
  String.prefix t u = true <-> exists b, u = String.append t b.
Proof.
  revert u. induction t as [|c t IH]; intros u.
  - split; [intros _; exists u; reflexivity | intros _; destruct u; reflexivity].
  - destruct u as [|c' u]; simpl.
    + split; [discriminate | intros [b Hb]; discriminate].
    + destruct (Ascii.ascii_dec c c') as [->|Hne].
      * rewrite IH. split; intros [b Hb]; exists b.
        -- f_equal; exact Hb.
        -- inversion Hb; reflexivity.
      * split; [discriminate | intros [b Hb]; inversion Hb; subst; contradiction].
Qed.

Lemma prefix_length (t u : string) :
  String.prefix t u = true -> (String.length t <= String.length u)%nat.
Proof.
  revert u. induction t as [|c t IH]; intros u H.
  - simpl. lia.
  - destruct u as [|c' u]; simpl in H; [discriminate|].
    destruct (Ascii.ascii_dec c c'); [|discriminate].
    apply IH in H. simpl. lia.
Qed.

Lemma append_length (a b : string) :
  String.length (String.append a b) = (String.length a + String.length b)%nat.
Proof. induction a; simpl; auto. Qed.

(** An occurrence at offset [d], said with concatenation. *)
Lemma occurrence_split (t s : string) (d : nat) :
  (d <= String.length s)%nat ->
  (String.prefix t (JS.drop d s) = true <->
   exists a b, s = String.append a (String.append t b) /\ String.length a = d).
Proof.
  intros Hd. rewrite prefix_app. split.
  - intros [b Hb]. destruct (drop_split d s Hd) as [a [Ha Hl]].
    exists a, b. rewrite <- Hb. auto.
  - intros [a [b [Hs Hl]]]. exists b. subst d s. apply drop_app.
Qed.

(* ------------------------------------------------------------------ *)
(** ** Searching a text node *)
(* ------------------------------------------------------------------ *)

Lemma occs_nil (t : string) (i : nat) :
  occs t EmptyString i = if String.prefix t EmptyString then [i] else [].
Proof. unfold occs. apply app_nil_r. Qed.

Lemma occs_cons (t : string) (c : ascii) (s : string) (i : nat) :
  occs t (String c s) i
  = (if String.prefix t (String c s) then [i] else []) ++ occs t s (S i).
Proof. reflexivity. Qed.

Lemma occs_In (t s : string) (i j : nat) :
  In j (occs t s i) <->
  exists d, j = (i + d)%nat /\ (d <= String.length s)%nat /\ String.prefix t (JS.drop d s) = true.
Proof.
  revert i. induction s as [|c s IH]; intros i.
  - rewrite occs_nil. split.
    + destruct (String.prefix t EmptyString) eqn:E; intros H; simpl in H.
      * destruct H as [<-|[]]. exists 0%nat. rewrite drop_0. repeat split; auto; lia.
      * destruct H.
    + intros [d [-> [Hd Hp]]]. simpl in Hd. assert (d = 0%nat) by lia. subst d.
      rewrite drop_0 in Hp. rewrite Hp. left. lia.
  - rewrite occs_cons, in_app_iff, IH. split.
    + intros [H|[d [-> [Hd Hp]]]].
      * destruct (String.prefix t (String c s)) eqn:E; simpl in H; [|destruct H].
        destruct H as [<-|[]]. exists 0%nat. rewrite drop_0. simpl. repeat split; auto; lia.
      * exists (S d). simpl. repeat split; auto; lia.
    + intros [d [-> [Hd Hp]]]. destruct d as [|d].
      * left. rewrite drop_0 in Hp. rewrite Hp. left. lia.
      * right. exists d. simpl in *. repeat split; auto; lia.
Qed.

Lemma occs_lower (t s : string) (i j : nat) : In j (occs t s i) -> (i <= j)%nat.
Proof. rewrite occs_In. intros [d [-> _]]. lia. Qed.

Lemma occs_sorted (t s : string) (i : nat) :
  ForallOrdPairs lt (occs t s i).
Proof.
  revert i. induction s as [|c s IH]; intros i.
  - rewrite occs_nil. destruct (String.prefix t EmptyString); repeat constructor.
  - rewrite occs_cons. destruct (String.prefix t (String c s)); simpl.
    + constructor; [|apply IH]. apply Forall_forall. intros j Hj.
      apply occs_lower in Hj. lia.
    + apply IH.
Qed.

Lemma search_occs (t s : string) (i : nat) :
  JS.search t s i = hd_error (occs t s i).
Proof.
  revert i. induction s as [|c s IH]; intros i.
  - rewrite occs_nil. unfold JS.search. destruct (String.prefix t EmptyString); reflexivity.
  - rewrite occs_cons. change (JS.search t (String c s) i)
      with (if String.prefix t (String c s) then Some i else JS.search t s (S i)).
    destruct (String.prefix t (String c s)); simpl; [reflexivity|]. apply IH.
Qed.

Lemma prefix_nonempty_nil (t : string) :
  JS.truthy t = true -> String.prefix t EmptyString = false.
Proof. destruct t; [discriminate | reflexivity]. Qed.

Lemma search_next (t u : string) (k j : nat) :
  JS.truthy t = true ->
  JS.search t u k = Some j ->
  exists d, j = (k + d)%nat /\ (d < String.length u)%nat /\
            occs t u k = j :: occs t (JS.drop (S d) u) (S j).
Proof.
  intros Ht. revert k. induction u as [|c u IH]; intros k H.
  - unfold JS.search in H. rewrite (prefix_nonempty_nil t Ht) in H. discriminate.
  - rewrite occs_cons.
    change (JS.search t (String c u) k)
      with (if String.prefix t (String c u) then Some k else JS.search t u (S k)) in H.
    destruct (String.prefix t (String c u)) eqn:E.
    + inversion H; subst j. exists 0%nat. simpl. repeat split; auto; lia.
    + apply IH in H. destruct H as [d [-> [Hd Ho]]].
      exists (S d). simpl. repeat split; try lia.
      rewrite Ho. replace (k + S d)%nat with (S k + d)%nat by lia. reflexivity.
Qed.

Lemma indexOf_nat (text t : string) (k : nat) :
  (k <= String.length text)%nat ->
  JS.indexOf text t (Z.of_nat k) =
  match JS.search t (JS.drop k text) k with Some i => Z.of_nat i | None => -1 end.
Proof.
  intros Hk. unfold JS.indexOf, JS.length.
  replace (Z.to_nat (Z.min (Z.max (Z.of_nat k) 0) (Z.of_nat (String.length text)))) with k by lia.
  reflexivity.
Qed.

(** With fuel above the length of the rest of the text the loop runs to
    its end and appends every occurrence from [k] on. *)
Lemma matchLoop_fuel (text t : string) (pos : Z) :
  JS.truthy t = true ->
  forall (fuel k : nat) (acc : list Span),
    (k <= String.length text)%nat ->
    (String.length text - k < fuel)%nat ->
    matchLoop fuel text t pos (JS.indexOf text t (Z.of_nat k)) acc
    = acc ++ map (spanAt pos t) (occs t (JS.drop k text) k).
Proof.
  intros Ht. induction fuel as [|fuel IH]; intros k acc Hk Hf; [lia|].
  rewrite indexOf_nat by exact Hk. simpl matchLoop.
  destruct (JS.search t (JS.drop k text) k) as [j|] eqn:E.
  - destruct (search_next _ _ _ _ Ht E) as [d [Hj [Hd Ho]]].
    rewrite drop_length in Hd by exact Hk.
    replace (Z.of_nat j =? -1) with false by (symmetry; apply Z.eqb_neq; lia).
    replace (Z.of_nat j + 1) with (Z.of_nat (S j)) by lia.
    rewrite IH by lia.
    rewrite Ho, drop_drop. replace (k + S d)%nat with (S j) by lia.
    simpl map. rewrite <- app_assoc. reflexivity.
  - simpl. rewrite search_occs in E.
    destruct (occs t (JS.drop k text) k); [|discriminate].
    simpl. rewrite app_nil_r. reflexivity.
Qed.

(* ------------------------------------------------------------------ *)
(** ** Documents, sizes and traversal order *)
(* ------------------------------------------------------------------ *)

(** Induction over nodes with the hypothesis for every child. *)
Lemma Node_induction (P : Node -> Prop) :
  (forall t ms, P (Text t ms)) ->
  (forall ty a ms, P (Leaf ty a ms)) ->
  (forall ty a ms c, Forall P c -> P (Inner ty a ms c)) ->
  forall n, P n.
Proof.
  intros HT HL HI. fix IH 1. intros [t ms | ty a ms | ty a ms c].
  - apply HT.
  - apply HL.
  - apply HI. induction c as [|x c IHc]; constructor; [apply IH | exact IHc].
Qed.

Lemma fragSize_cons (n : Node) (c : Fragment) : fragSize (n :: c) = nodeSize n + fragSize c.
Proof. reflexivity. Qed.

Lemma nodeSize_Inner ty a ms c : nodeSize (Inner ty a ms c) = 2 + fragSize c.
Proof. reflexivity. Qed.

Lemma nodeSize_nonneg (n : Node) : 0 <= nodeSize n.
Proof.
  induction n as [t ms | ty a ms | ty a ms c IH] using Node_induction.
  - apply length_nonneg.
  - simpl. lia.
  - rewrite nodeSize_Inner. enough (0 <= fragSize c) by lia.
    induction IH as [|x c Hx _ IHc]; [reflexivity|]. rewrite fragSize_cons. lia.
Qed.

Lemma fragSize_nonneg (c : Fragment) : 0 <= fragSize c.
Proof.
  induction c as [|x c IH]; [reflexivity|].
  rewrite fragSize_cons. pose proof (nodeSize_nonneg x). lia.
Qed.

Lemma descLoop_cons (n : Node) (c : Fragment) (pos : Z) :
  descLoop descNode (n :: c) pos = descNode n pos ++ descLoop descNode c (pos + nodeSize n).
Proof. reflexivity. Qed.

Lemma descNode_Inner ty a ms c pos :
  descNode (Inner ty a ms c) pos = (Inner ty a ms c, pos) :: descLoop descNode c (pos + 1).
Proof. reflexivity. Qed.

Lemma FOP_app {A : Type} (R : A -> A -> Prop) (l1 l2 : list A) :
  ForallOrdPairs R l1 -> ForallOrdPairs R l2 ->
  (forall x y, In x l1 -> In y l2 -> R x y) ->
  ForallOrdPairs R (l1 ++ l2).
Proof.
  intros H1 H2 H12. induction H1 as [|a l Ha Hl IH]; simpl.
  - exact H2.
  - constructor.
    + apply Forall_app. split; [exact Ha|].
      apply Forall_forall. intros y Hy. apply H12; [left; reflexivity | exact Hy].
    + apply IH. intros x y Hx Hy. apply H12; [right; exact Hx | exact Hy].
Qed.

Lemma ordered_app (lo mid hi : Z) (l1 l2 : list (Node * Z)) :
  lo <= mid <= hi -> ordered lo mid l1 -> ordered mid hi l2 -> ordered lo hi (l1 ++ l2).
Proof.
  intros Hm [H1 H1'] [H2 H2']. split.
  - apply Forall_app. split.
    + eapply Forall_impl; [|exact H1]. intros call [Ha Hb]. split; lia.
    + eapply Forall_impl; [|exact H2]. intros call [Ha Hb]. split; lia.
  - apply FOP_app; auto. intros u v Hu Hv _ _.
    rewrite Forall_forall in H1, H2.
    destruct (H1 u Hu) as [_ Ha]. destruct (H2 v Hv) as [Hb _]. lia.
Qed.

Lemma descLoop_order (c : Fragment) :
  Forall (fun x => forall pos, ordered pos (pos + nodeSize x) (descNode x pos)) c ->
  forall p, ordered p (p + fragSize c) (descLoop descNode c p).
Proof.
  induction 1 as [|x c Hx _ IHc]; intros p.
  - simpl. split; constructor.
  - rewrite descLoop_cons, fragSize_cons.
    pose proof (nodeSize_nonneg x) as Hn. pose proof (fragSize_nonneg c) as Hf.
    apply ordered_app with (mid := p + nodeSize x); [lia | apply Hx |].
    replace (p + (nodeSize x + fragSize c)) with (p + nodeSize x + fragSize c) by lia.
    apply IHc.
Qed.

Lemma descNode_order (n : Node) :
  forall pos, ordered pos (pos + nodeSize n) (descNode n pos).
Proof.
  induction n as [t ms | ty a ms | ty a ms c IH] using Node_induction; intros pos.
  - simpl. split; repeat constructor; unfold callEnd; simpl; lia.
  - simpl. split; repeat constructor; unfold callEnd; simpl; lia.
  - rewrite descNode_Inner, nodeSize_Inner.
    destruct (descLoop_order c IH (pos + 1)) as [Hc1 Hc2].
    pose proof (fragSize_nonneg c) as Hf. split.
    + constructor.
      * split; unfold callEnd; simpl fst; simpl snd; rewrite ?nodeSize_Inner; lia.
      * eapply Forall_impl; [|exact Hc1]. intros call [H1 H2]. split; lia.
    + constructor; [|exact Hc2]. apply Forall_forall. intros v _ Hu. discriminate Hu.
Qed.

Lemma descendants_order (doc : Fragment) : ordered 0 (fragSize doc) (descendants doc).
Proof.
  apply (descLoop_order doc).
  apply Forall_forall. intros x _. apply descNode_order.
Qed.

(* ------------------------------------------------------------------ *)
(** ** The occurrences [findBestMatchPosition] collects *)
(* ------------------------------------------------------------------ *)

Lemma fold_left_cons {A B : Type} (f : A -> B -> A) (x : B) (l : list B) (a : A) :
  fold_left f (x :: l) a = fold_left f l (f a x).
Proof. reflexivity. Qed.

Lemma fold_left_append {A B : Type} (g : list B -> A -> list B) (f : A -> list B) :
  (forall acc x, g acc x = acc ++ f x) ->
  forall l acc, fold_left g l acc = acc ++ flat_map f l.
Proof.
  intros Hg. induction l as [|x l IH]; intros acc; simpl.
  - symmetry. apply app_nil_r.
  - rewrite IH, Hg, app_assoc. reflexivity.
Qed.

Lemma collectMatches_allOccurrences (doc : Fragment) (t : string) :
  JS.truthy t = true -> collectMatches doc t = allOccurrences doc t.
Proof.
  intros Ht. unfold collectMatches, allOccurrences.
  rewrite (fold_left_append _ (textMatches t)); [reflexivity|].
  intros acc [node pos]. unfold textMatches. simpl fst; simpl snd.
  destruct node as [text ms | ty a ms | ty a ms c]; try (symmetry; apply app_nil_r).
  destruct (JS.truthy text) eqn:E.
  - change 0 with (Z.of_nat 0). rewrite matchLoop_fuel; [reflexivity | exact Ht | lia | lia].
  - destruct text; [|discriminate]. unfold occurrencesIn. rewrite occs_nil.
    rewrite (prefix_nonempty_nil t Ht). simpl. symmetry. apply app_nil_r.
Qed.

Lemma occurrencesIn_bound (text t : string) (i : nat) :
  In i (occurrencesIn text t) -> (i + String.length t <= String.length text)%nat.
Proof.
  unfold occurrencesIn. rewrite occs_In. intros [d [-> [Hd Hp]]].
  apply prefix_length in Hp. rewrite drop_length in Hp by exact Hd. lia.
Qed.

Lemma allOccurrences_In (doc : Fragment) (t : string) (m : Span) :
  In m (allOccurrences doc t) <->
  exists text ms pos a b,
    In (Text text ms, pos) (descendants doc)
    /\ text = String.append a (String.append t b)
    /\ from m = pos + JS.length a
    /\ to m = from m + JS.length t.
Proof.
  unfold allOccurrences. rewrite in_flat_map. split.
  - intros [[node pos] [Hin Hm]]. unfold textMatches in Hm. simpl in Hm.
    destruct node as [text ms | |]; try contradiction.
    apply in_map_iff in Hm. destruct Hm as [i [<- Hi]].
    unfold occurrencesIn in Hi. apply occs_In in Hi. destruct Hi as [d [-> [Hd Hp]]].
    apply (occurrence_split t text d Hd) in Hp. destruct Hp as [a [b [Ht Hl]]].
    exists text, ms, pos, a, b. unfold spanAt, JS.length. simpl. rewrite Hl.
    repeat split; auto.
  - intros [text [ms [pos [a [b [Hin [Ht [Hf Hto]]]]]]]].
    exists (Text text ms, pos). split; [exact Hin|].
    unfold textMatches. simpl. apply in_map_iff. exists (String.length a). split.
    + destruct m as [f e]. simpl in *. unfold spanAt. f_equal; unfold JS.length in *; lia.
    + unfold occurrencesIn. apply occs_In. exists (String.length a).
      assert (Hd : (String.length a <= String.length text)%nat).
      { rewrite Ht, append_length. lia. }
      repeat split; auto. apply (occurrence_split t text _ Hd). exists a, b. auto.
Qed.

Lemma FOP_map {A B : Type} (R : A -> A -> Prop) (S : B -> B -> Prop) (f : A -> B) (l : list A) :
  (forall x y, R x y -> S (f x) (f y)) -> ForallOrdPairs R l -> ForallOrdPairs S (map f l).
Proof.
  intros HRS. induction 1 as [|a l Ha Hl IH]; simpl; constructor; auto.
  apply Forall_forall. intros y Hy. apply in_map_iff in Hy. destruct Hy as [x [<- Hx]].
  rewrite Forall_forall in Ha. auto.
Qed.

Lemma FOP_flat_map {A B : Type} (R : A -> A -> Prop) (S : B -> B -> Prop)
    (f : A -> list B) (l : list A) :
  ForallOrdPairs R l ->
  (forall x, In x l -> ForallOrdPairs S (f x)) ->
  (forall x y u v, R x y -> In u (f x) -> In v (f y) -> S u v) ->
  ForallOrdPairs S (flat_map f l).
Proof.
  intros HR Hf Hc. induction HR as [|a l Ha Hl IH]; simpl; [constructor|].
  apply FOP_app.
  - apply Hf. left. reflexivity.
  - apply IH. intros x Hx. apply Hf. right. exact Hx.
  - intros u v Hu Hv. apply in_flat_map in Hv. destruct Hv as [y [Hy Hv]].
    rewrite Forall_forall in Ha. eapply Hc; eauto.
Qed.

(** The collected occurrences start at strictly increasing positions. *)
Lemma allOccurrences_increasing (doc : Fragment) (t : string) :
  JS.truthy t = true ->
  ForallOrdPairs (fun x y => from x < from y) (allOccurrences doc t).
Proof.
  intros Ht. apply truthy_length in Ht. unfold JS.length in Ht.
  unfold allOccurrences.
  apply FOP_flat_map with (R := textBefore2).
  - apply descendants_order.
  - intros [node pos] _. unfold textMatches. simpl.
    destruct node as [text ms | |]; try constructor.
    apply FOP_map with (R := lt); [|apply occs_sorted].
    intros x y Hxy. unfold spanAt. simpl. lia.
  - intros [n1 p1] [n2 p2] u v HR Hu Hv. unfold textMatches in Hu, Hv. simpl in Hu, Hv.
    destruct n1 as [t1 ms1 | |]; try contradiction.
    destruct n2 as [t2 ms2 | |]; try contradiction.
    apply in_map_iff in Hu. destruct Hu as [i [<- Hi]].
    apply in_map_iff in Hv. destruct Hv as [j [<- Hj]].
    apply occurrencesIn_bound in Hi.
    specialize (HR eq_refl eq_refl). unfold callEnd in HR. simpl in HR.
    unfold JS.length in HR. unfold spanAt. simpl. lia.
Qed.

Lemma FOP_head_least {A : Type} (R : A -> A -> Prop) (a : A) (l : list A) :
  ForallOrdPairs R (a :: l) -> forall x, In x l -> R a x.
Proof. intros H x Hx. inversion H as [|? ? Ha _]; subst. rewrite Forall_forall in Ha. auto. Qed.

(* ------------------------------------------------------------------ *)
(** ** Scores and the choice of the best occurrence *)
(* ------------------------------------------------------------------ *)

Lemma beforeScore_range docText ctx m : 0 <= beforeScore docText ctx m <= 50.
Proof. unfold beforeScore. repeat (destruct (_ : bool)); lia. Qed.

Lemma afterScore_range docText ctx m : 0 <= afterScore docText ctx m <= 50.
Proof. unfold afterScore. repeat (destruct (_ : bool)); lia. Qed.

Lemma blockScore_range doc ctx m : 0 <= blockScore doc ctx m <= 30.
Proof. unfold blockScore. destruct (blockIndex ctx); repeat (destruct (_ : bool)); lia. Qed.

Lemma score_range doc ctx m : 0 <= score doc ctx m <= 130.
Proof.
  unfold score.
  pose proof (beforeScore_range (textContent doc) ctx m).
  pose proof (afterScore_range (textContent doc) ctx m).
  pose proof (blockScore_range doc ctx m). lia.
Qed.

Lemma bestOf_step doc ctx done best m :
  bestOf doc ctx done best ->
  bestOf doc ctx (done ++ [m])
    (if snd best <? score doc ctx m then (m, score doc ctx m) else best).
Proof.
  pose proof (score_range doc ctx m) as Hm.
  intros [[-> Hs] | [Hs [l1 [l2 [-> [H1 H2]]]]]].
  - rewrite Hs. replace (-1 <? score doc ctx m) with true by (symmetry; apply Z.ltb_lt; lia).
    right. simpl. split; [reflexivity|]. exists [], []. simpl. repeat split; intros ? [].
  - destruct (snd best <? score doc ctx m) eqn:E.
    + apply Z.ltb_lt in E. right. simpl. split; [reflexivity|].
      exists (l1 ++ fst best :: l2), []. repeat split; [|intros ? []].
      intros x Hx. apply in_app_iff in Hx. destruct Hx as [Hx|[<-|Hx]].
      * specialize (H1 x Hx). lia.
      * lia.
      * specialize (H2 x Hx). lia.
    + apply Z.ltb_ge in E. right. split; [exact Hs|].
      exists l1, (l2 ++ [m]). repeat split.
      * rewrite <- app_assoc. reflexivity.
      * exact H1.
      * intros x Hx. apply in_app_iff in Hx. destruct Hx as [Hx|[<-|[]]]; [auto | lia].
Qed.

Lemma pickBest_bestOf doc ctx first ms :
  bestOf doc ctx ms (pickBest doc ctx first ms).
Proof.
  unfold pickBest.
  enough (H : forall todo done best,
             bestOf doc ctx done best ->
             bestOf doc ctx (done ++ todo)
               (fold_left (fun (best : Span * Z) (m : Span) =>
                             let s := score doc ctx m in
                             if snd best <? s then (m, s) else best) todo best)).
  { apply (H ms [] (first, -1)). left. split; reflexivity. }
  induction todo as [|m todo IH]; intros done best Hb; simpl.
  - rewrite app_nil_r. exact Hb.
  - replace (done ++ m :: todo) with ((done ++ [m]) ++ todo)
      by (rewrite <- app_assoc; reflexivity).
    apply IH. apply bestOf_step. exact Hb.
Qed.

(** The points of a text signal: [exact] is the equality test and
    [partial] the containment test of the source. *)
Lemma eqb_false_iff (a b : string) : String.eqb a b = false <-> a <> b.
Proof. apply String.eqb_neq. Qed.

(* ------------------------------------------------------------------ *)
(** ** Claims about the best-position resolver *)
(* ------------------------------------------------------------------ *)

(** C4, as the specification states it, fails: the occurrences collected
    inside one node may overlap.  In the text "aaa" the target "aa" is
    collected at 0..2 and at 1..3. *)
Lemma C4_overlapping_occurrences_collected :
  collectMatches aaaDoc "aa" = [mkSpan 0 2; mkSpan 1 3]
  /\ ~ (forall m1 m2,
          In m1 (collectMatches aaaDoc "aa") -> In m2 (collectMatches aaaDoc "aa") ->
          m1 <> m2 -> disjointSpans m1 m2).
Proof.
  split; [vm_compute; reflexivity|]. intros H.
  specialize (H (mkSpan 0 2) (mkSpan 1 3)).
  destruct H as [H|H]; try (simpl in H; lia).
  - left. reflexivity.
  - right. left. reflexivity.
  - discriminate.
Qed.

(** C4, amended: for a non-empty target, [findBestMatchPosition] collects
    every occurrence of the target that lies inside one text node - all of
    them, overlapping ones included - node after node in document order and
    by increasing index inside a node, so that the collected spans start at
    strictly increasing positions; and it returns [null] exactly when there
    is no such occurrence. *)
Theorem C4_every_occurrence_collected (doc : Fragment) (t : string) :
  JS.truthy t = true ->
  collectMatches doc t = allOccurrences doc t
  /\ (forall m, In m (collectMatches doc t) <->
        exists text ms pos a b,
          In (Text text ms, pos) (descendants doc)
          /\ text = String.append a (String.append t b)
          /\ from m = pos + JS.length a
          /\ to m = from m + JS.length t)
  /\ ForallOrdPairs (fun x y => from x < from y) (collectMatches doc t)
  /\ (forall ctx, findBestMatchPosition (Some doc) t ctx = None <-> allOccurrences doc t = []).
Proof.
  intros Ht. pose proof (collectMatches_allOccurrences doc t Ht) as E.
  split; [exact E|]. rewrite E. split; [apply allOccurrences_In|].
  split; [apply allOccurrences_increasing; exact Ht|].
  intros ctx. unfold findBestMatchPosition. rewrite Ht, E. simpl negb. cbv iota.
  destruct (allOccurrences doc t) as [|m1 [|m2 rest]].
  - tauto.
  - split; discriminate.
  - destruct ctx; split; discriminate.
Qed.

Lemma C4_every_occurrence_collected_witness :
  JS.truthy "quick fox" = true
  /\ collectMatches foxDoc "quick fox" = allOccurrences foxDoc "quick fox".
Proof.
  split; [reflexivity|].
  exact (proj1 (C4_every_occurrence_collected foxDoc "quick fox" eq_refl)).
Defined.

Lemma occursInNode_In (doc : Fragment) (t : string) (m : Span) :
  occursInNode doc t m <-> In m (allOccurrences doc t).
Proof. symmetry. apply allOccurrences_In. Qed.

(** C5, as the specification states it, fails: the document "quick fox"
    with "ck" in bold holds the word "quick" exactly once, but no text
    node holds it, and the function returns [null] with or without a
    context. *)
Lemma C5_occurrence_across_text_nodes :
  textContent splitQuick = "quick fox"
  /\ occurrencesIn (textContent splitQuick) "quick" = [0%nat]
  /\ findBestMatchPosition (Some splitQuick) "quick" None = None
  /\ findBestMatchPosition (Some splitQuick) "quick" (Some foxCtx) = None.
Proof. repeat split; vm_compute; reflexivity. Qed.

(** C5, amended: when exactly one occurrence of a non-empty target lies
    inside a text node of the document, [findBestMatchPosition] returns
    it whatever the context; when several do and no context is passed,
    the function returns one of them, and every other one starts at a
    later position. *)
Theorem C5_single_occurrence_or_earliest (doc : Fragment) (t : string) :
  JS.truthy t = true ->
  (forall m,
     occursInNode doc t m ->
     (forall m', occursInNode doc t m' -> m' = m) ->
     forall ctx, findBestMatchPosition (Some doc) t ctx = Some m)
  /\ (forall m m',
        occursInNode doc t m -> occursInNode doc t m' -> m <> m' ->
        exists m1,
          findBestMatchPosition (Some doc) t None = Some m1
          /\ occursInNode doc t m1
          /\ forall x, occursInNode doc t x -> x = m1 \/ from m1 < from x).
Proof.
  intros Ht. pose proof (collectMatches_allOccurrences doc t Ht) as E.
  pose proof (allOccurrences_increasing doc t Ht) as Hinc.
  unfold findBestMatchPosition. rewrite Ht, E. simpl negb. cbv iota. split.
  - intros m Hm Huniq ctx. apply occursInNode_In in Hm.
    destruct (allOccurrences doc t) as [|x [|y rest]] eqn:El.
    + destruct Hm.
    + destruct Hm as [<- | []]. reflexivity.
    + exfalso.
      assert (Hx : x = m) by (apply Huniq, occursInNode_In; rewrite El; left; reflexivity).
      assert (Hy : y = m)
        by (apply Huniq, occursInNode_In; rewrite El; right; left; reflexivity).
      pose proof (FOP_head_least _ _ _ Hinc y (or_introl eq_refl)) as Hlt.
      cbv beta in Hlt. subst. lia.
  - intros m m' Hm Hm' Hne. apply occursInNode_In in Hm, Hm'.
    destruct (allOccurrences doc t) as [|m1 [|m2 rest]] eqn:El.
    + destruct Hm.
    + destruct Hm as [<- | []]. destruct Hm' as [<- | []]. contradiction.
    + exists m1. split; [reflexivity|]. split.
      * apply occursInNode_In. rewrite El. left. reflexivity.
      * intros x Hx. apply occursInNode_In in Hx. rewrite El in Hx.
        destruct Hx as [<- | Hx]; [left; reflexivity | right].
        exact (FOP_head_least _ _ _ Hinc x Hx).
Qed.

(** The two occurrences of "quick fox" in the scenario of the
    specification: without context the first one is returned. *)
Lemma C5_single_occurrence_or_earliest_witness :
  JS.truthy "quick fox" = true
  /\ exists m1,
       findBestMatchPosition (Some foxDoc) "quick fox" None = Some m1
       /\ occursInNode foxDoc "quick fox" m1
       /\ forall x, occursInNode foxDoc "quick fox" x -> x = m1 \/ from m1 < from x.
Proof.
  split; [reflexivity|].
  apply (proj2 (C5_single_occurrence_or_earliest foxDoc "quick fox" eq_refl)
           (mkSpan 4 13) (mkSpan 25 34)).
  - exists foxText, [], 0, "The ", " jumps. The quick fox runs.".
    repeat split. left. reflexivity.
  - exists foxText, [], 0, "The quick fox jumps. The ", " runs.".
    repeat split. left. reflexivity.
  - discriminate.
Defined.

(** The scenario of the specification, read with the text node at
    position 0: the second "quick fox" is preceded by "The " as well, so
    it scores 50 and not 0. *)
Example second_occurrence_scores_50 :
  collectMatches foxDoc "quick fox" = [mkSpan 4 13; mkSpan 25 34]
  /\ map (score foxDoc foxCtx) (collectMatches foxDoc "quick fox") = [100; 50]
  /\ map (specScore foxDoc foxCtx) (collectMatches foxDoc "quick fox") = [100; 50].
Proof. repeat split; vm_compute; reflexivity. Qed.

(** With several occurrences and a context the function returns an
    occurrence of maximal score, by the score it computes, before which
    every occurrence scores strictly less: the first of the best
    ones. *)
Lemma findBestMatchPosition_first_of_best (doc : Fragment) (t : string)
    (ctx : PositionContext) :
  JS.truthy t = true ->
  (2 <= List.length (collectMatches doc t))%nat ->
  exists best l1 l2,
    findBestMatchPosition (Some doc) t (Some ctx) = Some best
    /\ collectMatches doc t = l1 ++ best :: l2
    /\ (forall m, In m l1 -> score doc ctx m < score doc ctx best)
    /\ (forall m, In m l2 -> score doc ctx m <= score doc ctx best).
Proof.
  intros Ht Hlen.
  unfold findBestMatchPosition. rewrite Ht. simpl negb. cbv iota.
  destruct (collectMatches doc t) as [|m1 [|m2 rest]] eqn:E; simpl in Hlen; try lia.
  pose proof (pickBest_bestOf doc ctx m1 (m1 :: m2 :: rest)) as [[H _] | [_ [l1 [l2 [H [H1 H2]]]]]].
  - discriminate.
  - exists (fst (pickBest doc ctx m1 (m1 :: m2 :: rest))), l1, l2. auto.
Qed.

(** C3: the scoring takes the text before and after an occurrence out of
    [doc.textContent] at the document positions of the occurrence.
    These are no indices of that text once the text lies inside a block:
    in a paragraph every position is one more than the index.  For the
    paragraph "The quick fox runs. The quick fox jumps." and the context
    "The " / " jumps", the text before both occurrences is "The " and
    the text after the second is " jumps": by the points of the
    specification the first scores 50 and the second 100.  The code
    reads "he q" before both and "runs. " and "jumps." after them,
    scores both 0 and returns the first occurrence, not the best one.
    In the scenario of the specification itself, put into a paragraph,
    both occurrences score 0 where the specification has 100 for the
    first. *)
Theorem C3_positions_read_as_text_indices :
  collectMatches runsFirstPara "quick fox" = [mkSpan 5 14; mkSpan 25 34]
  /\ JS.sliceFrom (textBeforePos runsFirstPara 25) (-4) = "The "
  /\ JS.slice (textFromPos runsFirstPara 34) 0 6 = " jumps"
  /\ map (specScore runsFirstPara foxCtx) (collectMatches runsFirstPara "quick fox") = [50; 100]
  /\ JS.slice (textContent runsFirstPara) (25 - 4) 25 = "he q"
  /\ JS.slice (textContent runsFirstPara) 34 (34 + 6) = "jumps."
  /\ map (score runsFirstPara foxCtx) (collectMatches runsFirstPara "quick fox") = [0; 0]
  /\ findBestMatchPosition (Some runsFirstPara) "quick fox" (Some foxCtx) = Some (mkSpan 5 14)
  /\ collectMatches foxPara "quick fox" = [mkSpan 5 14; mkSpan 26 35]
  /\ map (specScore foxPara foxCtx) (collectMatches foxPara "quick fox") = [100; 50]
  /\ map (score foxPara foxCtx) (collectMatches foxPara "quick fox") = [0; 0].
Proof. repeat split; vm_compute; reflexivity. Qed.

(* ------------------------------------------------------------------ *)
(** ** Threads of the comments map *)
(* ------------------------------------------------------------------ *)

Lemma existsb_eqb_In (x : string) (l : list string) :
  existsb (String.eqb x) l = true <-> In x l.
Proof.
  rewrite existsb_exists. split.
  - intros [y [Hy He]]. apply String.eqb_eq in He. subst. exact Hy.
  - intros H. exists x. split; [exact H | apply String.eqb_refl].
Qed.

Lemma includes_In (l : list string) (x : string) : includes l x = true <-> In x l.
Proof. apply existsb_eqb_In. Qed.

Lemma commentsOf_snoc (l : CommentsMap) (e : string * Comment) (k : string) :
  commentsOf (l ++ [e]) k
  = commentsOf l k ++ (if String.eqb (threadId (snd e)) k then [snd e] else []).
Proof. unfold commentsOf. rewrite map_app, filter_app. reflexivity. Qed.

Lemma commentsOf_In (m : CommentsMap) (k : string) (c : Comment) :
  In c (commentsOf m k) <-> (exists key, In (key, c) m) /\ threadId c = k.
Proof.
  unfold commentsOf. rewrite filter_In, in_map_iff, String.eqb_eq. split.
  - intros [[[key c'] [Hc Hin]] Hk]. simpl in Hc. subst c'. split; [exists key|]; auto.
  - intros [[key Hin] Hk]. split; [exists (key, c)|]; auto.
Qed.

Lemma threadKeys_snoc (l : CommentsMap) (e : string * Comment) :
  threadKeys (l ++ [e])
  = if JS.truthy (threadId (snd e)) then addKey (threadKeys l) (threadId (snd e))
    else threadKeys l.
Proof. unfold threadKeys. rewrite fold_left_app. reflexivity. Qed.

Lemma addKey_In (keys : list string) (tid k : string) :
  In k (addKey keys tid) <-> In k keys \/ k = tid.
Proof.
  unfold addKey. destruct (existsb (String.eqb tid) keys) eqn:E.
  - apply existsb_eqb_In in E. split; [tauto | intros [H | ->]; auto].
  - rewrite in_app_iff. simpl. split; intros [H | H]; auto.
    + destruct H as [H | []]; auto.
Qed.

Lemma addKey_NoDup (keys : list string) (tid : string) :
  NoDup keys -> NoDup (addKey keys tid).
Proof.
  intros H. unfold addKey. destruct (existsb (String.eqb tid) keys) eqn:E; [exact H|].
  apply NoDup_app; [exact H | repeat constructor; intros [] | ].
  intros x Hx [<- | []].
  apply existsb_eqb_In in Hx. congruence.
Qed.

Lemma threadKeys_NoDup (m : CommentsMap) : NoDup (threadKeys m).
Proof.
  induction m as [|e l IH] using rev_ind; [constructor|].
  rewrite threadKeys_snoc. destruct (JS.truthy _); [apply addKey_NoDup|]; exact IH.
Qed.

Lemma threadKeys_In (m : CommentsMap) (k : string) :
  In k (threadKeys m) <->
  JS.truthy k = true /\ exists key c, In (key, c) m /\ threadId c = k.
Proof.
  induction m as [|e l IH] using rev_ind.
  - simpl. split; [intros [] | intros [_ [key [c [[] _]]]]].
  - rewrite threadKeys_snoc. destruct e as [key0 c0]. simpl snd.
    assert (Hsnoc : (exists key c, In (key, c) (l ++ [(key0, c0)]) /\ threadId c = k)
                    <-> (exists key c, In (key, c) l /\ threadId c = k) \/ threadId c0 = k).
    { split.
      - intros [key [c [Hin Hk]]]. apply in_app_iff in Hin. destruct Hin as [Hin | [Hin | []]].
        + left. eauto.
        + inversion Hin; subst. right. reflexivity.
      - intros [[key [c [Hin Hk]]] | Hk].
        + exists key, c. split; [apply in_app_iff; left|]; auto.
        + exists key0, c0. split; [apply in_app_iff; right; left|]; auto. }
    rewrite Hsnoc. destruct (JS.truthy (threadId c0)) eqn:Et.
    + rewrite addKey_In, IH. split.
      * intros [[Hk H] | ->]; auto.
      * intros [Hk [H | H]]; auto.
    + rewrite IH. split.
      * intros [Hk H]; auto.
      * intros [Hk [H | H]]; auto. congruence.
Qed.

Lemma pushTo_map (F F' : string -> list Comment) (keys : list string) (tid : string) (c : Comment) :
  NoDup keys ->
  (~ In tid keys -> F' tid = [c]) ->
  (In tid keys -> F' tid = F tid ++ [c]) ->
  (forall k, k <> tid -> F' k = F k) ->
  pushTo (map (fun k => (k, F k)) keys) tid c = map (fun k => (k, F' k)) (addKey keys tid).
Proof.
  intros Hnd Hnew Hold Hother. unfold addKey.
  induction keys as [|k keys IH]; simpl.
  - rewrite Hnew by tauto. reflexivity.
  - inversion Hnd as [|? ? Hk Hnd']; subst.
    destruct (String.eqb_spec k tid) as [->|Hne].
    + rewrite String.eqb_refl. simpl. rewrite Hold by (left; reflexivity). f_equal.
      apply map_ext_in. intros k' Hk'. rewrite Hother; [reflexivity|].
      intros ->. contradiction.
    + replace (String.eqb tid k) with false
        by (symmetry; apply String.eqb_neq; congruence).
      simpl orb.
      assert (IH' : pushTo (map (fun k0 => (k0, F k0)) keys) tid c
                    = map (fun k0 => (k0, F' k0))
                          (if existsb (String.eqb tid) keys then keys else keys ++ [tid])).
      { apply IH; auto.
        - intros Hn. apply Hnew. intros [H|H]; [congruence | contradiction].
        - intros Hi. apply Hold. right. exact Hi. }
      rewrite IH'. destruct (existsb (String.eqb tid) keys); simpl;
        rewrite (Hother k Hne); reflexivity.
Qed.

(** The threads before sorting: every thread id once, with its comments
    in the order of the map. *)
Lemma group_unsorted (m : CommentsMap) :
  fold_left
    (fun threads (entry : string * Comment) =>
       let comment := snd entry in
       if JS.truthy (threadId comment)
       then pushTo threads (threadId comment) comment
       else threads)
    m []
  = map (fun k => (k, commentsOf m k)) (threadKeys m).
Proof.
  induction m as [|e l IH] using rev_ind; [reflexivity|].
  rewrite fold_left_app, IH. simpl fold_left. cbv zeta. rewrite threadKeys_snoc.
  destruct (JS.truthy (threadId (snd e))) eqn:Et.
  - apply pushTo_map.
    + apply threadKeys_NoDup.
    + intros Hn. rewrite commentsOf_snoc, String.eqb_refl.
      destruct (commentsOf l (threadId (snd e))) as [|c0 cs] eqn:E; [reflexivity|].
      exfalso. apply Hn. apply threadKeys_In. split; [exact Et|].
      assert (Hc : In c0 (commentsOf l (threadId (snd e)))) by (rewrite E; left; reflexivity).
      apply commentsOf_In in Hc. destruct Hc as [[key Hin] Hk]. eauto.
    + intros _. rewrite commentsOf_snoc, String.eqb_refl. reflexivity.
    + intros k Hk. rewrite commentsOf_snoc.
      replace (String.eqb (threadId (snd e)) k) with false
        by (symmetry; apply String.eqb_neq; congruence).
      rewrite app_nil_r. reflexivity.
  - apply map_ext_in. intros k Hk. rewrite commentsOf_snoc.
    replace (String.eqb (threadId (snd e)) k) with false; [rewrite app_nil_r; reflexivity|].
    symmetry. apply String.eqb_neq. intros Heq.
    apply threadKeys_In in Hk. destruct Hk as [Hk _]. congruence.
Qed.

Lemma groupCommentsByThread_eq (m : CommentsMap) :
  groupCommentsByThread m
  = map (fun k => (k, sortByCreatedAt (commentsOf m k))) (threadKeys m).
Proof.
  unfold groupCommentsByThread. rewrite group_unsorted, map_map. reflexivity.
Qed.

Lemma groupCommentsByThread_In (m : CommentsMap) (tid : string) (comments : list Comment) :
  In (tid, comments) (groupCommentsByThread m) <->
  In tid (threadKeys m) /\ comments = sortByCreatedAt (commentsOf m tid).
Proof.
  rewrite groupCommentsByThread_eq, in_map_iff. split.
  - intros [k [Hk Hin]]. inversion Hk; subst. auto.
  - intros [Hin ->]. exists tid. auto.
Qed.

Lemma insertByCreatedAt_In (c x : Comment) (l : list Comment) :
  In x (insertByCreatedAt c l) <-> x = c \/ In x l.
Proof.
  induction l as [|y l IH]; simpl.
  - intuition.
  - destruct (createdAt c <=? createdAt y); simpl.
    + intuition.
    + rewrite IH. intuition.
Qed.

Lemma sortByCreatedAt_In (x : Comment) (l : list Comment) :
  In x (sortByCreatedAt l) <-> In x l.
Proof.
  unfold sortByCreatedAt. induction l as [|y l IH]; simpl; [tauto|].
  rewrite insertByCreatedAt_In, IH. intuition.
Qed.

(** The root comment the plugin reads off a thread is a record of the
    map, of that thread, with no parent. *)
Lemma rootComment_in_map (m : CommentsMap) (tid : string) (comments : list Comment)
    (root : Comment) :
  In (tid, comments) (groupCommentsByThread m) ->
  rootComment comments = Some root ->
  (exists key, In (key, root) m) /\ threadId root = tid /\ parentId root = None.
Proof.
  intros Hin Hroot. apply groupCommentsByThread_In in Hin. destruct Hin as [_ ->].
  unfold rootComment in Hroot. apply find_some in Hroot. destruct Hroot as [Hr Hp].
  apply sortByCreatedAt_In, commentsOf_In in Hr. destruct Hr as [Hk Ht].
  repeat split; auto. destruct (parentId root); [discriminate | reflexivity].
Qed.

(* ------------------------------------------------------------------ *)
(** ** Orphan detection *)
(* ------------------------------------------------------------------ *)

Lemma newlyOrphanedIds_In (live : list (option string))
    (threads : list (string * list Comment)) (tid : string) :
  In tid (newlyOrphanedIds live threads) <->
  exists comments,
    In (tid, comments) threads
    /\ setHas live (Some tid) = false
    /\ rootResolved comments = false
    /\ rootOrphaned comments = false.
Proof.
  unfold newlyOrphanedIds.
  rewrite (fold_left_append _
             (fun thread : string * list Comment =>
                if (negb (setHas live (Some (fst thread)))
                    && negb (rootResolved (snd thread))
                    && negb (rootOrphaned (snd thread)))%bool
                then [fst thread] else []))
    by (intros acc x; destruct (_ && _)%bool; [reflexivity | symmetry; apply app_nil_r]).
  simpl. rewrite in_flat_map. split.
  - intros [[k comments] [Hin Hx]]. simpl in Hx.
    destruct (setHas live (Some k)) eqn:E1, (rootResolved comments) eqn:E2,
             (rootOrphaned comments) eqn:E3; simpl in Hx; try contradiction.
    destruct Hx as [<- | []]. exists comments. auto.
  - intros [comments [Hin [H1 [H2 H3]]]]. exists (tid, comments). split; [exact Hin|].
    simpl. rewrite H1, H2, H3. left. reflexivity.
Qed.

Lemma restoredIds_In (live : list (option string))
    (threads : list (string * list Comment)) (tid : string) :
  In tid (restoredIds live threads) <->
  exists comments,
    In (tid, comments) threads
    /\ rootOrphaned comments = true
    /\ setHas live (Some tid) = true.
Proof.
  unfold restoredIds.
  rewrite (fold_left_append _
             (fun thread : string * list Comment =>
                if (rootOrphaned (snd thread) && setHas live (Some (fst thread)))%bool
                then [fst thread] else []))
    by (intros acc x; destruct (_ && _)%bool; [reflexivity | symmetry; apply app_nil_r]).
  simpl. rewrite in_flat_map. split.
  - intros [[k comments] [Hin Hx]]. simpl in Hx.
    destruct (rootOrphaned comments) eqn:E1, (setHas live (Some k)) eqn:E2;
      simpl in Hx; try contradiction.
    destruct Hx as [<- | []]. exists comments. auto.
  - intros [comments [Hin [H1 H2]]]. exists (tid, comments). split; [exact Hin|].
    simpl. rewrite H1, H2. left. reflexivity.
Qed.

Lemma rewriteRoots_keys ids f m : map fst (rewriteRoots ids f m) = map fst m.
Proof.
  unfold rewriteRoots. rewrite map_map. apply map_ext. intros [k c]. simpl.
  destruct (_ && _)%bool; reflexivity.
Qed.

Lemma rewriteRoots_each ids f m :
  Forall2 (fun e e' => snd e' = snd e \/ snd e' = f (snd e)) m (rewriteRoots ids f m).
Proof.
  induction m as [|[k c] m IH]; simpl; constructor; auto.
  simpl. destruct (_ && _)%bool; simpl; auto.
Qed.

Lemma rewriteRoots_hit ids f m key c :
  In (key, c) m -> In (threadId c) ids -> parentId c = None ->
  In (key, f c) (rewriteRoots ids f m).
Proof.
  intros Hin Hi Hp. unfold rewriteRoots. apply in_map_iff. exists (key, c). split; [|exact Hin].
  simpl. apply includes_In in Hi. rewrite Hi, Hp. reflexivity.
Qed.

Lemma rewriteRoots_miss ids f m key c :
  In (key, c) m -> ~ In (threadId c) ids -> In (key, c) (rewriteRoots ids f m).
Proof.
  intros Hin Hi. unfold rewriteRoots. apply in_map_iff. exists (key, c). split; [|exact Hin].
  simpl. destruct (includes ids (threadId c)) eqn:E; [|reflexivity].
  apply includes_In in E. contradiction.
Qed.

Lemma rewriteRoots_nil f m : rewriteRoots [] f m = m.
Proof.
  unfold rewriteRoots. rewrite <- (map_id m) at 2. apply map_ext. intros [k c]. reflexivity.
Qed.

(** The comments map after [markOrphanedComments] once the initial sync is
    complete. *)
Lemma markOrphanedComments_map now live threads w m :
  commentsMap (pluginState w) = Some m ->
  initialSyncComplete (pluginState w) = true ->
  commentsMap (pluginState (markOrphanedComments now live threads w))
  = Some (rewriteRoots (newlyOrphanedIds live threads) (setOrphaned true (Some now)) m).
Proof.
  intros Hm Hs. unfold markOrphanedComments. rewrite Hm, Hs. simpl negb. cbv iota.
  destruct (newlyOrphanedIds live threads) as [|i ids] eqn:E.
  - rewrite rewriteRoots_nil. exact Hm.
  - cbv zeta. simpl view.
    destruct (view w) as [viewState|]; [|reflexivity].
    destruct (hasCommentMark (schema viewState)); [|reflexivity].
    destruct (storedMarks viewState); [|reflexivity].
    destruct (existsb _ _); reflexivity.
Qed.

(** The events after [markOrphanedComments] once the initial sync is
    complete: one batch, when it is not empty. *)
Lemma markOrphanedComments_events now live threads w m :
  commentsMap (pluginState w) = Some m ->
  initialSyncComplete (pluginState w) = true ->
  events (markOrphanedComments now live threads w)
  = events w ++ match newlyOrphanedIds live threads with
                | [] => []
                | ids => [CommentsOrphaned ids]
                end.
Proof.
  intros Hm Hs. unfold markOrphanedComments. rewrite Hm, Hs. simpl negb. cbv iota.
  destruct (newlyOrphanedIds live threads) as [|i ids] eqn:E.
  - symmetry. apply app_nil_r.
  - cbv zeta. simpl view. simpl events.
    destruct (view w) as [viewState|]; [|reflexivity].
    destruct (hasCommentMark (schema viewState)); [|reflexivity].
    destruct (storedMarks viewState); [|reflexivity].
    destruct (existsb _ _); reflexivity.
Qed.

Lemma thread_unique (m : CommentsMap) (tid : string) (c1 c2 : list Comment) :
  In (tid, c1) (groupCommentsByThread m) -> In (tid, c2) (groupCommentsByThread m) -> c1 = c2.
Proof.
  intros H1 H2. apply groupCommentsByThread_In in H1, H2.
  destruct H1 as [_ ->]. destruct H2 as [_ ->]. reflexivity.
Qed.

(* ------------------------------------------------------------------ *)
(** ** Recovery of missing marks *)
(* ------------------------------------------------------------------ *)

Lemma addMark_steps excl tr from to mk step :
  In step (steps (addMark excl tr from to mk)) ->
  In step (steps tr) \/ exists f t, step = AddMarkStep f t mk.
Proof.
  unfold addMark. simpl. rewrite in_app_iff, in_flat_map.
  intros [H | [[node pos] [_ H]]]; [left; exact H | right].
  destruct (_ && _)%bool; [|contradiction].
  destruct H as [<- | []]. eauto.
Qed.

(** Every step of the recovery transaction marks a thread that has no
    live mark and whose root comment is not resolved. *)
Lemma recoveryTransaction_steps (state : EditorState) (m : CommentsMap) (step : Step) :
  In step (steps (snd (recoveryTransaction state m))) ->
  exists f t tid comments root,
    step = AddMarkStep f t (createComment tid)
    /\ In (tid, comments) (groupCommentsByThread m)
    /\ setHas (getThreadIdsWithMarks state) (Some tid) = false
    /\ rootComment comments = Some root
    /\ resolved root = false.
Proof.
  unfold recoveryTransaction.
  set (P := fun acc : bool * Transaction =>
              forall s, In s (steps (snd acc)) ->
                exists f t tid comments root,
                  s = AddMarkStep f t (createComment tid)
                  /\ In (tid, comments) (groupCommentsByThread m)
                  /\ setHas (getThreadIdsWithMarks state) (Some tid) = false
                  /\ rootComment comments = Some root
                  /\ resolved root = false).
  enough (H : forall l acc,
             (forall x, In x l -> In x (groupCommentsByThread m)) -> P acc ->
             P (fold_left
                  (fun (acc : bool * Transaction) (thread : string * list Comment) =>
                     let '(tid, comments) := thread in
                     if setHas (getThreadIdsWithMarks state) (Some tid) then acc
                     else
                       match rootComment comments with
                       | None => acc
                       | Some root =>
                           if resolved root then acc
                           else if (negb (JS.truthy (selectedText root))
                                    || (JS.length (JS.trim (selectedText root)) =? 0))%bool
                                then acc
                           else
                             match findBestMatchPosition (Some (doc state)) (selectedText root)
                                                         (positionContext root) with
                             | Some m0 =>
                                 (true, addMark (commentExcludes (schema state)) (snd acc)
                                                (from m0) (to m0) (createComment tid))
                             | None => acc
                             end
                       end) l acc)).
  { intros Hs.
    apply (H (groupCommentsByThread m) (false, newTr (doc state)));
      [auto | intros s [] | exact Hs]. }
  induction l as [|[tid comments] l IH]; intros acc Hsub Hacc; [exact Hacc|].
  rewrite fold_left_cons.
  apply IH; [intros x Hx; apply Hsub; right; exact Hx|].
  destruct (setHas (getThreadIdsWithMarks state) (Some tid)) eqn:Elive; [exact Hacc|].
  destruct (rootComment comments) as [root|] eqn:Eroot; [|exact Hacc].
  destruct (resolved root) eqn:Eres; [exact Hacc|].
  destruct (negb (JS.truthy (selectedText root))
            || (JS.length (JS.trim (selectedText root)) =? 0))%bool; [exact Hacc|].
  destruct (findBestMatchPosition (Some (doc state)) (selectedText root)
                                  (positionContext root)) as [m0|]; [|exact Hacc].
  intros s Hs. cbn [snd] in Hs. apply addMark_steps in Hs. destruct Hs as [Hs | [f [t ->]]].
  - apply Hacc. exact Hs.
  - exists f, t, tid, comments, root.
    split; [reflexivity|]. split; [apply Hsub; left; reflexivity|]. auto.
Qed.

Lemma withOrphan_setOrphaned (flag : bool) (at_ : option Z) (c : Comment) :
  withOrphan flag at_ c (setOrphaned flag at_ c).
Proof. repeat split. Qed.

Lemma rewriteRoots_flags ids flag at_ m :
  Forall2 (fun e e' => snd e' = snd e \/ withOrphan flag at_ (snd e) (snd e'))
          m (rewriteRoots ids (setOrphaned flag at_) m).
Proof.
  eapply Forall2_impl; [|apply rewriteRoots_each].
  intros e e' [H | H]; [left; exact H | right; rewrite H; apply withOrphan_setOrphaned].
Qed.

(** C1: once the initial sync is complete, one run of
    [markOrphanedComments] over the threads of the comments map keeps
    every record under its key - none is deleted or added, and a record
    either stays as it is or gets [orphaned = true] and
    [orphanedAt = now] with its other fields unchanged.  For a thread
    without live mark whose root comment is neither resolved nor
    orphaned, the root comment is a record of the map, and under its key
    the map afterwards holds that record with [orphaned = true] and
    [orphanedAt = now]; so it does for every root record of the thread.
    The records of a thread whose root comment is resolved are left as
    they are, and the transaction that [recoverMissingMarks] builds has
    no step that marks such a thread. *)
Theorem C1_orphan_detection (now : Z) (live : list (option string)) (w : World)
    (m : CommentsMap) :
  commentsMap (pluginState w) = Some m ->
  initialSyncComplete (pluginState w) = true ->
  let threads := groupCommentsByThread m in
  exists m',
    commentsMap (pluginState (markOrphanedComments now live threads w)) = Some m'
    /\ map fst m' = map fst m
    /\ Forall2 (fun e e' => snd e' = snd e \/ withOrphan true (Some now) (snd e) (snd e')) m m'
    /\ (forall tid comments root,
          In (tid, comments) threads ->
          setHas live (Some tid) = false ->
          rootComment comments = Some root ->
          resolved root = false ->
          orphaned root = false ->
          (exists key root',
              In (key, root) m /\ In (key, root') m'
              /\ orphaned root' = true /\ orphanedAt root' = Some now
              /\ withOrphan true (Some now) root root')
          /\ (forall key c, In (key, c) m -> threadId c = tid -> parentId c = None ->
                exists c', In (key, c') m'
                           /\ orphaned c' = true /\ orphanedAt c' = Some now
                           /\ withOrphan true (Some now) c c'))
    /\ (forall tid comments,
          In (tid, comments) threads ->
          rootResolved comments = true ->
          (forall key c, In (key, c) m -> threadId c = tid -> In (key, c) m')
          /\ (forall state f t,
                ~ In (AddMarkStep f t (createComment tid))
                     (steps (snd (recoveryTransaction state m))))).
Proof.
  intros Hm Hs threads.
  exists (rewriteRoots (newlyOrphanedIds live threads) (setOrphaned true (Some now)) m).
  split; [apply markOrphanedComments_map; assumption|].
  split; [apply rewriteRoots_keys|].
  split; [apply rewriteRoots_flags|].
  split.
  - intros tid comments root Hin Hlive Hroot Hres Horph.
    assert (Hnew : In tid (newlyOrphanedIds live threads)).
    { apply newlyOrphanedIds_In. exists comments.
      unfold rootResolved, rootOrphaned. rewrite Hroot. auto. }
    destruct (rootComment_in_map m tid comments root Hin Hroot) as [[key Hkey] [Ht Hp]].
    split.
    + exists key, (setOrphaned true (Some now) root). split; [exact Hkey|].
      split; [apply rewriteRoots_hit; auto; rewrite Ht; exact Hnew|].
      split; [reflexivity|]. split; [reflexivity|]. apply withOrphan_setOrphaned.
    + intros key' c Hc Htc Hpc. exists (setOrphaned true (Some now) c).
      split; [apply rewriteRoots_hit; auto; rewrite Htc; exact Hnew|].
      split; [reflexivity|]. split; [reflexivity|]. apply withOrphan_setOrphaned.
  - intros tid comments Hin Hres. split.
    + intros key c Hc Htc. apply rewriteRoots_miss; [exact Hc|].
      rewrite Htc. intros Hnew. apply newlyOrphanedIds_In in Hnew.
      destruct Hnew as [comments' [Hin' [_ [Hres' _]]]].
      rewrite (thread_unique m tid comments' comments Hin' Hin) in Hres'. congruence.
    + intros state f t Hstep. apply recoveryTransaction_steps in Hstep.
      destruct Hstep as [f' [t' [tid' [comments' [root [Heq [Hin' [_ [Hroot Hr]]]]]]]]].
      inversion Heq; subst tid'.
      rewrite (thread_unique m tid comments' comments Hin' Hin) in Hroot.
      unfold rootResolved in Hres. rewrite Hroot in Hres. congruence.
Qed.

(** In the example, thread "t2" has lost its text: its root comment is
    flagged at time 100, under its key. *)
Lemma C1_orphan_detection_witness :
  commentsMap (pluginState (worldOf threeThreads markedState)) = Some threeThreads
  /\ initialSyncComplete (pluginState (worldOf threeThreads markedState)) = true
  /\ exists m',
       commentsMap
         (pluginState
            (markOrphanedComments 100 (getThreadIdsWithMarks markedState)
               (groupCommentsByThread threeThreads) (worldOf threeThreads markedState)))
       = Some m'
       /\ map fst m' = map fst threeThreads
       /\ exists key root',
            In (key, rootOf "t2" "lazy dog" 11) threeThreads /\ In (key, root') m'
            /\ orphaned root' = true /\ orphanedAt root' = Some 100.
Proof.
  split; [reflexivity|]. split; [reflexivity|].
  destruct (C1_orphan_detection 100 (getThreadIdsWithMarks markedState)
              (worldOf threeThreads markedState) threeThreads eq_refl eq_refl)
    as [m' [H1 [H2 [_ [H4 _]]]]].
  exists m'. split; [exact H1|]. split; [exact H2|].
  destruct (H4 "t2" [rootOf "t2" "lazy dog" 11; replyTo "r2" "t2" 12]
               (rootOf "t2" "lazy dog" 11)) as [[key [root' [Ha [Hb [Hc [Hd _]]]]]] _];
    try reflexivity.
  - vm_compute. auto.
  - exists key, root'. auto.
Defined.

(** Before the initial sync is complete the pass does nothing. *)
Lemma markOrphanedComments_before_sync now live threads w :
  initialSyncComplete (pluginState w) = false ->
  markOrphanedComments now live threads w = w.
Proof.
  intros H. unfold markOrphanedComments. rewrite H.
  destruct (commentsMap (pluginState w)); reflexivity.
Qed.

(** The run of the scenario: thread "t2" lost its text and is orphaned at
    time 100, the anchored "t1" and the resolved "t3" are left alone. *)
Example orphan_detection_run :
  let w' := markOrphanedComments 100 (getThreadIdsWithMarks markedState)
              (groupCommentsByThread threeThreads) (worldOf threeThreads markedState) in
  commentsMap (pluginState w')
  = Some [("t1", rootOf "t1" "quick fox" 10);
          ("t2", setOrphaned true (Some 100) (rootOf "t2" "lazy dog" 11));
          ("r2", replyTo "r2" "t2" 12);
          ("t3", mkComment "t3" "t3" None "root" 13 true false None "jumps" None)]
  /\ events w' = [CommentsOrphaned ["t2"]].
Proof. split; vm_compute; reflexivity. Qed.


(* ------------------------------------------------------------------ *)
(** ** Slices of a text *)
(* ------------------------------------------------------------------ *)

Lemma take_length (n : nat) (s : string) :
  String.length (JS.take n s) = Nat.min n (String.length s).
Proof.
  revert s. induction n as [|n IH]; intros s; simpl; [reflexivity|].
  destruct s; simpl; [reflexivity|]. rewrite IH. reflexivity.
Qed.

Lemma take_drop (n : nat) (s : string) : String.append (JS.take n s) (JS.drop n s) = s.
Proof.
  revert s. induction n as [|n IH]; intros s; simpl; [reflexivity|].
  destruct s; simpl; [reflexivity|]. rewrite IH. reflexivity.
Qed.

Lemma take_all (n : nat) (s : string) : (String.length s <= n)%nat -> JS.take n s = s.
Proof.
  revert s. induction n as [|n IH]; intros s H; destruct s; simpl in *; try reflexivity; try lia.
  rewrite IH by lia. reflexivity.
Qed.

Lemma take_take_drop (a b : nat) (s : string) :
  String.append (JS.take a s) (JS.take b (JS.drop a s)) = JS.take (a + b) s.
Proof.
  revert s. induction a as [|a IH]; intros s; simpl; [reflexivity|].
  destruct s; simpl.
  - destruct b; reflexivity.
  - rewrite IH. reflexivity.
Qed.

Lemma slice_in_range (t : string) (a b : Z) :
  0 <= a -> a <= b -> b <= JS.length t ->
  JS.slice t a b = JS.take (Z.to_nat (b - a)) (JS.drop (Z.to_nat a) t).
Proof.
  intros Ha Hab Hb. unfold JS.slice, JS.relIndex.
  replace (a <? 0) with false by (symmetry; apply Z.ltb_ge; lia).
  replace (b <? 0) with false by (symmetry; apply Z.ltb_ge; lia).
  rewrite !Z.min_l by lia. reflexivity.
Qed.

Lemma slice_length (t : string) (a b : Z) :
  0 <= a -> a <= b -> b <= JS.length t -> JS.length (JS.slice t a b) = b - a.
Proof.
  intros Ha Hab Hb. rewrite slice_in_range by assumption.
  unfold JS.length in *. rewrite take_length, drop_length by lia. lia.
Qed.

Lemma slice_full (t : string) : JS.slice t 0 (JS.length t) = t.
Proof.
  rewrite slice_in_range by (pose proof (length_nonneg t); lia).
  simpl JS.drop. apply take_all. unfold JS.length. lia.
Qed.

(** Cutting a text at [a] and [b] loses nothing. *)
Lemma slice_three (t : string) (a b : Z) :
  0 <= a -> a <= b -> b <= JS.length t ->
  String.append (JS.slice t 0 a)
    (String.append (JS.slice t a b) (JS.slice t b (JS.length t))) = t.
Proof.
  intros Ha Hab Hb. unfold JS.length in *.
  rewrite !slice_in_range by (unfold JS.length; lia).
  simpl JS.drop. rewrite Z.sub_0_r.
  replace (JS.take (Z.to_nat (Z.of_nat (String.length t) - b)) (JS.drop (Z.to_nat b) t))
    with (JS.drop (Z.to_nat b) t)
    by (symmetry; apply take_all; rewrite drop_length by lia; lia).
  replace (Z.to_nat b) with (Z.to_nat a + Z.to_nat (b - a))%nat by lia.
  rewrite <- drop_drop, take_drop, take_drop. reflexivity.
Qed.

(* ------------------------------------------------------------------ *)
(** ** Mark steps *)
(* ------------------------------------------------------------------ *)

Lemma markEq_eq (a b : Mark) : markEq a b = true <-> a = b.
Proof.
  unfold markEq. destruct a as [ta ia], b as [tb ib]. simpl.
  rewrite andb_true_iff, String.eqb_eq. split.
  - intros [-> H]. f_equal. destruct ia, ib; simpl in H; try discriminate; auto.
    apply String.eqb_eq in H. congruence.
  - intros H. inversion H; subst. split; [reflexivity|].
    destruct ib; simpl; auto. apply String.eqb_refl.
Qed.

Lemma eqId_eq (a b : option string) : eqId a b = true <-> a = b.
Proof.
  destruct a, b; simpl; try (split; [discriminate | intros H; discriminate H]); try tauto.
  rewrite String.eqb_eq. split; congruence.
Qed.

Lemma sameMarks_eq (a b : list Mark) : sameMarks a b = true -> a = b.
Proof.
  unfold sameMarks. revert b. induction a as [|x a IH]; intros [|y b]; simpl;
    try reflexivity; try discriminate.
  rewrite !andb_true_iff. intros [Hl [Hxy Hr]].
  apply markEq_eq in Hxy. subst y. f_equal. apply IH. rewrite Hl, Hr. reflexivity.
Qed.

Lemma isInSet_In (m : Mark) (set : list Mark) : isInSet m set = true <-> In m set.
Proof.
  unfold isInSet. rewrite existsb_exists. split.
  - intros [x [Hx He]]. apply markEq_eq in He. subst. exact Hx.
  - intros H. exists m. split; [exact H | apply markEq_eq; reflexivity].
Qed.

Lemma removeFromSet_In (m x : Mark) (set : list Mark) :
  In x (removeFromSet m set) <-> In x set /\ x <> m.
Proof.
  unfold removeFromSet. rewrite filter_In, negb_true_iff. split; intros [H1 H2]; split; auto.
  - intros ->. rewrite (proj2 (markEq_eq m m) eq_refl) in H2. discriminate.
  - destruct (markEq m x) eqn:E; [|reflexivity]. apply markEq_eq in E. congruence.
Qed.

Lemma addToSet_In (excl : bool) (m x : Mark) (set : list Mark) :
  In x (addToSet excl m set) -> In x set \/ x = m.
Proof.
  unfold addToSet. destruct (isInSet m set); [auto|].
  rewrite in_app_iff, filter_In. simpl. intros [[H _] | [H | []]]; auto.
Qed.

Lemma addToSet_has (excl : bool) (m : Mark) (set : list Mark) : In m (addToSet excl m set).
Proof.
  unfold addToSet. destruct (isInSet m set) eqn:E.
  - apply isInSet_In. exact E.
  - apply in_app_iff. right. left. reflexivity.
Qed.

Lemma fragSize_app (a b : Fragment) : fragSize (a ++ b) = fragSize a + fragSize b.
Proof.
  induction a as [|x a IH]; [reflexivity|].
  change ((x :: a) ++ b) with (x :: (a ++ b)).
  rewrite !fragSize_cons, IH. lia.
Qed.

Lemma descLoop_app (a b : Fragment) (pos : Z) :
  descLoop descNode (a ++ b) pos
  = descLoop descNode a pos ++ descLoop descNode b (pos + fragSize a).
Proof.
  revert pos. induction a as [|x a IH]; intros pos.
  - change (fragSize []) with 0. rewrite Z.add_0_r. reflexivity.
  - change ((x :: a) ++ b) with (x :: (a ++ b)).
    rewrite !descLoop_cons, IH, fragSize_cons, <- app_assoc.
    replace (pos + nodeSize x + fragSize a) with (pos + (nodeSize x + fragSize a)) by lia.
    reflexivity.
Qed.

Lemma fragSize_single (n : Node) : fragSize [n] = nodeSize n.
Proof. rewrite fragSize_cons. change (fragSize []) with 0. lia. Qed.

Lemma textPiece_size (t : string) (ms : list Mark) : fragSize (textPiece t ms) = JS.length t.
Proof. destruct t; [reflexivity|]. unfold textPiece. simpl JS.truthy. apply fragSize_single. Qed.

Lemma textPiece_desc (t : string) (ms : list Mark) (pos : Z) (call : Node * Z) :
  In call (descLoop descNode (textPiece t ms) pos) ->
  call = (Text t ms, pos) /\ 0 < JS.length t.
Proof.
  destruct t; simpl; [intros []|]. intros [<- | []]. split; [reflexivity|].
  unfold JS.length. simpl. lia.
Qed.

Lemma mapLoop_cons (visit : Node -> Z -> list Node) (n : Node) (c : Fragment) (pos : Z) :
  mapLoop visit (n :: c) pos = visit n pos ++ mapLoop visit c (pos + nodeSize n).
Proof. reflexivity. Qed.

Lemma mapMarksNode_Inner atoms g from to ty a ms c pos :
  mapMarksNode atoms g from to (Inner ty a ms c) pos
  = [Inner ty a
       (if (negb atoms && isInline (Inner ty a ms c)
            && overlaps from to pos (nodeSize (Inner ty a ms c)))%bool
        then g ms else ms)
       (mapLoop (mapMarksNode atoms g from to) c (pos + 1))].
Proof. reflexivity. Qed.

Lemma mapLoop_size (visit : Node -> Z -> list Node) (c : Fragment) :
  Forall (fun x => forall pos, fragSize (visit x pos) = nodeSize x) c ->
  forall pos, fragSize (mapLoop visit c pos) = fragSize c.
Proof.
  induction 1 as [|x c Hx _ IH]; intros pos; [reflexivity|].
  rewrite mapLoop_cons, fragSize_app, fragSize_cons, Hx, IH. reflexivity.
Qed.

Lemma overlaps_text_bounds (from to pos len : Z) :
  overlaps from to pos len = true ->
  0 <= Z.max from pos - pos
  /\ Z.max from pos - pos < Z.min to (pos + len) - pos
  /\ Z.min to (pos + len) - pos <= len.
Proof. unfold overlaps. intros H. apply Z.ltb_lt in H. lia. Qed.

(** A mark step keeps the size of every node, hence every position. *)
Lemma mapMarksNode_size (atoms : bool) (g : list Mark -> list Mark) (from to : Z) (n : Node) :
  forall pos, fragSize (mapMarksNode atoms g from to n pos) = nodeSize n.
Proof.
  induction n as [t ms | ty a ms | ty a ms c IH] using Node_induction; intros pos.
  - simpl mapMarksNode.
    destruct (overlaps from to pos (JS.length t)) eqn:Eo; simpl andb; [|apply fragSize_single].
    destruct (negb (sameMarks (g ms) ms)); [|apply fragSize_single].
    apply overlaps_text_bounds in Eo.
    rewrite fragSize_app, fragSize_cons, !textPiece_size.
    simpl nodeSize. rewrite !slice_length by lia. lia.
  - simpl mapMarksNode. destruct (_ && _)%bool; reflexivity.
  - simpl mapMarksNode. rewrite fragSize_single.
    rewrite !nodeSize_Inner, (mapLoop_size _ c IH). lia.
Qed.

Lemma mapMarks_size atoms g from to (doc : Fragment) :
  fragSize (mapMarks atoms g from to doc) = fragSize doc.
Proof.
  apply mapLoop_size. apply Forall_forall. intros x _. apply mapMarksNode_size.
Qed.

Lemma overlaps_false_before (from to pos len : Z) :
  overlaps from to pos len = true ->
  overlaps from to pos (Z.max from pos - pos) = false.
Proof. unfold overlaps. intros H. apply Z.ltb_lt in H. apply Z.ltb_ge. lia. Qed.

Lemma overlaps_false_after (from to pos len : Z) :
  overlaps from to pos len = true ->
  overlaps from to (pos + (Z.min to (pos + len) - pos)) (len - (Z.min to (pos + len) - pos))
  = false.
Proof. unfold overlaps. intros H. apply Z.ltb_lt in H. apply Z.ltb_ge. lia. Qed.

(** Turn the overlap tests in the context into inequalities. *)
Ltac overlap_lia :=
  unfold overlaps in *;
  repeat match goal with
         | H : (_ <? _) = true |- _ => apply Z.ltb_lt in H
         | H : (_ <? _) = false |- _ => apply Z.ltb_ge in H
         | |- (_ <? _) = true => apply Z.ltb_lt
         | |- (_ <? _) = false => apply Z.ltb_ge
         end;
  lia.

Lemma affected_text atoms t ms : affected atoms (Text t ms) = true.
Proof. destruct atoms; reflexivity. Qed.

Lemma derives_self atoms g from to (n : Node) (pos : Z) :
  (affected atoms n = true -> overlaps from to pos (nodeSize n) = true ->
   marksOf n = g (marksOf n)) ->
  derives atoms g from to (n, pos) (n, pos).
Proof.
  intros H. unfold derives. simpl. repeat split; auto; try lia.
  intros Ht Ho. right. apply H; [|exact Ho].
  destruct n; try discriminate Ht. apply affected_text.
Qed.

(** Every node of the document after a mark step comes from a node of the
    document before it. *)
Lemma mapMarksNode_origin (atoms : bool) (g : list Mark -> list Mark) (from to : Z) (n : Node) :
  forall pos new,
    In new (descLoop descNode (mapMarksNode atoms g from to n pos) pos) ->
    exists orig, In orig (descNode n pos) /\ derives atoms g from to orig new.
Proof.
  induction n as [t ms | ty a ms | ty a ms c IH] using Node_induction; intros pos new Hnew.
  - exists (Text t ms, pos). split; [left; reflexivity|].
    simpl mapMarksNode in Hnew.
    destruct (overlaps from to pos (JS.length t)) eqn:Eo; simpl andb in Hnew.
    + destruct (sameMarks (g ms) ms) eqn:Es; simpl negb in Hnew; cbv iota in Hnew.
      * simpl in Hnew. destruct Hnew as [<- | []]. apply derives_self.
        intros _ _. simpl. symmetry. apply sameMarks_eq. exact Es.
      * pose proof (overlaps_false_before _ _ _ _ Eo) as Hb.
        pose proof (overlaps_false_after _ _ _ _ Eo) as Ha.
        apply overlaps_text_bounds in Eo.
        rewrite descLoop_app, textPiece_size in Hnew.
        apply in_app_iff in Hnew. destruct Hnew as [Hnew | Hnew].
        -- apply textPiece_desc in Hnew. destruct Hnew as [-> Hlen].
           rewrite slice_length in Hlen by lia.
           unfold derives. simpl. rewrite !slice_length by lia.
           repeat split; auto; try lia.
           ++ intros _ Ho. exfalso. overlap_lia.
           ++ intros _ Ho. exfalso. overlap_lia.
        -- rewrite descLoop_cons in Hnew. simpl descNode in Hnew.
           rewrite slice_length in Hnew by lia.
           destruct Hnew as [<- | Hnew].
           ++ unfold derives. simpl. rewrite !slice_length by lia.
              repeat split; auto; try lia.
              intros [H | H]; [rewrite affected_text in H; discriminate|].
              exfalso. overlap_lia.
           ++ simpl nodeSize in Hnew. rewrite slice_length in Hnew by lia.
              apply textPiece_desc in Hnew. destruct Hnew as [-> Hlen].
              rewrite slice_length in Hlen by lia.
              unfold derives. simpl. rewrite !slice_length by lia.
              repeat split; auto; try lia.
              ** intros _ Ho. exfalso. overlap_lia.
              ** intros _ Ho. exfalso. overlap_lia.
    + simpl in Hnew. destruct Hnew as [<- | []]. apply derives_self.
      intros _ Ho. simpl in Ho. congruence.
  - exists (Leaf ty a ms, pos). split; [left; reflexivity|].
    simpl mapMarksNode in Hnew.
    destruct (isInline (Leaf ty a ms)) eqn:Ei; simpl andb in Hnew.
    + destruct (overlaps from to pos 1) eqn:Eo.
      * simpl in Hnew. destruct Hnew as [<- | []].
        unfold derives. simpl. repeat split; auto; try lia; try discriminate.
        intros [H | H]; [|congruence].
        unfold affected in H. rewrite Ei in H. simpl in H.
        destruct atoms; discriminate.
      * simpl in Hnew. destruct Hnew as [<- | []]. apply derives_self.
        intros _ Ho. simpl in Ho. congruence.
    + simpl in Hnew. destruct Hnew as [<- | []]. apply derives_self.
      intros Ha. unfold affected in Ha. rewrite Ei in Ha. discriminate.
  - rewrite mapMarksNode_Inner in Hnew.
    rewrite descLoop_cons, descNode_Inner in Hnew.
    change (descLoop descNode [] ?p) with (@nil (Node * Z)) in Hnew.
    rewrite app_nil_r in Hnew.
    destruct Hnew as [<- | Hnew].
    + exists (Inner ty a ms c, pos). split; [left; reflexivity|].
      assert (Hsz : forall ms',
                 nodeSize (Inner ty a ms' (mapLoop (mapMarksNode atoms g from to) c (pos + 1)))
                               = nodeSize (Inner ty a ms c)).
      { intros ms'. rewrite !nodeSize_Inner. f_equal. apply mapLoop_size.
        eapply Forall_impl; [|exact IH]. intros x _. apply mapMarksNode_size. }
      pose proof (nodeSize_nonneg (Inner ty a ms c)) as Hnn.
      unfold derives. cbn [fst snd]. rewrite Hsz.
      unfold affected. cbn [isAtom isText isBlock typeName attrsOf marksOf].
      rewrite orb_false_r.
      destruct atoms, (isInline (Inner ty a ms c)),
        (overlaps from to pos (nodeSize (Inner ty a ms c))); cbn [negb andb];
        repeat split; auto; try lia; try discriminate;
        try (intros [H | H]; discriminate H).
    + assert (Hc : forall p new0,
                 In new0 (descLoop descNode (mapLoop (mapMarksNode atoms g from to) c p) p) ->
                 exists orig, In orig (descLoop descNode c p) /\ derives atoms g from to orig new0).
      { clear Hnew. induction IH as [|x c Hx _ IHc]; intros p new0 Hn; [destruct Hn|].
        rewrite mapLoop_cons, descLoop_app, mapMarksNode_size in Hn.
        rewrite descLoop_cons. apply in_app_iff in Hn. destruct Hn as [Hn | Hn].
        - destruct (Hx p new0 Hn) as [orig [Ho Hd]]. exists orig. split; [|exact Hd].
          apply in_app_iff. left. exact Ho.
        - destruct (IHc _ new0 Hn) as [orig [Ho Hd]]. exists orig. split; [|exact Hd].
          apply in_app_iff. right. exact Ho. }
      destruct (Hc (pos + 1) new Hnew) as [orig [Ho Hd]].
      exists orig. split; [|exact Hd]. rewrite descNode_Inner. right. exact Ho.
Qed.

Lemma mapMarks_origin (atoms : bool) (g : list Mark -> list Mark) (from to : Z)
    (doc : Fragment) (new : Node * Z) :
  In new (descendants (mapMarks atoms g from to doc)) ->
  exists orig, In orig (descendants doc) /\ derives atoms g from to orig new.
Proof.
  unfold descendants, mapMarks. generalize 0 as p. revert new.
  induction doc as [|x c IHc]; intros new p Hn; [destruct Hn|].
  rewrite mapLoop_cons, descLoop_app, mapMarksNode_size in Hn.
  rewrite descLoop_cons. apply in_app_iff in Hn. destruct Hn as [Hn | Hn].
  - destruct (mapMarksNode_origin atoms g from to x p new Hn) as [orig [Ho Hd]].
    exists orig. split; [|exact Hd]. apply in_app_iff. left. exact Ho.
  - destruct (IHc new _ Hn) as [orig [Ho Hd]]. exists orig. split; [|exact Hd].
    apply in_app_iff. right. exact Ho.
Qed.

(* ------------------------------------------------------------------ *)
(** ** Ghost marks *)
(* ------------------------------------------------------------------ *)

Lemma fold_left_flat_map {A B C : Type} (f : A -> C -> A) (g : B -> list C) (l : list B) (a : A) :
  fold_left f (flat_map g l) a = fold_left (fun acc x => fold_left f (g x) acc) l a.
Proof.
  revert a. induction l as [|x l IH]; intros a; simpl; [reflexivity|].
  rewrite fold_left_app. apply IH.
Qed.

Lemma fold_left_ext_all {A B : Type} (f g : A -> B -> A) :
  (forall a x, f a x = g a x) -> forall l a, fold_left f l a = fold_left g l a.
Proof.
  intros H. induction l as [|x l IH]; intros a; simpl; [reflexivity|].
  rewrite H. apply IH.
Qed.

Lemma removeGhostMarks_flat (valid : list string) (newState : EditorState) :
  removeGhostMarks valid newState
  = fold_left (ghostStep valid newState) (markedCalls (doc newState)) None.
Proof.
  unfold removeGhostMarks, markedCalls. rewrite fold_left_flat_map.
  apply fold_left_ext_all. intros fixTr [node pos]. cbn [fst].
  generalize (marksOf node) as ms. intros ms. revert fixTr.
  induction ms as [|m ms IH]; intros fixTr; [reflexivity|].
  cbn [map fold_left]. rewrite <- IH. reflexivity.
Qed.

Lemma inline_size_positive (d : Fragment) (n : Node) (p : Z) :
  noEmptyText d -> In (n, p) (descendants d) -> isInline n = true -> 0 < nodeSize n.
Proof.
  intros Hne Hin _. destruct n as [t ms | ty a ms | ty a ms c].
  - apply (Hne _ _ Hin). reflexivity.
  - simpl. lia.
  - rewrite nodeSize_Inner. pose proof (fragSize_nonneg c). lia.
Qed.

Lemma ghostInv_init valid doc0 : noEmptyText doc0 -> ghostInv valid doc0 [] doc0.
Proof.
  intros Hne [n p] Hin Hi. split; [eapply inline_size_positive; eauto|].
  exists (n, p). repeat split; auto; try lia.
Qed.

Lemma ghostInv_skip valid doc0 done d x :
  ghostInv valid doc0 done d -> isGhost valid (snd x) = false ->
  ghostInv valid doc0 (done ++ [x]) d.
Proof.
  intros Hinv Hx new Hin Hi. destruct (Hinv new Hin Hi) as [Hsz [orig [Ho [Hio [H1 [H2 Hm]]]]]].
  split; [exact Hsz|]. exists orig. repeat split; auto.
  - apply Hm. exact H.
  - intros Hg Hd. apply in_app_iff in Hd. destruct Hd as [Hd | [Hd | []]].
    + destruct (Hm m H) as [_ Hn]. apply Hn; assumption.
    + subst x. simpl in Hx. congruence.
Qed.

Lemma isInline_of_isBlock (a b : Node) : isBlock a = isBlock b -> isInline a = isInline b.
Proof. unfold isInline. intros ->. reflexivity. Qed.

Lemma ghostInv_step valid doc0 done d (x : (Node * Z) * Mark) :
  ghostInv valid doc0 done d ->
  ghostInv valid doc0 (done ++ [x])
    (mapMarks false (removeFromSet (snd x)) (snd (fst x))
              (snd (fst x) + nodeSize (fst (fst x))) d).
Proof.
  intros Hinv new Hin Hi.
  destruct (mapMarks_origin _ _ _ _ _ _ Hin) as [mid [Hmid Hd]].
  destruct Hd as [D1 [D2 [D3 [D4 [D5 [D6 [D7 [D8 [D9 [D10 [D11 _]]]]]]]]]]].
  assert (Himid : isInline (fst mid) = true)
    by (rewrite <- (isInline_of_isBlock _ _ D4); exact Hi).
  destruct (Hinv mid Hmid Himid) as [Hsz [orig [Ho [Hio [H1 [H2 Hm]]]]]].
  split; [auto|]. exists orig. repeat split; auto; try lia.
  - assert (Hmm : In m (marksOf (fst mid))).
    { destruct D8 as [E | E]; rewrite E in H; [exact H|].
      apply removeFromSet_In in H. tauto. }
    apply Hm. exact Hmm.
  - intros Hg Hd. apply in_app_iff in Hd. destruct Hd as [Hd | [Hd | []]].
    + assert (Hmm : In m (marksOf (fst mid))).
      { destruct D8 as [E | E]; rewrite E in H; [exact H|].
        apply removeFromSet_In in H. tauto. }
      destruct (Hm m Hmm) as [_ Hn]. apply Hn; assumption.
    + subst x. cbn [fst snd] in *.
      assert (Haff : affected false (fst mid) = true).
      { unfold affected. rewrite Himid. reflexivity. }
      assert (Hov : overlaps (snd orig) (snd orig + nodeSize (fst orig))
                             (snd new) (nodeSize (fst new)) = true).
      { specialize (D11 Hsz). overlap_lia. }
      rewrite (D9 Haff Hov) in H. apply removeFromSet_In in H. tauto.
Qed.

Lemma ghostInv_fold valid newState (l : list ((Node * Z) * Mark)) :
  forall done fixTr,
    ghostInv valid (doc newState) done (trDoc (orNew fixTr newState)) ->
    ghostInv valid (doc newState) (done ++ l)
      (trDoc (orNew (fold_left (ghostStep valid newState) l fixTr) newState)).
Proof.
  induction l as [|x l IH]; intros done fixTr Hinv.
  - rewrite app_nil_r. exact Hinv.
  - rewrite fold_left_cons.
    replace (done ++ x :: l) with ((done ++ [x]) ++ l) by (rewrite <- app_assoc; reflexivity).
    apply IH. unfold ghostStep. destruct (isGhost valid (snd x)) eqn:Eg.
    + apply ghostInv_step. exact Hinv.
    + apply ghostInv_skip; assumption.
Qed.

Lemma ghostInv_final valid doc0 d :
  ghostInv valid doc0 (markedCalls doc0) d -> ghostFree valid d.
Proof.
  intros Hinv n p m Hin Hi Hm.
  destruct (Hinv (n, p) Hin Hi) as [_ [orig [Ho [_ [_ [_ Hmarks]]]]]].
  destruct (Hmarks m Hm) as [Hmo Hn].
  destruct (isGhost valid m) eqn:Eg; [|reflexivity].
  exfalso. apply Hn; [reflexivity|].
  unfold markedCalls. apply in_flat_map. exists orig. split; [exact Ho|].
  apply in_map. exact Hmo.
Qed.

(** After the removal pass no inline node carries the mark of an unknown
    thread. *)
Lemma removeGhostMarks_ghostFree valid newState :
  noEmptyText (doc newState) ->
  ghostFree valid (trDoc (orNew (removeGhostMarks valid newState) newState)).
Proof.
  intros Hne. rewrite removeGhostMarks_flat. apply (ghostInv_final valid (doc newState)).
  apply (ghostInv_fold valid newState (markedCalls (doc newState)) [] None).
  apply ghostInv_init. exact Hne.
Qed.

(** A ghost mark anywhere in the document makes the removal pass build a
    transaction. *)
Lemma removeGhostMarks_some valid newState n p m :
  In (n, p) (descendants (doc newState)) -> In m (marksOf n) -> isGhost valid m = true ->
  removeGhostMarks valid newState <> None.
Proof.
  intros Hin Hm Hg. rewrite removeGhostMarks_flat.
  assert (Hx : In ((n, p), m) (markedCalls (doc newState))).
  { unfold markedCalls. apply in_flat_map. exists (n, p). split; [exact Hin|].
    apply in_map. exact Hm. }
  assert (Hkeep : forall l tr, fold_left (ghostStep valid newState) l (Some tr) <> None).
  { induction l as [|y l IH]; intros tr; [discriminate|].
    rewrite fold_left_cons. unfold ghostStep at 2. destruct (isGhost valid (snd y)); apply IH. }
  enough (H : forall l acc, In ((n, p), m) l ->
                            fold_left (ghostStep valid newState) l acc <> None)
    by (apply H; exact Hx).
  induction l as [|x l IH]; intros acc Hl; [destruct Hl|].
  rewrite fold_left_cons. destruct Hl as [-> | Hl]; [|apply IH; exact Hl].
  unfold ghostStep at 2. cbn [snd fst]. rewrite Hg. apply Hkeep.
Qed.

Lemma removeMark_steps tr from to mk step :
  In step (steps (removeMark tr from to mk)) ->
  In step (steps tr) \/ exists f t, step = RemoveMarkStep f t mk.
Proof.
  unfold removeMark. simpl. rewrite in_app_iff, in_flat_map.
  intros [H | [[node pos] [_ H]]]; [left; exact H | right].
  destruct (_ && _)%bool; [|contradiction].
  destruct H as [<- | []]. eauto.
Qed.

(** The removal pass only removes marks. *)
Lemma removeGhostMarks_steps valid newState fixTr step :
  removeGhostMarks valid newState = Some fixTr -> In step (steps fixTr) ->
  exists f t m, step = RemoveMarkStep f t m.
Proof.
  rewrite removeGhostMarks_flat.
  enough (H : forall l acc,
             (forall tr s, acc = Some tr -> In s (steps tr) ->
                           exists f t m, s = RemoveMarkStep f t m) ->
             forall tr s, fold_left (ghostStep valid newState) l acc = Some tr ->
                          In s (steps tr) -> exists f t m, s = RemoveMarkStep f t m).
  { intros Hf Hs. eapply (H _ None); eauto. intros tr s Hn. discriminate Hn. }
  induction l as [|x l IH]; intros acc Hacc tr s; [apply Hacc|].
  rewrite fold_left_cons. apply IH. intros tr' s' Htr' Hs'.
  unfold ghostStep in Htr'. destruct (isGhost valid (snd x)); [|eapply Hacc; eauto].
  inversion Htr'; subst tr'. apply removeMark_steps in Hs'.
  destruct Hs' as [Hs' | [f [t ->]]]; [|eauto].
  destruct acc as [tr0|]; [eapply Hacc; eauto | destruct Hs'].
Qed.

Lemma isGhost_valid valid m :
  isValidThread valid (PM.threadId m) = true -> isGhost valid m = false.
Proof. unfold isGhost. intros ->. apply andb_false_r. Qed.

Lemma markOfTextNodes_valid valid calls mark :
  markOfTextNodes valid calls = Some mark -> isValidThread valid (PM.threadId mark) = true.
Proof.
  unfold markOfTextNodes.
  enough (H : forall l acc,
             (forall mk, acc = Some mk -> isValidThread valid (PM.threadId mk) = true) ->
             forall mk,
               fold_left
                 (fun (markToApply : option Mark) (call : Node * Z) =>
                    match markToApply with
                    | Some _ => markToApply
                    | None =>
                        if isText (fst call) then
                          match find isComment (marksOf (fst call)) with
                          | Some mark =>
                              if isValidThread valid (PM.threadId mark) then Some mark else None
                          | None => None
                          end
                        else None
                    end) l acc = Some mk ->
               isValidThread valid (PM.threadId mk) = true).
  { apply H. intros mk Hn. discriminate Hn. }
  induction l as [|x l IH]; intros acc Hacc mk; [apply Hacc|].
  rewrite fold_left_cons. apply IH. intros mk'.
  destruct acc as [a|]; [apply Hacc|].
  destruct (isText (fst x)); [|discriminate].
  destruct (find isComment (marksOf (fst x))) as [c|]; [|discriminate].
  destruct (isValidThread valid (PM.threadId c)) eqn:E; [|discriminate].
  intros H. inversion H; subst. exact E.
Qed.

Lemma markToApply_valid valid oldState oldStart oldEnd mark :
  markToApply valid oldState oldStart oldEnd = Some mark ->
  isValidThread valid (PM.threadId mark) = true.
Proof.
  unfold markToApply.
  destruct (0 <? oldStart).
  - destruct (markOfTextNodes valid (nodesBetween (doc oldState) (oldStart - 1) oldStart))
      as [m1|] eqn:E1.
    + intros H. inversion H; subst. eapply markOfTextNodes_valid; eauto.
    + destruct (oldEnd <? fragSize (doc oldState)).
      * destruct (markOfTextNodes valid (nodesBetween (doc oldState) oldEnd (oldEnd + 1)))
          as [m2|] eqn:E2.
        -- intros H. inversion H; subst. eapply markOfTextNodes_valid; eauto.
        -- destruct (resolve (doc oldState) oldStart) as [rp|]; [|discriminate].
           destruct (find isComment _) as [c|]; [|discriminate].
           destruct (isValidThread valid (PM.threadId c)) eqn:E; [|discriminate].
           intros H. inversion H; subst. exact E.
      * destruct (resolve (doc oldState) oldStart) as [rp|]; [|discriminate].
        destruct (find isComment _) as [c|]; [|discriminate].
        destruct (isValidThread valid (PM.threadId c)) eqn:E; [|discriminate].
        intros H. inversion H; subst. exact E.
  - destruct (oldEnd <? fragSize (doc oldState)).
    + destruct (markOfTextNodes valid (nodesBetween (doc oldState) oldEnd (oldEnd + 1)))
        as [m2|] eqn:E2.
      * intros H. inversion H; subst. eapply markOfTextNodes_valid; eauto.
      * discriminate.
    + discriminate.
Qed.

(** Adding the mark of a known thread brings no ghost mark in. *)
Lemma addMark_ghostFree valid excl d from to m :
  ghostFree valid d -> isGhost valid m = false ->
  ghostFree valid (mapMarks true (addToSet excl m) from to d).
Proof.
  intros Hd Hm n p mk Hin Hi Hmk.
  destruct (mapMarks_origin _ _ _ _ _ _ Hin) as [[n0 p0] [H0 Hder]].
  destruct Hder as [_ [_ [_ [D4 [_ [_ [_ [D8 _]]]]]]]]. cbn [fst snd] in *.
  assert (Hi0 : isInline n0 = true) by (rewrite <- (isInline_of_isBlock _ _ D4); exact Hi).
  destruct D8 as [E | E]; rewrite E in Hmk.
  - eapply Hd; eauto.
  - apply addToSet_In in Hmk. destruct Hmk as [Hmk | ->]; [eapply Hd; eauto | exact Hm].
Qed.

Lemma propagateMarks_ghostFree valid tr oldState newState fixTr :
  ghostFree valid (trDoc (orNew fixTr newState)) ->
  ghostFree valid (trDoc (orNew (propagateMarks valid tr oldState newState fixTr) newState)).
Proof.
  unfold propagateMarks. generalize (List.concat (stepMaps tr)) as l.
  intros l. revert fixTr. induction l as [|[[[oldStart oldEnd] newStart] newEnd] l IH];
    intros fixTr Hf; [exact Hf|].
  rewrite fold_left_cons. apply IH.
  destruct (newStart <? newEnd); [|exact Hf].
  destruct (markToApply valid oldState oldStart oldEnd) as [mark|] eqn:E; [|exact Hf].
  cbn [orNew trDoc addMark]. apply addMark_ghostFree; [exact Hf|].
  apply isGhost_valid. eapply markToApply_valid; eauto.
Qed.

Lemma propagateMarks_some valid tr oldState newState fixTr :
  fixTr <> None -> propagateMarks valid tr oldState newState fixTr <> None.
Proof.
  unfold propagateMarks. generalize (List.concat (stepMaps tr)) as l.
  intros l. revert fixTr. induction l as [|[[[oldStart oldEnd] newStart] newEnd] l IH];
    intros fixTr Hf; [exact Hf|].
  rewrite fold_left_cons. apply IH.
  destruct (newStart <? newEnd); [|exact Hf].
  destruct (markToApply valid oldState oldStart oldEnd); [discriminate | exact Hf].
Qed.

Lemma validThreadIds_keys ps m :
  commentsMap ps = Some m -> validThreadIds ps = threadKeys m.
Proof. unfold validThreadIds. intros ->. reflexivity. Qed.

Lemma newlyOrphanedIds_known live m tid :
  In tid (newlyOrphanedIds live (groupCommentsByThread m)) -> In tid (threadKeys m).
Proof.
  intros H. apply newlyOrphanedIds_In in H. destruct H as [comments [Hin _]].
  apply groupCommentsByThread_In in Hin. tauto.
Qed.

(* ------------------------------------------------------------------ *)
(** ** What a mark step does to the document *)
(* ------------------------------------------------------------------ *)

(** After [addMark] every text and inline leaf node inside the range
    carries the mark. *)
Lemma addMark_doc_marked excl tr from to m new :
  In new (descendants (trDoc (addMark excl tr from to m))) ->
  isInline (fst new) = true -> isAtom (fst new) = true ->
  overlaps from to (snd new) (nodeSize (fst new)) = true ->
  In m (marksOf (fst new)).
Proof.
  intros Hin Hi Ha Ho. cbn [addMark trDoc] in Hin.
  destruct (mapMarks_origin _ _ _ _ _ _ Hin) as [orig [_ Hder]].
  destruct Hder as [_ [_ [_ [D4 [D5 [_ [_ [_ [D9 _]]]]]]]]].
  rewrite D9; [apply addToSet_has | | exact Ho].
  unfold affected. rewrite <- (isInline_of_isBlock _ _ D4), Hi, <- D5, Ha. reflexivity.
Qed.

(** Outside the range [addMark] leaves the marks as they were. *)
Lemma addMark_doc_outside excl tr from to m new :
  In new (descendants (trDoc (addMark excl tr from to m))) ->
  overlaps from to (snd new) (nodeSize (fst new)) = false ->
  exists orig, In orig (descendants (trDoc tr))
               /\ snd orig <= snd new
               /\ snd new + nodeSize (fst new) <= snd orig + nodeSize (fst orig)
               /\ marksOf (fst new) = marksOf (fst orig).
Proof.
  intros Hin Ho. cbn [addMark trDoc] in Hin.
  destruct (mapMarks_origin _ _ _ _ _ _ Hin) as [orig [H0 Hder]].
  destruct Hder as [D1 [D2 [_ [_ [_ [_ [_ [_ [_ [D10 _]]]]]]]]]].
  exists orig. repeat split; auto.
Qed.

Lemma concatText_app (a b : Fragment) :
  concatText nodeText (a ++ b)
  = String.append (concatText nodeText a) (concatText nodeText b).
Proof.
  induction a as [|x a IH]; [reflexivity|].
  change ((x :: a) ++ b) with (x :: (a ++ b)).
  change (concatText nodeText (x :: a ++ b))
    with (String.append (nodeText x) (concatText nodeText (a ++ b))).
  change (concatText nodeText (x :: a))
    with (String.append (nodeText x) (concatText nodeText a)).
  rewrite IH. clear. induction (nodeText x) as [|c s IHs]; simpl; [reflexivity|].
  rewrite IHs. reflexivity.
Qed.

Lemma append_empty_r (s : string) : String.append s EmptyString = s.
Proof. induction s; simpl; [reflexivity|]. rewrite IHs. reflexivity. Qed.

Lemma textPiece_text (t : string) (ms : list Mark) : concatText nodeText (textPiece t ms) = t.
Proof.
  destruct t; [reflexivity|]. unfold textPiece. simpl. rewrite append_empty_r. reflexivity.
Qed.

(** A mark step changes no character of the text. *)
Lemma mapMarksNode_text atoms g from to (n : Node) :
  forall pos, concatText nodeText (mapMarksNode atoms g from to n pos) = nodeText n.
Proof.
  induction n as [t ms | ty a ms | ty a ms c IH] using Node_induction; intros pos.
  - simpl mapMarksNode.
    destruct (overlaps from to pos (JS.length t)) eqn:Eo; cbn [andb];
      [|simpl; apply append_empty_r].
    destruct (negb (sameMarks (g ms) ms)); [|simpl; apply append_empty_r].
    apply overlaps_text_bounds in Eo.
    rewrite concatText_app, textPiece_text.
    change (concatText nodeText (?x :: ?l))
      with (String.append (nodeText x) (concatText nodeText l)).
    rewrite textPiece_text. cbn [nodeText]. apply slice_three; lia.
  - simpl mapMarksNode. destruct (_ && _)%bool; reflexivity.
  - rewrite mapMarksNode_Inner.
    change (concatText nodeText [?x]) with (String.append (nodeText x) EmptyString).
    rewrite append_empty_r. cbn [nodeText].
    generalize (pos + 1) as p. induction IH as [|x c Hx _ IHc]; intros p; [reflexivity|].
    rewrite mapLoop_cons, concatText_app, Hx, IHc. reflexivity.
Qed.

Lemma mapMarks_text atoms g from to (d : Fragment) :
  textContent (mapMarks atoms g from to d) = textContent d.
Proof.
  unfold textContent, mapMarks. generalize 0 as p.
  induction d as [|x c IHc]; intros p; [reflexivity|].
  rewrite mapLoop_cons, concatText_app, mapMarksNode_text, IHc. reflexivity.
Qed.

Lemma addMark_text excl tr from to m :
  textContent (trDoc (addMark excl tr from to m)) = textContent (trDoc tr).
Proof. apply mapMarks_text. Qed.

(* ------------------------------------------------------------------ *)
(** ** The maintainer as a whole *)
(* ------------------------------------------------------------------ *)

Lemma propagateMarks_steps valid tr oldState newState fixTr :
  (forall t s, fixTr = Some t -> In s (steps t) -> markStep s) ->
  forall t s, propagateMarks valid tr oldState newState fixTr = Some t ->
              In s (steps t) -> markStep s.
Proof.
  unfold propagateMarks. generalize (List.concat (stepMaps tr)) as l.
  intros l. revert fixTr. induction l as [|[[[oldStart oldEnd] newStart] newEnd] l IH];
    intros fixTr Hf; [exact Hf|].
  rewrite fold_left_cons. apply IH.
  destruct (newStart <? newEnd); [|exact Hf].
  destruct (markToApply valid oldState oldStart oldEnd) as [mark|]; [|exact Hf].
  intros t s Ht Hs. injection Ht as <-. apply addMark_steps in Hs.
  destruct Hs as [Hs | [f [t' ->]]]; [|right; eauto].
  destruct fixTr as [t0|]; [eapply Hf; eauto | destruct Hs].
Qed.

Lemma maintainCommentMarks_steps ps tr oldState newState fixTr step :
  maintainCommentMarks ps tr oldState newState = Some fixTr ->
  In step (steps fixTr) -> markStep step.
Proof.
  unfold maintainCommentMarks.
  destruct (negb (docChanged tr)); [discriminate|].
  destruct (negb (hasCommentMark (schema newState))); [discriminate|].
  assert (Hg : forall t s, removeGhostMarks (validThreadIds ps) newState = Some t ->
                           In s (steps t) -> markStep s).
  { intros t s Ht Hs. left. eapply removeGhostMarks_steps; eauto. }
  destruct (pasteMeta tr); [apply Hg|].
  apply propagateMarks_steps. exact Hg.
Qed.

(** For a paste the maintainer does the removal pass and nothing else. *)
Lemma maintainCommentMarks_paste ps tr oldState newState :
  pasteMeta tr = true ->
  maintainCommentMarks ps tr oldState newState
  = if (docChanged tr && hasCommentMark (schema newState))%bool
    then removeGhostMarks (validThreadIds ps) newState else None.
Proof.
  intros Hp. unfold maintainCommentMarks. rewrite Hp.
  destruct (docChanged tr); [|reflexivity].
  destruct (hasCommentMark (schema newState)); reflexivity.
Qed.

Lemma maintainCommentMarks_paste_steps ps tr oldState newState fixTr step :
  pasteMeta tr = true ->
  maintainCommentMarks ps tr oldState newState = Some fixTr ->
  In step (steps fixTr) -> exists f t m, step = RemoveMarkStep f t m.
Proof.
  intros Hp. rewrite (maintainCommentMarks_paste _ _ _ _ Hp).
  destruct (_ && _)%bool; [|discriminate]. apply removeGhostMarks_steps.
Qed.

(** The batches of [markOrphanedComments] name threads of the store only. *)
Lemma markOrphanedComments_batch now live w m ids :
  commentsMap (pluginState w) = Some m ->
  In (CommentsOrphaned ids)
     (events (markOrphanedComments now live (groupCommentsByThread m) w)) ->
  In (CommentsOrphaned ids) (events w) \/ (forall tid, In tid ids -> In tid (threadKeys m)).
Proof.
  intros Hm. destruct (initialSyncComplete (pluginState w)) eqn:Hs.
  - rewrite (markOrphanedComments_events _ _ _ _ _ Hm Hs), in_app_iff.
    intros [H | H]; [left; exact H | right].
    destruct (newlyOrphanedIds live (groupCommentsByThread m)) as [|i l] eqn:E; [destruct H|].
    destruct H as [H | []]. injection H as <-. intros tid Ht.
    apply (newlyOrphanedIds_known live). rewrite E. exact Ht.
  - rewrite markOrphanedComments_before_sync by exact Hs. intros H. left. exact H.
Qed.

(** C7, as the code has it wrong for images: the thread id "gone" sits in
    the [commentThreadId] attribute of an image and in no comment record,
    and the maintainer, run on a document-changing transaction, builds no
    corrective transaction at all; the attribute stays and still counts
    as a live mark. *)
Lemma C7_image_attribute_not_stripped :
  let ps := mkPlugin (Some []) None None true in
  docChanged typing = true
  /\ validThreadIds ps = []
  /\ maintainCommentMarks ps typing ghostPictureState ghostPictureState = None
  /\ In (Some "gone") (getThreadIdsWithMarks ghostPictureState).
Proof. vm_compute. repeat split. left. reflexivity. Qed.

(** C7 (amended): after one maintainer pass on a document-changing
    transaction, with the comment mark in the schema and no empty text
    node in the document, a comment mark on any node whose threadId has no
    comment record in the store makes the pass return a corrective
    transaction; the document of the corrective transaction carries no
    such mark on a text or other inline node; the corrective transaction
    consists of mark steps only, so that a [commentThreadId] attribute of
    an image is left as it is; and a thread id without a comment record is
    never in an orphaned-thread batch the orphan detection emits. *)
Theorem C7_ghost_marks_removed ps tr oldState newState :
  docChanged tr = true ->
  hasCommentMark (schema newState) = true ->
  noEmptyText (doc newState) ->
  let valid := validThreadIds ps in
  let result := maintainCommentMarks ps tr oldState newState in
  (forall n p m, In (n, p) (descendants (doc newState)) -> In m (marksOf n) ->
                 isGhost valid m = true -> result <> None)
  /\ (forall fixTr, result = Some fixTr -> ghostFree valid (trDoc fixTr))
  /\ (forall fixTr step, result = Some fixTr -> In step (steps fixTr) -> markStep step)
  /\ (forall now live w m ids,
        pluginState w = ps -> commentsMap ps = Some m ->
        In (CommentsOrphaned ids)
           (events (markOrphanedComments now live (groupCommentsByThread m) w)) ->
        In (CommentsOrphaned ids) (events w) \/ (forall tid, In tid ids -> In tid valid)).
Proof.
  intros Hd Hc Hne valid result.
  assert (Hr : result = if pasteMeta tr then removeGhostMarks valid newState
                        else propagateMarks valid tr oldState newState
                               (removeGhostMarks valid newState)).
  { unfold result, maintainCommentMarks. rewrite Hd, Hc. reflexivity. }
  repeat split.
  - intros n p m Hin Hm Hg. rewrite Hr.
    pose proof (removeGhostMarks_some valid newState n p m Hin Hm Hg) as Hs.
    destruct (pasteMeta tr); [exact Hs | apply propagateMarks_some; exact Hs].
  - intros fixTr Hf. rewrite Hr in Hf.
    pose proof (removeGhostMarks_ghostFree valid newState Hne) as Hg.
    destruct (pasteMeta tr).
    + rewrite Hf in Hg. exact Hg.
    + pose proof (propagateMarks_ghostFree valid tr oldState newState _ Hg) as Hp.
      rewrite Hf in Hp. exact Hp.
  - intros fixTr step. apply maintainCommentMarks_steps.
  - intros now live w m ids Hw Hm Hin. subst ps.
    unfold valid. rewrite (validThreadIds_keys _ _ Hm).
    apply (markOrphanedComments_batch now live w m ids Hm Hin).
Qed.

(** The maintainer run on a document with the mark of the unknown thread
    "t1" (the store is empty). *)
Lemma C7_ghost_marks_removed_witness :
  let ps := mkPlugin (Some []) None None true in
  maintainCommentMarks ps typing markedState markedState <> None
  /\ forall fixTr, maintainCommentMarks ps typing markedState markedState = Some fixTr ->
                   ghostFree (validThreadIds ps) (trDoc fixTr).
Proof.
  intros ps.
  assert (Hne : noEmptyText (doc markedState)).
  { intros n p Hin _. vm_compute in Hin.
    repeat (destruct Hin as [Hin | Hin]; [injection Hin as <- <-; reflexivity|]).
    destruct Hin. }
  pose proof (C7_ghost_marks_removed ps typing markedState markedState
                                     eq_refl eq_refl Hne) as [H1 [H2 _]].
  split; [|exact H2].
  apply (H1 (Text "quick fox" [createComment "t1"]) 5 (createComment "t1")).
  - vm_compute. right. right. left. reflexivity.
  - left. reflexivity.
  - reflexivity.
Defined.

(* ------------------------------------------------------------------ *)
(** ** The lifecycle pass *)
(* ------------------------------------------------------------------ *)

(** C9, as the code does not deliver it: the store holds the reply "r1"
    of thread "t1" and no root comment of it, the document carries no
    mark.  The first pass reports "t1" as orphaned and has no root comment
    to flag, so the second pass, on the same document and the same store,
    reports it again: its batch is not empty.  No record is rewritten. *)
Theorem C9_rootless_thread_reported_again :
  let w0 := worldOf rootlessStore unmarkedState in
  let w1 := lifecyclePass 1 unmarkedState w0 in
  let w2 := lifecyclePass 2 unmarkedState w1 in
  events w0 = []
  /\ events w1 = [CommentsOrphaned ["t1"]]
  /\ commentsMap (pluginState w1) = Some rootlessStore
  /\ view w1 = Some unmarkedState
  /\ events w2 = [CommentsOrphaned ["t1"]; CommentsOrphaned ["t1"]]
  /\ commentsMap (pluginState w2) = Some rootlessStore.
Proof. vm_compute. repeat split. Qed.

(* ------------------------------------------------------------------ *)
(** ** Paste *)
(* ------------------------------------------------------------------ *)

Lemma forallb_filter_self {A : Type} (f : A -> bool) (l : list A) :
  forallb f (filter f l) = true.
Proof.
  induction l as [|x l IH]; [reflexivity|]. simpl.
  destruct (f x) eqn:E; [simpl; rewrite E; exact IH | exact IH].
Qed.

Lemma unannotated_text (t t' : string) (ms : list Mark) :
  unannotated (Text t ms) = unannotated (Text t' ms).
Proof. reflexivity. Qed.

(** [Fragment.fromArray] joins text nodes and keeps what holds of every
    node, when that does not depend on the characters of a text. *)
Lemma fromArray_allNodes (P : Node -> bool) (l : list Node) :
  (forall t t' ms, P (Text t ms) = P (Text t' ms)) ->
  forallb (allNodes P) l = true -> forallb (allNodes P) (fromArray l) = true.
Proof.
  intros HP. induction l as [|n l IH]; intros H; [reflexivity|].
  simpl in H. apply andb_true_iff in H. destruct H as [Hn Hl]. specialize (IH Hl).
  simpl fromArray.
  destruct n as [t ms | ty a ms | ty a ms c].
  - destruct (fromArray l) as [|[t' ms' | ty' a' ms' | ty' a' ms' c'] rest] eqn:E.
    + simpl. simpl in Hn. rewrite Hn. reflexivity.
    + destruct (sameMarks ms ms') eqn:Es.
      * simpl in IH. simpl. simpl in Hn. rewrite andb_true_r in Hn.
        rewrite (HP _ t), Hn. simpl.
        apply andb_true_iff in IH. exact (proj2 IH).
      * change (forallb (allNodes P) (Text t ms :: Text t' ms' :: rest))
          with (allNodes P (Text t ms) && forallb (allNodes P) (Text t' ms' :: rest))%bool.
        rewrite Hn, IH. reflexivity.
    + change (forallb (allNodes P) (Text t ms :: Leaf ty' a' ms' :: rest))
        with (allNodes P (Text t ms) && forallb (allNodes P) (Leaf ty' a' ms' :: rest))%bool.
      rewrite Hn, IH. reflexivity.
    + change (forallb (allNodes P) (Text t ms :: Inner ty' a' ms' c' :: rest))
        with (allNodes P (Text t ms)
              && forallb (allNodes P) (Inner ty' a' ms' c' :: rest))%bool.
      rewrite Hn, IH. reflexivity.
  - change (forallb (allNodes P) (Leaf ty a ms :: fromArray l))
      with (allNodes P (Leaf ty a ms) && forallb (allNodes P) (fromArray l))%bool.
    rewrite Hn, IH. reflexivity.
  - change (forallb (allNodes P) (Inner ty a ms c :: fromArray l))
      with (allNodes P (Inner ty a ms c) && forallb (allNodes P) (fromArray l))%bool.
    rewrite Hn, IH. reflexivity.
Qed.

(** What [stripCommentMarksFromFragment] does remove: the comment marks
    of the text nodes and the thread ids of the images. *)
Lemma stripNode_unannotated (n : Node) : allNodes unannotated (stripNode true n) = true.
Proof.
  induction n as [t ms | ty a ms | ty a ms c IH] using Node_induction.
  - change (forallb (fun m => negb (isComment m))
                    (filter (fun m => negb (isComment m)) ms) && true && true = true)%bool.
    rewrite forallb_filter_self. reflexivity.
  - simpl stripNode.
    destruct (isImage (Leaf ty a ms) && truthyId (commentThreadId a))%bool eqn:E.
    + simpl. unfold unannotated. simpl. rewrite andb_false_r. reflexivity.
    + simpl. unfold unannotated. cbn [attrsOf]. rewrite E. reflexivity.
  - simpl stripNode.
    destruct (isImage (Inner ty a ms c) && truthyId (commentThreadId a))%bool eqn:E.
    + simpl. unfold unannotated. simpl. rewrite andb_false_r. reflexivity.
    + change (allNodes unannotated (Inner ty a ms (fromArray (map (stripNode true) c))))
        with (unannotated (Inner ty a ms (fromArray (map (stripNode true) c)))
              && forallb (allNodes unannotated) (fromArray (map (stripNode true) c)))%bool.
      apply andb_true_iff. split.
      * unfold unannotated. cbn [attrsOf].
        change (isImage (Inner ty a ms (fromArray (map (stripNode true) c))))
          with (isImage (Inner ty a ms c)).
        rewrite E. reflexivity.
      * apply fromArray_allNodes; [apply unannotated_text|].
        apply forallb_forall. intros x Hx. apply in_map_iff in Hx.
        destruct Hx as [y [<- Hy]]. rewrite Forall_forall in IH. apply IH. exact Hy.
Qed.

Lemma stripCommentMarksFromFragment_unannotated (fragment : Fragment) (sch : Schema) :
  hasCommentMark sch = true ->
  forallb (allNodes unannotated) (stripCommentMarksFromFragment fragment sch) = true.
Proof.
  intros H. unfold stripCommentMarksFromFragment. rewrite H.
  apply fromArray_allNodes; [apply unannotated_text|].
  apply forallb_forall. intros x Hx. apply in_map_iff in Hx.
  destruct Hx as [y [<- Hy]]. apply stripNode_unannotated.
Qed.

(** C8, as the code does not deliver it: a sentence with an inline image
    was commented as a whole, so that the comment mark of thread "t1" sits
    on its two texts and on the image; it is copied and pasted.
    [transformPasted] takes the mark off the two texts and leaves it on
    the image: the slice that is inserted still carries a comment mark,
    which counts as a live mark of "t1". *)
Theorem C8_mark_left_on_pasted_image :
  let pasted := transformPasted (mkSlice copiedSlice 0 0) unmarkedState in
  sliceContent pasted
  = [Inner paragraph noAttrs []
       [Text "The fox " []; Leaf image (mkAttrs None (Some "a fox")) [createComment "t1"];
        Text " runs" []]]
  /\ forallb (allNodes unmarked) (sliceContent pasted) = false
  /\ forallb (allNodes unannotated) (sliceContent pasted) = true
  /\ getThreadIdsWithMarks
       (mkState (sliceContent pasted) (TextSelection 1 1) None plainSchema)
     = [Some "t1"].
Proof. vm_compute. repeat split. Qed.

(* ------------------------------------------------------------------ *)
(** ** Applying a mark *)
(* ------------------------------------------------------------------ *)

(** The document of that transaction: the text is what it was, every text
    and inline leaf node of the range carries the mark of the thread. *)
Lemma markRange_doc state tid from to :
  textContent (trDoc (markRange state tid from to)) = textContent (doc state)
  /\ forall n p, In (n, p) (descendants (trDoc (markRange state tid from to))) ->
                 isInline n = true -> isAtom n = true ->
                 overlaps from to p (nodeSize n) = true ->
                 In (createComment tid) (marksOf n).
Proof.
  split.
  - apply addMark_text.
  - intros n p Hin Hi Ha Ho.
    apply (addMark_doc_marked _ _ _ _ _ (n, p) Hin Hi Ha Ho).
Qed.

(** C10, as the code has it otherwise: with an image selected in the
    editor the call goes to the image, also when [options.isImage] is
    false and [options.selectedText] is "fox", a text the document has at
    positions 5 to 8.  The call returns true, the image gets the thread
    id, and no text is marked. *)
Lemma C10_image_selection_wins :
  let w := worldOf [] pictureSelected in
  let options := mkOptions "fox" None false in
  findBestMatchPosition (Some (doc pictureSelected)) "fox" None = Some (mkSpan 5 8)
  /\ fst (applyCommentMark "t9" options w) = true
  /\ option_map doc (view (snd (applyCommentMark "t9" options w)))
     = Some [Inner paragraph noAttrs []
               [Text "The fox " []; Leaf image (mkAttrs (Some "t9") (Some "a fox")) [];
                Text " runs" []]].
Proof. vm_compute. repeat split. Qed.

(** C10 (amended): for a call of [applyCommentMark(threadId, options)]
    with a view, a schema that has the comment mark, a selection that is
    neither an image nor a cell selection, [options.isImage] false and
    [options.selectedText] a non-empty string, the mark is applied over
    the range [findBestMatchPosition] finds for that text and
    [positionContext]: the outcome does not mention the selection, and
    the call returns false, applying nothing, exactly when
    [findBestMatchPosition] returns null or the transaction has no
    steps. *)
Theorem C10_mark_over_best_match tid options w state :
  view w = Some state ->
  hasCommentMark (schema state) = true ->
  isImageSelection state = false ->
  (forall f t cells, selection state <> CellSelection f t cells) ->
  optIsImage options = false ->
  JS.truthy (optSelectedText options) = true ->
  let found := findBestMatchPosition (Some (doc state)) (optSelectedText options)
                                     (optPositionContext options) in
  let result := applyCommentMark tid options w in
  result
  = match found with
    | None => (false, w)
    | Some m =>
        match steps (markRange state tid (from m) (to m)) with
        | [] => (false, w)
        | _ :: _ => (true, dispatch w state (markRange state tid (from m) (to m)))
        end
    end
  /\ (fst result = false
      <-> found = None
          \/ exists m, found = Some m /\ steps (markRange state tid (from m) (to m)) = [])
  /\ (fst result = false -> snd result = w)
  /\ (fst result = true ->
      exists m, found = Some m
                /\ view (snd result)
                   = Some (applyTr state (markRange state tid (from m) (to m)))).
Proof.
  intros Hv Hc Hi Hcell Ho Ht found result.
  assert (E : result
              = match found with
                | None => (false, w)
                | Some m =>
                    match steps (markRange state tid (from m) (to m)) with
                    | [] => (false, w)
                    | _ :: _ => (true, dispatch w state (markRange state tid (from m) (to m)))
                    end
                end).
  { unfold result, applyCommentMark. rewrite Hv, Ho, Hi, Hc, Ht. cbn [orb negb].
    destruct (selection state) as [f t | f n | f t cells] eqn:Es;
      [reflexivity | reflexivity | exfalso; exact (Hcell f t cells eq_refl)]. }
  split; [exact E|]. rewrite E. clear E result.
  destruct found as [m|].
  - destruct (steps (markRange state tid (from m) (to m))) eqn:Es; cbn [fst snd].
    + repeat split; try discriminate.
      * intros _. right. exists m. split; [reflexivity | exact Es].
    + repeat split; try discriminate.
      * intros [H | [m' [H H']]]; [discriminate H|].
        injection H as <-. rewrite Es in H'. discriminate H'.
      * intros _. exists m. split; reflexivity.
  - cbn [fst snd]. repeat split; try discriminate. intros _. left. reflexivity.
Qed.

(** The call with the text "quick fox" and its context while the
    selection is an empty one at position 1: the first occurrence, at 5
    to 14 inside the paragraph, is marked. *)
Lemma C10_mark_over_best_match_witness :
  let w := worldOf [] unmarkedState in
  let options := mkOptions "quick fox" (Some foxCtx) false in
  applyCommentMark "t9" options w
  = (true, dispatch w unmarkedState (markRange unmarkedState "t9" 5 14)).
Proof.
  intros w options.
  refine (eq_trans
            (proj1 (C10_mark_over_best_match "t9" options w unmarkedState
                      eq_refl eq_refl eq_refl _ eq_refl eq_refl)) _).
  - intros f t cells H. discriminate H.
  - vm_compute. reflexivity.
Defined.

(* ------------------------------------------------------------------ *)
(** ** The text of a range *)
(* ------------------------------------------------------------------ *)

Lemma append_assoc (a b c : string) :
  String.append (String.append a b) c = String.append a (String.append b c).
Proof. induction a as [|x a IH]; simpl; [reflexivity|]. rewrite IH. reflexivity. Qed.

Lemma joinStrings_app (l1 l2 : list string) :
  joinStrings (l1 ++ l2) = String.append (joinStrings l1) (joinStrings l2).
Proof.
  induction l1 as [|x l1 IH]; [reflexivity|].
  change (joinStrings ((x :: l1) ++ l2)) with (String.append x (joinStrings (l1 ++ l2))).
  change (joinStrings (x :: l1)) with (String.append x (joinStrings l1)).
  rewrite IH, append_assoc. reflexivity.
Qed.

(** Without a block separator [textBetween] joins the pieces of the
    visited nodes. *)
Lemma textBetween_pieces (d : Fragment) (a b : Z) :
  textBetween d a b EmptyString = joinStrings (map (piece a b) (nodesBetween d a b)).
Proof.
  unfold textBetween.
  enough (H : forall l text first,
             fst (fold_left
                    (fun (acc : string * bool) (call : Node * Z) =>
                       let '(text, first) := acc in
                       let '(node, pos) := call in
                       let nodeText :=
                         match node with
                         | Text t _ => JS.slice t (Z.max a pos - pos) (b - pos)
                         | _ => EmptyString
                         end in
                       let '(text, first) :=
                         if (isBlock node && isTextblock node && JS.truthy EmptyString)%bool
                         then (if first then (text, false)
                               else (String.append text EmptyString, first))
                         else (text, first) in
                       (String.append text nodeText, first))
                    l (text, first))
             = String.append text (joinStrings (map (piece a b) l))).
  { rewrite H. reflexivity. }
  induction l as [|[node pos] l IH]; intros text first.
  - simpl. rewrite append_empty_r. reflexivity.
  - rewrite fold_left_cons. cbv beta iota zeta.
    change (JS.truthy EmptyString) with false. rewrite andb_false_r.
    rewrite IH. simpl map. simpl joinStrings. rewrite append_assoc.
    unfold piece. simpl fst. simpl snd. destruct node; reflexivity.
Qed.

Lemma strTokens_app (s1 s2 : string) :
  strTokens (String.append s1 s2) = strTokens s1 ++ strTokens s2.
Proof. induction s1 as [|c s1 IH]; simpl; [reflexivity|]. rewrite IH. reflexivity. Qed.

Lemma strTokens_length (s : string) : Z.of_nat (List.length (strTokens s)) = JS.length s.
Proof.
  unfold JS.length. induction s as [|c s IH]; [reflexivity|].
  simpl List.length. simpl String.length. lia.
Qed.

Lemma fragTokens_cons (n : Node) (c : Fragment) :
  fragTokens (n :: c) = tokens n ++ fragTokens c.
Proof. reflexivity. Qed.

Lemma fragTokens_app (c1 c2 : Fragment) : fragTokens (c1 ++ c2) = fragTokens c1 ++ fragTokens c2.
Proof. apply flat_map_app. Qed.

Lemma tokens_Inner ty a ms c : tokens (Inner ty a ms c) = None :: fragTokens c ++ [None].
Proof. reflexivity. Qed.

Lemma tokens_length (n : Node) : Z.of_nat (List.length (tokens n)) = nodeSize n.
Proof.
  induction n as [t ms | ty a ms | ty a ms c IH] using Node_induction.
  - apply strTokens_length.
  - reflexivity.
  - rewrite tokens_Inner, nodeSize_Inner. simpl List.length. rewrite length_app. simpl List.length.
    enough (Z.of_nat (List.length (fragTokens c)) = fragSize c) by lia.
    induction IH as [|x c Hx _ IHc]; [reflexivity|].
    rewrite fragTokens_cons, length_app, fragSize_cons. lia.
Qed.

Lemma fragTokens_length (c : Fragment) : Z.of_nat (List.length (fragTokens c)) = fragSize c.
Proof.
  induction c as [|x c IHc]; [reflexivity|].
  rewrite fragTokens_cons, length_app, fragSize_cons.
  pose proof (tokens_length x). lia.
Qed.

Lemma charsBetween_cons (a b pos : Z) (t : option ascii) (rest : list (option ascii)) :
  charsBetween a b pos (t :: rest)
  = match t with
    | Some c =>
        if ((a <=? pos) && (pos <? b))%bool
        then String c (charsBetween a b (pos + 1) rest)
        else charsBetween a b (pos + 1) rest
    | None => charsBetween a b (pos + 1) rest
    end.
Proof. destruct t; reflexivity. Qed.

Lemma charsBetween_app (a b : Z) (l1 l2 : list (option ascii)) :
  forall pos,
    charsBetween a b pos (l1 ++ l2)
    = String.append (charsBetween a b pos l1)
                    (charsBetween a b (pos + Z.of_nat (List.length l1)) l2).
Proof.
  induction l1 as [|t l1 IH]; intros pos.
  - simpl. rewrite Z.add_0_r. reflexivity.
  - change ((t :: l1) ++ l2) with (t :: (l1 ++ l2)).
    rewrite !charsBetween_cons, IH.
    replace (pos + Z.of_nat (List.length (t :: l1))) with (pos + 1 + Z.of_nat (List.length l1))
      by (simpl List.length; lia).
    destruct t as [c|]; [|reflexivity].
    destruct ((a <=? pos) && (pos <? b))%bool; reflexivity.
Qed.

(** The characters of a text inside a range, as a piece of the text. *)
Lemma charsBetween_text (a b : Z) (t : string) :
  forall pos,
    charsBetween a b pos (strTokens t)
    = JS.take (Z.to_nat (Z.min b (pos + JS.length t) - Z.max a pos))
              (JS.drop (Z.to_nat (Z.max a pos - pos)) t).
Proof.
  induction t as [|c t IH]; intros pos.
  - simpl. rewrite drop_empty. destruct (Z.to_nat _); reflexivity.
  - simpl strTokens. rewrite charsBetween_cons, IH.
    assert (Hl : JS.length (String c t) = 1 + JS.length t)
      by (unfold JS.length; simpl String.length; lia).
    pose proof (length_nonneg t) as Hn. rewrite Hl.
    destruct (a <=? pos) eqn:Ea; [apply Z.leb_le in Ea | apply Z.leb_gt in Ea].
    + destruct (pos <? b) eqn:Eb; [apply Z.ltb_lt in Eb | apply Z.ltb_ge in Eb]; cbn [andb].
      * replace (Z.max a pos - pos) with 0 by lia.
        replace (Z.max a (pos + 1) - (pos + 1)) with 0 by lia. simpl JS.drop.
        replace (Z.to_nat (Z.min b (pos + (1 + JS.length t)) - Z.max a pos))
          with (S (Z.to_nat (Z.min b (pos + 1 + JS.length t) - Z.max a (pos + 1)))) by lia.
        reflexivity.
      * replace (Z.to_nat (Z.min b (pos + 1 + JS.length t) - Z.max a (pos + 1))) with 0%nat by lia.
        replace (Z.to_nat (Z.min b (pos + (1 + JS.length t)) - Z.max a pos)) with 0%nat by lia.
        reflexivity.
    + cbn [andb].
      replace (Z.to_nat (Z.max a pos - pos)) with (S (Z.to_nat (Z.max a (pos + 1) - (pos + 1))))
        by lia.
      simpl JS.drop.
      replace (Z.min b (pos + (1 + JS.length t)) - Z.max a pos)
        with (Z.min b (pos + 1 + JS.length t) - Z.max a (pos + 1)) by lia.
      reflexivity.
Qed.

Lemma take_0 (s : string) : JS.take 0 s = EmptyString.
Proof. reflexivity. Qed.

Lemma charsBetween_piece (a b : Z) (t : string) (ms : list Mark) (pos : Z) :
  charsBetween a b pos (strTokens t)
  = if inRange a b (Text t ms, pos) then piece a b (Text t ms, pos) else EmptyString.
Proof.
  rewrite charsBetween_text. unfold inRange, piece. cbn [fst snd nodeSize].
  pose proof (length_nonneg t) as Hn.
  destruct (a <? pos + JS.length t) eqn:Ea; [apply Z.ltb_lt in Ea | apply Z.ltb_ge in Ea].
  - destruct (pos <? b) eqn:Eb; [apply Z.ltb_lt in Eb | apply Z.ltb_ge in Eb]; cbn [andb].
    + unfold JS.slice, JS.relIndex.
      replace (Z.max a pos - pos <? 0) with false by (symmetry; apply Z.ltb_ge; lia).
      replace (b - pos <? 0) with false by (symmetry; apply Z.ltb_ge; lia).
      replace (Z.min (Z.max a pos - pos) (JS.length t)) with (Z.max a pos - pos) by lia.
      replace (Z.min (b - pos) (JS.length t) - (Z.max a pos - pos))
        with (Z.min b (pos + JS.length t) - Z.max a pos) by lia.
      reflexivity.
    + replace (Z.to_nat (Z.min b (pos + JS.length t) - Z.max a pos)) with 0%nat by lia.
      reflexivity.
  - cbn [andb].
    replace (Z.to_nat (Z.min b (pos + JS.length t) - Z.max a pos)) with 0%nat by lia.
    reflexivity.
Qed.

(** The pieces of the nodes in the range are the characters at the
    positions of the range. *)
Lemma pieces_chars_node (a b : Z) (n : Node) :
  forall pos,
    joinStrings (map (piece a b) (filter (inRange a b) (descNode n pos)))
    = charsBetween a b pos (tokens n).
Proof.
  assert (Hloop : forall c,
             Forall (fun x => forall pos,
                         joinStrings (map (piece a b) (filter (inRange a b) (descNode x pos)))
                         = charsBetween a b pos (tokens x)) c ->
             forall pos,
               joinStrings (map (piece a b) (filter (inRange a b) (descLoop descNode c pos)))
               = charsBetween a b pos (fragTokens c)).
  { induction 1 as [|x c Hx _ IHc]; intros pos; [reflexivity|].
    rewrite descLoop_cons, filter_app, map_app, joinStrings_app, Hx, IHc.
    rewrite fragTokens_cons, charsBetween_app, tokens_length. reflexivity. }
  induction n as [t ms | ty a0 ms | ty a0 ms c IH] using Node_induction; intros pos.
  - cbn [descNode tokens]. rewrite (charsBetween_piece a b t ms pos).
    cbn [filter]. destruct (inRange a b (Text t ms, pos)); [|reflexivity].
    cbn [map joinStrings fold_right]. apply append_empty_r.
  - cbn [descNode tokens filter]. destruct (inRange a b (Leaf ty a0 ms, pos)); reflexivity.
  - rewrite descNode_Inner, tokens_Inner, charsBetween_cons, charsBetween_app.
    cbn [charsBetween]. rewrite append_empty_r, <- (Hloop c IH (pos + 1)).
    cbn [filter]. destruct (inRange a b (Inner ty a0 ms c, pos)); reflexivity.
Qed.

Lemma pieces_chars (a b : Z) (c : Fragment) (pos : Z) :
  joinStrings (map (piece a b) (filter (inRange a b) (descLoop descNode c pos)))
  = charsBetween a b pos (fragTokens c).
Proof.
  revert pos. induction c as [|x c IHc]; intros pos; [reflexivity|].
  rewrite descLoop_cons, filter_app, map_app, joinStrings_app, pieces_chars_node, IHc.
  rewrite fragTokens_cons, charsBetween_app, tokens_length. reflexivity.
Qed.

(* ------------------------------------------------------------------ *)
(** ** [nodesBetween] among the descendants *)
(* ------------------------------------------------------------------ *)

Lemma filter_none {A : Type} (f : A -> bool) (l : list A) :
  (forall x, In x l -> f x = false) -> filter f l = [].
Proof.
  induction l as [|x l IH]; intros H; [reflexivity|].
  simpl. rewrite (H x (or_introl eq_refl)). apply IH. intros y Hy. apply H. right. exact Hy.
Qed.

Lemma descNode_head (n : Node) (pos : Z) : descNode n pos = (n, pos) :: tl (descNode n pos).
Proof. destruct n; reflexivity. Qed.

Lemma descLoop_within (c : Fragment) (p : Z) (x : Node * Z) :
  In x (descLoop descNode c p) -> p <= snd x /\ snd x + nodeSize (fst x) <= p + fragSize c.
Proof.
  intros H.
  assert (Ho : ordered p (p + fragSize c) (descLoop descNode c p)).
  { apply descLoop_order. apply Forall_forall. intros y _. apply descNode_order. }
  destruct Ho as [Hw _]. rewrite Forall_forall in Hw. exact (Hw x H).
Qed.

Lemma descNode_within (n : Node) (p : Z) (x : Node * Z) :
  In x (descNode n p) -> p <= snd x /\ snd x + nodeSize (fst x) <= p + nodeSize n.
Proof.
  intros H. destruct (descNode_order n p) as [Hw _]. rewrite Forall_forall in Hw.
  exact (Hw x H).
Qed.

(** In a document without empty nodes [nodesBetween] visits the
    descendants that reach into the range, in the order of
    [descendants]. *)
Lemma betweenNode_filter (n : Node) :
  forall from to pos,
    (forall x, In x (descNode n pos) -> 0 < nodeSize (fst x)) ->
    betweenNode n from to pos
    = (n, pos) :: filter (inRange (pos + 1 + from) (pos + 1 + to)) (tl (descNode n pos)).
Proof.
  assert (Hloop : forall c,
             Forall (fun x => forall from to pos,
                         (forall y, In y (descNode x pos) -> 0 < nodeSize (fst y)) ->
                         betweenNode x from to pos
                         = (x, pos) :: filter (inRange (pos + 1 + from) (pos + 1 + to))
                                              (tl (descNode x pos))) c ->
             forall from to ns pos,
               (forall y, In y (descLoop descNode c (ns + pos)) -> 0 < nodeSize (fst y)) ->
               betweenLoop betweenNode from to ns c pos
               = filter (inRange (ns + from) (ns + to)) (descLoop descNode c (ns + pos))).
  { induction 1 as [|x c Hx _ IHc]; intros from to ns pos Hp; [reflexivity|].
    rewrite descLoop_cons in Hp. rewrite descLoop_cons, filter_app.
    change (betweenLoop betweenNode from to ns (x :: c) pos)
      with (if pos <? to
            then (if from <? pos + nodeSize x
                  then betweenNode x (from - (pos + 1)) (to - (pos + 1)) (ns + pos)
                  else [])
                 ++ betweenLoop betweenNode from to ns c (pos + nodeSize x)
            else []).
    pose proof (nodeSize_nonneg x) as Hnx.
    destruct (pos <? to) eqn:Et; [apply Z.ltb_lt in Et | apply Z.ltb_ge in Et].
    - rewrite IHc.
      2:{ intros y Hy. apply Hp. apply in_app_iff. right.
          replace (ns + pos + nodeSize x) with (ns + (pos + nodeSize x)) by lia. exact Hy. }
      replace (ns + (pos + nodeSize x)) with (ns + pos + nodeSize x) by lia.
      f_equal.
      destruct (from <? pos + nodeSize x) eqn:Ef; [apply Z.ltb_lt in Ef | apply Z.ltb_ge in Ef].
      + rewrite Hx by (intros y Hy; apply Hp; apply in_app_iff; left; exact Hy).
        rewrite (descNode_head x (ns + pos)) at 2. cbn [filter].
        replace (inRange (ns + from) (ns + to) (x, ns + pos)) with true
          by (symmetry; unfold inRange; cbn [fst snd]; apply andb_true_iff;
              split; apply Z.ltb_lt; lia).
        replace (ns + pos + 1 + (from - (pos + 1))) with (ns + from) by lia.
        replace (ns + pos + 1 + (to - (pos + 1))) with (ns + to) by lia.
        reflexivity.
      + symmetry. apply filter_none. intros y Hy. apply descNode_within in Hy.
        unfold inRange. apply andb_false_iff. left. apply Z.ltb_ge. lia.
    - symmetry. rewrite <- filter_app. apply filter_none. intros y Hy.
      rewrite <- descLoop_cons in Hy. apply descLoop_within in Hy.
      unfold inRange. apply andb_false_iff. right. apply Z.ltb_ge. lia. }
  induction n as [t ms | ty a ms | ty a ms c IH] using Node_induction; intros from to pos Hp.
  - reflexivity.
  - reflexivity.
  - rewrite descNode_Inner in Hp. rewrite descNode_Inner. cbn [tl].
    change (betweenNode (Inner ty a ms c) from to pos)
      with ((Inner ty a ms c, pos)
              :: (if fragSize c =? 0 then []
                  else betweenLoop betweenNode (Z.max 0 from) (Z.min (fragSize c) to)
                                   (pos + 1) c 0)).
    f_equal.
    assert (Hpc : forall y, In y (descLoop descNode c (pos + 1)) -> 0 < nodeSize (fst y))
      by (intros y Hy; apply Hp; right; exact Hy).
    destruct (fragSize c =? 0) eqn:Ez; [apply Z.eqb_eq in Ez | apply Z.eqb_neq in Ez].
    + symmetry. apply filter_none. intros y Hy.
      pose proof (Hpc y Hy) as H0. apply descLoop_within in Hy. lia.
    + rewrite (Hloop c IH) by (rewrite Z.add_0_r; exact Hpc).
      rewrite Z.add_0_r. apply filter_ext_in. intros y Hy.
      pose proof (Hpc y Hy) as H0. apply descLoop_within in Hy.
      unfold inRange.
      replace (pos + 1 + Z.max 0 from <? snd y + nodeSize (fst y))
        with (pos + 1 + from <? snd y + nodeSize (fst y)).
      2:{ destruct (pos + 1 + from <? snd y + nodeSize (fst y)) eqn:E;
            [apply Z.ltb_lt in E; symmetry; apply Z.ltb_lt; lia
            | apply Z.ltb_ge in E; symmetry; apply Z.ltb_ge; lia]. }
      replace (snd y <? pos + 1 + Z.min (fragSize c) to) with (snd y <? pos + 1 + to).
      2:{ destruct (snd y <? pos + 1 + to) eqn:E;
            [apply Z.ltb_lt in E; symmetry; apply Z.ltb_lt; lia
            | apply Z.ltb_ge in E; symmetry; apply Z.ltb_ge; lia]. }
      reflexivity.
Qed.

Lemma nodesBetween_filter (d : Fragment) (a b : Z) :
  (forall x, In x (descendants d) -> 0 < nodeSize (fst x)) ->
  nodesBetween d a b = filter (inRange a b) (descendants d).
Proof.
  unfold nodesBetween, descendants.
  enough (H : forall c from to ns pos,
             (forall y, In y (descLoop descNode c (ns + pos)) -> 0 < nodeSize (fst y)) ->
             betweenLoop betweenNode from to ns c pos
             = filter (inRange (ns + from) (ns + to)) (descLoop descNode c (ns + pos))).
  { intros Hp. apply (H d a b 0 0). exact Hp. }
  induction c as [|x c IHc]; intros from to ns pos Hp; [reflexivity|].
  rewrite descLoop_cons in Hp. rewrite descLoop_cons, filter_app.
  change (betweenLoop betweenNode from to ns (x :: c) pos)
    with (if pos <? to
          then (if from <? pos + nodeSize x
                then betweenNode x (from - (pos + 1)) (to - (pos + 1)) (ns + pos)
                else [])
               ++ betweenLoop betweenNode from to ns c (pos + nodeSize x)
          else []).
  pose proof (nodeSize_nonneg x) as Hnx.
  destruct (pos <? to) eqn:Et; [apply Z.ltb_lt in Et | apply Z.ltb_ge in Et].
  - rewrite IHc.
    2:{ intros y Hy. apply Hp. apply in_app_iff. right.
        replace (ns + pos + nodeSize x) with (ns + (pos + nodeSize x)) by lia. exact Hy. }
    replace (ns + (pos + nodeSize x)) with (ns + pos + nodeSize x) by lia.
    f_equal.
    destruct (from <? pos + nodeSize x) eqn:Ef; [apply Z.ltb_lt in Ef | apply Z.ltb_ge in Ef].
    + rewrite betweenNode_filter by (intros y Hy; apply Hp; apply in_app_iff; left; exact Hy).
      rewrite (descNode_head x (ns + pos)) at 2. cbn [filter].
      replace (inRange (ns + from) (ns + to) (x, ns + pos)) with true
        by (symmetry; unfold inRange; cbn [fst snd]; apply andb_true_iff;
            split; apply Z.ltb_lt; lia).
      replace (ns + pos + 1 + (from - (pos + 1))) with (ns + from) by lia.
      replace (ns + pos + 1 + (to - (pos + 1))) with (ns + to) by lia.
      reflexivity.
    + symmetry. apply filter_none. intros y Hy. apply descNode_within in Hy.
      unfold inRange. apply andb_false_iff. left. apply Z.ltb_ge. lia.
  - symmetry. rewrite <- filter_app. apply filter_none. intros y Hy.
    rewrite <- descLoop_cons in Hy. apply descLoop_within in Hy.
    unfold inRange. apply andb_false_iff. right. apply Z.ltb_ge. lia.
Qed.

Lemma all_positive (d : Fragment) :
  noEmptyText d -> forall x, In x (descendants d) -> 0 < nodeSize (fst x).
Proof.
  intros Hne [n p] Hin. cbn [fst]. destruct n as [t ms | ty a ms | ty a ms c].
  - apply (Hne _ _ Hin). reflexivity.
  - simpl. lia.
  - rewrite nodeSize_Inner. pose proof (fragSize_nonneg c). lia.
Qed.

(** The text of a range is made of the characters at its positions. *)
Lemma textBetween_chars (d : Fragment) (a b : Z) :
  noEmptyText d ->
  textBetween d a b EmptyString = charsBetween a b 0 (fragTokens d).
Proof.
  intros Hne. rewrite textBetween_pieces, nodesBetween_filter by (apply all_positive; exact Hne).
  apply pieces_chars.
Qed.

Lemma textPiece_tokens (t : string) (ms : list Mark) : fragTokens (textPiece t ms) = strTokens t.
Proof.
  destruct t as [|c t]; [reflexivity|]. unfold textPiece. simpl JS.truthy. cbv iota.
  rewrite fragTokens_cons. apply app_nil_r.
Qed.

(** A mark step changes no token. *)
Lemma mapMarksNode_tokens atoms g from to (n : Node) :
  forall pos, fragTokens (mapMarksNode atoms g from to n pos) = tokens n.
Proof.
  induction n as [t ms | ty a ms | ty a ms c IH] using Node_induction; intros pos.
  - simpl mapMarksNode.
    destruct (overlaps from to pos (JS.length t)) eqn:Eo; cbn [andb];
      [|cbn; apply app_nil_r].
    destruct (negb (sameMarks (g ms) ms)); [|cbn; apply app_nil_r].
    apply overlaps_text_bounds in Eo.
    rewrite fragTokens_app, fragTokens_cons, !textPiece_tokens. cbn [tokens].
    rewrite <- !strTokens_app. f_equal. apply slice_three; lia.
  - simpl mapMarksNode. destruct (_ && _)%bool; cbn; reflexivity.
  - rewrite mapMarksNode_Inner. rewrite fragTokens_cons. cbn [fragTokens flat_map].
    rewrite app_nil_r, !tokens_Inner. do 2 f_equal.
    generalize (pos + 1) as p. induction IH as [|x c Hx _ IHc]; intros p; [reflexivity|].
    rewrite mapLoop_cons, fragTokens_app, Hx, IHc. reflexivity.
Qed.

Lemma mapMarks_tokens atoms g from to (d : Fragment) :
  fragTokens (mapMarks atoms g from to d) = fragTokens d.
Proof.
  unfold mapMarks. generalize 0 as p.
  induction d as [|x c IHc]; intros p; [reflexivity|].
  rewrite mapLoop_cons, fragTokens_app, mapMarksNode_tokens, IHc. reflexivity.
Qed.

(** Two ranges that hold the same positions of every text hold the same
    characters. *)
Lemma charsBetween_text_range (a b a' b' : Z) (t : string) :
  forall pos,
    (forall q, pos <= q < pos + JS.length t -> (a <= q < b <-> a' <= q < b')) ->
    charsBetween a b pos (strTokens t) = charsBetween a' b' pos (strTokens t).
Proof.
  induction t as [|c t IH]; intros pos H; [reflexivity|].
  assert (Hl : JS.length (String c t) = 1 + JS.length t)
    by (unfold JS.length; simpl String.length; lia).
  pose proof (length_nonneg t) as Hn.
  simpl strTokens. rewrite !charsBetween_cons.
  rewrite (IH (pos + 1)) by (intros q Hq; apply H; lia).
  replace ((a' <=? pos) && (pos <? b'))%bool with ((a <=? pos) && (pos <? b))%bool;
    [reflexivity|].
  specialize (H pos ltac:(lia)).
  destruct ((a <=? pos) && (pos <? b))%bool eqn:E1, ((a' <=? pos) && (pos <? b'))%bool eqn:E2;
    try reflexivity; exfalso;
    rewrite ?andb_true_iff, ?andb_false_iff, ?Z.leb_le, ?Z.ltb_lt, ?Z.leb_gt, ?Z.ltb_ge in *;
    lia.
Qed.

Lemma charsBetween_range_node (a b a' b' : Z) (n : Node) :
  forall pos,
    (forall x, In x (descNode n pos) -> isText (fst x) = true ->
               forall q, snd x <= q < snd x + nodeSize (fst x) -> (a <= q < b <-> a' <= q < b')) ->
    charsBetween a b pos (tokens n) = charsBetween a' b' pos (tokens n).
Proof.
  induction n as [t ms | ty a0 ms | ty a0 ms c IH] using Node_induction; intros pos H.
  - cbn [tokens]. apply charsBetween_text_range. intros q Hq.
    apply (H (Text t ms, pos)); [left; reflexivity | reflexivity | exact Hq].
  - reflexivity.
  - rewrite tokens_Inner, !charsBetween_cons, !charsBetween_app. cbn [charsBetween].
    f_equal. rewrite descNode_Inner in H.
    assert (Hc : forall x, In x (descLoop descNode c (pos + 1)) -> isText (fst x) = true ->
                           forall q, snd x <= q < snd x + nodeSize (fst x) ->
                                     (a <= q < b <-> a' <= q < b'))
      by (intros x Hx; apply H; right; exact Hx).
    clear H. revert Hc. generalize (pos + 1) as p.
    induction IH as [|x c Hx _ IHc]; intros p Hc; [reflexivity|].
    rewrite descLoop_cons in Hc.
    rewrite fragTokens_cons, !charsBetween_app, tokens_length. f_equal.
    + apply Hx. intros y Hy. apply Hc. apply in_app_iff. left. exact Hy.
    + apply IHc. intros y Hy. apply Hc. apply in_app_iff. right. exact Hy.
Qed.

Lemma charsBetween_range (a b a' b' : Z) (d : Fragment) :
  (forall x, In x (descendants d) -> isText (fst x) = true ->
             forall q, snd x <= q < snd x + nodeSize (fst x) -> (a <= q < b <-> a' <= q < b')) ->
  charsBetween a b 0 (fragTokens d) = charsBetween a' b' 0 (fragTokens d).
Proof.
  unfold descendants. generalize 0 as p.
  induction d as [|x c IHc]; intros p Hc; [reflexivity|].
  rewrite descLoop_cons in Hc.
  rewrite fragTokens_cons, !charsBetween_app, tokens_length. f_equal.
  - apply charsBetween_range_node. intros y Hy. apply Hc. apply in_app_iff. left. exact Hy.
  - apply IHc. intros y Hy. apply Hc. apply in_app_iff. right. exact Hy.
Qed.

Lemma charsBetween_empty (a pos : Z) (toks : list (option ascii)) :
  charsBetween a a pos toks = EmptyString.
Proof.
  revert pos. induction toks as [|t toks IH]; intros pos; [reflexivity|].
  rewrite charsBetween_cons, IH. destruct t; [|reflexivity].
  replace ((a <=? pos) && (pos <? a))%bool with false; [reflexivity|].
  symmetry. apply andb_false_iff.
  destruct (a <=? pos) eqn:E; [right; apply Z.leb_le in E; apply Z.ltb_ge; lia | left; reflexivity].
Qed.

(* ------------------------------------------------------------------ *)
(** ** Resolved positions *)
(* ------------------------------------------------------------------ *)

Lemma pickChild_nth {A : Type} (f : Node -> option A) (cs : list Node) (i : nat) :
  pickChild f cs i = match nth_error cs i with
                     | Some cur => f cur
                     | None => None
                     end.
Proof.
  revert i. induction cs as [|x cs IH]; intros [|i]; try reflexivity. apply IH.
Qed.

(** The child with index [i] and its descendants are visited from the
    position where the child starts. *)
Lemma child_descendants (c : Fragment) (i : nat) (cur : Node) (base : Z) (x : Node * Z) :
  nth_error c i = Some cur ->
  In x (descNode cur (base + fragSize (firstn i c))) ->
  In x (descLoop descNode c base).
Proof.
  revert i base. induction c as [|y c IH]; intros [|i] base Hn Hx; try discriminate Hn.
  - injection Hn as ->. rewrite descLoop_cons. apply in_app_iff. left.
    change (fragSize (firstn 0 (cur :: c))) with 0 in Hx. rewrite Z.add_0_r in Hx. exact Hx.
  - rewrite descLoop_cons. apply in_app_iff. right.
    apply (IH i (base + nodeSize y) Hn).
    change (firstn (S i) (y :: c)) with (y :: firstn i c) in Hx.
    rewrite fragSize_cons in Hx.
    replace (base + nodeSize y + fragSize (firstn i c))
      with (base + (nodeSize y + fragSize (firstn i c))) by lia.
    exact Hx.
Qed.

Lemma child_in_descLoop (c : Fragment) (i : nat) (cur : Node) (base : Z) :
  nth_error c i = Some cur ->
  In (cur, base + fragSize (firstn i c)) (descLoop descNode c base).
Proof.
  intros Hn. apply (child_descendants c i cur base _ Hn).
  rewrite descNode_head. left. reflexivity.
Qed.

(** What the loop of [findIndex] returns: a child that holds [pos] in its
    inside, with the offset of its start, or the boundary [pos] itself. *)
Lemma findIndexLoop_spec (pos : Z) (cs : list Node) :
  forall i curPos index offset,
    curPos < pos ->
    findIndexLoop pos cs i curPos = Some (index, offset) ->
    exists k,
      index = (i + k)%nat
      /\ ((offset = curPos + fragSize (firstn k cs) /\ offset < pos /\ (k < List.length cs)%nat)
          \/ (offset = pos /\ (0 < k)%nat
              /\ curPos + fragSize (firstn (k - 1) cs) <= pos
              /\ pos = curPos + fragSize (firstn k cs)
              /\ (k <= List.length cs)%nat)).
Proof.
  induction cs as [|cur rest IH]; intros i curPos index offset Hlt H; [discriminate H|].
  cbn [findIndexLoop] in H. cbv zeta in H.
  pose proof (nodeSize_nonneg cur) as Hn.
  destruct (pos <=? curPos + nodeSize cur) eqn:E1; [apply Z.leb_le in E1 | apply Z.leb_gt in E1].
  - destruct (curPos + nodeSize cur =? pos) eqn:E2;
      [apply Z.eqb_eq in E2 | apply Z.eqb_neq in E2]; injection H as <- <-.
    + exists 1%nat. split; [lia|]. right.
      change (firstn 1 (cur :: rest)) with (cur :: firstn 0 rest).
      change (firstn (1 - 1) (cur :: rest)) with (@nil Node).
      rewrite fragSize_cons. change (fragSize (firstn 0 rest)) with 0.
      change (fragSize []) with 0. simpl List.length. repeat split; lia.
    + exists 0%nat. split; [lia|]. left.
      change (fragSize (firstn 0 (cur :: rest))) with 0. simpl List.length. repeat split; lia.
  - destruct (IH (S i) (curPos + nodeSize cur) index offset E1 H) as [k [Hi Hk]].
    exists (S k). split; [lia|].
    change (firstn (S k) (cur :: rest)) with (cur :: firstn k rest).
    rewrite fragSize_cons. simpl List.length.
    destruct Hk as [[H1 [H2 H3]] | [H1 [H2 [H3 [H4 H5]]]]].
    + left. repeat split; lia.
    + right. replace (S k - 1)%nat with (S (k - 1)) by lia.
      change (firstn (S (k - 1)) (cur :: rest)) with (cur :: firstn (k - 1) rest).
      rewrite fragSize_cons. repeat split; lia.
Qed.

Lemma firstn_all_size (c : Fragment) : fragSize (firstn (List.length c) c) = fragSize c.
Proof. rewrite firstn_all. reflexivity. Qed.

(** [findIndex] when it does not sit on a boundary: the index of the
    child around [pos] and the offset where that child starts. *)
Lemma findIndex_inside (content : Fragment) (pos : Z) (index : nat) (offset : Z) :
  findIndex content pos = Some (index, offset) ->
  offset <> pos ->
  offset = fragSize (firstn index content) /\ (index < List.length content)%nat.
Proof.
  unfold findIndex.
  destruct (pos =? 0) eqn:E0; [intros H; injection H as <- <-; contradiction|].
  destruct (pos =? fragSize content); [intros H; injection H as <- <-; contradiction|].
  destruct (_ || _)%bool eqn:E2; [discriminate|].
  apply orb_false_iff in E2. destruct E2 as [_ E2]. apply Z.ltb_ge in E2. apply Z.eqb_neq in E0.
  intros H Hne.
  destruct (findIndexLoop_spec pos content 0 0 index offset ltac:(lia) H) as [k [Hi Hk]].
  simpl in Hi. subst index.
  destruct Hk as [[H1 [H2 H3]] | [H1 _]]; [|contradiction].
  split; [lia | exact H3].
Qed.

Lemma firstn_step_size (c : Fragment) (k : nat) (x : Node) :
  nth_error c k = Some x -> fragSize (firstn (S k) c) = fragSize (firstn k c) + nodeSize x.
Proof.
  revert k. induction c as [|y c IH]; intros [|k] H; try discriminate H.
  - injection H as ->. change (firstn 1 (x :: c)) with (x :: firstn 0 c).
    rewrite fragSize_cons. change (fragSize (firstn 0 ?l)) with 0. lia.
  - change (firstn (S (S k)) (y :: c)) with (y :: firstn (S k) c).
    change (firstn (S k) (y :: c)) with (y :: firstn k c).
    rewrite !fragSize_cons, (IH k H). lia.
Qed.

(** The child [childBefore] finds starts before the offset, when no
    child is empty. *)
Lemma childBefore_starts_before (content : Fragment) (pos : Z) (i : nat) (c : Node) :
  (forall x, In x content -> 0 < nodeSize x) ->
  childBefore content pos = Some i ->
  nth_error content i = Some c ->
  fragSize (firstn i content) < pos.
Proof.
  intros Hp. unfold childBefore, findIndex.
  destruct (pos =? 0) eqn:E0; [discriminate|]. apply Z.eqb_neq in E0.
  assert (Hc : forall k x, nth_error content k = Some x ->
                           fragSize (firstn k content) < fragSize (firstn (S k) content)).
  { intros k x Hx. rewrite (firstn_step_size _ _ _ Hx).
    pose proof (Hp x (nth_error_In _ _ Hx)). lia. }
  destruct (pos =? fragSize content) eqn:E1.
  - apply Z.eqb_eq in E1. rewrite Z.ltb_irrefl. intros H Hn. injection H as <-.
    pose proof (proj1 (nth_error_Some content (List.length content - 1)) ltac:(congruence)) as Hl.
    pose proof (Hc _ _ Hn) as Hlt.
    replace (S (List.length content - 1)) with (List.length content) in Hlt by lia.
    rewrite firstn_all_size in Hlt. lia.
  - destruct (_ || _)%bool eqn:E2; [discriminate|].
    apply orb_false_iff in E2. destruct E2 as [_ E2]. apply Z.ltb_ge in E2.
    destruct (findIndexLoop pos content 0 0) as [[index offset]|] eqn:Ef; [|discriminate].
    destruct (findIndexLoop_spec pos content 0 0 index offset ltac:(lia) Ef) as [k [Hi Hk]].
    simpl in Hi. subst index.
    destruct Hk as [[H1 [H2 H3]] | [H1 [H2 [H3 [H4 H5]]]]].
    + replace (offset <? pos) with true by (symmetry; apply Z.ltb_lt; lia).
      intros H _. injection H as <-. lia.
    + replace (offset <? pos) with false by (symmetry; apply Z.ltb_ge; lia).
      intros H Hn. injection H as <-. pose proof (Hc _ _ Hn) as Hlt.
      replace (S (k - 1)) with k in Hlt by lia. lia.
Qed.

(** The children of the parent of a resolved position are nodes of the
    document; the parent's content starts [parentOffset] before the
    position. *)
Lemma resolveNode_parent (n : Node) :
  forall base po rp,
    resolveNode n po = Some rp ->
    forall i c,
      nth_error (parent rp) i = Some c ->
      In (c, base + 1 + po - parentOffset rp + fragSize (firstn i (parent rp)))
         (descNode n base).
Proof.
  assert (Hloop : forall content,
             Forall (fun x => forall base po rp,
                         resolveNode x po = Some rp ->
                         forall i c,
                           nth_error (parent rp) i = Some c ->
                           In (c, base + 1 + po - parentOffset rp
                                  + fragSize (firstn i (parent rp)))
                              (descNode x base)) content ->
             forall base po rp,
               resolveLoop resolveNode content po = Some rp ->
               forall i c,
                 nth_error (parent rp) i = Some c ->
                 In (c, base + po - parentOffset rp + fragSize (firstn i (parent rp)))
                    (descLoop descNode content base)).
  { intros content HF base po rp Hr i c Hc. unfold resolveLoop in Hr.
    destruct (findIndex content po) as [[index offset]|] eqn:Ef; [|discriminate].
    destruct (po - offset =? 0) eqn:Er; [apply Z.eqb_eq in Er | apply Z.eqb_neq in Er].
    - injection Hr as <-. cbn [parent parentOffset] in *.
      replace (base + po - po) with base by lia. apply child_in_descLoop. exact Hc.
    - rewrite pickChild_nth in Hr.
      destruct (nth_error content index) as [cur|] eqn:En; [|discriminate].
      destruct (isText cur).
      + injection Hr as <-. cbn [parent parentOffset] in *.
        replace (base + po - po) with base by lia. apply child_in_descLoop. exact Hc.
      + destruct (findIndex_inside content po index offset Ef ltac:(lia)) as [Ho _].
        rewrite Forall_forall in HF.
        pose proof (HF cur (nth_error_In _ _ En) (base + offset) (po - offset - 1) rp Hr i c Hc)
          as Hin.
        replace (base + offset + 1 + (po - offset - 1) - parentOffset rp)
          with (base + po - parentOffset rp) in Hin by lia.
        rewrite Ho in Hin. exact (child_descendants content index cur base _ En Hin). }
  induction n as [t ms | ty a ms | ty a ms c IH] using Node_induction;
    intros base po rp Hr i x Hx; try discriminate Hr.
  rewrite descNode_Inner. right.
  change (resolveNode (Inner ty a ms c) po) with (resolveLoop resolveNode c po) in Hr.
  exact (Hloop c IH (base + 1) po rp Hr i x Hx).
Qed.

Lemma resolve_parent (d : Fragment) (pos : Z) (rp : ResolvedPos) (i : nat) (c : Node) :
  resolve d pos = Some rp ->
  nth_error (parent rp) i = Some c ->
  In (c, pos - parentOffset rp + fragSize (firstn i (parent rp))) (descendants d).
Proof.
  unfold resolve, descendants, resolveLoop. intros Hr Hc.
  destruct (findIndex d pos) as [[index offset]|] eqn:Ef; [|discriminate].
  destruct (pos - offset =? 0) eqn:Er; [apply Z.eqb_eq in Er | apply Z.eqb_neq in Er].
  - injection Hr as <-. cbn [parent parentOffset] in *.
    replace (pos - pos) with 0 by lia. apply child_in_descLoop. exact Hc.
  - rewrite pickChild_nth in Hr.
    destruct (nth_error d index) as [cur|] eqn:En; [|discriminate].
    destruct (isText cur).
    + injection Hr as <-. cbn [parent parentOffset] in *.
      replace (pos - pos) with 0 by lia. apply child_in_descLoop. exact Hc.
    + destruct (findIndex_inside d pos index offset Ef ltac:(lia)) as [Ho _].
      pose proof (resolveNode_parent cur (0 + offset) (pos - offset - 1) rp Hr i c Hc) as Hin.
      replace (0 + offset + 1 + (pos - offset - 1) - parentOffset rp)
        with (pos - parentOffset rp) in Hin by lia.
      rewrite Ho in Hin. exact (child_descendants d index cur 0 _ En Hin).
Qed.

(* ------------------------------------------------------------------ *)
(** ** The range of a mark *)
(* ------------------------------------------------------------------ *)

Lemma first_split {A : Type} (f : A -> bool) (l : list A) :
  existsb f l = true ->
  exists l1 x l2, l = l1 ++ x :: l2 /\ f x = true /\ forall y, In y l1 -> f y = false.
Proof.
  induction l as [|a l IH]; [discriminate|]. simpl.
  destruct (f a) eqn:E.
  - intros _. exists [], a, l. repeat split; [exact E | intros y []].
  - intros H. destruct (IH H) as [l1 [x [l2 [-> [Hx Hl]]]]].
    exists (a :: l1), x, l2. repeat split; [exact Hx|].
    intros y [<- | Hy]; [exact E | apply Hl; exact Hy].
Qed.

Lemma FOP_after {A : Type} (R : A -> A -> Prop) (l1 l2 : list A) (x : A) :
  ForallOrdPairs R (l1 ++ x :: l2) -> forall y, In y l2 -> R x y.
Proof.
  induction l1 as [|a l1 IH]; simpl; intros H; inversion H as [|? ? Ha Hl]; subst.
  - intros y Hy. rewrite Forall_forall in Ha. apply Ha. exact Hy.
  - apply IH. exact Hl.
Qed.

Lemma FOP_filter {A : Type} (R : A -> A -> Prop) (f : A -> bool) (l : list A) :
  ForallOrdPairs R l -> ForallOrdPairs R (filter f l).
Proof.
  induction 1 as [|a l Ha Hl IH]; simpl; [constructor|].
  destruct (f a); [|exact IH]. constructor; [|exact IH].
  apply Forall_forall. intros y Hy. apply filter_In in Hy.
  rewrite Forall_forall in Ha. apply Ha. tauto.
Qed.

(** [findCommentMarkRange] stops at the first image or marked text of the
    thread; for a text it answers with the start and the end it computes
    there. *)
Lemma findCommentMarkRange_first state tid l1 n p l2 :
  hasCommentMark (schema state) = true ->
  descendants (doc state) = l1 ++ (n, p) :: l2 ->
  (forall y, In y l1 ->
             (isImage (fst y) && eqId (commentThreadId (attrsOf (fst y))) (Some tid))%bool = false
             /\ markedText tid y = false) ->
  (isImage n && eqId (commentThreadId (attrsOf n)) (Some tid))%bool = false ->
  markedText tid (n, p) = true ->
  findCommentMarkRange state (Some tid)
  = Some (mkRange (walkFrom state (Some tid) p) (scanTo state (Some tid) n p) false).
Proof.
  intros Hc Hd Hl Hi Hm. unfold findCommentMarkRange. rewrite Hc, Hd. cbn [negb].
  rewrite fold_left_app, fold_left_cons.
  match goal with |- fold_left ?f _ _ = _ => set (step := f) end.
  assert (H1 : fold_left step l1 None = None).
  { clear Hd. induction l1 as [|[y q] l1 IH]; [reflexivity|].
    rewrite fold_left_cons.
    destruct (Hl (y, q) (or_introl eq_refl)) as [Hy1 Hy2].
    unfold markedText, hasMarkOf in Hy2. cbn [fst] in Hy1, Hy2.
    replace (step None (y, q)) with (@None MarkRange).
    - apply IH. intros z Hz. apply Hl. right. exact Hz.
    - unfold step. rewrite Hy1, Hy2. reflexivity. }
  assert (H3 : forall r, fold_left step l2 (Some r) = Some r).
  { clear. intros r. induction l2 as [|[y q] l2 IH]; [reflexivity|].
    rewrite fold_left_cons. exact IH. }
  rewrite H1. unfold markedText, hasMarkOf in Hm. cbn [fst] in Hm.
  cbv beta iota. rewrite Hi, Hm. rewrite H3. reflexivity.
Qed.

(** The scan for the end: it ends up at the end of a marked text, which
    is the last one where the texts come in the order of their
    positions. *)
Lemma scan_fold (tid : string) (pos : Z) (l : list (Node * Z)) :
  ForallOrdPairs textBefore2 l ->
  forall start,
    let r := fold_left (scanStep (Some tid) pos) l start in
    (r = start
     \/ exists y, In y l /\ markedText tid y = true /\ pos <= snd y /\ r = callEnd y)
    /\ (forall y, In y l -> markedText tid y = true -> pos <= snd y -> callEnd y <= r).
Proof.
  induction 1 as [|[n p] l Ha Hl IH]; intros start; cbv zeta.
  - split; [left; reflexivity | intros y []].
  - rewrite fold_left_cons.
    destruct (IH (scanStep (Some tid) pos start (n, p))) as [H1 H2].
    assert (Hstep : scanStep (Some tid) pos start (n, p)
                    = if ((pos <=? p) && markedText tid (n, p))%bool then p + nodeSize n
                      else start).
    { unfold scanStep, markedText, hasMarkOf. cbn [fst].
      destruct (p <? pos) eqn:E1; [apply Z.ltb_lt in E1 | apply Z.ltb_ge in E1].
      - replace (pos <=? p) with false by (symmetry; apply Z.leb_gt; lia). reflexivity.
      - replace (pos <=? p) with true by (symmetry; apply Z.leb_le; lia).
        destruct (isText n); reflexivity. }
    rewrite Hstep in H1, H2. rewrite Hstep.
    destruct ((pos <=? p) && markedText tid (n, p))%bool eqn:E.
    + apply andb_true_iff in E. destruct E as [E1 E2]. apply Z.leb_le in E1.
      assert (Hge : callEnd (n, p) <= fold_left (scanStep (Some tid) pos) l (p + nodeSize n)).
      { destruct H1 as [-> | [y [Hy [Hm [Hp ->]]]]]; [unfold callEnd; simpl; lia|].
        rewrite Forall_forall in Ha. pose proof (Ha y Hy) as Hb.
        unfold markedText in Hm, E2. apply andb_true_iff in Hm, E2.
        specialize (Hb (proj1 E2) (proj1 Hm)).
        pose proof (nodeSize_nonneg (fst y)). unfold callEnd in *. lia. }
      split.
      * right. destruct H1 as [H1 | [y [Hy [Hm [Hp Hr]]]]].
        -- exists (n, p). repeat split; [left; reflexivity | exact E2 | exact E1 | exact H1].
        -- exists y. repeat split; [right; exact Hy | exact Hm | exact Hp | exact Hr].
      * intros y [<- | Hy] Hm Hp; [exact Hge | apply H2; assumption].
    + split.
      * destruct H1 as [H1 | [y [Hy [Hm [Hp Hr]]]]]; [left; exact H1|].
        right. exists y. repeat split; [right; exact Hy | exact Hm | exact Hp | exact Hr].
      * intros y [<- | Hy] Hm Hp; [|apply H2; assumption].
        exfalso. apply andb_false_iff in E. destruct E as [E | E]; [|congruence].
        apply Z.leb_gt in E. simpl in Hp. lia.
Qed.

(** The walk back stops at once when the child before the offset is not
    a marked text. *)
Lemma walkBack_stops fuel (parent : Fragment) (tid : string) (pos parentOffset offset from : Z) :
  (forall i c, childBefore parent offset = Some i -> nth_error parent i = Some c ->
               markedText tid (c, 0) = false) ->
  walkBack fuel parent (Some tid) pos parentOffset offset from = from.
Proof.
  intros H. destruct fuel as [|fuel]; [reflexivity|]. cbn [walkBack].
  destruct (0 <? offset); [|reflexivity].
  destruct (childBefore parent offset) as [i|] eqn:Ec; [|reflexivity].
  destruct (nth_error parent i) as [c|] eqn:En; [|reflexivity].
  specialize (H i c eq_refl En). unfold markedText, hasMarkOf in H. cbn [fst] in H.
  destruct (isText c); cbn [negb andb] in *; [|reflexivity].
  rewrite H. reflexivity.
Qed.

Lemma hasMarkOf_In (tid : string) (n : Node) :
  hasMarkOf tid n = true <-> exists m, In m (marksOf n) /\ isCommentFor tid m = true.
Proof. unfold hasMarkOf. rewrite existsb_exists. reflexivity. Qed.

Lemma hasMarkOf_created (tid : string) (n : Node) :
  In (createComment tid) (marksOf n) -> hasMarkOf tid n = true.
Proof.
  intros H. apply hasMarkOf_In. exists (createComment tid). split; [exact H|].
  unfold isCommentFor. simpl. apply String.eqb_refl.
Qed.

Lemma hasMarkOf_marks (tid : string) (a b : Node) :
  marksOf a = marksOf b -> hasMarkOf tid a = hasMarkOf tid b.
Proof. unfold hasMarkOf. intros ->. reflexivity. Qed.

Section FreshMark.

Variables (excl : bool) (tid : string) (from to : Z) (d : Fragment).
Hypothesis Hfresh : freshThread tid d.

(** After the mark of a new thread has been added over a range, the
    texts with the mark are the texts of the range, and each of them
    lies inside the range. *)
Lemma fresh_marked (n : Node) (p : Z) :
  In (n, p) (descendants (mapMarks true (addToSet excl (createComment tid)) from to d)) ->
  isText n = true ->
  (hasMarkOf tid n = true <-> overlaps from to p (nodeSize n) = true)
  /\ (hasMarkOf tid n = true -> from <= p /\ p + nodeSize n <= to).
Proof.
  intros Hin Ht.
  destruct (mapMarks_origin _ _ _ _ _ _ Hin) as [[n0 p0] [H0 Hder]].
  destruct Hder as [_ [_ [D3 [_ [_ [_ [_ [_ [D9 [D10 [_ D12]]]]]]]]]]].
  cbn [fst snd] in *.
  destruct (Hfresh n0 p0 H0) as [Hm0 _]. fold (hasMarkOf tid n0) in Hm0.
  assert (Ha : affected true n0 = true).
  { rewrite Ht in D3. destruct n0; try discriminate D3. apply affected_text. }
  assert (Hfwd : overlaps from to p (nodeSize n) = true -> hasMarkOf tid n = true).
  { intros Ho. apply hasMarkOf_created. rewrite (D9 Ha Ho). apply addToSet_has. }
  assert (Hbwd : hasMarkOf tid n = true -> overlaps from to p (nodeSize n) = true).
  { intros Hm. destruct (overlaps from to p (nodeSize n)) eqn:Eo; [reflexivity|].
    rewrite (hasMarkOf_marks tid n n0 (D10 (or_intror eq_refl))) in Hm. congruence. }
  split; [split; assumption|].
  intros Hm. destruct (D12 Ht (Hbwd Hm)) as [Hw | He]; [exact Hw|].
  exfalso. assert (Hc : hasMarkOf tid n0 = true)
    by (apply hasMarkOf_created; rewrite He; apply addToSet_has).
  congruence.
Qed.

Lemma fresh_image (n : Node) (p : Z) :
  In (n, p) (descendants (mapMarks true (addToSet excl (createComment tid)) from to d)) ->
  (isImage n && eqId (commentThreadId (attrsOf n)) (Some tid))%bool = false.
Proof.
  intros Hin.
  destruct (mapMarks_origin _ _ _ _ _ _ Hin) as [[n0 p0] [H0 Hder]].
  destruct Hder as [_ [_ [_ [_ [_ [D6 [D7 _]]]]]]]. cbn [fst snd] in *.
  destruct (Hfresh n0 p0 H0) as [_ Hi0].
  unfold isImage in *. rewrite D6, D7. exact Hi0.
Qed.

Lemma fresh_noEmptyText :
  noEmptyText d ->
  noEmptyText (mapMarks true (addToSet excl (createComment tid)) from to d).
Proof.
  intros Hne n p Hin Ht.
  destruct (mapMarks_origin _ _ _ _ _ _ Hin) as [[n0 p0] [H0 Hder]].
  destruct Hder as [_ [_ [D3 [_ [_ [_ [_ [_ [_ [_ [D11 _]]]]]]]]]]]. cbn [fst snd] in *.
  apply D11. apply (Hne n0 p0 H0). rewrite <- D3. exact Ht.
Qed.

End FreshMark.

Lemma markedText_pos (tid : string) (n : Node) (p q : Z) :
  markedText tid (n, p) = markedText tid (n, q).
Proof. reflexivity. Qed.

Lemma isOnlyWhitespace_empty : isOnlyWhitespace EmptyString = true.
Proof. reflexivity. Qed.

(** The round trip for a new thread: after the mark has been added over
    a range with text, [findCommentMarkRange] finds a range inside it
    that covers the same text. *)
Lemma markRange_round_trip state tid from to :
  hasCommentMark (schema state) = true ->
  noEmptyText (doc state) ->
  freshThread tid (doc state) ->
  isOnlyWhitespace (textBetween (doc state) from to EmptyString) = false ->
  let state' := applyTr state (markRange state tid from to) in
  exists range,
    findCommentMarkRange state' (Some tid) = Some range
    /\ rangeIsImage range = false
    /\ from <= rangeFrom range /\ rangeFrom range <= rangeTo range /\ rangeTo range <= to
    /\ textBetween (doc state') (rangeFrom range) (rangeTo range) EmptyString
       = textBetween (doc state) from to EmptyString.
Proof.
  intros Hc Hne Hfresh Hw state'.
  set (excl := commentExcludes (schema state)).
  set (d' := mapMarks true (addToSet excl (createComment tid)) from to (doc state)).
  assert (Hd' : doc state' = d') by reflexivity.
  assert (Hc' : hasCommentMark (schema state') = true) by exact Hc.
  pose proof (fresh_noEmptyText excl tid from to (doc state) Hne) as Hne'. fold d' in Hne'.
  pose proof (fresh_marked excl tid from to (doc state) Hfresh) as HF. fold d' in HF.
  pose proof (fresh_image excl tid from to (doc state) Hfresh) as HI. fold d' in HI.
  pose proof (all_positive d' Hne') as Hpos.
  assert (Htext : textBetween (doc state) from to EmptyString
                  = charsBetween from to 0 (fragTokens d')).
  { rewrite textBetween_chars by exact Hne. unfold d'. rewrite mapMarks_tokens. reflexivity. }
  assert (Hover : forall n p q, In (n, p) (descendants d') -> isText n = true ->
                                p <= q < p + nodeSize n -> from <= q < to ->
                                markedText tid (n, p) = true).
  { intros n p q Hin Ht Hq Hr. unfold markedText. cbn [fst]. rewrite Ht. cbn [andb].
    apply (HF n p Hin Ht). unfold overlaps. apply Z.ltb_lt. lia. }
  destruct (existsb (markedText tid) (descendants d')) eqn:Ex.
  2:{ exfalso.
      assert (He : charsBetween from to 0 (fragTokens d') = EmptyString).
      { rewrite (charsBetween_range from to 0 0 d'); [apply charsBetween_empty|].
        intros [n p] Hin Ht q Hq. cbn [fst snd] in *. split; [|lia].
        intros Hr. exfalso.
        assert (Ht' : existsb (markedText tid) (descendants d') = true).
        { apply existsb_exists. exists (n, p). split; [exact Hin|].
          apply (Hover n p q Hin Ht Hq Hr). }
        congruence. }
      rewrite Htext, He, isOnlyWhitespace_empty in Hw. discriminate Hw. }
  destruct (first_split _ _ Ex) as [l1 [[n1 p1] [l2 [Hsplit [Hm1 Hl1]]]]].
  assert (Hin1 : In (n1, p1) (descendants d'))
    by (rewrite Hsplit; apply in_app_iff; right; left; reflexivity).
  pose proof Hm1 as Hm1'. unfold markedText in Hm1'. cbn [fst] in Hm1'.
  apply andb_true_iff in Hm1'. destruct Hm1' as [Ht1 Hk1].
  destruct (proj2 (HF n1 p1 Hin1 Ht1) Hk1) as [Hw1 Hw2].
  pose proof (Hpos (n1, p1) Hin1) as Hpos1. cbn [fst] in Hpos1.
  destruct (descendants_order d') as [Hwithin Hord]. rewrite Forall_forall in Hwithin.
  assert (Hmin : forall n p, In (n, p) (descendants d') -> markedText tid (n, p) = true ->
                             (n, p) = (n1, p1) \/ p1 + nodeSize n1 <= p).
  { intros n p Hin Hm. rewrite Hsplit in Hin, Hord. apply in_app_iff in Hin.
    destruct Hin as [Hin | [Hin | Hin]].
    - rewrite (Hl1 _ Hin) in Hm. discriminate Hm.
    - left. symmetry. exact Hin.
    - right. pose proof (FOP_after _ _ _ _ Hord (n, p) Hin) as Hb.
      unfold markedText in Hm. cbn [fst] in Hm. apply andb_true_iff in Hm.
      exact (Hb Ht1 (proj1 Hm)). }
  exists (mkRange (walkFrom state' (Some tid) p1) (scanTo state' (Some tid) n1 p1) false).
  assert (Hfrom : walkFrom state' (Some tid) p1 = p1).
  { unfold walkFrom. rewrite Hd'. destruct (resolve d' p1) as [rp|] eqn:Er; [|reflexivity].
    apply walkBack_stops. intros i c Hcb Hnth.
    pose proof (resolve_parent d' p1 rp i c Er Hnth) as Hinc.
    assert (Hpc : forall x, In x (parent rp) -> 0 < nodeSize x).
    { intros x Hx. destruct (In_nth_error _ _ Hx) as [j Hj].
      exact (Hpos _ (resolve_parent d' p1 rp j x Er Hj)). }
    pose proof (childBefore_starts_before (parent rp) (parentOffset rp) i c Hpc Hcb Hnth) as Hlt.
    destruct (markedText tid (c, 0)) eqn:Em; [|reflexivity]. exfalso.
    rewrite (markedText_pos tid c 0 (p1 - parentOffset rp + fragSize (firstn i (parent rp))))
      in Em.
    destruct (Hmin _ _ Hinc Em) as [He | Hge].
    - injection He as _ He. lia.
    - lia. }
  assert (Hscan : let rt := scanTo state' (Some tid) n1 p1 in
                  p1 <= rt /\ rt <= to
                  /\ forall n p, In (n, p) (descendants d') -> markedText tid (n, p) = true ->
                                 p + nodeSize n <= rt).
  { unfold scanTo. rewrite Hd'. rewrite nodesBetween_filter by exact Hpos.
    pose proof (scan_fold tid p1 (filter (inRange p1 (fragSize d')) (descendants d'))
                  (FOP_filter _ _ _ Hord) (p1 + nodeSize n1)) as Hs.
    cbv zeta in Hs. cbv zeta.
    set (rt := fold_left (scanStep (Some tid) p1)
                 (filter (inRange p1 (fragSize d')) (descendants d')) (p1 + nodeSize n1)) in *.
    destruct Hs as [Hs1 Hs2].
    assert (Hfil : forall n p, In (n, p) (descendants d') -> markedText tid (n, p) = true ->
                               In (n, p) (filter (inRange p1 (fragSize d')) (descendants d'))
                               /\ p1 <= p).
    { intros n p Hin Hm. pose proof (Hpos _ Hin) as Hp. destruct (Hwithin _ Hin) as [Ha Hb].
      unfold callEnd in Hb. cbn [fst snd] in *.
      assert (p1 <= p) by (destruct (Hmin n p Hin Hm) as [He | Hge];
                           [injection He as _ He; lia | lia]).
      split; [|assumption]. apply filter_In. split; [exact Hin|].
      unfold inRange. cbn [fst snd]. apply andb_true_iff. split; apply Z.ltb_lt; lia. }
    repeat split.
    - destruct Hs1 as [-> | [y [Hy [Hmy [Hpy ->]]]]]; [lia|].
      pose proof (nodeSize_nonneg (fst y)). unfold callEnd. lia.
    - destruct Hs1 as [-> | [[n p] [Hy [Hmy [Hpy ->]]]]]; [lia|].
      apply filter_In in Hy. destruct Hy as [Hy _].
      pose proof Hmy as Hmy'. unfold markedText in Hmy'. cbn [fst] in Hmy'.
      apply andb_true_iff in Hmy'. destruct Hmy' as [Hty Hky].
      destruct (proj2 (HF n p Hy Hty) Hky) as [_ Hb]. unfold callEnd. cbn [fst snd]. exact Hb.
    - intros n p Hin Hm. destruct (Hfil n p Hin Hm) as [Hf Hp].
      exact (Hs2 (n, p) Hf Hm Hp). }
  cbv zeta in Hscan. destruct Hscan as [Hrt1 [Hrt2 Hrt3]].
  split.
  { apply (findCommentMarkRange_first state' tid l1 n1 p1 l2 Hc').
    - rewrite Hd'. exact Hsplit.
    - intros [y q] Hy. split; [|apply Hl1; exact Hy].
      apply (HI y q). rewrite Hsplit. apply in_app_iff. left. exact Hy.
    - exact (HI n1 p1 Hin1).
    - exact Hm1. }
  cbn [rangeFrom rangeTo rangeIsImage]. rewrite Hfrom.
  repeat split; try lia.
  rewrite Hd', textBetween_chars by exact Hne'. rewrite Htext.
  apply charsBetween_range. intros [n p] Hin Ht q Hq. cbn [fst snd] in *. split.
  - intros Hr. lia.
  - intros Hr. pose proof (Hover n p q Hin Ht Hq Hr) as Hm.
    pose proof (Hrt3 n p Hin Hm) as Hb.
    destruct (Hmin n p Hin Hm) as [He | Hge]; [injection He as _ He; lia | lia].
Qed.

Lemma joinStrings_empty (l : list string) :
  (forall s, In s l -> s = EmptyString) -> joinStrings l = EmptyString.
Proof.
  induction l as [|x l IH]; intros H; [reflexivity|].
  change (joinStrings (x :: l)) with (String.append x (joinStrings l)).
  rewrite (H x (or_introl eq_refl)), IH; [reflexivity|].
  intros s Hs. apply H. right. exact Hs.
Qed.

Lemma flat_map_nil {A B : Type} (f : A -> list B) (l : list A) (x : A) :
  flat_map f l = [] -> In x l -> f x = [].
Proof.
  induction l as [|a l IH]; intros H []; simpl in H; apply app_eq_nil in H; destruct H as [H1 H2].
  - subst. exact H1.
  - apply IH; assumption.
Qed.

(** Marking a range with text for a new thread takes a step. *)
Lemma markRange_has_step state tid from to :
  noEmptyText (doc state) ->
  freshThread tid (doc state) ->
  isOnlyWhitespace (textBetween (doc state) from to EmptyString) = false ->
  steps (markRange state tid from to) <> [].
Proof.
  intros Hne Hfresh Hw Hs. unfold markRange, addMark in Hs. cbn [steps newTr trDoc app] in Hs.
  assert (He : textBetween (doc state) from to EmptyString = EmptyString).
  { rewrite textBetween_pieces. apply joinStrings_empty. intros s0 Hin.
    apply in_map_iff in Hin. destruct Hin as [[n p] [<- Hin]].
    pose proof (flat_map_nil _ _ _ Hs Hin) as Hx. cbv beta iota in Hx.
    destruct n as [t ms | ty a ms | ty a ms c]; try reflexivity. exfalso.
    rewrite nodesBetween_filter in Hin by (apply all_positive; exact Hne).
    apply filter_In in Hin. destruct Hin as [Hin _].
    destruct (Hfresh _ _ Hin) as [Hm _]. cbn [marksOf] in Hm, Hx.
    destruct (isInSet (createComment tid) ms) eqn:Ei; [|discriminate Hx].
    apply isInSet_In in Ei.
    pose proof (hasMarkOf_created tid (Text t ms) Ei) as Hc. unfold hasMarkOf in Hc.
    cbn [marksOf] in Hc. congruence. }
  rewrite He, isOnlyWhitespace_empty in Hw. discriminate Hw.
Qed.

(* ------------------------------------------------------------------ *)
(** ** Orphan detection run twice *)
(* ------------------------------------------------------------------ *)

Lemma rewriteRoots_threadKeys ids f m :
  (forall c, threadId (f c) = threadId c) ->
  threadKeys (rewriteRoots ids f m) = threadKeys m.
Proof.
  intros Hf. unfold threadKeys. generalize (@nil string) as acc.
  induction m as [|[k c] m IH]; intros acc; [reflexivity|].
  cbn [rewriteRoots map]. rewrite !fold_left_cons. cbn [snd fst].
  replace (threadId (snd (if (includes ids (threadId c) && isNull (parentId c))%bool
                          then (k, f c) else (k, c))))
    with (threadId c) by (destruct (_ && _)%bool; cbn [snd]; [rewrite Hf|]; reflexivity).
  apply IH.
Qed.

(** The comments of a thread after its roots have been rewritten. *)
Lemma rewriteRoots_commentsOf ids f m tid c' :
  (forall c, threadId (f c) = threadId c) ->
  In c' (commentsOf (rewriteRoots ids f m) tid) ->
  exists c, In c (commentsOf m tid)
            /\ c' = (if (includes ids tid && isNull (parentId c))%bool then f c else c).
Proof.
  intros Hf Hin. apply commentsOf_In in Hin. destruct Hin as [[key Hin] Ht].
  unfold rewriteRoots in Hin. apply in_map_iff in Hin. destruct Hin as [[k c] [He Hin]].
  cbn [fst snd] in He.
  assert (Htc : threadId c = tid).
  { destruct (_ && _)%bool; injection He as _ <-; [rewrite Hf in Ht|]; exact Ht. }
  exists c. split; [apply commentsOf_In; split; [exists k; exact Hin | exact Htc]|].
  rewrite <- Htc. destruct (_ && _)%bool; injection He as _ <-; reflexivity.
Qed.

Lemma rewriteRoots_commentsOf_miss ids f m tid :
  (forall c, threadId (f c) = threadId c) ->
  ~ In tid ids -> commentsOf (rewriteRoots ids f m) tid = commentsOf m tid.
Proof.
  intros Hf Hn. unfold commentsOf, rewriteRoots. rewrite map_map.
  induction m as [|[k c] m IH]; [reflexivity|]. cbn [map fst snd filter].
  rewrite IH. clear IH.
  destruct (includes ids (threadId c)) eqn:Ei; cbn [andb]; [|reflexivity].
  apply includes_In in Ei.
  assert (Hne : String.eqb (threadId c) tid = false)
    by (apply eqb_false_iff; intros He; rewrite He in Ei; contradiction).
  destruct (isNull (parentId c)); cbn [snd]; rewrite ?Hf, Hne; reflexivity.
Qed.

Lemma setOrphaned_threadId flag at_ c : threadId (setOrphaned flag at_ c) = threadId c.
Proof. reflexivity. Qed.

(** Where every thread of the store has a root comment, a second run of
    the orphan detection on the same live marks finds no thread to
    report. *)
Lemma second_batch_empty (now : Z) (live : list (option string)) (m : CommentsMap) :
  (forall tid, In tid (threadKeys m) ->
               exists c, In c (commentsOf m tid) /\ parentId c = None) ->
  newlyOrphanedIds live
    (groupCommentsByThread
       (rewriteRoots (newlyOrphanedIds live (groupCommentsByThread m))
                     (setOrphaned true (Some now)) m))
  = [].
Proof.
  intros Hroot.
  set (ids := newlyOrphanedIds live (groupCommentsByThread m)).
  set (m' := rewriteRoots ids (setOrphaned true (Some now)) m).
  destruct (newlyOrphanedIds live (groupCommentsByThread m')) as [|tid rest] eqn:E;
    [reflexivity|]. exfalso.
  assert (Hin : In tid (newlyOrphanedIds live (groupCommentsByThread m')))
    by (rewrite E; left; reflexivity).
  clear E. apply newlyOrphanedIds_In in Hin.
  destruct Hin as [comments' [Hg [Hlive [Hres Horph]]]].
  apply groupCommentsByThread_In in Hg. destruct Hg as [Hkey ->].
  unfold m' in Hkey. rewrite rewriteRoots_threadKeys in Hkey by apply setOrphaned_threadId.
  destruct (in_dec string_dec tid ids) as [Hi | Hi].
  - destruct (Hroot tid Hkey) as [c [Hc Hp]].
    unfold rootOrphaned, rootComment in Horph.
    destruct (find (fun c0 => isNull (parentId c0)) (sortByCreatedAt (commentsOf m' tid)))
      as [r|] eqn:Ef.
    + apply find_some in Ef. destruct Ef as [Hr Hn].
      apply (proj1 (sortByCreatedAt_In _ _)) in Hr.
      destruct (rewriteRoots_commentsOf ids _ m tid r (setOrphaned_threadId _ _) Hr)
        as [c0 [_ Hr0]].
      apply includes_In in Hi. rewrite Hi in Hr0. cbn [andb] in Hr0.
      destruct (isNull (parentId c0)) eqn:En; subst r; [discriminate Horph|].
      rewrite En in Hn. discriminate Hn.
    + assert (Hx : isNull (parentId (setOrphaned true (Some now) c)) = false);
        [|cbn in Hx; rewrite Hp in Hx; discriminate Hx].
      apply (find_none _ _ Ef (setOrphaned true (Some now) c)).
      apply sortByCreatedAt_In. apply commentsOf_In.
      apply commentsOf_In in Hc. destruct Hc as [[key Hc] Ht]. split; [|exact Ht].
      exists key. apply rewriteRoots_hit; [exact Hc | rewrite Ht; exact Hi | exact Hp].
  - unfold m' in Hres, Horph.
    rewrite rewriteRoots_commentsOf_miss in Hres, Horph
      by (try apply setOrphaned_threadId; exact Hi).
    apply Hi. apply newlyOrphanedIds_In.
    exists (sortByCreatedAt (commentsOf m tid)). repeat split; try assumption.
    apply groupCommentsByThread_In. split; [exact Hkey | reflexivity].
Qed.

(** With a root comment in every thread the second run of
    [markOrphanedComments] changes nothing and dispatches no event. *)
Lemma markOrphanedComments_twice (now1 now2 : Z) (live : list (option string)) (w : World)
    (m : CommentsMap) :
  commentsMap (pluginState w) = Some m ->
  initialSyncComplete (pluginState w) = true ->
  (forall tid, In tid (threadKeys m) ->
               exists c, In c (commentsOf m tid) /\ parentId c = None) ->
  let w1 := markOrphanedComments now1 live (groupCommentsByThread m) w in
  exists m1,
    commentsMap (pluginState w1) = Some m1
    /\ markOrphanedComments now2 live (groupCommentsByThread m1) w1 = w1.
Proof.
  intros Hm Hs Hroot w1.
  pose proof (markOrphanedComments_map now1 live (groupCommentsByThread m) w m Hm Hs) as Hm1.
  fold w1 in Hm1. eexists. split; [exact Hm1|].
  unfold markOrphanedComments at 1. rewrite Hm1.
  rewrite (second_batch_empty now1 live m Hroot).
  destruct (negb (initialSyncComplete (pluginState w1))); reflexivity.
Qed.

(* ------------------------------------------------------------------ *)
(** ** The guards of [applyCommentMark] *)
(* ------------------------------------------------------------------ *)

(** C6, as the later revision has it otherwise: the two spaces between
    "a" and "b" are selected and handed over as [options.selectedText].
    The covered text is only whitespace, and yet the call marks the two
    spaces and returns true. *)
Lemma C6_whitespace_marked_by_text :
  let w := worldOf [] spacesState in
  let options := mkOptions "  " None false in
  isOnlyWhitespace (textBetween (doc spacesState) 2 4 EmptyString) = true
  /\ fst (applyCommentMark "t9" options w) = true
  /\ option_map doc (view (snd (applyCommentMark "t9" options w)))
     = Some [Inner paragraph noAttrs []
               [Text "a" []; Text "  " [createComment "t9"]; Text "b" []]].
Proof. vm_compute. repeat split. Qed.

(** C6 (amended): [applyCommentMark] called for a text selection, in the
    later revision without [selectedText] and [isImage] options, returns
    false and applies nothing when the selection is empty (from = to) or
    when the text it covers is only whitespace.  Otherwise, when the
    schema has the comment mark, the earlier revision dispatches the
    transaction that adds the mark over the selection and returns true;
    the later revision does the same when that transaction has a step -
    it has one when the thread id is new to the document - and returns
    false, applying nothing, when it has none.  The transaction leaves
    the text as it is and puts the mark on every text and inline leaf
    node of the selection. *)
Theorem C6_selection_guards tid w state from to :
  view w = Some state ->
  selection state = TextSelection from to ->
  let covered := textBetween (doc state) from to EmptyString in
  let tr := markRange state tid from to in
  (from = to \/ isOnlyWhitespace covered = true ->
   CommentPlugin.applyCommentMark tid noOptions w = (false, w)
   /\ EarlierPlugin.applyCommentMark tid w = (false, w))
  /\ (from <> to -> isOnlyWhitespace covered = false ->
      hasCommentMark (schema state) = true ->
      EarlierPlugin.applyCommentMark tid w = (true, dispatch w state tr)
      /\ (steps tr <> [] ->
          CommentPlugin.applyCommentMark tid noOptions w = (true, dispatch w state tr))
      /\ (steps tr = [] -> CommentPlugin.applyCommentMark tid noOptions w = (false, w))
      /\ (noEmptyText (doc state) -> freshThread tid (doc state) ->
          CommentPlugin.applyCommentMark tid noOptions w = (true, dispatch w state tr))
      /\ textContent (trDoc tr) = textContent (doc state)
      /\ (forall n p, In (n, p) (descendants (trDoc tr)) ->
                      isInline n = true -> isAtom n = true ->
                      overlaps from to p (nodeSize n) = true ->
                      In (createComment tid) (marksOf n))).
Proof.
  intros Hv Hs covered tr.
  assert (Hi : isImageSelection state = false)
    by (unfold isImageSelection; rewrite Hs; reflexivity).
  assert (E1 : EarlierPlugin.applyCommentMark tid w
               = if from =? to then (false, w)
                 else if isOnlyWhitespace covered then (false, w)
                 else if negb (hasCommentMark (schema state)) then (false, w)
                 else (true, dispatch w state tr)).
  { unfold EarlierPlugin.applyCommentMark. rewrite Hv, Hi, Hs. reflexivity. }
  assert (E2 : CommentPlugin.applyCommentMark tid noOptions w
               = if negb (hasCommentMark (schema state)) then (false, w)
                 else if from =? to then (false, w)
                 else if isOnlyWhitespace covered then (false, w)
                 else match steps tr with
                      | [] => (false, w)
                      | _ :: _ => (true, dispatch w state tr)
                      end).
  { unfold CommentPlugin.applyCommentMark. rewrite Hv, Hi, Hs. reflexivity. }
  rewrite E1, E2. split.
  - intros [-> | Hw].
    + rewrite Z.eqb_refl. destruct (negb (hasCommentMark (schema state))); split; reflexivity.
    + rewrite Hw. destruct (negb (hasCommentMark (schema state))), (from =? to);
        split; reflexivity.
  - intros Hne Hw Hc. apply Z.eqb_neq in Hne. rewrite Hne, Hw, Hc. cbn [negb].
    assert (Hst : steps tr <> [] ->
                  match steps tr with
                  | [] => (false, w)
                  | _ :: _ => (true, dispatch w state tr)
                  end = (true, dispatch w state tr))
      by (intros Hst; destruct (steps tr); [contradiction | reflexivity]).
    split; [reflexivity|]. split; [exact Hst|]. split; [intros ->; reflexivity|].
    split; [|exact (markRange_doc state tid from to)].
    intros Hnt Hfresh. apply Hst. exact (markRange_has_step state tid from to Hnt Hfresh Hw).
Qed.

(** The two spaces selected: both revisions refuse. *)
Lemma C6_selection_guards_witness :
  CommentPlugin.applyCommentMark "t9" noOptions (worldOf [] spacesState)
  = (false, worldOf [] spacesState)
  /\ EarlierPlugin.applyCommentMark "t9" (worldOf [] spacesState)
     = (false, worldOf [] spacesState).
Proof.
  refine (proj1 (C6_selection_guards "t9" (worldOf [] spacesState) spacesState 2 4
                   eq_refl eq_refl) _).
  right. vm_compute. reflexivity.
Defined.

(** The marked text selected once more for the thread it has: the
    transaction has no step, the later revision returns false where the
    earlier one returns true. *)
Example marked_again :
  fst (CommentPlugin.applyCommentMark "t1" noOptions (worldOf [] markedSelected)) = false
  /\ fst (EarlierPlugin.applyCommentMark "t1" (worldOf [] markedSelected)) = true.
Proof. vm_compute. split; reflexivity. Qed.

(* ------------------------------------------------------------------ *)
(** ** The document after the recovery of missing marks *)
(* ------------------------------------------------------------------ *)

(** Every mark in the document of the recovery transaction was in the
    document before, or is the mark of a thread without live mark whose
    root comment is not resolved. *)
Lemma recoveryTransaction_marks (state : EditorState) (m : CommentsMap)
    (new : Node * Z) (mk : Mark) :
  In new (descendants (trDoc (snd (recoveryTransaction state m)))) ->
  In mk (marksOf (fst new)) ->
  (exists orig, In orig (descendants (doc state)) /\ In mk (marksOf (fst orig)))
  \/ exists tid comments root,
       mk = createComment tid
       /\ In (tid, comments) (groupCommentsByThread m)
       /\ setHas (getThreadIdsWithMarks state) (Some tid) = false
       /\ rootComment comments = Some root
       /\ resolved root = false.
Proof.
  unfold recoveryTransaction. revert new mk.
  set (P := fun acc : bool * Transaction =>
              forall new mk,
                In new (descendants (trDoc (snd acc))) -> In mk (marksOf (fst new)) ->
                (exists orig, In orig (descendants (doc state)) /\ In mk (marksOf (fst orig)))
                \/ exists tid comments root,
                     mk = createComment tid
                     /\ In (tid, comments) (groupCommentsByThread m)
                     /\ setHas (getThreadIdsWithMarks state) (Some tid) = false
                     /\ rootComment comments = Some root
                     /\ resolved root = false).
  enough (H : forall l acc,
             (forall x, In x l -> In x (groupCommentsByThread m)) -> P acc ->
             P (fold_left
                  (fun (acc : bool * Transaction) (thread : string * list Comment) =>
                     let '(tid, comments) := thread in
                     if setHas (getThreadIdsWithMarks state) (Some tid) then acc
                     else
                       match rootComment comments with
                       | None => acc
                       | Some root =>
                           if resolved root then acc
                           else if (negb (JS.truthy (selectedText root))
                                    || (JS.length (JS.trim (selectedText root)) =? 0))%bool
                                then acc
                           else
                             match findBestMatchPosition (Some (doc state)) (selectedText root)
                                                         (positionContext root) with
                             | Some m0 =>
                                 (true, addMark (commentExcludes (schema state)) (snd acc)
                                                (from m0) (to m0) (createComment tid))
                             | None => acc
                             end
                       end) l acc)).
  { apply (H (groupCommentsByThread m) (false, newTr (doc state))); [auto|].
    intros new mk Hn Hm. left. exists new. split; assumption. }
  induction l as [|[tid comments] l IH]; intros acc Hsub Hacc; [exact Hacc|].
  rewrite fold_left_cons.
  apply IH; [intros x Hx; apply Hsub; right; exact Hx|].
  destruct (setHas (getThreadIdsWithMarks state) (Some tid)) eqn:Elive; [exact Hacc|].
  destruct (rootComment comments) as [root|] eqn:Eroot; [|exact Hacc].
  destruct (resolved root) eqn:Eres; [exact Hacc|].
  destruct (negb (JS.truthy (selectedText root))
            || (JS.length (JS.trim (selectedText root)) =? 0))%bool; [exact Hacc|].
  destruct (findBestMatchPosition (Some (doc state)) (selectedText root)
                                  (positionContext root)) as [m0|]; [|exact Hacc].
  intros new mk Hn Hm. cbn [snd addMark trDoc] in Hn.
  destruct (mapMarks_origin _ _ _ _ _ _ Hn) as [orig [Ho Hder]].
  destruct Hder as [_ [_ [_ [_ [_ [_ [_ [D8 _]]]]]]]].
  destruct D8 as [E | E]; rewrite E in Hm.
  - exact (Hacc orig mk Ho Hm).
  - apply addToSet_In in Hm. destruct Hm as [Hm | ->]; [exact (Hacc orig mk Ho Hm)|].
    right. exists tid, comments, root.
    split; [reflexivity|]. split; [apply Hsub; left; reflexivity|]. auto.
Qed.

(** A thread whose root comment is resolved gets no mark from the
    recovery: where the document had none for it, the document of the
    recovery transaction has none. *)
Lemma resolved_thread_not_recovered (state : EditorState) (m : CommentsMap)
    (tid : string) (comments : list Comment) :
  In (tid, comments) (groupCommentsByThread m) ->
  rootResolved comments = true ->
  (forall orig, In orig (descendants (doc state)) ->
                ~ In (createComment tid) (marksOf (fst orig))) ->
  forall new, In new (descendants (trDoc (snd (recoveryTransaction state m)))) ->
              ~ In (createComment tid) (marksOf (fst new)).
Proof.
  intros Hin Hres Hdoc new Hn Hm.
  destruct (recoveryTransaction_marks state m new _ Hn Hm)
    as [[orig [Ho Hmo]] | [tid' [comments' [root [He [Hin' [_ [Hroot Hr]]]]]]]].
  - exact (Hdoc orig Ho Hmo).
  - injection He as <-.
    rewrite (thread_unique m tid comments' comments Hin' Hin) in Hroot.
    unfold rootResolved in Hres. rewrite Hroot in Hres. congruence.
Qed.

(* ================================================================== *)
(** * Further properties of the code *)
(* ================================================================== *)

(* ------------------------------------------------------------------ *)
(** ** Reactions *)
(* ------------------------------------------------------------------ *)

Section ReactionFacts.

Import Helpers.

Lemma get_set_same obj key value : get (set obj key value) key = Some value.
Proof.
  induction obj as [|[k v] obj IH]; simpl.
  - rewrite String.eqb_refl. reflexivity.
  - destruct (String.eqb k key) eqn:E; simpl; rewrite E; [reflexivity | exact IH].
Qed.

Lemma get_set_other obj key value key' :
  key' <> key -> get (set obj key value) key' = get obj key'.
Proof.
  intros Hne. induction obj as [|[k v] obj IH]; simpl.
  - replace (String.eqb key key') with false; [reflexivity|].
    symmetry. apply eqb_false_iff. congruence.
  - destruct (String.eqb k key) eqn:E; simpl.
    + apply String.eqb_eq in E. subst k.
      replace (String.eqb key key') with false; [reflexivity|].
      symmetry. apply eqb_false_iff. congruence.
    + rewrite IH. reflexivity.
Qed.

Lemma set_same obj key value : get obj key = Some value -> set obj key value = obj.
Proof.
  induction obj as [|[k v] obj IH]; simpl; [discriminate|].
  destruct (String.eqb k key) eqn:E.
  - intros H. injection H as ->. reflexivity.
  - intros H. rewrite (IH H). reflexivity.
Qed.

Lemma get_delete_same obj key : get (delete obj key) key = None.
Proof.
  unfold delete. induction obj as [|[k v] obj IH]; simpl; [reflexivity|].
  destruct (String.eqb k key) eqn:E; simpl; [exact IH|]. rewrite E. exact IH.
Qed.

Lemma get_delete_other obj key key' :
  key' <> key -> get (delete obj key) key' = get obj key'.
Proof.
  intros Hne. unfold delete. induction obj as [|[k v] obj IH]; simpl; [reflexivity|].
  destruct (String.eqb k key) eqn:E; simpl.
  - apply String.eqb_eq in E. subst k.
    replace (String.eqb key key') with false; [exact IH|].
    symmetry. apply eqb_false_iff. congruence.
  - rewrite IH. reflexivity.
Qed.

Lemma find_existsb {A : Type} (f : A -> bool) (l : list A) :
  existsb f l = match find f l with Some _ => true | None => false end.
Proof. induction l as [|x l IH]; simpl; [reflexivity|]. destruct (f x); [reflexivity | exact IH]. Qed.

(** What [addReaction] leaves in the object under the emoji. *)
Lemma addReaction_get (c : Reacted) (e : string) (u : User) :
  let before := match get (copyOf c) e with Some l => l | None => [] end in
  reactions (addReaction c e u)
  = Some (set (match get (copyOf c) e with
               | Some _ => copyOf c
               | None => set (copyOf c) e []
               end) e
              (if existsb (fun r => String.eqb (userId r) (id u)) before then before
               else before ++ [mkReaction (id u) (name u)])).
Proof.
  cbv zeta. unfold addReaction. cbn [reactions]. f_equal.
  destruct (get (copyOf c) e) as [l|] eqn:Eg.
  - rewrite Eg. rewrite find_existsb.
    destruct (find (fun r => String.eqb (userId r) (id u)) l);
      [symmetry; apply set_same; exact Eg | reflexivity].
  - rewrite get_set_same. cbn [find existsb]. reflexivity.
Qed.

Lemma hasUserReacted_get (c : Reacted) (e uid : string) :
  hasUserReacted c e uid
  = match get (copyOf c) e with
    | Some l => existsb (fun x => String.eqb (userId x) uid) l
    | None => false
    end.
Proof. unfold hasUserReacted, copyOf. destruct (reactions c); reflexivity. Qed.

(** Who has reacted with what after [addReaction]. *)
Lemma addReaction_has (c : Reacted) (e : string) (u : User) (e' uid : string) :
  hasUserReacted (addReaction c e u) e' uid
  = if (String.eqb e' e && String.eqb uid (id u))%bool then true
    else hasUserReacted c e' uid.
Proof.
  pose proof (addReaction_get c e u) as Hr. cbv zeta in Hr.
  rewrite (hasUserReacted_get c). unfold hasUserReacted. rewrite Hr.
  destruct (String.eqb e' e) eqn:E; cbn [andb].
  - apply String.eqb_eq in E. subst e'. rewrite get_set_same.
    destruct (get (copyOf c) e) as [l|]; cbn [existsb].
    + destruct (existsb (fun r => String.eqb (userId r) (id u)) l) eqn:Ex.
      * destruct (String.eqb uid (id u)) eqn:Eu; [|reflexivity].
        apply String.eqb_eq in Eu. subst uid. exact Ex.
      * rewrite existsb_app. cbn [existsb userId]. rewrite orb_false_r.
        rewrite (String.eqb_sym (id u) uid).
        destruct (String.eqb uid (id u)) eqn:Eu; [apply orb_true_r | apply orb_false_r].
    + cbn [app existsb userId]. rewrite orb_false_r.
      rewrite (String.eqb_sym (id u) uid). destruct (String.eqb uid (id u)); reflexivity.
  - apply eqb_false_iff in E. rewrite get_set_other by exact E.
    destruct (get (copyOf c) e); [reflexivity|].
    rewrite get_set_other by exact E. reflexivity.
Qed.

(** The reaction a user adds is recorded: afterwards the user has
    reacted with the emoji, adding it once more changes nothing, and
    what any other user or emoji shows stays as it was. *)
Theorem addReaction_recorded (c : Reacted) (e : string) (u : User) :
  hasUserReacted (addReaction c e u) e (id u) = true
  /\ addReaction (addReaction c e u) e u = addReaction c e u
  /\ (forall e' uid, e' <> e \/ uid <> id u ->
        hasUserReacted (addReaction c e u) e' uid = hasUserReacted c e' uid).
Proof.
  assert (Hhas : hasUserReacted (addReaction c e u) e (id u) = true)
    by (rewrite addReaction_has, !String.eqb_refl; reflexivity).
  split; [exact Hhas|]. split.
  - transitivity (mkReacted (comment c) (reactions (addReaction c e u))); [|reflexivity].
    change (addReaction (addReaction c e u) e u)
      with (mkReacted (comment c) (reactions (addReaction (addReaction c e u) e u))).
    f_equal. rewrite (addReaction_get (addReaction c e u) e u). cbv zeta.
    rewrite hasUserReacted_get in Hhas.
    destruct (get (copyOf (addReaction c e u)) e) as [l|] eqn:Eg; [|discriminate Hhas].
    rewrite Hhas. rewrite (set_same _ _ _ Eg). reflexivity.
  - intros e' uid Hd. rewrite addReaction_has.
    replace (String.eqb e' e && String.eqb uid (id u))%bool with false; [reflexivity|].
    symmetry. apply andb_false_iff.
    destruct Hd as [Hd | Hd]; [left | right]; apply eqb_false_iff; exact Hd.
Qed.

Lemma existsb_filter_out (uid : string) (l : list Reaction) :
  existsb (fun x => String.eqb (userId x) uid)
          (filter (fun r => negb (String.eqb (userId r) uid)) l) = false.
Proof.
  induction l as [|x l IH]; [reflexivity|]. simpl.
  destruct (String.eqb (userId x) uid) eqn:E; simpl; [exact IH|]. rewrite E. exact IH.
Qed.

Lemma existsb_filter_other (uid uid' : string) (l : list Reaction) :
  uid' <> uid ->
  existsb (fun x => String.eqb (userId x) uid')
          (filter (fun r => negb (String.eqb (userId r) uid)) l)
  = existsb (fun x => String.eqb (userId x) uid') l.
Proof.
  intros Hne. induction l as [|x l IH]; [reflexivity|]. simpl.
  destruct (String.eqb (userId x) uid) eqn:E; simpl.
  - apply String.eqb_eq in E. rewrite E.
    replace (String.eqb uid uid') with false; [exact IH|].
    symmetry. apply eqb_false_iff. congruence.
  - rewrite IH. reflexivity.
Qed.

(** What [removeReaction] leaves in the object under any emoji. *)
Lemma removeReaction_get (c : Reacted) (e uid e' : string) :
  get (copyOf (removeReaction c e uid)) e'
  = if String.eqb e' e then
      match get (copyOf c) e with
      | Some l =>
          match filter (fun r => negb (String.eqb (userId r) uid)) l with
          | [] => None
          | kept => Some kept
          end
      | None => None
      end
    else get (copyOf c) e'.
Proof.
  unfold removeReaction. unfold copyOf at 1. cbn [reactions].
  destruct (String.eqb e' e) eqn:E.
  - apply String.eqb_eq in E. subst e'.
    destruct (get (copyOf c) e) as [l|] eqn:Eg; [|exact Eg].
    destruct (filter (fun r => negb (String.eqb (userId r) uid)) l) as [|x kept] eqn:Ef.
    + cbn [List.length Nat.eqb]. apply get_delete_same.
    + cbn [List.length Nat.eqb]. apply get_set_same.
  - apply eqb_false_iff in E.
    destruct (get (copyOf c) e) as [l|] eqn:Eg; [|reflexivity].
    destruct (Nat.eqb _ 0).
    + rewrite get_delete_other, get_set_other by exact E. reflexivity.
    + rewrite get_set_other by exact E. reflexivity.
Qed.

(** Who has reacted with what after [removeReaction]. *)
Lemma removeReaction_has (c : Reacted) (e uid e' uid' : string) :
  hasUserReacted (removeReaction c e uid) e' uid'
  = if (String.eqb e' e && String.eqb uid' uid)%bool then false
    else hasUserReacted c e' uid'.
Proof.
  rewrite !hasUserReacted_get, removeReaction_get.
  destruct (String.eqb e' e) eqn:E; cbn [andb]; [|reflexivity].
  apply String.eqb_eq in E. subst e'.
  destruct (get (copyOf c) e) as [l|]; [|destruct (String.eqb uid' uid); reflexivity].
  destruct (String.eqb uid' uid) eqn:Eu.
  - apply String.eqb_eq in Eu. subst uid'.
    pose proof (existsb_filter_out uid l) as H.
    destruct (filter (fun r => negb (String.eqb (userId r) uid)) l); [reflexivity | exact H].
  - apply eqb_false_iff in Eu.
    pose proof (existsb_filter_other uid uid' l Eu) as H.
    destruct (filter (fun r => negb (String.eqb (userId r) uid)) l); exact H.
Qed.

(** The reaction a user removes is gone: afterwards the user has not
    reacted with the emoji, the emoji is not left with an empty array,
    and what any other user or emoji shows stays as it was. *)
Theorem removeReaction_cleared (c : Reacted) (e uid : string) :
  hasUserReacted (removeReaction c e uid) e uid = false
  /\ get (copyOf (removeReaction c e uid)) e <> Some []
  /\ (forall e' uid', e' <> e \/ uid' <> uid ->
        hasUserReacted (removeReaction c e uid) e' uid' = hasUserReacted c e' uid').
Proof.
  split; [|split].
  - rewrite removeReaction_has, !String.eqb_refl. reflexivity.
  - rewrite removeReaction_get, String.eqb_refl.
    destruct (get (copyOf c) e) as [l|]; [|discriminate].
    destruct (filter (fun r => negb (String.eqb (userId r) uid)) l); discriminate.
  - intros e' uid' Hd. rewrite removeReaction_has.
    replace (String.eqb e' e && String.eqb uid' uid)%bool with false; [reflexivity|].
    symmetry. apply andb_false_iff.
    destruct Hd as [Hd | Hd]; [left | right]; apply eqb_false_iff; exact Hd.
Qed.

(** Removing the reaction a user has just added undoes it: every user
    shows for every emoji what they showed before the reaction was
    added. *)
Theorem removeReaction_undoes_add (c : Reacted) (e : string) (u : User) :
  hasUserReacted c e (id u) = false ->
  forall e' uid,
    hasUserReacted (removeReaction (addReaction c e u) e (id u)) e' uid
    = hasUserReacted c e' uid.
Proof.
  intros Hnot e' uid. rewrite removeReaction_has, addReaction_has.
  destruct (String.eqb e' e && String.eqb uid (id u))%bool eqn:E; [|reflexivity].
  apply andb_true_iff in E. destruct E as [E1 E2].
  apply String.eqb_eq in E1, E2. subst. symmetry. exact Hnot.
Qed.

(** A comment on which "ann" has reacted; "bob" adds the same emoji and
    takes it back. *)
Lemma removeReaction_undoes_add_witness :
  let c := mkReacted (rootOf "t1" "quick fox" 10)
             (Some [("+1", [mkReaction "ann" "Ann"])]) in
  let bob := mkUser "bob" "Bob" in
  hasUserReacted c "+1" "bob" = false
  /\ hasUserReacted (removeReaction (addReaction c "+1" bob) "+1" "bob") "+1" "ann"
     = hasUserReacted c "+1" "ann".
Proof.
  split; [reflexivity|].
  exact (removeReaction_undoes_add
           (mkReacted (rootOf "t1" "quick fox" 10)
              (Some [("+1", [mkReaction "ann" "Ann"])]))
           "+1" (mkUser "bob" "Bob") eq_refl "+1" "ann").
Defined.

(** The list of reactions shows no emoji without users, counts the users
    of each, and shows every reaction a user has made; a comment without
    reactions has an empty list. *)
Theorem getReactionsList_entries (c : Reacted) :
  (forall entry, In entry (getReactionsList c) ->
     users entry <> []
     /\ count entry = List.length (users entry)
     /\ exists r, reactions c = Some r /\ In (emoji entry, users entry) r)
  /\ (forall e uid, hasUserReacted c e uid = true ->
        exists entry, In entry (getReactionsList c) /\ emoji entry = e
                      /\ exists x, In x (users entry) /\ userId x = uid)
  /\ (reactions c = None -> getReactionsList c = []).
Proof.
  unfold getReactionsList, hasUserReacted.
  destruct (reactions c) as [r|];
    [|split; [intros x [] | split; [discriminate | reflexivity]]].
  split; [|split; [|discriminate]].
  - intros entry Hin. apply in_map_iff in Hin. destruct Hin as [[k l] [<- Hin]].
    apply filter_In in Hin. destruct Hin as [Hin Hl]. cbn [fst snd emoji users count] in *.
    split; [intros ->; discriminate Hl|]. split; [reflexivity|].
    exists r. split; [reflexivity | exact Hin].
  - intros e uid H.
    destruct (get r e) as [l|] eqn:Eg; [|discriminate H].
    apply existsb_exists in H. destruct H as [x [Hx Hu]]. apply String.eqb_eq in Hu.
    exists (mkEntry e l (List.length l)). split; [|split; [reflexivity | exists x; auto]].
    apply in_map_iff. exists (e, l). split; [reflexivity|].
    apply filter_In. split.
    + clear Hx Hu. induction r as [|[k v] r IH]; [discriminate Eg|]. simpl in Eg.
      destruct (String.eqb k e) eqn:E.
      * apply String.eqb_eq in E. injection Eg as ->. left. congruence.
      * right. apply IH. exact Eg.
    + cbn [snd]. destruct l; [destruct Hx | reflexivity].
Qed.

End ReactionFacts.

Import Further PluginMore.

(* ------------------------------------------------------------------ *)
(** ** Threads and their root comments *)
(* ------------------------------------------------------------------ *)

Lemma insertByCreatedAt_perm (c : Comment) (l : list Comment) :
  Permutation (insertByCreatedAt c l) (c :: l).
Proof.
  induction l as [|x l IH]; simpl; [apply Permutation_refl|].
  destruct (createdAt c <=? createdAt x); [apply Permutation_refl|].
  apply perm_trans with (x :: c :: l); [apply perm_skip; exact IH | apply perm_swap].
Qed.

Lemma sortByCreatedAt_perm (l : list Comment) : Permutation (sortByCreatedAt l) l.
Proof.
  unfold sortByCreatedAt. induction l as [|x l IH]; simpl; [apply perm_nil|].
  apply perm_trans with (x :: fold_right insertByCreatedAt [] l);
    [apply insertByCreatedAt_perm | apply perm_skip; exact IH].
Qed.

Lemma insertByCreatedAt_sorted (c : Comment) (l : list Comment) :
  ForallOrdPairs (fun a b => createdAt a <= createdAt b) l ->
  ForallOrdPairs (fun a b => createdAt a <= createdAt b) (insertByCreatedAt c l).
Proof.
  induction 1 as [|x l Hx Hl IH]; simpl.
  - constructor; constructor.
  - destruct (createdAt c <=? createdAt x) eqn:E.
    + apply Z.leb_le in E. constructor; [|constructor; assumption].
      constructor; [exact E|]. eapply Forall_impl; [|exact Hx]. intros y Hy. simpl in *. lia.
    + apply Z.leb_gt in E. constructor; [|exact IH].
      apply Forall_forall. intros y Hy. apply insertByCreatedAt_In in Hy.
      destruct Hy as [-> | Hy]; [lia|]. rewrite Forall_forall in Hx. apply Hx. exact Hy.
Qed.

Lemma sortByCreatedAt_sorted (l : list Comment) :
  ForallOrdPairs (fun a b => createdAt a <= createdAt b) (sortByCreatedAt l).
Proof.
  unfold sortByCreatedAt. induction l as [|x l IH]; simpl; [constructor|].
  apply insertByCreatedAt_sorted. exact IH.
Qed.

(** [groupCommentsByThread] sorts the records with a thread id into
    threads: every thread id once, no thread empty, each thread holding
    exactly the records of its id, oldest first; a record without thread
    id is in no thread. *)
Theorem groupCommentsByThread_partition (m : CommentsMap) :
  NoDup (map fst (groupCommentsByThread m))
  /\ (forall tid comments,
        In (tid, comments) (groupCommentsByThread m) ->
        JS.truthy tid = true
        /\ comments <> []
        /\ Permutation comments (commentsOf m tid)
        /\ ForallOrdPairs (fun a b => createdAt a <= createdAt b) comments)
  /\ (forall key c,
        In (key, c) m ->
        if JS.truthy (threadId c)
        then exists comments,
               In (threadId c, comments) (groupCommentsByThread m) /\ In c comments
        else forall tid comments,
               In (tid, comments) (groupCommentsByThread m) -> threadId c <> tid).
Proof.
  split; [|split].
  - rewrite groupCommentsByThread_eq, map_map. cbn [fst]. rewrite map_id.
    apply threadKeys_NoDup.
  - intros tid comments Hin. apply groupCommentsByThread_In in Hin.
    destruct Hin as [Hk ->]. apply threadKeys_In in Hk. destruct Hk as [Ht [key [c [Hc Htc]]]].
    split; [exact Ht|]. split; [|split; [apply sortByCreatedAt_perm | apply sortByCreatedAt_sorted]].
    intros He.
    assert (Hx : In c (sortByCreatedAt (commentsOf m tid))).
    { apply sortByCreatedAt_In. apply commentsOf_In. split; [exists key; exact Hc | exact Htc]. }
    rewrite He in Hx. destruct Hx.
  - intros key c Hc. destruct (JS.truthy (threadId c)) eqn:Ht.
    + exists (sortByCreatedAt (commentsOf m (threadId c))). split.
      * apply groupCommentsByThread_In. split; [|reflexivity].
        apply threadKeys_In. split; [exact Ht|]. exists key, c. auto.
      * apply sortByCreatedAt_In. apply commentsOf_In. split; [exists key; exact Hc | reflexivity].
    + intros tid comments Hin He. apply groupCommentsByThread_In in Hin.
      destruct Hin as [Hk _]. apply threadKeys_In in Hk. destruct Hk as [Hk _].
      rewrite <- He in Hk. congruence.
Qed.

Lemma find_split {A : Type} (f : A -> bool) (l : list A) (x : A) :
  find f l = Some x ->
  exists l1 l2, l = l1 ++ x :: l2 /\ f x = true /\ forall y, In y l1 -> f y = false.
Proof.
  induction l as [|a l IH]; [discriminate|]. simpl.
  destruct (f a) eqn:E.
  - intros H. injection H as ->. exists [], l. repeat split; [exact E | intros y []].
  - intros H. destruct (IH H) as [l1 [l2 [-> [Hx Hl]]]].
    exists (a :: l1), l2. repeat split; [exact Hx|].
    intros y [<- | Hy]; [exact E | apply Hl; exact Hy].
Qed.

(** [getRootComment] on a thread of [groupCommentsByThread] always
    answers with a record of the thread: the oldest one without parent,
    which is the root comment the plugin reads, or, when every record
    has a parent, the oldest record. *)
Theorem getRootComment_of_thread (m : CommentsMap) (tid : string) (comments : list Comment) :
  In (tid, comments) (groupCommentsByThread m) ->
  exists root,
    Helpers.getRootComment comments = Some root
    /\ In root comments
    /\ threadId root = tid
    /\ (parentId root = None ->
        rootComment comments = Some root
        /\ forall c, In c comments -> parentId c = None -> createdAt root <= createdAt c)
    /\ (parentId root <> None ->
        rootComment comments = None
        /\ (forall c, In c comments -> parentId c <> None)
        /\ forall c, In c comments -> createdAt root <= createdAt c).
Proof.
  intros Hin. apply groupCommentsByThread_In in Hin. destruct Hin as [Hk ->].
  pose proof (sortByCreatedAt_sorted (commentsOf m tid)) as Hsorted.
  assert (Hthread : forall c, In c (sortByCreatedAt (commentsOf m tid)) -> threadId c = tid).
  { intros c Hc. apply (proj1 (sortByCreatedAt_In _ _)) in Hc. apply commentsOf_In in Hc. tauto. }
  assert (Hne : sortByCreatedAt (commentsOf m tid) <> []).
  { apply threadKeys_In in Hk. destruct Hk as [_ [key [c [Hc Htc]]]]. intros He.
    assert (Hx : In c (sortByCreatedAt (commentsOf m tid))).
    { apply sortByCreatedAt_In. apply commentsOf_In. split; [exists key; exact Hc | exact Htc]. }
    rewrite He in Hx. destruct Hx. }
  remember (sortByCreatedAt (commentsOf m tid)) as comments eqn:Hcs. clear Hcs Hk.
  unfold Helpers.getRootComment, rootComment.
  destruct (find (fun c => isNull (parentId c)) comments) as [root|] eqn:Ef.
  - exists root. pose proof (find_some _ _ Ef) as [Hr Hn].
    assert (Hpn : parentId root = None) by (destruct (parentId root); [discriminate | reflexivity]).
    split; [reflexivity|]. split; [exact Hr|]. split; [apply Hthread; exact Hr|].
    split; [|intros Hc; contradiction].
    intros _. split; [reflexivity|]. intros c Hc Hcn.
    destruct (find_split _ _ _ Ef) as [l1 [l2 [He [_ Hl1]]]]. rewrite He in Hc, Hsorted.
    apply in_app_iff in Hc. destruct Hc as [Hc | [<- | Hc]].
    + specialize (Hl1 c Hc). rewrite Hcn in Hl1. discriminate Hl1.
    + lia.
    + exact (FOP_after _ _ _ _ Hsorted c Hc).
  - destruct comments as [|first rest]; [contradiction|].
    exists first. split; [reflexivity|]. split; [left; reflexivity|].
    split; [apply Hthread; left; reflexivity|].
    assert (Hall : forall c, In c (first :: rest) -> parentId c <> None).
    { intros c Hc Hcn. pose proof (find_none _ _ Ef c Hc) as Hf. cbv beta in Hf.
      rewrite Hcn in Hf. discriminate Hf. }
    split; [intros Hn; exfalso; exact (Hall first (or_introl eq_refl) Hn)|].
    intros _. split; [reflexivity|]. split; [exact Hall|].
    intros c [<- | Hc]; [lia|].
    inversion Hsorted as [|? ? Hf _]; subst. rewrite Forall_forall in Hf. apply Hf. exact Hc.
Qed.

(** The thread "t2" of the example store, a root comment and one reply. *)
Lemma getRootComment_of_thread_witness :
  exists root,
    Helpers.getRootComment [rootOf "t2" "lazy dog" 11; replyTo "r2" "t2" 12] = Some root
    /\ In root [rootOf "t2" "lazy dog" 11; replyTo "r2" "t2" 12]
    /\ threadId root = "t2".
Proof.
  destruct (getRootComment_of_thread threeThreads "t2"
              [rootOf "t2" "lazy dog" 11; replyTo "r2" "t2" 12])
    as [root [H1 [H2 [H3 _]]]].
  - vm_compute. right. left. reflexivity.
  - exists root. auto.
Defined.

(* ------------------------------------------------------------------ *)
(** ** Position contexts *)
(* ------------------------------------------------------------------ *)

Lemma slice_length_le (s : string) (b e : Z) :
  JS.length (JS.slice s b e)
  <= Z.max 0 (JS.relIndex (JS.length s) e - JS.relIndex (JS.length s) b).
Proof. unfold JS.slice, JS.length. rewrite take_length. lia. Qed.

Lemma sliceFrom_last (s : string) (k : Z) : 0 < k -> JS.length (JS.sliceFrom s (- k)) <= k.
Proof.
  intros Hk. unfold JS.sliceFrom. pose proof (slice_length_le s (- k) (JS.length s)) as H.
  pose proof (length_nonneg s) as Hs. unfold JS.relIndex in H.
  replace (- k <? 0) with true in H by (symmetry; apply Z.ltb_lt; lia).
  replace (JS.length s <? 0) with false in H by (symmetry; apply Z.ltb_ge; lia). lia.
Qed.

Lemma slice_first (s : string) (k : Z) : 0 <= k -> JS.length (JS.slice s 0 k) <= k.
Proof.
  intros Hk. pose proof (slice_length_le s 0 k) as H.
  pose proof (length_nonneg s) as Hs. unfold JS.relIndex in H. change (0 <? 0) with false in H. cbv iota in H.
  replace (k <? 0) with false in H by (symmetry; apply Z.ltb_ge; lia). lia.
Qed.

Lemma sliceFrom_short (s : string) (k : Z) : JS.length s <= k -> JS.sliceFrom s (- k) = s.
Proof.
  intros Hk. pose proof (length_nonneg s) as Hs.
  destruct (Z.eq_dec k 0) as [-> | Hk0].
  - assert (s = EmptyString) as -> by (destruct s; [reflexivity | unfold JS.length in Hk; simpl in Hk; lia]).
    reflexivity.
  - unfold JS.sliceFrom, JS.slice, JS.relIndex.
    replace (- k <? 0) with true by (symmetry; apply Z.ltb_lt; lia).
    replace (JS.length s <? 0) with false by (symmetry; apply Z.ltb_ge; lia).
    rewrite Z.max_r, Z.min_id by lia. simpl JS.drop.
    apply take_all. unfold JS.length. lia.
Qed.

Lemma slice_short (s : string) (k : Z) : JS.length s <= k -> JS.slice s 0 k = s.
Proof.
  intros Hk. pose proof (length_nonneg s) as Hs.
  unfold JS.slice, JS.relIndex. change (0 <? 0) with false. cbv iota.
  replace (k <? 0) with false by (symmetry; apply Z.ltb_ge; lia).
  rewrite (Z.min_l 0), (Z.min_r k) by lia. simpl JS.drop.
  apply take_all. unfold JS.length. lia.
Qed.

Lemma slice_empty_length (s : string) : JS.length s = 0 -> s = EmptyString.
Proof. destruct s; [reflexivity | unfold JS.length; simpl; lia]. Qed.

Lemma context_blockIndex (doc : Fragment) (from to : Z) :
  blockIndex (getPositionContext doc from to) = Some (countBlocksBefore doc from).
Proof.
  unfold getPositionContext, countBlocksBefore.
  assert (H : forall l (acc : Z * Z),
            fst (fold_left
                   (fun (acc : Z * Z) (call : Node * Z) =>
                      let '(node, pos) := call in
                      if (isBlock node && (pos <? from))%bool then (fst acc + 1, pos) else acc)
                   l acc)
            = fold_left
                (fun (acc : Z) (call : Node * Z) =>
                   let '(node, pos) := call in
                   if (isBlock node && (pos <? from))%bool then acc + 1 else acc)
                l (fst acc)).
  { induction l as [|[n p] l IH]; intros acc; simpl; [reflexivity|].
    rewrite IH. destruct (isBlock n && (p <? from))%bool; reflexivity. }
  specialize (H (descendants doc) (0, 0)).
  destruct (fold_left _ (descendants doc) (0, 0)) as [bi cp]. simpl in *. rewrite H. reflexivity.
Qed.

Lemma context_textBefore (doc : Fragment) (from to : Z) :
  textBefore (getPositionContext doc from to)
  = JS.sliceFrom (JS.slice (textContent doc) (Z.max 0 (from - 30)) from) (- 30).
Proof. unfold getPositionContext. destruct (fold_left _ _ _). reflexivity. Qed.

Lemma context_textAfter (doc : Fragment) (from to : Z) :
  textAfter (getPositionContext doc from to)
  = JS.slice (JS.slice (textContent doc) to
                (Z.min (JS.length (textContent doc)) (to + 30))) 0 30.
Proof. unfold getPositionContext. destruct (fold_left _ _ _). reflexivity. Qed.

Lemma context_offset (doc : Fragment) (from to : Z) :
  exists o, offsetInBlock (getPositionContext doc from to) = Some o /\ 0 <= o.
Proof.
  unfold getPositionContext.
  assert (H : forall l (acc : Z * Z),
            (snd acc = 0 \/ snd acc < from) ->
            let r := fold_left
                   (fun (acc : Z * Z) (call : Node * Z) =>
                      let '(node, pos) := call in
                      if (isBlock node && (pos <? from))%bool then (fst acc + 1, pos) else acc)
                   l acc in
            snd r = 0 \/ snd r < from).
  { induction l as [|[n p] l IH]; intros acc Ha; simpl; [exact Ha|].
    apply IH. destruct (isBlock n && (p <? from))%bool eqn:E; [|exact Ha].
    apply andb_true_iff in E. destruct E as [_ E]. apply Z.ltb_lt in E. right. exact E. }
  specialize (H (descendants doc) (0, 0) (or_introl eq_refl)). cbv zeta in H.
  destruct (fold_left _ (descendants doc) (0, 0)) as [bi cp]. simpl in *.
  eexists. split; [reflexivity|].
  destruct (cp =? 0) eqn:E; [lia|]. apply Z.eqb_neq in E. lia.
Qed.

(** The context [getPositionContext] stores is bounded whatever the
    positions are: at most 30 characters before and 30 after, the number
    of blocks that start before the selection, and an offset that is
    never negative. *)
Theorem getPositionContext_bounded (doc : Fragment) (from to : Z) :
  JS.length (textBefore (getPositionContext doc from to)) <= 30
  /\ JS.length (textAfter (getPositionContext doc from to)) <= 30
  /\ blockIndex (getPositionContext doc from to) = Some (countBlocksBefore doc from)
  /\ 0 <= countBlocksBefore doc from
  /\ exists o, offsetInBlock (getPositionContext doc from to) = Some o /\ 0 <= o.
Proof.
  split; [|split; [|split; [|split]]].
  - rewrite context_textBefore. apply (sliceFrom_last _ 30). lia.
  - rewrite context_textAfter. apply slice_first. lia.
  - apply context_blockIndex.
  - unfold countBlocksBefore.
    enough (H : forall l acc, 0 <= acc ->
              0 <= fold_left
                     (fun (acc : Z) (call : Node * Z) =>
                        let '(node, pos) := call in
                        if (isBlock node && (pos <? from))%bool then acc + 1 else acc) l acc)
      by (apply H; lia).
    induction l as [|[n p] l IH]; intros acc Ha; simpl; [exact Ha|].
    apply IH. destruct (isBlock n && (p <? from))%bool; lia.
  - apply context_offset.
Qed.

(** Scored against the context taken at its own position, a span whose
    positions lie within the length of the document text gets 50 points
    for the text before (unless it starts at 0, where no text is stored),
    50 for the text after (unless it ends where the text ends) and 30 for
    the block, and no other span scores higher. *)
Theorem own_context_scores_best (doc : Fragment) (from to : Z) :
  0 <= from -> from <= to -> to <= JS.length (textContent doc) ->
  score doc (getPositionContext doc from to) (mkSpan from to)
  = (if 0 <? from then 50 else 0)
    + (if to <? JS.length (textContent doc) then 50 else 0) + 30
  /\ forall m, score doc (getPositionContext doc from to) m
               <= score doc (getPositionContext doc from to) (mkSpan from to).
Proof.
  intros H0 Hft Hto.
  set (ctx := getPositionContext doc from to).
  set (docText := textContent doc) in *.
  assert (Hb : textBefore ctx = JS.slice docText (Z.max 0 (from - 30)) from).
  { unfold ctx. rewrite context_textBefore. fold docText. apply (sliceFrom_short _ 30).
    rewrite slice_length by lia. lia. }
  assert (Ha : textAfter ctx = JS.slice docText to (Z.min (JS.length docText) (to + 30))).
  { unfold ctx. rewrite context_textAfter. fold docText. apply slice_short.
    rewrite slice_length by lia. lia. }
  assert (Hlb : JS.length (textBefore ctx) = Z.min from 30)
    by (rewrite Hb, slice_length by lia; lia).
  assert (Hla : JS.length (textAfter ctx) = Z.min (JS.length docText - to) 30)
    by (rewrite Ha, slice_length by lia; lia).
  assert (Hbs : beforeScore docText ctx (mkSpan from to) = if 0 <? from then 50 else 0).
  { unfold beforeScore. cbn [CommentUtils.from].
    destruct (0 <? from) eqn:E.
    - apply Z.ltb_lt in E.
      replace (JS.truthy (textBefore ctx)) with true
        by (symmetry; apply truthy_length; lia).
      rewrite Hlb. replace (Z.max 0 (from - Z.min from 30)) with (Z.max 0 (from - 30)) by lia.
      rewrite <- Hb, String.eqb_refl. reflexivity.
    - apply Z.ltb_ge in E.
      rewrite (slice_empty_length (textBefore ctx)) by lia. reflexivity. }
  assert (Has : afterScore docText ctx (mkSpan from to)
                = if to <? JS.length docText then 50 else 0).
  { unfold afterScore. cbn [CommentUtils.to].
    destruct (to <? JS.length docText) eqn:E.
    - apply Z.ltb_lt in E.
      replace (JS.truthy (textAfter ctx)) with true
        by (symmetry; apply truthy_length; lia).
      rewrite Hla.
      replace (to + Z.min (JS.length docText - to) 30)
        with (Z.min (JS.length docText) (to + 30)) by lia.
      rewrite <- Ha, String.eqb_refl. reflexivity.
    - apply Z.ltb_ge in E.
      rewrite (slice_empty_length (textAfter ctx)) by lia. reflexivity. }
  assert (Hks : blockScore doc ctx (mkSpan from to) = 30).
  { unfold blockScore, ctx. rewrite context_blockIndex. cbn [CommentUtils.from].
    rewrite Z.sub_diag. reflexivity. }
  split.
  - unfold score. fold docText. rewrite Hbs, Has, Hks. reflexivity.
  - intros m. unfold score. fold docText. rewrite Hbs, Has, Hks.
    pose proof (blockScore_range doc ctx m) as Hk.
    assert (beforeScore docText ctx m <= if 0 <? from then 50 else 0).
    { destruct (0 <? from) eqn:E; [apply beforeScore_range|].
      apply Z.ltb_ge in E. unfold beforeScore.
      rewrite (slice_empty_length (textBefore ctx)) by lia. simpl. lia. }
    assert (afterScore docText ctx m <= if to <? JS.length docText then 50 else 0).
    { destruct (to <? JS.length docText) eqn:E; [apply afterScore_range|].
      apply Z.ltb_ge in E. unfold afterScore.
      rewrite (slice_empty_length (textAfter ctx)) by lia. simpl. lia. }
    lia.
Qed.

(** The first "quick fox" of the example text, scored against its own
    context. *)
Lemma own_context_scores_best_witness :
  score foxDoc (getPositionContext foxDoc 4 13) (mkSpan 4 13) = 130
  /\ forall m, score foxDoc (getPositionContext foxDoc 4 13) m
               <= score foxDoc (getPositionContext foxDoc 4 13) (mkSpan 4 13).
Proof.
  destruct (own_context_scores_best foxDoc 4 13) as [H1 H2];
    [lia | lia | vm_compute; discriminate |].
  split; [rewrite H1; reflexivity | exact H2].
Defined.

(* ------------------------------------------------------------------ *)
(** ** Reading back the position found for a text *)
(* ------------------------------------------------------------------ *)

(** A visited node holds its tokens at its position. *)
Lemma descNode_tokens (n : Node) :
  forall pos x,
    In x (descNode n pos) ->
    exists l1 l2, tokens n = l1 ++ tokens (fst x) ++ l2
                  /\ Z.of_nat (List.length l1) = snd x - pos.
Proof.
  induction n as [t ms | ty a ms | ty a ms c IH] using Node_induction; intros pos x Hx.
  - destruct Hx as [<- | []]. exists [], []. cbn [fst snd]. rewrite app_nil_r. split; [reflexivity|].
    simpl. lia.
  - destruct Hx as [<- | []]. exists [], []. cbn [fst snd]. split; [reflexivity | simpl; lia].
  - rewrite descNode_Inner in Hx. destruct Hx as [<- | Hx].
    + exists [], []. cbn [fst snd]. rewrite app_nil_r. split; [reflexivity | simpl; lia].
    + rewrite tokens_Inner.
      enough (H : forall p, In x (descLoop descNode c p) ->
                exists l1 l2, fragTokens c = l1 ++ tokens (fst x) ++ l2
                              /\ Z.of_nat (List.length l1) = snd x - p).
      { destruct (H _ Hx) as [l1 [l2 [E Hl]]]. exists (None :: l1), (l2 ++ [None]). split.
        - rewrite E. simpl. rewrite <- !app_assoc. reflexivity.
        - simpl List.length. lia. }
      clear Hx. induction IH as [|y c Hy _ IHc]; intros p Hx; [destruct Hx|].
      rewrite descLoop_cons in Hx. apply in_app_iff in Hx. rewrite fragTokens_cons.
      destruct Hx as [Hx | Hx].
      * destruct (Hy _ _ Hx) as [l1 [l2 [E Hl]]]. exists l1, (l2 ++ fragTokens c). split.
        -- rewrite E, <- !app_assoc. reflexivity.
        -- exact Hl.
      * destruct (IHc _ Hx) as [l1 [l2 [E Hl]]]. exists (tokens y ++ l1), l2. split.
        -- rewrite E, <- !app_assoc. reflexivity.
        -- rewrite length_app. pose proof (tokens_length y). lia.
Qed.

Lemma descendants_tokens (d : Fragment) (x : Node * Z) :
  In x (descendants d) ->
  exists l1 l2, fragTokens d = l1 ++ tokens (fst x) ++ l2
                /\ Z.of_nat (List.length l1) = snd x.
Proof.
  unfold descendants. intros Hx.
  enough (H : forall p, In x (descLoop descNode d p) ->
            exists l1 l2, fragTokens d = l1 ++ tokens (fst x) ++ l2
                          /\ Z.of_nat (List.length l1) = snd x - p).
  { destruct (H 0 Hx) as [l1 [l2 [E Hl]]]. exists l1, l2. split; [exact E | lia]. }
  clear Hx. induction d as [|y c IHc]; intros p Hx; [destruct Hx|].
  rewrite descLoop_cons in Hx. apply in_app_iff in Hx. rewrite fragTokens_cons.
  destruct Hx as [Hx | Hx].
  - destruct (descNode_tokens y _ _ Hx) as [l1 [l2 [E Hl]]]. exists l1, (l2 ++ fragTokens c). split.
    + rewrite E, <- !app_assoc. reflexivity.
    + exact Hl.
  - destruct (IHc _ Hx) as [l1 [l2 [E Hl]]]. exists (tokens y ++ l1), l2. split.
    + rewrite E, <- !app_assoc. reflexivity.
    + rewrite length_app. pose proof (tokens_length y). lia.
Qed.

Lemma charsBetween_before (a b pos : Z) (toks : list (option ascii)) :
  pos + Z.of_nat (List.length toks) <= a -> charsBetween a b pos toks = EmptyString.
Proof.
  revert pos. induction toks as [|t toks IH]; intros pos H; [reflexivity|].
  simpl List.length in H. rewrite charsBetween_cons, IH by lia. destruct t; [|reflexivity].
  replace (a <=? pos) with false by (symmetry; apply Z.leb_gt; lia). reflexivity.
Qed.

Lemma charsBetween_after (a b pos : Z) (toks : list (option ascii)) :
  b <= pos -> charsBetween a b pos toks = EmptyString.
Proof.
  revert pos. induction toks as [|t toks IH]; intros pos H; [reflexivity|].
  rewrite charsBetween_cons, IH by lia. destruct t; [|reflexivity].
  replace (pos <? b) with false by (symmetry; apply Z.ltb_ge; lia).
  rewrite andb_false_r. reflexivity.
Qed.

Lemma take_app (t b : string) : JS.take (String.length t) (String.append t b) = t.
Proof. induction t as [|c t IH]; simpl; [destruct b; reflexivity | rewrite IH; reflexivity]. Qed.

(** The characters at the positions of an occurrence inside a text node
    are the text that occurs. *)
Lemma occurrence_chars (d : Fragment) (text : string) (ms : list Mark) (pos : Z)
    (a t b : string) :
  In (Text text ms, pos) (descendants d) ->
  text = String.append a (String.append t b) ->
  charsBetween (pos + JS.length a) (pos + JS.length a + JS.length t) 0 (fragTokens d) = t.
Proof.
  intros Hin Ht. destruct (descendants_tokens d _ Hin) as [l1 [l2 [E Hl]]].
  cbn [fst snd tokens] in E, Hl. rewrite E.
  pose proof (length_nonneg a) as Ha. pose proof (length_nonneg t) as Hlt.
  pose proof (length_nonneg b) as Hb.
  assert (Hlen : JS.length text = JS.length a + JS.length t + JS.length b).
  { rewrite Ht. unfold JS.length. rewrite !append_length. lia. }
  rewrite !charsBetween_app, strTokens_length.
  rewrite (charsBetween_before _ _ 0 l1) by lia.
  rewrite (charsBetween_after _ _ _ l2) by lia.
  rewrite append_empty_r. simpl String.append. rewrite ?Z.add_0_l, ?Hl.
  rewrite charsBetween_text.
  replace (Z.to_nat (Z.max (pos + JS.length a) pos - pos)) with (String.length a)
    by (unfold JS.length; lia).
  replace (Z.to_nat (Z.min (pos + JS.length a + JS.length t) (pos + JS.length text)
                     - Z.max (pos + JS.length a) pos))
    with (String.length t) by (unfold JS.length in *; lia).
  rewrite Ht, drop_app. apply take_app.
Qed.

Lemma findBestMatchPosition_In (doc : Fragment) (t : string) (ctx : option PositionContext)
    (m : Span) :
  findBestMatchPosition (Some doc) t ctx = Some m ->
  JS.truthy t = true /\ In m (collectMatches doc t).
Proof.
  unfold findBestMatchPosition. destruct (JS.truthy t); [|discriminate]. simpl negb. cbv iota.
  intros H. split; [reflexivity|].
  destruct (collectMatches doc t) as [|m1 [|m2 rest]] eqn:E; [discriminate| |].
  - injection H as <-. left. reflexivity.
  - destruct ctx as [ctx|]; [|injection H as <-; left; reflexivity].
    injection H as <-.
    pose proof (pickBest_bestOf doc ctx m1 (m1 :: m2 :: rest)) as [[Hn _] | [_ [l1 [l2 [Hl _]]]]];
      [discriminate|].
    set (best := fst (pickBest doc ctx m1 (m1 :: m2 :: rest))) in *. clearbody best.
    rewrite Hl. apply in_app_iff. right. left. reflexivity.
Qed.

(** Whatever the context, a position [findBestMatchPosition] returns is
    an occurrence of the text inside one text node: it is as long as the
    text, the characters of the node between its ends are the text, and
    [textBetween] reads the text back from the document. *)
Theorem findBestMatchPosition_reads_back (doc : Fragment) (t : string)
    (ctx : option PositionContext) (m : Span) :
  findBestMatchPosition (Some doc) t ctx = Some m ->
  to m = from m + JS.length t
  /\ (exists text ms pos,
        In (Text text ms, pos) (descendants doc)
        /\ pos <= from m /\ to m <= pos + JS.length text
        /\ JS.slice text (from m - pos) (to m - pos) = t)
  /\ (noEmptyText doc -> textBetween doc (from m) (to m) EmptyString = t).
Proof.
  intros H. apply findBestMatchPosition_In in H. destruct H as [Ht Hin].
  rewrite (collectMatches_allOccurrences doc t Ht) in Hin.
  apply allOccurrences_In in Hin.
  destruct Hin as [text [ms [pos [a [b [Hd [Htext [Hf Hto]]]]]]]].
  pose proof (length_nonneg a) as Ha. pose proof (length_nonneg t) as Hlt.
  pose proof (length_nonneg b) as Hb.
  assert (Hlen : JS.length text = JS.length a + JS.length t + JS.length b).
  { rewrite Htext. unfold JS.length. rewrite !append_length. lia. }
  split; [exact Hto|]. split.
  - exists text, ms, pos. split; [exact Hd|]. split; [lia|]. split; [lia|].
    rewrite slice_in_range by lia.
    replace (Z.to_nat (from m - pos)) with (String.length a) by (unfold JS.length in *; lia).
    replace (Z.to_nat (to m - pos - (from m - pos))) with (String.length t)
      by (unfold JS.length in *; lia).
    rewrite Htext, drop_app. apply take_app.
  - intros Hne. rewrite textBetween_chars by exact Hne.
    rewrite Hto, Hf. apply (occurrence_chars doc text ms pos a t b Hd Htext).
Qed.

(** The position found for "quick fox" in the paragraph of the example. *)
Lemma findBestMatchPosition_reads_back_witness :
  findBestMatchPosition (Some foxPara) "quick fox" (Some foxCtx) = Some (mkSpan 5 14)
  /\ (noEmptyText foxPara -> textBetween foxPara 5 14 EmptyString = "quick fox").
Proof.
  split; [vm_compute; reflexivity|].
  exact (proj2 (proj2 (findBestMatchPosition_reads_back foxPara "quick fox" (Some foxCtx)
                         (mkSpan 5 14) eq_refl))).
Defined.

(* ------------------------------------------------------------------ *)
(** ** The threads with a live mark *)
(* ------------------------------------------------------------------ *)

Lemma setHas_In (ids : list (option string)) (x : option string) :
  setHas ids x = true <-> In x ids.
Proof.
  unfold setHas. rewrite existsb_exists. split.
  - intros [y [Hy He]]. apply eqId_eq in He. subst. exact Hy.
  - intros H. exists x. split; [exact H | apply eqId_eq; reflexivity].
Qed.

Lemma setAdd_In (ids : list (option string)) (x y : option string) :
  In y (setAdd ids x) <-> In y ids \/ y = x.
Proof.
  unfold setAdd. destruct (setHas ids x) eqn:E.
  - apply setHas_In in E. split; [auto | intros [H | ->]; assumption].
  - rewrite in_app_iff. simpl. split.
    + intros [H | [<- | []]]; auto.
    + intros [H | ->]; auto.
Qed.

Lemma setAdd_NoDup (ids : list (option string)) (x : option string) :
  NoDup ids -> NoDup (setAdd ids x).
Proof.
  intros H. unfold setAdd. destruct (setHas ids x) eqn:E; [exact H|].
  apply NoDup_app; [exact H | constructor; [intros [] | constructor] |].
  intros y Hy [<- | []].
  apply setHas_In in Hy. congruence.
Qed.

(** The thread ids the marks of one node add. *)
Lemma markIds_In (ms : list Mark) (ids : list (option string)) (x : option string) :
  In x (fold_left (fun ids mark => if isComment mark then setAdd ids (PM.threadId mark) else ids)
                  ms ids)
  <-> In x ids \/ exists m, In m ms /\ isComment m = true /\ PM.threadId m = x.
Proof.
  revert ids. induction ms as [|m ms IH]; intros ids; simpl.
  - split; [auto | intros [H | [m [[] _]]]; exact H].
  - rewrite IH. destruct (isComment m) eqn:E.
    + rewrite setAdd_In. split.
      * intros [[H | ->] | [m' [Hm' H]]]; [auto | right; exists m; auto |].
        right. exists m'. tauto.
      * intros [H | [m' [[<- | Hm'] [Hc Ht]]]]; [auto | auto |].
        right. exists m'. auto.
    + split.
      * intros [H | [m' [Hm' H]]]; [auto|]. right. exists m'. tauto.
      * intros [H | [m' [[<- | Hm'] [Hc Ht]]]]; [auto | congruence |].
        right. exists m'. auto.
Qed.

Lemma markIds_NoDup (ms : list Mark) (ids : list (option string)) :
  NoDup ids ->
  NoDup (fold_left (fun ids mark => if isComment mark then setAdd ids (PM.threadId mark) else ids)
                   ms ids).
Proof.
  revert ids. induction ms as [|m ms IH]; intros ids H; simpl; [exact H|].
  apply IH. destruct (isComment m); [apply setAdd_NoDup|]; exact H.
Qed.

Lemma getThreadIdsWithMarks_char (state : EditorState) :
  NoDup (getThreadIdsWithMarks state)
  /\ (forall tid,
        In tid (getThreadIdsWithMarks state) <->
        hasCommentMark (schema state) = true
        /\ exists n p, In (n, p) (descendants (doc state)) /\ liveAt tid n).
Proof.
  unfold getThreadIdsWithMarks.
  destruct (hasCommentMark (schema state)); simpl negb; cbv iota;
    [|split; [constructor | intros tid; split; [intros [] | intros [H _]; discriminate H]]].
  set (step := fun (threadIds : list (option string)) (call : Node * Z) =>
                 let node := fst call in
                 let threadIds :=
                   fold_left
                     (fun ids mark =>
                        if isComment mark then setAdd ids (PM.threadId mark) else ids)
                     (marksOf node) threadIds in
                 if (isImage node && truthyId (commentThreadId (attrsOf node)))%bool
                 then setAdd threadIds (commentThreadId (attrsOf node))
                 else threadIds).
  assert (Hstep : forall ids call x,
            In x (step ids call) <-> In x ids \/ liveAt x (fst call)).
  { intros ids [n p] x. unfold step, liveAt. cbn [fst].
    destruct (isImage n && truthyId (commentThreadId (attrsOf n)))%bool eqn:E.
    - apply andb_true_iff in E. destruct E as [E1 E2].
      rewrite setAdd_In, markIds_In. split.
      + intros [[H | H] | ->]; [auto | auto |]. right. right. auto.
      + intros [H | [H | [_ [_ H]]]]; auto.
    - rewrite markIds_In. split; [tauto|].
      intros [H | [H | [H1 [H2 H3]]]]; auto.
      rewrite H1, H3, H2 in E. discriminate E. }
  assert (Hnd : forall ids call, NoDup ids -> NoDup (step ids call)).
  { intros ids [n p] H. unfold step. cbn [fst].
    destruct (_ && _)%bool; [apply setAdd_NoDup|]; apply markIds_NoDup; exact H. }
  fold step.
  enough (H : forall l ids,
            NoDup ids ->
            NoDup (fold_left step l ids)
            /\ forall x, In x (fold_left step l ids)
                         <-> In x ids \/ exists n p, In (n, p) l /\ liveAt x n).
  { destruct (H (descendants (doc state)) [] (NoDup_nil _)) as [H1 H2].
    split; [exact H1|]. intros tid. rewrite H2. split.
    - intros [[] | Hx]. split; [reflexivity | exact Hx].
    - intros [_ Hx]. right. exact Hx. }
  induction l as [|call l IH]; intros ids Hids.
  - split; [exact Hids|]. intros x. simpl. split; [auto | intros [H | [n [p [[] _]]]]; exact H].
  - simpl fold_left. destruct (IH (step ids call) (Hnd _ _ Hids)) as [H1 H2].
    split; [exact H1|]. intros x. rewrite H2, Hstep. split.
    + intros [[H | H] | [n [p [Hin H]]]]; [auto | |].
      * right. exists (fst call), (snd call). split; [left; destruct call; reflexivity | exact H].
      * right. exists n, p. split; [right; exact Hin | exact H].
    + intros [H | [n [p [[He | Hin] H]]]]; [auto | subst call; auto |].
      right. exists n, p. auto.
Qed.

(** [getThreadIdsWithMarks] holds every thread id once: the ids of the
    comment marks of all nodes, of whatever kind, and the non-empty
    [commentThreadId] of the images.  Where the schema has no comment
    mark the set is empty, the images not looked at. *)
Theorem getThreadIdsWithMarks_spec (state : EditorState) :
  NoDup (getThreadIdsWithMarks state)
  /\ (forall tid,
        In tid (getThreadIdsWithMarks state) <->
        hasCommentMark (schema state) = true
        /\ exists n p, In (n, p) (descendants (doc state)) /\ liveAt tid n).
Proof. exact (getThreadIdsWithMarks_char state). Qed.

(* ------------------------------------------------------------------ *)
(** ** Restoring orphaned threads *)
(* ------------------------------------------------------------------ *)

(** The comments map after [restoreOrphanedComments] once the initial
    sync is complete. *)
Lemma restoreOrphanedComments_map live threads w m :
  commentsMap (pluginState w) = Some m ->
  initialSyncComplete (pluginState w) = true ->
  commentsMap (pluginState (restoreOrphanedComments live threads w))
  = Some (rewriteRoots (restoredIds live threads) (setOrphaned false None) m).
Proof.
  intros Hm Hs. unfold restoreOrphanedComments. rewrite Hm, Hs. simpl negb. cbv iota.
  destruct (restoredIds live threads) as [|i ids] eqn:E.
  - rewrite rewriteRoots_nil. exact Hm.
  - reflexivity.
Qed.

(** Restoration touches the comments map only. *)
Lemma restoreOrphanedComments_rest live threads w :
  view (restoreOrphanedComments live threads w) = view w
  /\ events (restoreOrphanedComments live threads w) = events w
  /\ activeThreadId (pluginState (restoreOrphanedComments live threads w))
     = activeThreadId (pluginState w)
  /\ initialSyncComplete (pluginState (restoreOrphanedComments live threads w))
     = initialSyncComplete (pluginState w).
Proof.
  unfold restoreOrphanedComments.
  destruct (commentsMap (pluginState w)); [|auto].
  destruct (negb (initialSyncComplete (pluginState w))); [auto|].
  destruct (restoredIds live threads); auto.
Qed.

(** Once the initial sync is complete, [restoreOrphanedComments] keeps
    every record under its key; a record either stays as it is or gets
    [orphaned = false] and [orphanedAt = null] with its other fields
    unchanged; nothing is dispatched.  For a thread with a live mark
    whose root comment is orphaned, the map afterwards holds, under the
    key of every root record of the thread, that record with
    [orphaned = false] and [orphanedAt = null]; the records of a thread
    without live mark, or whose root comment is not orphaned, are left
    as they are. *)
Theorem restoreOrphanedComments_spec (live : list (option string)) (w : World)
    (m : CommentsMap) :
  commentsMap (pluginState w) = Some m ->
  initialSyncComplete (pluginState w) = true ->
  let threads := groupCommentsByThread m in
  let w' := restoreOrphanedComments live threads w in
  exists m',
    commentsMap (pluginState w') = Some m'
    /\ map fst m' = map fst m
    /\ Forall2 (fun e e' => snd e' = snd e \/ withOrphan false None (snd e) (snd e')) m m'
    /\ view w' = view w
    /\ events w' = events w
    /\ (forall tid comments root,
          In (tid, comments) threads ->
          setHas live (Some tid) = true ->
          rootComment comments = Some root ->
          orphaned root = true ->
          forall key c, In (key, c) m -> threadId c = tid -> parentId c = None ->
                        exists c', In (key, c') m'
                                   /\ orphaned c' = false /\ orphanedAt c' = None
                                   /\ withOrphan false None c c')
    /\ (forall tid comments,
          In (tid, comments) threads ->
          setHas live (Some tid) = false \/ rootOrphaned comments = false ->
          forall key c, In (key, c) m -> threadId c = tid -> In (key, c) m').
Proof.
  intros Hm Hs threads w'.
  exists (rewriteRoots (restoredIds live threads) (setOrphaned false None) m).
  split; [apply restoreOrphanedComments_map; assumption|].
  split; [apply rewriteRoots_keys|].
  split; [apply rewriteRoots_flags|].
  destruct (restoreOrphanedComments_rest live threads w) as [Hv [He _]].
  split; [exact Hv|]. split; [exact He|]. split.
  - intros tid comments root Hin Hlive Hroot Horph key c Hc Htc Hpc.
    exists (setOrphaned false None c).
    split; [|split; [reflexivity | split; [reflexivity | apply withOrphan_setOrphaned]]].
    apply rewriteRoots_hit; auto. rewrite Htc. apply restoredIds_In.
    exists comments. unfold rootOrphaned. rewrite Hroot. auto.
  - intros tid comments Hin Hnot key c Hc Htc.
    apply rewriteRoots_miss; [exact Hc|]. rewrite Htc. intros Hr.
    apply restoredIds_In in Hr. destruct Hr as [comments' [Hin' [Ho Hl]]].
    rewrite (thread_unique m tid comments' comments Hin' Hin) in Ho.
    destruct Hnot; congruence.
Qed.

(** The thread "t1" was orphaned at time 50 and its text is marked again:
    its root comment is restored. *)
Lemma restoreOrphanedComments_spec_witness :
  let root := mkComment "t1" "t1" None "root" 10 false true (Some 50) "quick fox" None in
  let m := [("t1", root)] in
  exists m' c',
    commentsMap
      (pluginState
         (restoreOrphanedComments (getThreadIdsWithMarks markedState)
            (groupCommentsByThread m) (worldOf m markedState)))
    = Some m'
    /\ In ("t1", c') m'
    /\ orphaned c' = false /\ orphanedAt c' = None /\ selectedText c' = "quick fox".
Proof.
  intros root m.
  destruct (restoreOrphanedComments_spec (getThreadIdsWithMarks markedState)
              (worldOf m markedState) m eq_refl eq_refl)
    as [m' [H1 [_ [_ [_ [_ [H2 _]]]]]]].
  destruct (H2 "t1" [root] root) with (key := "t1") (c := root)
    as [c' [Ha [Hb [Hc Hd]]]]; try reflexivity; try (left; reflexivity).
  exists m', c'. split; [exact H1|]. split; [exact Ha|]. split; [exact Hb|].
  split; [exact Hc|]. apply Hd.
Defined.

(* ------------------------------------------------------------------ *)
(** ** The stored text follows the marked text *)
(* ------------------------------------------------------------------ *)

Lemma updateCommentSelectedText_fold state live w :
  updateCommentSelectedText state live w
  = match commentsMap (pluginState w) with
    | None => w
    | Some _ =>
        if negb (hasCommentMark (schema state)) then w
        else fold_left (updateStep state) live w
    end.
Proof. reflexivity. Qed.

(** The entry [findRootCommentEntry] returns: the last root record of
    the thread in the map. *)
Lemma findRootCommentEntry_last (ps : PluginState) (m : CommentsMap) (tid : option string) :
  commentsMap ps = Some m ->
  match findRootCommentEntry ps tid with
  | Some e => exists l1 l2, m = l1 ++ e :: l2 /\ isRootOf tid e = true
                            /\ forall x, In x l2 -> isRootOf tid x = false
  | None => forall x, In x m -> isRootOf tid x = false
  end.
Proof.
  intros Hm. unfold findRootCommentEntry. rewrite Hm.
  change (fun (result : option (string * Comment)) (entry : string * Comment) =>
            if (eqId (Some (threadId (snd entry))) tid && isNull (parentId (snd entry)))%bool
            then Some entry else result)
    with (fun (result : option (string * Comment)) (entry : string * Comment) =>
            if isRootOf tid entry then Some entry else result).
  clear Hm. induction m as [|e m IH] using rev_ind; [intros x []|].
  rewrite fold_left_app. simpl. destruct (isRootOf tid e) eqn:E.
  - exists m, []. split; [reflexivity|]. split; [exact E | intros x []].
  - destruct (fold_left _ m None) as [r|].
    + destruct IH as [l1 [l2 [-> [Hr Hl]]]]. exists l1, (l2 ++ [e]).
      split; [rewrite <- app_assoc; reflexivity|]. split; [exact Hr|].
      intros x Hx. apply in_app_iff in Hx. destruct Hx as [Hx | [<- | []]]; auto.
    + intros x Hx. apply in_app_iff in Hx. destruct Hx as [Hx | [<- | []]]; auto.
Qed.

Lemma updateStep_eq state w tid :
  updateStep state w tid
  = match findCommentMarkRange state tid with
    | None => w
    | Some range =>
        match findRootCommentEntry (pluginState w) tid, commentsMap (pluginState w) with
        | Some entry, Some m =>
            if negb (String.eqb (selectedText (snd entry)) (currentTextOf state range)) then
              mkWorld
                (setCommentsMap' (pluginState w)
                   (mapSet m (fst entry)
                      (setSelected (currentTextOf state range)
                         (if rangeIsImage range then positionContext (snd entry)
                          else Some (getPositionContext (doc state) (rangeFrom range)
                                                        (rangeTo range)))
                         (snd entry))))
                (view w) (events w)
            else w
        | _, _ => w
        end
    end.
Proof.
  unfold updateStep, currentTextOf.
  destruct (findCommentMarkRange state tid) as [range|]; [|reflexivity].
  destruct (rangeIsImage range); reflexivity.
Qed.

(** [commentsMap.set(id, comment)] on a map that holds the key rewrites
    the entry of the key and no other. *)
Lemma mapSet_pointwise (m : CommentsMap) (k : string) (c' : Comment) :
  NoDup (map fst m) -> In k (map fst m) ->
  Forall2 (fun e e' => e' = if String.eqb (fst e) k then (fst e, c') else e) m (mapSet m k c').
Proof.
  induction m as [|[k0 v] m IH]; intros Hnd Hin; [destruct Hin|].
  simpl in Hnd. inversion Hnd as [|? ? Hk0 Hnd']; subst. simpl mapSet.
  destruct (String.eqb k0 k) eqn:E.
  - constructor; [cbn [fst]; rewrite E; reflexivity|].
    apply String.eqb_eq in E. subst k0. clear IH Hin Hnd.
    induction m as [|[k1 v1] m IH]; constructor.
    + cbn [fst]. destruct (String.eqb k1 k) eqn:E1; [|reflexivity].
      apply String.eqb_eq in E1. subst. exfalso. apply Hk0. left. reflexivity.
    + apply IH; [intros H; apply Hk0; right; exact H|].
      inversion Hnd'; assumption.
  - constructor; [cbn [fst]; rewrite E; reflexivity|].
    apply IH; [exact Hnd'|]. destruct Hin as [Hin | Hin]; [|exact Hin].
    simpl in Hin. subst. rewrite String.eqb_refl in E. discriminate E.
Qed.

(** Two maps whose entries agree, one by one, on what makes a root
    record of the thread have their root entries at the same place. *)
Lemma findRootCommentEntry_related (R : string * Comment -> string * Comment -> Prop)
    (ps ps' : PluginState) (m m' : CommentsMap) (tid : option string) :
  commentsMap ps = Some m -> commentsMap ps' = Some m' ->
  Forall2 R m m' ->
  (forall e e', R e e' -> isRootOf tid e' = isRootOf tid e) ->
  match findRootCommentEntry ps tid, findRootCommentEntry ps' tid with
  | Some e, Some e' => R e e' /\ In e m /\ In e' m'
  | None, None => True
  | _, _ => False
  end.
Proof.
  intros Hm Hm' HR Hroot. unfold findRootCommentEntry. rewrite Hm, Hm'.
  change (fun (result : option (string * Comment)) (entry : string * Comment) =>
            if (eqId (Some (threadId (snd entry))) tid && isNull (parentId (snd entry)))%bool
            then Some entry else result)
    with (fun (result : option (string * Comment)) (entry : string * Comment) =>
            if isRootOf tid entry then Some entry else result).
  clear Hm Hm'.
  enough (H : forall l l', Forall2 R l l' ->
            (forall x, In x l -> In x m) -> (forall x, In x l' -> In x m') ->
            forall acc acc',
              match acc, acc' with
              | Some e, Some e' => R e e' /\ In e m /\ In e' m'
              | None, None => True
              | _, _ => False
              end ->
              match fold_left (fun result entry =>
                                 if isRootOf tid entry then Some entry else result) l acc,
                    fold_left (fun result entry =>
                                 if isRootOf tid entry then Some entry else result) l' acc'
              with
              | Some e, Some e' => R e e' /\ In e m /\ In e' m'
              | None, None => True
              | _, _ => False
              end)
    by (apply (H m m' HR); auto).
  induction 1 as [|e e' l l' He Hl IH]; intros Hs Hs' acc acc' Hacc; [exact Hacc|].
  simpl. apply IH; [intros x Hx; apply Hs; right; exact Hx
                   | intros x Hx; apply Hs'; right; exact Hx |].
  rewrite (Hroot e e' He). destruct (isRootOf tid e); [|exact Hacc].
  split; [exact He|]. split; [apply Hs | apply Hs']; left; reflexivity.
Qed.

Lemma sameButText_refl (c : Comment) : sameButText c c.
Proof. destruct c. reflexivity. Qed.

Lemma sameButText_set (c c' : Comment) (text : string) (ctx : option PositionContext) :
  sameButText c c' -> sameButText c (setSelected text ctx c').
Proof. unfold sameButText. intros ->. reflexivity. Qed.

Lemma sameButText_fields (c c' : Comment) :
  sameButText c c' ->
  threadId c' = threadId c /\ parentId c' = parentId c /\ resolved c' = resolved c
  /\ orphaned c' = orphaned c /\ orphanedAt c' = orphanedAt c /\ createdAt c' = createdAt c
  /\ CommentUtils.id c' = CommentUtils.id c /\ content c' = content c.
Proof. unfold sameButText. intros ->. repeat split. Qed.

Lemma NoDup_keys_unique (m : CommentsMap) (k : string) (c1 c2 : Comment) :
  NoDup (map fst m) -> In (k, c1) m -> In (k, c2) m -> c1 = c2.
Proof.
  induction m as [|[k0 v] m IH]; intros Hnd H1 H2; [destruct H1|].
  simpl in Hnd. inversion Hnd as [|? ? Hk0 Hnd']; subst.
  destruct H1 as [H1 | H1], H2 as [H2 | H2].
  - congruence.
  - injection H1 as -> ->. exfalso. apply Hk0. apply in_map_iff. exists (k, c2). auto.
  - injection H2 as -> ->. exfalso. apply Hk0. apply in_map_iff. exists (k, c1). auto.
  - apply IH; assumption.
Qed.

Section UpdateText.
Variable state : EditorState.
Variable w0 : World.
Variable m : CommentsMap.
Hypothesis Hkeys : NoDup (map fst m).

(** How an entry of the map relates to the entry the loop has made of
    it once the threads [done] have been dealt with. *)
Let rel (done : list (option string)) (e e' : string * Comment) : Prop :=
  fst e' = fst e
  /\ sameButText (snd e) (snd e')
  /\ (parentId (snd e) <> None -> e' = e)
  /\ (~ In (Some (threadId (snd e))) done -> e' = e).

Let inv (done : list (option string)) (w : World) : Prop :=
  exists mi,
    commentsMap (pluginState w) = Some mi
    /\ Forall2 (rel done) m mi
    /\ view w = view w0
    /\ events w = events w0
    /\ activeThreadId (pluginState w) = activeThreadId (pluginState w0)
    /\ initialSyncComplete (pluginState w) = initialSyncComplete (pluginState w0)
    /\ forall tid range key c,
         In tid done ->
         findCommentMarkRange state tid = Some range ->
         findRootCommentEntry (pluginState w) tid = Some (key, c) ->
         selectedText c = currentTextOf state range.

Lemma rel_keys done (l mi : CommentsMap) :
  Forall2 (rel done) l mi -> map fst mi = map fst l.
Proof.
  induction 1 as [|e e' l l' He Hl IH]; [reflexivity|].
  simpl. rewrite IH. destruct He as [-> _]. reflexivity.
Qed.

Lemma rel_more done tid (l mi : CommentsMap) :
  Forall2 (rel done) l mi -> Forall2 (rel (done ++ [tid])) l mi.
Proof.
  intros H. eapply Forall2_impl; [|exact H].
  intros e e' [H1 [H2 [H3 H4]]]. repeat split; auto.
  intros Hn. apply H4. intros Hd. apply Hn. apply in_app_iff. left. exact Hd.
Qed.

Lemma rel_step done tid k c c' :
  parentId c = None -> Some (threadId c) = tid ->
  (exists text ctx, c' = setSelected text ctx c) ->
  forall l li li',
    Forall2 (rel done) l li ->
    Forall2 (fun e e' => e' = if String.eqb (fst e) k then (fst e, c') else e) li li' ->
    (forall e, In e li -> String.eqb (fst e) k = true -> e = (k, c)) ->
    Forall2 (rel (done ++ [tid])) l li'.
Proof.
  intros Hpar Htid [text [ctx ->]].
  induction l as [|e l IH]; intros li li' Hrel Hpt Huniq;
    inversion Hrel as [|? ei ? li0 He Hl]; subst;
    inversion Hpt as [|? e' ? li0' He' Hl']; subst; constructor.
  - destruct He as [H1 [H2 [H3 H4]]].
    destruct (String.eqb (fst ei) k) eqn:Ek.
    + pose proof (Huniq ei (or_introl eq_refl) Ek) as Hei. subst ei.
      cbn [fst snd] in *. repeat split.
      * exact H1.
      * cbn [snd]. apply sameButText_set. exact H2.
      * intros Hp. exfalso. apply Hp.
        rewrite <- (proj1 (proj2 (sameButText_fields _ _ H2))). exact Hpar.
      * intros Hn. exfalso. apply Hn. apply in_app_iff. right. left.
        rewrite <- (proj1 (sameButText_fields _ _ H2)). reflexivity.
    + repeat split; auto.
      intros Hn. apply H4. intros Hd. apply Hn. apply in_app_iff. left. exact Hd.
  - apply (IH li0 li0'); [exact Hl | exact Hl'|].
    intros x Hx. apply Huniq. right. exact Hx.
Qed.

Lemma Forall2_In_l {A B : Type} (P : A -> B -> Prop) (l : list A) (l' : list B) :
  Forall2 P l l' -> Forall2 (fun x y => In x l /\ P x y) l l'.
Proof.
  induction 1 as [|x y l l' Hxy Hl IH]; constructor.
  - split; [left; reflexivity | exact Hxy].
  - eapply Forall2_impl; [|exact IH]. intros a b [Ha Hab]. split; [right; exact Ha | exact Hab].
Qed.

Lemma update_step done w tid :
  inv done w -> ~ In tid done -> inv (done ++ [tid]) (updateStep state w tid).
Proof.
  intros [mi [Hmi [Hrel [Hv [He [Ha [Hs Hdone]]]]]]] Hnew.
  pose proof (rel_keys _ _ _ Hrel) as Hk.
  assert (Hkeep : (forall range key c,
                     findCommentMarkRange state tid = Some range ->
                     findRootCommentEntry (pluginState w) tid = Some (key, c) ->
                     selectedText c = currentTextOf state range) ->
                  inv (done ++ [tid]) w).
  { intros Hthis. exists mi. repeat split; auto; [apply rel_more; exact Hrel|].
    intros tid' range key c Hin Hr Hf. apply in_app_iff in Hin.
    destruct Hin as [Hin | [<- | []]]; [exact (Hdone _ _ _ _ Hin Hr Hf) | exact (Hthis _ _ _ Hr Hf)]. }
  rewrite updateStep_eq.
  destruct (findCommentMarkRange state tid) as [range|] eqn:Er;
    [|apply Hkeep; intros; discriminate].
  pose proof (findRootCommentEntry_last (pluginState w) mi tid Hmi) as Hlast.
  destruct (findRootCommentEntry (pluginState w) tid) as [[k c]|] eqn:Ef;
    [|apply Hkeep; intros; discriminate].
  rewrite Hmi. cbn [fst snd].
  destruct (String.eqb (selectedText c) (currentTextOf state range)) eqn:Et; cbn [negb].
  { apply String.eqb_eq in Et. apply Hkeep. intros range' key c' Hr Hf.
    injection Hr as <-. injection Hf as <- <-. exact Et. }
  destruct Hlast as [l1 [l2 [Hsplit [Hroot Hl2]]]].
  assert (Hin : In (k, c) mi) by (rewrite Hsplit; apply in_app_iff; right; left; reflexivity).
  assert (Hkin : In k (map fst mi)) by (apply in_map_iff; exists (k, c); auto).
  assert (Hndi : NoDup (map fst mi)) by (rewrite Hk; exact Hkeys).
  set (c' := setSelected (currentTextOf state range)
               (if rangeIsImage range then positionContext c
                else Some (getPositionContext (doc state) (rangeFrom range) (rangeTo range)))
               c).
  pose proof (mapSet_pointwise mi k c' Hndi Hkin) as Hpt.
  unfold isRootOf in Hroot. cbn [snd] in Hroot. apply andb_true_iff in Hroot.
  destruct Hroot as [Htid Hnull]. apply eqId_eq in Htid.
  assert (Hpar : parentId c = None) by (destruct (parentId c); [discriminate | reflexivity]).
  (* an entry with the key [k] is the entry found *)
  assert (Huniq : forall e, In e mi -> String.eqb (fst e) k = true -> e = (k, c)).
  { intros [k1 c1] Hi Hk1. cbn [fst] in Hk1. apply String.eqb_eq in Hk1. subst k1.
    f_equal. exact (NoDup_keys_unique mi k c1 c Hndi Hi Hin). }
  set (mi' := mapSet mi k c') in *.
  assert (Hrel' : Forall2 (rel (done ++ [tid])) m mi').
  { apply (rel_step done tid k c c' Hpar Htid) with (li := mi);
      [eexists; eexists; reflexivity | exact Hrel | exact Hpt | exact Huniq]. }
  exists mi'. split; [reflexivity|]. split; [exact Hrel'|].
  split; [exact Hv|]. split; [exact He|]. split; [exact Ha|]. split; [exact Hs|].
  intros tid' range' key cc Hin' Hr' Hf'.
  (* the root entries before and after the step are at the same place *)
  cbn [pluginState] in Hf'.
  assert (Hpres : forall e e',
            In e mi ->
            e' = (if String.eqb (fst e) k then (fst e, c') else e) ->
            isRootOf tid' e' = isRootOf tid' e).
  { intros e e' Hi ->. destruct (String.eqb (fst e) k) eqn:Ek; [|reflexivity].
    rewrite (Huniq e Hi Ek). reflexivity. }
  assert (Hrelated' :
            match findRootCommentEntry (pluginState w) tid' with
            | Some e => (key, cc) = (if String.eqb (fst e) k then (fst e, c') else e) /\ In e mi
            | None => False
            end).
  { pose proof (findRootCommentEntry_related
                  (fun e e' => In e mi
                               /\ e' = if String.eqb (fst e) k then (fst e, c') else e)
                  (pluginState w)
                  (setCommentsMap' (pluginState w) mi') mi mi' tid' Hmi eq_refl) as Hx.
    cbn [pluginState] in Hx. rewrite Hf' in Hx.
    pose proof (Forall2_In_l _ _ _ Hpt) as HF.
    specialize (Hx HF (fun e e' H => Hpres e e' (proj1 H) (proj2 H))).
    destruct (findRootCommentEntry (pluginState w) tid') as [e|]; [|exact Hx].
    destruct Hx as [[_ Hx] [Hi _]]. split; [exact Hx | exact Hi]. }
  destruct (findRootCommentEntry (pluginState w) tid') as [[k1 c1]|] eqn:Ef1;
    [|destruct Hrelated'].
  destruct Hrelated' as [Heq Hi1]. cbn [fst] in Heq.
  apply in_app_iff in Hin'. destruct Hin' as [Hin' | [<- | []]].
  - (* an earlier thread: its root entry is another entry *)
    destruct (String.eqb k1 k) eqn:Ek.
    + exfalso. pose proof (Huniq (k1, c1) Hi1 Ek) as Hx. injection Hx as -> ->.
      pose proof (findRootCommentEntry_last (pluginState w) mi tid' Hmi) as Hl1.
      rewrite Ef1 in Hl1. destruct Hl1 as [_ [_ [_ [Hr1 _]]]].
      unfold isRootOf in Hr1. cbn [snd] in Hr1. apply andb_true_iff in Hr1.
      destruct Hr1 as [Hr1 _]. apply eqId_eq in Hr1.
      apply Hnew. rewrite <- Htid, Hr1. exact Hin'.
    + injection Heq as -> ->. exact (Hdone tid' range' k1 c1 Hin' Hr' Ef1).
  - (* the thread of the step *)
    rewrite Ef in Ef1. injection Ef1 as <- <-. rewrite String.eqb_refl in Heq.
    injection Heq as -> ->. rewrite Er in Hr'. injection Hr' as <-. reflexivity.
Qed.

Lemma update_fold (l : list (option string)) :
  forall done w,
    NoDup (done ++ l) -> inv done w -> inv (done ++ l) (fold_left (updateStep state) l w).
Proof.
  induction l as [|tid l IH]; intros done w Hnd Hinv.
  - rewrite app_nil_r. exact Hinv.
  - simpl fold_left.
    replace (done ++ tid :: l) with ((done ++ [tid]) ++ l) in *
      by (rewrite <- app_assoc; reflexivity).
    apply IH; [exact Hnd|]. apply update_step; [exact Hinv|].
    intros Hin. rewrite <- app_assoc in Hnd. apply NoDup_remove_2 in Hnd.
    apply Hnd. apply in_app_iff. left. exact Hin.
Qed.

End UpdateText.

Lemma Forall2_same {A : Type} (P : A -> A -> Prop) (l : list A) :
  (forall x, P x x) -> Forall2 P l l.
Proof. intros H. induction l; constructor; auto. Qed.

Lemma Forall2_In_exists {A B : Type} (P : A -> B -> Prop) (l : list A) (l' : list B) (x : A) :
  Forall2 P l l' -> In x l -> exists y, In y l' /\ P x y.
Proof.
  induction 1 as [|a b l l' Hab Hl IH]; intros Hin; [destruct Hin|].
  destruct Hin as [<- | Hin].
  - exists b. split; [left; reflexivity | exact Hab].
  - destruct (IH Hin) as [y [Hy Hp]]. exists y. split; [right; exact Hy | exact Hp].
Qed.

(** What [updateCommentSelectedText] leaves of the world it starts in. *)
Lemma updateCommentSelectedText_inv state live w m :
  commentsMap (pluginState w) = Some m ->
  NoDup (map fst m) ->
  NoDup live ->
  let w' := updateCommentSelectedText state live w in
  exists m',
    commentsMap (pluginState w') = Some m'
    /\ Forall2 (fun e e' =>
                  fst e' = fst e
                  /\ sameButText (snd e) (snd e')
                  /\ (parentId (snd e) <> None -> e' = e)
                  /\ (~ In (Some (threadId (snd e))) live -> e' = e)) m m'
    /\ view w' = view w
    /\ events w' = events w
    /\ activeThreadId (pluginState w') = activeThreadId (pluginState w)
    /\ initialSyncComplete (pluginState w') = initialSyncComplete (pluginState w)
    /\ forall tid range key c,
         In tid live ->
         findCommentMarkRange state tid = Some range ->
         findRootCommentEntry (pluginState w') tid = Some (key, c) ->
         selectedText c = currentTextOf state range.
Proof.
  intros Hm Hkeys Hlive w'. unfold w'. rewrite updateCommentSelectedText_fold, Hm.
  assert (Hrefl : Forall2 (fun e e' : string * Comment =>
                             fst e' = fst e
                             /\ sameButText (snd e) (snd e')
                             /\ (parentId (snd e) <> None -> e' = e)
                             /\ (~ In (Some (threadId (snd e))) [] -> e' = e)) m m).
  { apply Forall2_same. intros x. repeat split; auto. apply sameButText_refl. }
  destruct (hasCommentMark (schema state)) eqn:Ec; cbn [negb].
  - pose proof (update_fold state w m Hkeys live [] w Hlive) as H. cbv zeta in H.
    apply H. exists m. repeat split; auto. intros tid range key c [].
  - exists m. split; [exact Hm|]. split.
    + eapply Forall2_impl; [|exact Hrefl]. intros e e' [H1 [H2 [H3 H4]]].
      split; [exact H1|]. split; [exact H2|]. split; [exact H3|].
      intros _. apply H4. intros [].
    + repeat split; auto. intros tid range key c _ Hr.
      unfold findCommentMarkRange in Hr. rewrite Ec in Hr. discriminate Hr.
Qed.

(** After [updateCommentSelectedText] over the threads [live], a set,
    the root entry of every thread of [live] whose mark or image is
    found in the document stores the text that is marked now.  The map
    keeps its keys; a record changes in [selectedText] and
    [positionContext] at most, and not at all when it is a reply or
    belongs to a thread outside [live]; nothing is dispatched. *)
Theorem updateCommentSelectedText_tracks_text (state : EditorState)
    (live : list (option string)) (w : World) (m : CommentsMap) :
  commentsMap (pluginState w) = Some m ->
  NoDup (map fst m) ->
  NoDup live ->
  let w' := updateCommentSelectedText state live w in
  exists m',
    commentsMap (pluginState w') = Some m'
    /\ map fst m' = map fst m
    /\ Forall2 (fun e e' =>
                  sameButText (snd e) (snd e')
                  /\ (parentId (snd e) <> None -> snd e' = snd e)
                  /\ (~ In (Some (threadId (snd e))) live -> snd e' = snd e)) m m'
    /\ view w' = view w
    /\ events w' = events w
    /\ forall tid range key c,
         In tid live ->
         findCommentMarkRange state tid = Some range ->
         findRootCommentEntry (pluginState w') tid = Some (key, c) ->
         selectedText c = currentTextOf state range.
Proof.
  intros Hm Hkeys Hlive w'.
  destruct (updateCommentSelectedText_inv state live w m Hm Hkeys Hlive)
    as [m' [H1 [H2 [H3 [H4 [_ [_ H5]]]]]]].
  exists m'. split; [exact H1|]. split.
  { clear - H2. induction H2 as [|e e' l l' He Hl IH]; [reflexivity|].
    simpl. rewrite IH. destruct He as [-> _]. reflexivity. }
  split.
  { eapply Forall2_impl; [|exact H2]. intros e e' [_ [Ha [Hb Hc]]].
    split; [exact Ha|]. split; intros Hx; [rewrite (Hb Hx) | rewrite (Hc Hx)]; reflexivity. }
  auto.
Qed.

(** The marked "quick fox" of the example: the root comment of "t1"
    stored another text and stores "quick fox" after the pass. *)
Lemma updateCommentSelectedText_tracks_text_witness :
  let m := [("t1", rootOf "t1" "quick" 10)] in
  let w' := updateCommentSelectedText markedState [Some "t1"] (worldOf m markedState) in
  findRootCommentEntry (pluginState w') (Some "t1")
  = Some ("t1", setSelected "quick fox" (Some (getPositionContext markedPara 5 14))
                            (rootOf "t1" "quick" 10))
  /\ currentTextOf markedState (mkRange 5 14 false) = "quick fox".
Proof.
  intros m w'.
  assert (Hk : NoDup (map fst m)) by (repeat constructor; intros []).
  assert (Hl : NoDup [Some "t1"]) by (repeat constructor; intros []).
  destruct (updateCommentSelectedText_tracks_text markedState [Some "t1"]
              (worldOf m markedState) m eq_refl Hk Hl)
    as [m' [_ [_ [_ [_ [_ H]]]]]].
  assert (Hf : findRootCommentEntry (pluginState w') (Some "t1")
               = Some ("t1", setSelected "quick fox"
                                (Some (getPositionContext markedPara 5 14))
                                (rootOf "t1" "quick" 10)))
    by (vm_compute; reflexivity).
  assert (Hr : findCommentMarkRange markedState (Some "t1") = Some (mkRange 5 14 false))
    by (vm_compute; reflexivity).
  split; [exact Hf|].
  symmetry.
  exact (H (Some "t1") (mkRange 5 14 false) "t1"
           (setSelected "quick fox" (Some (getPositionContext markedPara 5 14))
                        (rootOf "t1" "quick" 10))
           (or_introl eq_refl) Hr Hf).
Defined.

(* ------------------------------------------------------------------ *)
(** ** The orphan flags after the bookkeeping of [buildDecorations] *)
(* ------------------------------------------------------------------ *)

Lemma rootOrphaned_root comments root :
  rootComment comments = Some root -> rootOrphaned comments = orphaned root.
Proof. intros H. unfold rootOrphaned. rewrite H. reflexivity. Qed.

Lemma rootResolved_root comments root :
  rootComment comments = Some root -> rootResolved comments = resolved root.
Proof. intros H. unfold rootResolved. rewrite H. reflexivity. Qed.

(** One round of the bookkeeping [buildDecorations] starts with, once
    the initial sync is complete and on a map with one entry per key:
    the map keeps its keys, and the root comment of every thread is,
    under its key, not orphaned when the thread has a live mark and
    orphaned when the thread has none and is not resolved; the root
    comment of a resolved thread without live mark keeps its flag. *)
Theorem lifecyclePass_orphan_flags (now : Z) (state : EditorState) (w : World)
    (m : CommentsMap) :
  commentsMap (pluginState w) = Some m ->
  initialSyncComplete (pluginState w) = true ->
  NoDup (map fst m) ->
  let live := getThreadIdsWithMarks state in
  exists m',
    commentsMap (pluginState (lifecyclePass now state w)) = Some m'
    /\ map fst m' = map fst m
    /\ forall tid comments root,
         In (tid, comments) (groupCommentsByThread m) ->
         rootComment comments = Some root ->
         exists key root',
           In (key, root) m /\ In (key, root') m'
           /\ threadId root' = tid /\ parentId root' = None
           /\ resolved root' = resolved root
           /\ (setHas live (Some tid) = true -> orphaned root' = false)
           /\ (setHas live (Some tid) = false -> resolved root = false ->
               orphaned root' = true)
           /\ (setHas live (Some tid) = false -> resolved root = true ->
               orphaned root' = orphaned root).
Proof.
  intros Hm Hs Hkeys live. unfold lifecyclePass. fold live. rewrite Hm.
  set (threads := groupCommentsByThread m).
  set (w1 := restoreOrphanedComments live threads w).
  set (m1 := rewriteRoots (restoredIds live threads) (setOrphaned false None) m).
  assert (Hm1 : commentsMap (pluginState w1) = Some m1)
    by (apply restoreOrphanedComments_map; assumption).
  assert (Hs1 : initialSyncComplete (pluginState w1) = true).
  { destruct (restoreOrphanedComments_rest live threads w) as [_ [_ [_ H]]].
    unfold w1. rewrite H. exact Hs. }
  set (w2 := markOrphanedComments now live threads w1).
  set (m2 := rewriteRoots (newlyOrphanedIds live threads) (setOrphaned true (Some now)) m1).
  assert (Hm2 : commentsMap (pluginState w2) = Some m2)
    by (apply markOrphanedComments_map; assumption).
  assert (Hk2 : map fst m2 = map fst m)
    by (unfold m2, m1; rewrite !rewriteRoots_keys; reflexivity).
  assert (Hnd2 : NoDup (map fst m2)) by (rewrite Hk2; exact Hkeys).
  destruct (getThreadIdsWithMarks_char state) as [Hlive _]. fold live in Hlive.
  destruct (updateCommentSelectedText_inv state live w2 m2 Hm2 Hnd2 Hlive)
    as [m3 [Hm3 [Hrel _]]].
  exists m3. split; [exact Hm3|]. split.
  { rewrite <- Hk2. clear - Hrel. induction Hrel as [|e e' l l' He Hl IH]; [reflexivity|].
    simpl. rewrite IH. destruct He as [-> _]. reflexivity. }
  intros tid comments root Hin Hroot.
  destruct (rootComment_in_map m tid comments root Hin Hroot) as [[key Hkey] [Ht Hp]].
  pose proof (rootOrphaned_root _ _ Hroot) as Ho.
  pose proof (rootResolved_root _ _ Hroot) as Hr.
  (* the record after restoration and orphan detection *)
  assert (H2 : exists r2,
             In (key, r2) m2 /\ threadId r2 = tid /\ parentId r2 = None
             /\ resolved r2 = resolved root
             /\ (setHas live (Some tid) = true -> orphaned r2 = false)
             /\ (setHas live (Some tid) = false -> resolved root = false ->
                 orphaned r2 = true)
             /\ (setHas live (Some tid) = false -> resolved root = true ->
                 orphaned r2 = orphaned root)).
  { destruct (setHas live (Some tid)) eqn:El.
    - assert (Hn : ~ In tid (newlyOrphanedIds live threads)).
      { intros Hn. apply newlyOrphanedIds_In in Hn. destruct Hn as [c' [_ [Hl _]]]. congruence. }
      destruct (orphaned root) eqn:Eo.
      + exists (setOrphaned false None root). split.
        * apply rewriteRoots_miss; [|cbn [threadId setOrphaned]; rewrite Ht; exact Hn].
          apply rewriteRoots_hit; [exact Hkey | | exact Hp].
          rewrite Ht. apply restoredIds_In. exists comments. rewrite Ho. auto.
        * repeat split; auto; discriminate.
      + exists root. split.
        * apply rewriteRoots_miss; [|rewrite Ht; exact Hn].
          apply rewriteRoots_miss; [exact Hkey|]. rewrite Ht. intros Hx.
          apply restoredIds_In in Hx. destruct Hx as [c' [Hin' [Ho' _]]].
          rewrite (thread_unique m tid c' comments Hin' Hin) in Ho'. congruence.
        * repeat split; auto; discriminate.
    - assert (Hn : ~ In tid (restoredIds live threads)).
      { intros Hn. apply restoredIds_In in Hn. destruct Hn as [c' [_ [_ Hl]]]. congruence. }
      assert (H1 : In (key, root) m1)
        by (apply rewriteRoots_miss; [exact Hkey | rewrite Ht; exact Hn]).
      destruct (resolved root) eqn:Er, (orphaned root) eqn:Eo.
      + exists root. split.
        * apply rewriteRoots_miss; [exact H1|]. rewrite Ht. intros Hx.
          apply newlyOrphanedIds_In in Hx. destruct Hx as [c' [Hin' [_ [Hr' _]]]].
          rewrite (thread_unique m tid c' comments Hin' Hin) in Hr'. congruence.
        * repeat split; auto; discriminate.
      + exists root. split.
        * apply rewriteRoots_miss; [exact H1|]. rewrite Ht. intros Hx.
          apply newlyOrphanedIds_In in Hx. destruct Hx as [c' [Hin' [_ [Hr' _]]]].
          rewrite (thread_unique m tid c' comments Hin' Hin) in Hr'. congruence.
        * repeat split; auto; discriminate.
      + exists root. split.
        * apply rewriteRoots_miss; [exact H1|]. rewrite Ht. intros Hx.
          apply newlyOrphanedIds_In in Hx. destruct Hx as [c' [Hin' [_ [_ Ho']]]].
          rewrite (thread_unique m tid c' comments Hin' Hin) in Ho'. congruence.
        * repeat split; auto; discriminate.
      + exists (setOrphaned true (Some now) root). split.
        * apply rewriteRoots_hit; [exact H1 | | exact Hp].
          rewrite Ht. apply newlyOrphanedIds_In. exists comments.
          rewrite Ho, Hr. auto.
        * repeat split; auto; discriminate. }
  destruct H2 as [r2 [Hin2 [Ht2 [Hp2 [Hr2 [Ha [Hb Hc]]]]]]].
  destruct (Forall2_In_exists _ _ _ _ Hrel Hin2) as [[k3 r3] [Hin3 [Hk3 [Hsame _]]]].
  cbn [fst snd] in Hk3, Hsame. subst k3.
  destruct (sameButText_fields _ _ Hsame) as [F1 [F2 [F3 [F4 _]]]].
  exists key, r3. split; [exact Hkey|]. split; [exact Hin3|].
  rewrite F1, F2, F3, F4. auto 10.
Qed.

(** The three threads of the example after one round at time 100: the
    unresolved "t2" has lost its text and is orphaned. *)
Lemma lifecyclePass_orphan_flags_witness :
  exists m',
    commentsMap (pluginState (lifecyclePass 100 markedState (worldOf threeThreads markedState)))
    = Some m'
    /\ map fst m' = ["t1"; "t2"; "r2"; "t3"].
Proof.
  assert (Hk : NoDup (map fst threeThreads)).
  { repeat constructor; simpl; intros H;
      repeat (destruct H as [H | H]; [discriminate H|]); exact H. }
  destruct (lifecyclePass_orphan_flags 100 markedState (worldOf threeThreads markedState)
              threeThreads eq_refl eq_refl Hk) as [m' [H1 [H2 _]]].
  exists m'. split; [exact H1 | exact H2].
Defined.

(* ------------------------------------------------------------------ *)
(** ** A second run of the orphan detection *)
(* ------------------------------------------------------------------ *)

(** The three threads of the example have a root comment each: after the
    run at time 100 the run at time 200 changes nothing. *)
Lemma markOrphanedComments_twice_witness :
  let live := getThreadIdsWithMarks markedState in
  let w1 := markOrphanedComments 100 live (groupCommentsByThread threeThreads)
              (worldOf threeThreads markedState) in
  exists m1,
    commentsMap (pluginState w1) = Some m1
    /\ markOrphanedComments 200 live (groupCommentsByThread m1) w1 = w1.
Proof.
  apply (markOrphanedComments_twice 100 200 (getThreadIdsWithMarks markedState)
           (worldOf threeThreads markedState) threeThreads eq_refl eq_refl).
  intros tid Hin. vm_compute in Hin.
  destruct Hin as [<- | [<- | [<- | []]]].
  - exists (rootOf "t1" "quick fox" 10). split; [vm_compute; auto | reflexivity].
  - exists (rootOf "t2" "lazy dog" 11). split; [vm_compute; auto | reflexivity].
  - exists (mkComment "t3" "t3" None "root" 13 true false None "jumps" None).
    split; [vm_compute; auto | reflexivity].
Defined.

(* ------------------------------------------------------------------ *)
(** ** What a paste keeps *)
(* ------------------------------------------------------------------ *)

Lemma fromArray_text (l : list Node) :
  concatText nodeText (fromArray l) = concatText nodeText l.
Proof.
  induction l as [|n l IH]; [reflexivity|].
  simpl fromArray. destruct n as [t ms | ty a ms | ty a ms c];
    try (simpl; rewrite IH; reflexivity).
  destruct (fromArray l) as [|[t' ms' | ty' a' ms' | ty' a' ms' c'] rest] eqn:E;
    try (simpl; rewrite <- IH; reflexivity).
  destruct (sameMarks ms ms'); [|simpl; rewrite <- IH; reflexivity].
  simpl. rewrite <- IH. simpl. rewrite append_assoc. reflexivity.
Qed.

Lemma fromArray_size (l : list Node) : fragSize (fromArray l) = fragSize l.
Proof.
  induction l as [|n l IH]; [reflexivity|].
  simpl fromArray. destruct n as [t ms | ty a ms | ty a ms c];
    try (rewrite !fragSize_cons, IH; reflexivity).
  destruct (fromArray l) as [|[t' ms' | ty' a' ms' | ty' a' ms' c'] rest] eqn:E;
    try (rewrite !fragSize_cons, <- IH; reflexivity).
  destruct (sameMarks ms ms'); [|rewrite !fragSize_cons, <- IH; reflexivity].
  rewrite !fragSize_cons, <- IH, fragSize_cons. cbn [nodeSize].
  unfold JS.length. rewrite append_length. lia.
Qed.

Lemma stripNode_keeps (b : bool) (n : Node) :
  allNodes plainImage n = true ->
  nodeText (stripNode b n) = nodeText n /\ nodeSize (stripNode b n) = nodeSize n.
Proof.
  induction n as [t ms | ty a ms | ty a ms c IH] using Node_induction; intros Hp.
  - simpl. destruct b; split; reflexivity.
  - simpl stripNode. destruct (_ && _)%bool; split; reflexivity.
  - simpl stripNode.
    change (allNodes plainImage (Inner ty a ms c))
      with (plainImage (Inner ty a ms c) && forallb (allNodes plainImage) c)%bool in Hp.
    apply andb_true_iff in Hp. destruct Hp as [Hp Hc].
    destruct (isImage (Inner ty a ms c) && truthyId (commentThreadId a))%bool eqn:E.
    + apply andb_true_iff in E. destruct E as [E _].
      destruct c as [|x c]; [split; reflexivity|].
      unfold plainImage in Hp. rewrite E in Hp. discriminate Hp.
    + assert (H : concatText nodeText (map (stripNode b) c) = concatText nodeText c
                  /\ fragSize (map (stripNode b) c) = fragSize c).
      { clear Hp E. induction IH as [|x c Hx _ IHc]; [split; reflexivity|].
        simpl in Hc. apply andb_true_iff in Hc. destruct Hc as [Hx' Hc'].
        destruct (Hx Hx') as [H1 H2]. destruct (IHc Hc') as [H3 H4].
        split.
        - simpl. rewrite H1. f_equal. exact H3.
        - change (map (stripNode b) (x :: c)) with (stripNode b x :: map (stripNode b) c).
          rewrite !fragSize_cons, H2, H4. reflexivity. }
      destruct H as [H1 H2]. split.
      * change (nodeText (Inner ty a ms (fromArray (map (stripNode b) c))))
          with (concatText nodeText (fromArray (map (stripNode b) c))).
        rewrite fromArray_text. exact H1.
      * rewrite !nodeSize_Inner, fromArray_size, H2. reflexivity.
Qed.

(** What [transformPasted] keeps of a slice whose images hold no
    content: the open depths, the text and the size.  Where the schema
    has the comment mark, no text node of the result carries a comment
    mark and no image a [commentThreadId]. *)
Theorem transformPasted_keeps_text (slice : Slice) (state : EditorState) :
  forallb (allNodes plainImage) (sliceContent slice) = true ->
  let pasted := transformPasted slice state in
  openStart pasted = openStart slice
  /\ openEnd pasted = openEnd slice
  /\ textContent (sliceContent pasted) = textContent (sliceContent slice)
  /\ fragSize (sliceContent pasted) = fragSize (sliceContent slice)
  /\ (hasCommentMark (schema state) = true ->
      forallb (allNodes unannotated) (sliceContent pasted) = true).
Proof.
  intros Hp pasted. split; [reflexivity|]. split; [reflexivity|].
  unfold pasted, transformPasted. cbn [sliceContent].
  unfold stripCommentMarksFromFragment, textContent.
  rewrite fromArray_text, fromArray_size.
  set (b := hasCommentMark (schema state)).
  assert (H : concatText nodeText (map (stripNode b) (sliceContent slice))
              = concatText nodeText (sliceContent slice)
              /\ fragSize (map (stripNode b) (sliceContent slice))
                 = fragSize (sliceContent slice)).
  { induction (sliceContent slice) as [|x c IHc]; [split; reflexivity|].
    simpl in Hp. apply andb_true_iff in Hp. destruct Hp as [Hx Hc].
    destruct (stripNode_keeps b x Hx) as [H1 H2]. destruct (IHc Hc) as [H3 H4].
    split.
    - simpl. rewrite H1. f_equal. exact H3.
    - change (map (stripNode b) (x :: c)) with (stripNode b x :: map (stripNode b) c).
      rewrite !fragSize_cons, H2, H4. reflexivity. }
  destruct H as [H1 H2]. split; [exact H1|]. split; [exact H2|].
  intros Hc. rewrite Hc.
  apply fromArray_allNodes; [apply unannotated_text|].
  apply forallb_forall. intros x Hx. apply in_map_iff in Hx.
  destruct Hx as [y [<- Hy]]. apply stripNode_unannotated.
Qed.

(** The copied sentence with its image: the pasted slice reads the same
    and is as long. *)
Lemma transformPasted_keeps_text_witness :
  textContent (sliceContent (transformPasted (mkSlice copiedSlice 0 0) unmarkedState))
  = textContent copiedSlice
  /\ fragSize (sliceContent (transformPasted (mkSlice copiedSlice 0 0) unmarkedState))
     = fragSize copiedSlice.
Proof.
  destruct (transformPasted_keeps_text (mkSlice copiedSlice 0 0) unmarkedState eq_refl)
    as [_ [_ [H1 [H2 _]]]].
  split; [exact H1 | exact H2].
Defined.

(* ------------------------------------------------------------------ *)
(** ** The transaction the plugin appends *)
(* ------------------------------------------------------------------ *)

Section Appended.
Variable newState : EditorState.

(** What every transaction of the maintainer keeps of the new state:
    the tokens of the document, position by position, hence its text,
    and the stored marks. *)
Let kept (t : Transaction) : Prop :=
  fragTokens (trDoc t) = fragTokens (doc newState)
  /\ textContent (trDoc t) = textContent (doc newState)
  /\ trStoredMarks t = None.

Lemma kept_orNew (fixTr : option Transaction) :
  (forall t, fixTr = Some t -> kept t) -> kept (orNew fixTr newState).
Proof.
  intros H. destruct fixTr as [t|]; [apply H; reflexivity|].
  repeat split.
Qed.

Lemma kept_removeMark t from to m : kept t -> kept (removeMark t from to m).
Proof.
  intros [H1 [H2 H3]]. unfold kept, removeMark. cbn [trDoc trStoredMarks].
  rewrite mapMarks_tokens, mapMarks_text. auto.
Qed.

Lemma kept_addMark excl t from to m : kept t -> kept (addMark excl t from to m).
Proof.
  intros [H1 [H2 H3]]. unfold kept, addMark. cbn [trDoc trStoredMarks].
  rewrite mapMarks_tokens, mapMarks_text. auto.
Qed.

Lemma removeGhostMarks_kept valid t :
  removeGhostMarks valid newState = Some t -> kept t.
Proof.
  rewrite removeGhostMarks_flat.
  enough (H : forall l acc,
             (forall t, acc = Some t -> kept t) ->
             forall t, fold_left (ghostStep valid newState) l acc = Some t -> kept t).
  { apply (H _ None). intros t0 Hn. discriminate Hn. }
  induction l as [|x l IH]; intros acc Hacc t0; [apply Hacc|].
  rewrite fold_left_cons. apply IH. intros t' Ht'.
  unfold ghostStep in Ht'. destruct (isGhost valid (snd x)); [|apply Hacc; exact Ht'].
  injection Ht' as <-. apply kept_removeMark. apply kept_orNew. exact Hacc.
Qed.

Lemma propagateMarks_kept valid tr oldState fixTr :
  (forall t, fixTr = Some t -> kept t) ->
  forall t, propagateMarks valid tr oldState newState fixTr = Some t -> kept t.
Proof.
  unfold propagateMarks. generalize (List.concat (stepMaps tr)) as l.
  intros l. revert fixTr. induction l as [|[[[oldStart oldEnd] newStart] newEnd] l IH];
    intros fixTr Hf; [exact Hf|].
  rewrite fold_left_cons. apply IH.
  destruct (newStart <? newEnd); [|exact Hf].
  destruct (markToApply valid oldState oldStart oldEnd) as [mark|]; [|exact Hf].
  intros t Ht. injection Ht as <-. apply kept_addMark. apply kept_orNew. exact Hf.
Qed.

Lemma maintainCommentMarks_kept ps tr oldState t :
  maintainCommentMarks ps tr oldState newState = Some t ->
  kept t /\ docChanged tr = true /\ hasCommentMark (schema newState) = true.
Proof.
  unfold maintainCommentMarks.
  destruct (docChanged tr); [|discriminate].
  destruct (hasCommentMark (schema newState)); [|discriminate]. cbn [negb].
  intros H. split; [|split; reflexivity].
  destruct (pasteMeta tr); [exact (removeGhostMarks_kept _ _ H)|].
  apply (propagateMarks_kept _ _ _ _ (removeGhostMarks_kept _) _ H).
Qed.

Lemma appendTransaction_found ps transactions oldState t :
  appendTransaction ps transactions oldState newState = Some t ->
  steps t <> []
  /\ exists tr, In tr transactions /\ maintainCommentMarks ps tr oldState newState = Some t.
Proof.
  unfold appendTransaction. destruct (negb (existsb docChanged transactions)); [discriminate|].
  enough (H : forall l acc,
             (forall t, acc = Some t ->
                steps t <> []
                /\ exists tr, In tr transactions
                              /\ maintainCommentMarks ps tr oldState newState = Some t) ->
             (forall x, In x l -> In x transactions) ->
             forall t,
               fold_left
                 (fun (found : option Transaction) (tr : EditorTr) =>
                    match found with
                    | Some _ => found
                    | None =>
                        match maintainCommentMarks ps tr oldState newState with
                        | Some fixTr =>
                            match steps fixTr with
                            | [] => None
                            | _ :: _ => Some fixTr
                            end
                        | None => None
                        end
                    end) l acc = Some t ->
               steps t <> []
               /\ exists tr, In tr transactions
                             /\ maintainCommentMarks ps tr oldState newState = Some t).
  { apply (H transactions None); [intros t0 Hn; discriminate Hn | auto]. }
  induction l as [|x l IH]; intros acc Hacc Hsub t0; [apply Hacc|].
  rewrite fold_left_cons. apply IH; [|intros y Hy; apply Hsub; right; exact Hy].
  intros t' Ht'. destruct acc as [a|]; [apply Hacc; exact Ht'|].
  destruct (maintainCommentMarks ps x oldState newState) as [fixTr|] eqn:Em; [|discriminate].
  destruct (steps fixTr) as [|s ss] eqn:Es; [discriminate|].
  injection Ht' as <-. split; [rewrite Es; discriminate|].
  exists x. split; [apply Hsub; left; reflexivity | exact Em].
Qed.

End Appended.

(** A transaction the plugin appends has at least one step, all its
    steps add or remove marks, and its document has the tokens of the
    new state at the same positions: the same text and the same size;
    it sets no stored marks.  Nothing is appended when no transaction
    changed the document or when the schema has no comment mark. *)
Theorem appendTransaction_only_marks (ps : PluginState) (transactions : list EditorTr)
    (oldState newState : EditorState) :
  (forall fixTr,
     appendTransaction ps transactions oldState newState = Some fixTr ->
     steps fixTr <> []
     /\ (forall step, In step (steps fixTr) -> markStep step)
     /\ fragTokens (trDoc fixTr) = fragTokens (doc newState)
     /\ textContent (trDoc fixTr) = textContent (doc newState)
     /\ fragSize (trDoc fixTr) = fragSize (doc newState)
     /\ trStoredMarks fixTr = None)
  /\ (existsb docChanged transactions = false ->
      appendTransaction ps transactions oldState newState = None)
  /\ (hasCommentMark (schema newState) = false ->
      appendTransaction ps transactions oldState newState = None).
Proof.
  split; [|split].
  - intros fixTr H.
    destruct (appendTransaction_found newState ps transactions oldState fixTr H)
      as [Hs [tr [_ Hm]]].
    destruct (maintainCommentMarks_kept newState ps tr oldState fixTr Hm)
      as [[H1 [H2 H3]] _].
    split; [exact Hs|]. split; [intros step; apply (maintainCommentMarks_steps _ _ _ _ _ _ Hm)|].
    split; [exact H1|]. split; [exact H2|]. split; [|exact H3].
    rewrite <- !fragTokens_length, H1. reflexivity.
  - intros H. unfold appendTransaction. rewrite H. reflexivity.
  - intros H. destruct (appendTransaction ps transactions oldState newState) as [t|] eqn:E;
      [|reflexivity].
    destruct (appendTransaction_found newState ps transactions oldState t E) as [_ [tr [_ Hm]]].
    destruct (maintainCommentMarks_kept newState ps tr oldState t Hm) as [_ [_ Hc]].
    congruence.
Qed.

(* ------------------------------------------------------------------ *)
(** ** The recovery of missing marks *)
(* ------------------------------------------------------------------ *)



(* ------------------------------------------------------------------ *)
(** ** The panel: toggling a reaction *)
(* ------------------------------------------------------------------ *)

Section PanelReactions.
Import Helpers Panel.

Lemma getReacted_set_same (m : ReactedMap) (key : string) (c : Reacted) :
  getReacted (setReacted m key c) key = Some c.
Proof.
  induction m as [|[k v] m IH]; simpl; [rewrite String.eqb_refl; reflexivity|].
  destruct (String.eqb k key) eqn:E; simpl; rewrite E; [reflexivity | exact IH].
Qed.

Lemma getReacted_set_other (m : ReactedMap) (key key' : string) (c : Reacted) :
  key' <> key -> getReacted (setReacted m key c) key' = getReacted m key'.
Proof.
  intros Hd. induction m as [|[k v] m IH]; simpl.
  - replace (String.eqb key key') with false; [reflexivity|].
    symmetry. apply eqb_false_iff. congruence.
  - destruct (String.eqb k key) eqn:E; simpl.
    + apply String.eqb_eq in E. subst k.
      replace (String.eqb key key') with false; [reflexivity|].
      symmetry. apply eqb_false_iff. congruence.
    + destruct (String.eqb k key'); [reflexivity | exact IH].
Qed.

(** The comment [toggleReaction] stores for a signed-in user. *)
Lemma toggled_has (c : Reacted) (e : string) (u : User) (e' uid : string) :
  hasUserReacted
    (if hasUserReacted c e (id u) then removeReaction c e (id u) else addReaction c e u)
    e' uid
  = if (String.eqb e' e && String.eqb uid (id u))%bool
    then negb (hasUserReacted c e (id u))
    else hasUserReacted c e' uid.
Proof.
  destruct (hasUserReacted c e (id u)) eqn:E.
  - rewrite removeReaction_has. destruct (_ && _)%bool; reflexivity.
  - rewrite addReaction_has. destruct (_ && _)%bool; reflexivity.
Qed.

(** [toggleReaction] does nothing without a user or for an anonymous
    one.  For a signed-in user it stores, under the id of the comment,
    a comment in which the user's reaction with the emoji is flipped and
    every other reaction is as before, and leaves the other entries of
    the map alone; toggled once more, the stored comment shows the
    reactions the comment showed at first. *)
Theorem toggleReaction_flips (currentUser : option User) (m : ReactedMap) (c : Reacted)
    (e : string) :
  (isAnonymousUser currentUser = true -> toggleReaction currentUser m c e = m)
  /\ (forall u,
        currentUser = Some u -> isAnonymousUser currentUser = false ->
        let key := CommentUtils.id (comment c) in
        exists updated,
          getReacted (toggleReaction currentUser m c e) key = Some updated
          /\ comment updated = comment c
          /\ hasUserReacted updated e (id u) = negb (hasUserReacted c e (id u))
          /\ (forall e' uid, e' <> e \/ uid <> id u ->
                hasUserReacted updated e' uid = hasUserReacted c e' uid)
          /\ (forall key', key' <> key ->
                getReacted (toggleReaction currentUser m c e) key' = getReacted m key')
          /\ exists again,
               getReacted
                 (toggleReaction currentUser (toggleReaction currentUser m c e) updated e) key
               = Some again
               /\ forall e' uid, hasUserReacted again e' uid = hasUserReacted c e' uid).
Proof.
  split.
  - intros Ha. unfold toggleReaction. rewrite Ha. destruct currentUser; reflexivity.
  - intros u -> Ha key. unfold toggleReaction. rewrite Ha.
    set (updated := if hasUserReacted c e (id u) then removeReaction c e (id u)
                    else addReaction c e u).
    assert (Hc : comment updated = comment c)
      by (unfold updated; destruct (hasUserReacted c e (id u)); reflexivity).
    exists updated. fold key. split; [apply getReacted_set_same|].
    split; [exact Hc|].
    split; [unfold updated; rewrite toggled_has, !String.eqb_refl; reflexivity|].
    split.
    { intros e' uid Hd. unfold updated. rewrite toggled_has.
      replace (String.eqb e' e && String.eqb uid (id u))%bool with false; [reflexivity|].
      symmetry. apply andb_false_iff.
      destruct Hd as [Hd | Hd]; [left | right]; apply eqb_false_iff; exact Hd. }
    split; [intros key' Hk; apply getReacted_set_other; exact Hk|].
    rewrite Hc. fold key.
    eexists. split; [apply getReacted_set_same|].
    intros e' uid. rewrite toggled_has. unfold updated at 2. rewrite toggled_has.
    unfold updated. rewrite toggled_has, !String.eqb_refl. cbn [andb].
    destruct (String.eqb e' e && String.eqb uid (id u))%bool eqn:E; [|reflexivity].
    apply andb_true_iff in E. destruct E as [E1 E2].
    apply String.eqb_eq in E1, E2. subst. apply negb_involutive.
Qed.

End PanelReactions.

(* ------------------------------------------------------------------ *)
(** ** The panel: the sections of the thread list *)
(* ------------------------------------------------------------------ *)

Section PanelSections.
Import Panel.

Let isActive (e : Entry) : bool :=
  (negb (resolved (entryRoot e)) && negb (orphaned (entryRoot e)))%bool.
Let isOrphaned (e : Entry) : bool :=
  (negb (resolved (entryRoot e)) && orphaned (entryRoot e))%bool.
Let isResolved (e : Entry) : bool := resolved (entryRoot e).

(** The entry of a thread. *)
Let entryOf (thread : string * list Comment) (e : Entry) : Prop :=
  Helpers.getRootComment (snd thread) = Some (entryRoot e)
  /\ entryThread e = fst thread /\ entryComments e = snd thread.

Lemma insertNewest_perm (e : Entry) (l : list Entry) :
  Permutation (insertNewest e l) (e :: l).
Proof.
  induction l as [|x l IH]; simpl; [apply Permutation_refl|].
  destruct (_ <=? _); [apply Permutation_refl|].
  apply perm_trans with (x :: e :: l); [apply perm_skip; exact IH | apply perm_swap].
Qed.

Lemma sortNewest_perm (l : list Entry) : Permutation (sortNewest l) l.
Proof.
  unfold sortNewest. induction l as [|x l IH]; simpl; [apply perm_nil|].
  apply perm_trans with (x :: fold_right insertNewest [] l);
    [apply insertNewest_perm | apply perm_skip; exact IH].
Qed.

Lemma insertNewest_sorted (e : Entry) (l : list Entry) :
  ForallOrdPairs (fun a b => createdAt (entryRoot b) <= createdAt (entryRoot a)) l ->
  ForallOrdPairs (fun a b => createdAt (entryRoot b) <= createdAt (entryRoot a))
                 (insertNewest e l).
Proof.
  induction 1 as [|x l Hx Hl IH]; simpl.
  - constructor; constructor.
  - destruct (createdAt (entryRoot x) <=? createdAt (entryRoot e)) eqn:E.
    + apply Z.leb_le in E. constructor; [|constructor; assumption].
      constructor; [exact E|]. eapply Forall_impl; [|exact Hx]. intros y Hy. simpl in *. lia.
    + apply Z.leb_gt in E. constructor; [|exact IH].
      apply Forall_forall. intros y Hy.
      apply (Permutation_in _ (insertNewest_perm e l)) in Hy.
      destruct Hy as [<- | Hy]; [lia|]. rewrite Forall_forall in Hx. apply Hx. exact Hy.
Qed.

Lemma sortNewest_sorted (l : list Entry) :
  ForallOrdPairs (fun a b => createdAt (entryRoot b) <= createdAt (entryRoot a))
                 (sortNewest l).
Proof.
  unfold sortNewest. induction l as [|x l IH]; simpl; [constructor|].
  apply insertNewest_sorted. exact IH.
Qed.

(** The loop of [categorizeThreads] over threads that have a root
    comment each. *)
Lemma categorize_loop (threads : list (string * list Comment)) (es : list Entry) :
  Forall2 entryOf threads es ->
  forall a o r,
    fold_left
      (fun (acc : option (list Entry * list Entry * list Entry))
           (thread : string * list Comment) =>
         match acc with
         | None => None
         | Some (active, orphaned, resolved) =>
             match Helpers.getRootComment (snd thread) with
             | None => None
             | Some root =>
                 if CommentUtils.resolved root
                 then Some (active, orphaned,
                            resolved ++ [mkEntry (fst thread) (snd thread) root])
                 else if CommentUtils.orphaned root
                      then Some (active,
                                 orphaned ++ [mkEntry (fst thread) (snd thread) root],
                                 resolved)
                      else Some (active ++ [mkEntry (fst thread) (snd thread) root],
                                 orphaned, resolved)
             end
         end)
      threads (Some (a, o, r))
    = Some (a ++ filter isActive es, o ++ filter isOrphaned es, r ++ filter isResolved es).
Proof.
  induction 1 as [|t e threads es He Hl IH]; intros a o r.
  - simpl. rewrite !app_nil_r. reflexivity.
  - simpl fold_left. destruct He as [Hroot [Ht Hc]]. rewrite Hroot.
    assert (Ee : mkEntry (fst t) (snd t) (entryRoot e) = e)
      by (destruct e; simpl in *; subst; reflexivity).
    rewrite Ee. unfold isActive, isOrphaned, isResolved. cbn [filter].
    destruct (resolved (entryRoot e)) eqn:Er; cbn [negb andb].
    + rewrite IH. unfold isActive, isOrphaned, isResolved.
      rewrite <- app_assoc. reflexivity.
    + destruct (orphaned (entryRoot e)) eqn:Eo; cbn [negb andb]; rewrite IH;
        unfold isActive, isOrphaned, isResolved; rewrite <- app_assoc; reflexivity.
Qed.

Lemma openCount_filter (threads : list (string * list Comment)) (es : list Entry) :
  Forall2 entryOf threads es -> openCount threads = List.length (filter isActive es).
Proof.
  unfold openCount. intros H.
  enough (Hx : forall n,
            fold_left
              (fun (count : nat) (thread : string * list Comment) =>
                 match Helpers.getRootComment (snd thread) with
                 | Some root => if (negb (resolved root) && negb (orphaned root))%bool
                                then S count else count
                 | None => count
                 end) threads n
            = (n + List.length (filter isActive es))%nat) by apply (Hx O).
  induction H as [|t e threads es He Hl IH]; intros n; [simpl; lia|].
  simpl fold_left. destruct He as [Hroot _]. rewrite Hroot, IH.
  cbn [filter]. unfold isActive at 2.
  destruct (negb (resolved (entryRoot e)) && negb (orphaned (entryRoot e)))%bool;
    simpl List.length; lia.
Qed.

Lemma three_sections (es : list Entry) :
  Permutation (filter isActive es ++ filter isOrphaned es ++ filter isResolved es) es.
Proof.
  induction es as [|e es IH]; [apply perm_nil|].
  cbn [filter]. unfold isActive at 1, isOrphaned at 1, isResolved at 1.
  destruct (resolved (entryRoot e)); cbn [negb andb].
  - apply Permutation_sym.
    apply perm_trans with (e :: filter isActive es ++ filter isOrphaned es ++ filter isResolved es);
      [apply perm_skip; apply Permutation_sym; exact IH|].
    rewrite !app_assoc. apply Permutation_middle.
  - destruct (orphaned (entryRoot e)); cbn [negb andb].
    + apply Permutation_sym.
      apply perm_trans
        with (e :: filter isActive es ++ filter isOrphaned es ++ filter isResolved es);
        [apply perm_skip; apply Permutation_sym; exact IH|].
      apply Permutation_middle.
    + simpl. apply perm_skip. exact IH.
Qed.

Lemma threads_entries (m : CommentsMap) :
  exists es, Forall2 entryOf (groupCommentsByThread m) es.
Proof.
  assert (H : forall t, In t (groupCommentsByThread m) -> snd t <> []).
  { intros [tid comments] Hin. cbn [snd]. apply groupCommentsByThread_In in Hin.
    destruct Hin as [Hk ->]. apply threadKeys_In in Hk.
    destruct Hk as [_ [key [c [Hc Htc]]]]. intros He.
    assert (Hx : In c (sortByCreatedAt (commentsOf m tid))).
    { apply sortByCreatedAt_In. apply commentsOf_In. split; [exists key; exact Hc | exact Htc]. }
    rewrite He in Hx. destruct Hx. }
  induction (groupCommentsByThread m) as [|t l IH]; [exists []; constructor|].
  destruct IH as [es Hes]; [intros x Hx; apply H; right; exact Hx|].
  specialize (H t (or_introl eq_refl)).
  destruct (Helpers.getRootComment (snd t)) as [root|] eqn:Er.
  - exists (mkEntry (fst t) (snd t) root :: es). constructor; [|exact Hes].
    repeat split. exact Er.
  - exfalso. unfold Helpers.getRootComment in Er.
    destruct (find _ (snd t)); [discriminate|].
    destruct (snd t); [contradiction | discriminate].
Qed.

(** On the threads of a comments map [categorizeThreads] never fails.
    Every thread is in exactly one section, with its root comment as
    [getRootComment] gives it: resolved threads under resolved, the
    others under orphaned when the root comment is orphaned and under
    active otherwise.  Every section is sorted by the time of the root
    comment, newest first, and the active section has as many threads
    as [updateThreads] counts. *)
Theorem categorizeThreads_sections (m : CommentsMap) :
  exists cats,
    categorizeThreads (groupCommentsByThread m) = Some cats
    /\ Permutation
         (map (fun e => (entryThread e, entryComments e))
              (active cats ++ orphanedThreads cats ++ resolvedThreads cats))
         (groupCommentsByThread m)
    /\ (forall e, In e (active cats ++ orphanedThreads cats ++ resolvedThreads cats) ->
          Helpers.getRootComment (entryComments e) = Some (entryRoot e))
    /\ (forall e, In e (active cats) ->
          resolved (entryRoot e) = false /\ orphaned (entryRoot e) = false)
    /\ (forall e, In e (orphanedThreads cats) ->
          resolved (entryRoot e) = false /\ orphaned (entryRoot e) = true)
    /\ (forall e, In e (resolvedThreads cats) -> resolved (entryRoot e) = true)
    /\ ForallOrdPairs (fun a b => createdAt (entryRoot b) <= createdAt (entryRoot a))
                      (active cats)
    /\ ForallOrdPairs (fun a b => createdAt (entryRoot b) <= createdAt (entryRoot a))
                      (orphanedThreads cats)
    /\ ForallOrdPairs (fun a b => createdAt (entryRoot b) <= createdAt (entryRoot a))
                      (resolvedThreads cats)
    /\ List.length (active cats) = openCount (groupCommentsByThread m).
Proof.
  destruct (threads_entries m) as [es Hes].
  exists (mkCategories (sortNewest (filter isActive es)) (sortNewest (filter isOrphaned es))
                       (sortNewest (filter isResolved es))).
  cbn [active orphanedThreads resolvedThreads].
  assert (Hperm : Permutation
                    (sortNewest (filter isActive es) ++ sortNewest (filter isOrphaned es)
                     ++ sortNewest (filter isResolved es)) es).
  { apply perm_trans with (filter isActive es ++ filter isOrphaned es ++ filter isResolved es);
      [|apply three_sections].
    repeat apply Permutation_app; apply sortNewest_perm. }
  split.
  { unfold categorizeThreads. cbv zeta. rewrite (categorize_loop _ _ Hes [] [] []).
    reflexivity. }
  split.
  { apply perm_trans with (map (fun e => (entryThread e, entryComments e)) es);
      [apply Permutation_map; exact Hperm|].
    replace (map (fun e => (entryThread e, entryComments e)) es)
      with (groupCommentsByThread m); [apply Permutation_refl|].
    clear Hperm. induction Hes as [|t e l es' He Hl IH]; [reflexivity|].
    simpl. rewrite <- IH. destruct He as [_ [-> ->]]. destruct t; reflexivity. }
  split.
  { intros e He. apply (Permutation_in _ Hperm) in He.
    clear Hperm. induction Hes as [|t e' l es' He' Hl IH]; [destruct He|].
    destruct He as [<- | He]; [|apply IH; exact He].
    destruct He' as [Hr [_ ->]]. exact Hr. }
  split.
  { intros e He. apply (Permutation_in _ (sortNewest_perm _)) in He.
    apply filter_In in He. destruct He as [_ He]. unfold isActive in He.
    apply andb_true_iff in He. destruct He as [H1 H2].
    split; [destruct (resolved (entryRoot e)) | destruct (orphaned (entryRoot e))];
      try reflexivity; discriminate. }
  split.
  { intros e He. apply (Permutation_in _ (sortNewest_perm _)) in He.
    apply filter_In in He. destruct He as [_ He]. unfold isOrphaned in He.
    apply andb_true_iff in He. destruct He as [H1 H2].
    split; [destruct (resolved (entryRoot e)); [discriminate | reflexivity] | exact H2]. }
  split.
  { intros e He. apply (Permutation_in _ (sortNewest_perm _)) in He.
    apply filter_In in He. destruct He as [_ He]. exact He. }
  split; [apply sortNewest_sorted|]. split; [apply sortNewest_sorted|].
  split; [apply sortNewest_sorted|].
  rewrite (openCount_filter _ _ Hes).
  apply Permutation_length. apply sortNewest_perm.
Qed.

End PanelSections.

(* ------------------------------------------------------------------ *)
(** ** Before and after the initial sync *)
(* ------------------------------------------------------------------ *)

Lemma recoverMissingMarks_state (w : World) :
  pluginState (recoverMissingMarks w) = pluginState w
  /\ events (recoverMissingMarks w) = events w.
Proof.
  unfold recoverMissingMarks.
  destruct (view w) as [state|]; [|auto].
  destruct (commentsMap (pluginState w)) as [m|]; [|auto].
  destruct (negb (hasCommentMark (schema state))); [auto|].
  destruct (recoveryTransaction state m) as [hasRecoveries tr].
  destruct (_ && _)%bool; auto.
Qed.

Lemma restoreOrphanedComments_before_sync live threads w :
  initialSyncComplete (pluginState w) = false ->
  restoreOrphanedComments live threads w = w.
Proof.
  intros H. unfold restoreOrphanedComments. rewrite H.
  destruct (commentsMap (pluginState w)); reflexivity.
Qed.

(** From [setCommentsMap] until the initial sync is complete, the
    bookkeeping of [buildDecorations] orphans and restores nothing,
    whatever the document: it dispatches no event, keeps every record
    under its key and changes at most the stored text and context of a
    record, so every [orphaned], [orphanedAt] and [resolved] stays. *)
Theorem lifecyclePass_before_sync (now : Z) (state : EditorState) (w : World)
    (m : CommentsMap) :
  NoDup (map fst m) ->
  let w' := lifecyclePass now state (setCommentsMap m w) in
  events w' = events w
  /\ view w' = view w
  /\ initialSyncComplete (pluginState w') = false
  /\ exists m',
       commentsMap (pluginState w') = Some m'
       /\ Forall2 (fun e e' => fst e' = fst e /\ sameButText (snd e) (snd e')) m m'.
Proof.
  intros Hkeys w'. unfold w', lifecyclePass.
  set (w1 := setCommentsMap m w).
  assert (Hs : initialSyncComplete (pluginState w1) = false) by reflexivity.
  rewrite restoreOrphanedComments_before_sync by exact Hs.
  rewrite markOrphanedComments_before_sync by exact Hs.
  destruct (getThreadIdsWithMarks_char state) as [Hlive _].
  destruct (updateCommentSelectedText_inv state (getThreadIdsWithMarks state) w1 m
              eq_refl Hkeys Hlive) as [m' [H1 [H2 [H3 [H4 [_ [H5 _]]]]]]].
  split; [exact H4|]. split; [exact H3|]. split; [rewrite H5; reflexivity|].
  exists m'. split; [exact H1|].
  eapply Forall2_impl; [|exact H2]. intros e e' [Ha [Hb _]]. split; assumption.
Qed.

(** The thread "t2" of the example has no mark in the document; before
    the sync is complete no event reports it. *)
Lemma lifecyclePass_before_sync_witness :
  events (lifecyclePass 100 markedState
            (setCommentsMap threeThreads (worldOf threeThreads markedState)))
  = [].
Proof.
  assert (Hk : NoDup (map fst threeThreads)).
  { repeat constructor; simpl; intros H;
      repeat (destruct H as [H | H]; [discriminate H|]); exact H. }
  exact (proj1 (lifecyclePass_before_sync 100 markedState (worldOf threeThreads markedState)
                  threeThreads Hk)).
Defined.

(** [onSyncStable] does nothing once the initial sync is complete.
    Before that it sets [initialSyncComplete] first and then runs the
    recovery: either only the flag changes, or the recovery transaction
    is dispatched, from the plugin state in which the flag is set
    already.  In every case the flag is set afterwards and a second call
    does nothing: the recovery runs once. *)
Theorem onSyncStable_once (w : World) :
  (initialSyncComplete (pluginState w) = true -> onSyncStable w = w)
  /\ (initialSyncComplete (pluginState w) = false ->
      let ready :=
        mkWorld (mkPlugin (commentsMap (pluginState w)) (activeThreadId (pluginState w))
                          (pendingCommentRange (pluginState w)) true)
                (view w) (events w) in
      onSyncStable w = ready
      \/ exists state m,
           view w = Some state /\ commentsMap (pluginState w) = Some m
           /\ steps (snd (recoveryTransaction state m)) <> []
           /\ onSyncStable w = dispatch ready state (snd (recoveryTransaction state m)))
  /\ initialSyncComplete (pluginState (onSyncStable w)) = true
  /\ onSyncStable (onSyncStable w) = onSyncStable w.
Proof.
  assert (H : initialSyncComplete (pluginState (onSyncStable w)) = true).
  { unfold onSyncStable. destruct (initialSyncComplete (pluginState w)) eqn:E; [exact E|].
    match goal with |- context [recoverMissingMarks ?x] =>
      destruct (recoverMissingMarks_state x) as [H1 _]; rewrite H1 end.
    reflexivity. }
  split; [|split; [|split]].
  - intros Hs. unfold onSyncStable. rewrite Hs. reflexivity.
  - intros Hs ready. unfold onSyncStable. rewrite Hs. fold ready.
    unfold recoverMissingMarks.
    destruct (view ready) as [state|] eqn:Ev; [|left; reflexivity].
    destruct (commentsMap (pluginState ready)) as [m|] eqn:Em; [|left; reflexivity].
    destruct (negb (hasCommentMark (schema state))); [left; reflexivity|].
    destruct (recoveryTransaction state m) as [hasRecoveries tr] eqn:Er.
    destruct (hasRecoveries && negb (Nat.eqb (List.length (steps tr)) 0))%bool eqn:E;
      [|left; reflexivity].
    right. exists state, m. rewrite Er. cbn [snd].
    split; [exact Ev|]. split; [exact Em|]. split; [|reflexivity].
    apply andb_true_iff in E. destruct E as [_ E]. intros Hn. rewrite Hn in E. discriminate E.
  - exact H.
  - unfold onSyncStable at 1. rewrite H. reflexivity.
Qed.

(* ------------------------------------------------------------------ *)
(** ** What an attribute step does to the document *)
(* ------------------------------------------------------------------ *)

Lemma setAttrsNode_single target attrs (n : Node) (pos : Z) :
  setAttrsNode target attrs n pos = [reAttr target attrs n pos].
Proof.
  unfold reAttr. destruct n as [t ms | ty a ms | ty a ms c]; simpl.
  - reflexivity.
  - destruct (pos =? target); reflexivity.
  - destruct (pos =? target); reflexivity.
Qed.

Lemma reAttr_Inner target attrs ty a ms c pos :
  reAttr target attrs (Inner ty a ms c) pos
  = if pos =? target then Inner ty attrs ms c
    else Inner ty a ms (mapLoop (setAttrsNode target attrs) c (pos + 1)).
Proof. unfold reAttr. simpl. destruct (pos =? target); reflexivity. Qed.

Lemma reAttr_kind target attrs (n : Node) (pos : Z) :
  isText (reAttr target attrs n pos) = isText n
  /\ typeName (reAttr target attrs n pos) = typeName n
  /\ marksOf (reAttr target attrs n pos) = marksOf n
  /\ isBlock (reAttr target attrs n pos) = isBlock n
  /\ attrsOf (reAttr target attrs n pos)
     = if (negb (isText n) && (pos =? target))%bool then attrs else attrsOf n.
Proof.
  unfold reAttr. destruct n as [t ms | ty a ms | ty a ms c]; simpl.
  - repeat split.
  - destruct (pos =? target); repeat split.
  - destruct (pos =? target); repeat split.
Qed.

Lemma reAttr_size target attrs (n : Node) :
  forall pos, nodeSize (reAttr target attrs n pos) = nodeSize n.
Proof.
  induction n as [t ms | ty a ms | ty a ms c IH] using Node_induction; intros pos.
  - reflexivity.
  - unfold reAttr. simpl. destruct (pos =? target); reflexivity.
  - rewrite reAttr_Inner. destruct (pos =? target); [reflexivity|].
    rewrite !nodeSize_Inner. f_equal. apply mapLoop_size.
    eapply Forall_impl; [|exact IH]. intros x Hx q.
    rewrite setAttrsNode_single, fragSize_single. apply Hx.
Qed.

(** Below the target the step changes nothing. *)
Lemma reAttr_above target attrs (n : Node) :
  forall pos, target < pos -> reAttr target attrs n pos = n.
Proof.
  induction n as [t ms | ty a ms | ty a ms c IH] using Node_induction; intros pos Hp.
  - reflexivity.
  - unfold reAttr. simpl.
    replace (pos =? target) with false by (symmetry; apply Z.eqb_neq; lia). reflexivity.
  - rewrite reAttr_Inner.
    replace (pos =? target) with false by (symmetry; apply Z.eqb_neq; lia).
    f_equal.
    assert (Hq : target < pos + 1) by lia. revert Hq. generalize (pos + 1) as q.
    induction IH as [|x c Hx _ IHc]; intros q Hq; [reflexivity|].
    rewrite mapLoop_cons, setAttrsNode_single, Hx by exact Hq.
    simpl. f_equal. apply IHc. pose proof (nodeSize_nonneg x). lia.
Qed.

Lemma descNode_reAttr target attrs (n : Node) :
  forall pos,
    descNode (reAttr target attrs n pos) pos = map (reAttrCall target attrs) (descNode n pos).
Proof.
  induction n as [t ms | ty a ms | ty a ms c IH] using Node_induction; intros pos.
  - reflexivity.
  - unfold reAttrCall, reAttr. simpl. destruct (pos =? target); reflexivity.
  - rewrite descNode_Inner. cbn [map]. unfold reAttrCall at 1. cbn [fst snd].
    rewrite reAttr_Inner. destruct (pos =? target) eqn:E.
    + rewrite descNode_Inner. f_equal.
      apply Z.eqb_eq in E. subst target.
      rewrite <- (map_id (descLoop descNode c (pos + 1))) at 1.
      apply map_ext_in. intros [x q] Hx. unfold reAttrCall. cbn [fst snd].
      apply descLoop_within in Hx. cbn [fst snd] in Hx.
      rewrite reAttr_above by lia. reflexivity.
    + rewrite descNode_Inner. f_equal.
      generalize (pos + 1) as q.
      induction IH as [|x c Hx _ IHc]; intros q; [reflexivity|].
      rewrite mapLoop_cons, setAttrsNode_single. cbn [app].
      rewrite !descLoop_cons, map_app, Hx, reAttr_size, IHc. reflexivity.
Qed.

(** The calls of a traversal after [setNodeMarkup]: the same nodes at
    the same positions, the node at the target with the new
    attributes. *)
Lemma setNodeMarkup_descendants (tr : Transaction) (target : Z) (attrs : Attrs) :
  descendants (trDoc (setNodeMarkup tr target attrs))
  = map (reAttrCall target attrs) (descendants (trDoc tr)).
Proof.
  unfold setNodeMarkup, descendants. cbn [trDoc]. generalize 0 as q.
  induction (trDoc tr) as [|x c IHc]; intros q; [reflexivity|].
  rewrite mapLoop_cons, setAttrsNode_single. cbn [app].
  rewrite !descLoop_cons, map_app, descNode_reAttr, reAttr_size, IHc. reflexivity.
Qed.

(** Two nodes other than texts do not start at the same position. *)
Lemma descNode_nontext_unique (n : Node) :
  forall pos x y,
    In x (descNode n pos) -> In y (descNode n pos) ->
    isText (fst x) = false -> isText (fst y) = false -> snd x = snd y -> x = y.
Proof.
  assert (Hpos : forall z : Node * Z, isText (fst z) = false -> 0 < nodeSize (fst z)).
  { intros [z q] Hz. cbn [fst] in *. destruct z as [t ms | ty a ms | ty a ms c];
      [discriminate | simpl; lia |].
    rewrite nodeSize_Inner. pose proof (fragSize_nonneg c). lia. }
  induction n as [t ms | ty a ms | ty a ms c IH] using Node_induction;
    intros pos x y Hx Hy Tx Ty Hp.
  - destruct Hx as [<- | []]. discriminate Tx.
  - destruct Hx as [<- | []], Hy as [<- | []]. reflexivity.
  - rewrite descNode_Inner in Hx, Hy.
    destruct Hx as [<- | Hx], Hy as [<- | Hy].
    + reflexivity.
    + apply descLoop_within in Hy. cbn [snd] in Hp. lia.
    + apply descLoop_within in Hx. cbn [snd] in Hp. lia.
    + revert Hx Hy. generalize (pos + 1) as q.
      induction IH as [|z c Hz _ IHc]; intros q Hx Hy; [destruct Hx|].
      rewrite descLoop_cons in Hx, Hy. apply in_app_iff in Hx, Hy.
      destruct Hx as [Hx | Hx], Hy as [Hy | Hy].
      * exact (Hz q x y Hx Hy Tx Ty Hp).
      * apply descNode_within in Hx. apply descLoop_within in Hy.
        pose proof (Hpos x Tx). lia.
      * apply descNode_within in Hy. apply descLoop_within in Hx.
        pose proof (Hpos y Ty). lia.
      * exact (IHc _ Hx Hy).
Qed.

Lemma descendants_nontext_unique (d : Fragment) (x y : Node * Z) :
  In x (descendants d) -> In y (descendants d) ->
  isText (fst x) = false -> isText (fst y) = false -> snd x = snd y -> x = y.
Proof.
  assert (Hpos : forall z : Node * Z, isText (fst z) = false -> 0 < nodeSize (fst z)).
  { intros [z q] Hz. cbn [fst] in *. destruct z as [t ms | ty a ms | ty a ms c];
      [discriminate | simpl; lia |].
    rewrite nodeSize_Inner. pose proof (fragSize_nonneg c). lia. }
  unfold descendants. generalize 0 as q. intros q Hx Hy Tx Ty Hp. revert q Hx Hy.
  induction d as [|z c IHc]; intros q Hx Hy; [destruct Hx|].
  rewrite descLoop_cons in Hx, Hy. apply in_app_iff in Hx, Hy.
  destruct Hx as [Hx | Hx], Hy as [Hy | Hy].
  - exact (descNode_nontext_unique z q x y Hx Hy Tx Ty Hp).
  - apply descNode_within in Hx. apply descLoop_within in Hy.
    pose proof (Hpos x Tx). lia.
  - apply descNode_within in Hy. apply descLoop_within in Hx.
    pose proof (Hpos y Ty). lia.
  - exact (IHc _ Hx Hy).
Qed.

(* ------------------------------------------------------------------ *)
(** ** Commenting an image and finding it again *)
(* ------------------------------------------------------------------ *)

Lemma reAttr_text target attrs (n : Node) :
  forall pos, nodeText (reAttr target attrs n pos) = nodeText n.
Proof.
  induction n as [t ms | ty a ms | ty a ms c IH] using Node_induction; intros pos.
  - reflexivity.
  - unfold reAttr. simpl. destruct (pos =? target); reflexivity.
  - rewrite reAttr_Inner. destruct (pos =? target); [reflexivity|].
    change (concatText nodeText (mapLoop (setAttrsNode target attrs) c (pos + 1))
            = concatText nodeText c).
    generalize (pos + 1) as q.
    induction IH as [|x c Hx _ IHc]; intros q; [reflexivity|].
    rewrite mapLoop_cons, setAttrsNode_single. cbn [app].
    change (String.append (nodeText (reAttr target attrs x q))
              (concatText nodeText
                 (mapLoop (setAttrsNode target attrs) c (q + nodeSize x)))
            = String.append (nodeText x) (concatText nodeText c)).
    rewrite Hx, IHc. reflexivity.
Qed.

Lemma setNodeMarkup_text (tr : Transaction) (target : Z) (attrs : Attrs) :
  textContent (trDoc (setNodeMarkup tr target attrs)) = textContent (trDoc tr).
Proof.
  unfold setNodeMarkup, textContent. cbn [trDoc]. generalize 0 as q.
  induction (trDoc tr) as [|x c IHc]; intros q; [reflexivity|].
  rewrite mapLoop_cons, setAttrsNode_single. cbn [app].
  change (String.append (nodeText (reAttr target attrs x q))
            (concatText nodeText (mapLoop (setAttrsNode target attrs) c (q + nodeSize x)))
          = String.append (nodeText x) (concatText nodeText c)).
  rewrite reAttr_text, IHc. reflexivity.
Qed.

(** [findCommentMarkRange] stops at the first image or marked text of
    the thread; for an image it answers with the range of the image. *)
Lemma findCommentMarkRange_first_image state tid l1 n p l2 :
  hasCommentMark (schema state) = true ->
  descendants (doc state) = l1 ++ (n, p) :: l2 ->
  (forall y, In y l1 ->
             (isImage (fst y) && eqId (commentThreadId (attrsOf (fst y))) (Some tid))%bool = false
             /\ markedText tid y = false) ->
  (isImage n && eqId (commentThreadId (attrsOf n)) (Some tid))%bool = true ->
  findCommentMarkRange state (Some tid) = Some (mkRange p (p + nodeSize n) true).
Proof.
  intros Hc Hd Hl Hi. unfold findCommentMarkRange. rewrite Hc, Hd. cbn [negb].
  rewrite fold_left_app, fold_left_cons.
  match goal with |- fold_left ?f _ _ = _ => set (step := f) end.
  assert (H1 : fold_left step l1 None = None).
  { clear Hd. induction l1 as [|[y q] l1 IH]; [reflexivity|].
    rewrite fold_left_cons.
    destruct (Hl (y, q) (or_introl eq_refl)) as [Hy1 Hy2].
    unfold markedText, hasMarkOf in Hy2. cbn [fst] in Hy1, Hy2.
    replace (step None (y, q)) with (@None MarkRange).
    - apply IH. intros z Hz. apply Hl. right. exact Hz.
    - unfold step. rewrite Hy1, Hy2. reflexivity. }
  assert (H3 : forall r, fold_left step l2 (Some r) = Some r).
  { clear. intros r. induction l2 as [|[y q] l2 IH]; [reflexivity|].
    rewrite fold_left_cons. exact IH. }
  rewrite H1. cbv beta iota. rewrite Hi. rewrite H3. reflexivity.
Qed.

(** With an image selected that no thread is attached to yet,
    [applyCommentMark] for a new thread, whatever the options, sets the
    [commentThreadId] of the image and returns true, and
    [findCommentMarkRange] for the thread then answers with the range of
    that image; the text of the document is unchanged and the thread
    counts as live.  A pending range, if there is one for an image,
    points at the selected image. *)
Theorem applyCommentMark_image_round_trip (tid : string) (options : MarkOptions)
    (w : World) (state : EditorState) (pos : Z) (node : Node) :
  view w = Some state ->
  selection state = NodeSelection pos node ->
  isImage node = true ->
  In (node, pos) (descendants (doc state)) ->
  (forall pending, pendingCommentRange (pluginState w) = Some pending ->
                   pendingIsImage pending = true -> pendingFrom pending = pos) ->
  hasCommentMark (schema state) = true ->
  freshThread tid (doc state) ->
  exists attrs,
    commentThreadId attrs = Some tid
    /\ applyCommentMark tid options w
       = (true, dispatch w state (setNodeMarkup (newTr (doc state)) pos attrs))
    /\ findCommentMarkRange (applyTr state (setNodeMarkup (newTr (doc state)) pos attrs))
                            (Some tid)
       = Some (mkRange pos (pos + nodeSize node) true)
    /\ textContent (trDoc (setNodeMarkup (newTr (doc state)) pos attrs))
       = textContent (doc state)
    /\ (JS.truthy tid = true ->
        In (Some tid)
           (getThreadIdsWithMarks
              (applyTr state (setNodeMarkup (newTr (doc state)) pos attrs)))).
Proof.
  intros Hv Hs Hi Hin Hpend Hc Hfresh.
  assert (Hsel : isImageSelection state = true)
    by (unfold isImageSelection; rewrite Hs; exact Hi).
  assert (Hby : imageBySelection tid state w
                = (true, dispatch w state
                           (setNodeMarkup (newTr (doc state)) pos
                                          (withThread tid (attrsOf node)))))
    by (unfold imageBySelection; rewrite Hs, Hi; reflexivity).
  assert (Happly : exists attrs,
             commentThreadId attrs = Some tid
             /\ applyCommentMark tid options w
                = (true, dispatch w state (setNodeMarkup (newTr (doc state)) pos attrs))).
  { unfold applyCommentMark. rewrite Hv, Hsel, orb_true_r.
    unfold applyCommentToImage. rewrite Hv.
    destruct (pendingCommentRange (pluginState w)) as [pending|] eqn:Ep;
      [|exists (withThread tid (attrsOf node)); split; [reflexivity | exact Hby]].
    destruct (pendingIsImage pending) eqn:Epi;
      [|exists (withThread tid (attrsOf node)); split; [reflexivity | exact Hby]].
    rewrite (Hpend pending eq_refl Epi).
    destruct (nodeAt (doc state) pos) as [node'|];
      [|exists (withThread tid (attrsOf node)); split; [reflexivity | exact Hby]].
    destruct (isImage node');
      [|exists (withThread tid (attrsOf node)); split; [reflexivity | exact Hby]].
    exists (withThread tid (attrsOf node')). split; reflexivity. }
  destruct Happly as [attrs [Ha Happly]]. exists attrs.
  split; [exact Ha|]. split; [exact Happly|].
  set (tr := setNodeMarkup (newTr (doc state)) pos attrs).
  assert (Hdesc : descendants (doc (applyTr state tr))
                  = map (reAttrCall pos attrs) (descendants (doc state)))
    by (apply (setNodeMarkup_descendants (newTr (doc state)))).
  assert (Hnt : isText node = false)
    by (destruct node; [discriminate Hi | reflexivity | reflexivity]).
  (* the selected image after the step *)
  assert (Hnew : (isImage (reAttr pos attrs node pos)
                  && eqId (commentThreadId (attrsOf (reAttr pos attrs node pos))) (Some tid))%bool
                 = true).
  { destruct (reAttr_kind pos attrs node pos) as [_ [Ht [_ [_ Hat]]]].
    unfold isImage in *. rewrite Ht, Hi, Hat, Hnt, Z.eqb_refl. cbn [negb andb].
    rewrite Ha. apply eqId_eq. reflexivity. }
  (* a hit after the step is the selected image *)
  assert (Hhit : forall y, In y (descendants (doc state)) ->
            ((isImage (fst (reAttrCall pos attrs y))
              && eqId (commentThreadId (attrsOf (fst (reAttrCall pos attrs y)))) (Some tid))%bool
             = true \/ markedText tid (reAttrCall pos attrs y) = true) ->
            y = (node, pos)).
  { intros [y q] Hy Hh. unfold reAttrCall, markedText, hasMarkOf in Hh. cbn [fst snd] in Hh.
    destruct (reAttr_kind pos attrs y q) as [Htx [Ht [Hm [_ Hat]]]].
    destruct (Hfresh y q Hy) as [F1 F2].
    destruct Hh as [Hh | Hh].
    - unfold isImage in Hh, F2. rewrite Ht, Hat in Hh.
      destruct (negb (isText y) && (q =? pos))%bool eqn:E; [|congruence].
      apply andb_true_iff in E. destruct E as [E1 E2]. apply Z.eqb_eq in E2. subst q.
      apply (descendants_nontext_unique (doc state)); auto.
      cbn [fst]. destruct (isText y); [discriminate | reflexivity].
    - rewrite Hm, F1, andb_false_r in Hh. discriminate Hh. }
  split; [|split].
  - destruct (in_split _ _ Hin) as [l1 [l2 Hsplit]].
    set (hit := fun y : Node * Z =>
                  ((isImage (fst y) && eqId (commentThreadId (attrsOf (fst y))) (Some tid))
                   || markedText tid y)%bool).
    assert (Hex : existsb hit (map (reAttrCall pos attrs) (descendants (doc state))) = true).
    { apply existsb_exists. exists (reAttrCall pos attrs (node, pos)). split.
      - apply in_map. exact Hin.
      - unfold hit, reAttrCall. cbn [fst snd]. rewrite Hnew. reflexivity. }
    destruct (first_split _ _ Hex) as [m1 [x [m2 [Hm [Hx Hbefore]]]]].
    assert (Hxin : In x (map (reAttrCall pos attrs) (descendants (doc state))))
      by (rewrite Hm; apply in_app_iff; right; left; reflexivity).
    apply in_map_iff in Hxin. destruct Hxin as [y [Hxy Hy]]. subst x.
    assert (Hyeq : y = (node, pos)).
    { apply Hhit; [exact Hy|]. unfold hit in Hx. apply orb_true_iff in Hx. exact Hx. }
    subst y. unfold reAttrCall in Hm. cbn [fst snd] in Hm.
    rewrite <- (reAttr_size pos attrs node pos).
    apply (findCommentMarkRange_first_image (applyTr state tr) tid m1 _ _ m2).
    + exact Hc.
    + rewrite Hdesc. exact Hm.
    + intros z Hz. specialize (Hbefore z Hz). unfold hit in Hbefore.
      apply orb_false_iff in Hbefore. exact Hbefore.
    + exact Hnew.
  - apply (setNodeMarkup_text (newTr (doc state))).
  - intros Htr. apply (getThreadIdsWithMarks_char (applyTr state tr)).
    split; [exact Hc|]. exists (reAttr pos attrs node pos), pos. split.
    + rewrite Hdesc. apply in_map_iff. exists (node, pos). split; [reflexivity | exact Hin].
    + right. apply andb_true_iff in Hnew. destruct Hnew as [N1 N2].
      apply eqId_eq in N2. repeat split; [exact N1 | exact Htr | exact N2].
Qed.

(** The picture of the example, selected and commented for the new
    thread "t9". *)
Lemma applyCommentMark_image_round_trip_witness :
  exists attrs,
    commentThreadId attrs = Some "t9"
    /\ findCommentMarkRange
         (applyTr pictureSelected (setNodeMarkup (newTr picturePara) 9 attrs)) (Some "t9")
       = Some (mkRange 9 10 true).
Proof.
  assert (Hin : In (picture, 9) (descendants (doc pictureSelected)))
    by (vm_compute; auto).
  assert (Hfresh : freshThread "t9" (doc pictureSelected)).
  { intros n p H. vm_compute in H.
    repeat (destruct H as [H | H]; [injection H as <- <-; split; reflexivity|]).
    destruct H. }
  assert (Hp : forall pending,
             pendingCommentRange (pluginState (worldOf [] pictureSelected)) = Some pending ->
             pendingIsImage pending = true -> pendingFrom pending = 9)
    by (intros pending H; discriminate H).
  destruct (applyCommentMark_image_round_trip "t9" noOptions (worldOf [] pictureSelected)
              pictureSelected 9 picture eq_refl eq_refl eq_refl Hin Hp eq_refl Hfresh)
    as [attrs [H1 [_ [H2 _]]]].
  exists attrs. split; [exact H1 | exact H2].
Defined.

(* ------------------------------------------------------------------ *)
(** ** Removing the mark of a thread *)
(* ------------------------------------------------------------------ *)

(** A mark step leaves the nodes other than texts where they are. *)
Lemma mapMarksNode_nontext atoms g from to (n : Node) :
  forall pos new,
    In new (descLoop descNode (mapMarksNode atoms g from to n pos) pos) ->
    isText (fst new) = false ->
    exists orig,
      In orig (descNode n pos)
      /\ snd orig = snd new
      /\ isText (fst orig) = false
      /\ typeName (fst new) = typeName (fst orig)
      /\ attrsOf (fst new) = attrsOf (fst orig)
      /\ (marksOf (fst new) = marksOf (fst orig)
          \/ marksOf (fst new) = g (marksOf (fst orig))).
Proof.
  induction n as [t ms | ty a ms | ty a ms c IH] using Node_induction; intros pos new Hnew Hnt.
  - exfalso. simpl mapMarksNode in Hnew.
    destruct (overlaps from to pos (JS.length t) && negb (sameMarks (g ms) ms))%bool.
    + rewrite !descLoop_app in Hnew. apply in_app_iff in Hnew.
      destruct Hnew as [Hnew | Hnew];
        [apply textPiece_desc in Hnew; destruct Hnew as [-> _]; discriminate Hnt|].
      apply in_app_iff in Hnew.
      destruct Hnew as [Hnew | Hnew];
        [|apply textPiece_desc in Hnew; destruct Hnew as [-> _]; discriminate Hnt].
      simpl in Hnew. destruct Hnew as [<- | []]. discriminate Hnt.
    + simpl in Hnew. destruct Hnew as [<- | []]. discriminate Hnt.
  - exists (Leaf ty a ms, pos). split; [left; reflexivity|].
    simpl mapMarksNode in Hnew.
    destruct (isInline (Leaf ty a ms) && overlaps from to pos 1)%bool;
      simpl in Hnew; destruct Hnew as [<- | []]; simpl; repeat split; auto.
  - rewrite mapMarksNode_Inner in Hnew.
    rewrite descLoop_cons, descNode_Inner in Hnew.
    change (descLoop descNode [] ?p) with (@nil (Node * Z)) in Hnew.
    rewrite app_nil_r in Hnew.
    destruct Hnew as [<- | Hnew].
    + exists (Inner ty a ms c, pos). split; [left; reflexivity|].
      cbn [fst snd isText typeName attrsOf marksOf]. repeat split.
      destruct (_ && _)%bool; auto.
    + assert (Hc : forall p,
                 In new (descLoop descNode (mapLoop (mapMarksNode atoms g from to) c p) p) ->
                 exists orig,
                   In orig (descLoop descNode c p)
                   /\ snd orig = snd new
                   /\ isText (fst orig) = false
                   /\ typeName (fst new) = typeName (fst orig)
                   /\ attrsOf (fst new) = attrsOf (fst orig)
                   /\ (marksOf (fst new) = marksOf (fst orig)
                       \/ marksOf (fst new) = g (marksOf (fst orig)))).
      { clear Hnew. induction IH as [|x c Hx _ IHc]; intros p Hn; [destruct Hn|].
        rewrite mapLoop_cons, descLoop_app, mapMarksNode_size in Hn.
        rewrite descLoop_cons. apply in_app_iff in Hn. destruct Hn as [Hn | Hn].
        - destruct (Hx p new Hn Hnt) as [orig [Ho Hd]]. exists orig. split; [|exact Hd].
          apply in_app_iff. left. exact Ho.
        - destruct (IHc _ Hn) as [orig [Ho Hd]]. exists orig. split; [|exact Hd].
          apply in_app_iff. right. exact Ho. }
      destruct (Hc (pos + 1) Hnew) as [orig [Ho Hd]].
      exists orig. split; [|exact Hd]. rewrite descNode_Inner. right. exact Ho.
Qed.

Lemma mapMarks_nontext atoms g from to (d : Fragment) (new : Node * Z) :
  In new (descendants (mapMarks atoms g from to d)) ->
  isText (fst new) = false ->
  exists orig,
    In orig (descendants d)
    /\ snd orig = snd new
    /\ isText (fst orig) = false
    /\ typeName (fst new) = typeName (fst orig)
    /\ attrsOf (fst new) = attrsOf (fst orig)
    /\ (marksOf (fst new) = marksOf (fst orig)
        \/ marksOf (fst new) = g (marksOf (fst orig))).
Proof.
  unfold descendants, mapMarks. generalize 0 as p. intros p Hn Hnt. revert p Hn.
  induction d as [|x c IHc]; intros p Hn; [destruct Hn|].
  rewrite mapLoop_cons, descLoop_app, mapMarksNode_size in Hn.
  rewrite descLoop_cons. apply in_app_iff in Hn. destruct Hn as [Hn | Hn].
  - destruct (mapMarksNode_nontext atoms g from to x p new Hn Hnt) as [orig [Ho Hd]].
    exists orig. split; [|exact Hd]. apply in_app_iff. left. exact Ho.
  - destruct (IHc _ Hn) as [orig [Ho Hd]]. exists orig. split; [|exact Hd].
    apply in_app_iff. right. exact Ho.
Qed.

(** The comment mark of a thread is the one mark with its thread id. *)
Lemma commentMark_eq (tid : string) (m : Mark) :
  (isComment m && eqId (PM.threadId m) (Some tid))%bool = true <-> m = createComment tid.
Proof.
  split.
  - intros H. apply andb_true_iff in H. destruct H as [H1 H2].
    unfold isComment in H1. apply String.eqb_eq in H1. apply eqId_eq in H2.
    destruct m as [ty th]. simpl in *. subst. reflexivity.
  - intros ->. simpl. apply String.eqb_refl.
Qed.

Lemma hasMarkOf_created_iff (tid : string) (n : Node) :
  hasMarkOf tid n = true <-> In (createComment tid) (marksOf n).
Proof.
  split; [|apply hasMarkOf_created].
  unfold hasMarkOf. rewrite existsb_exists. intros [m [Hm Hc]].
  apply commentMark_eq in Hc. subst m. exact Hm.
Qed.

(** Without an image or a marked text of the thread
    [findCommentMarkRange] answers null. *)
Lemma findCommentMarkRange_none state tid :
  (forall y, In y (descendants (doc state)) ->
             (isImage (fst y) && eqId (commentThreadId (attrsOf (fst y))) (Some tid))%bool = false
             /\ markedText tid y = false) ->
  findCommentMarkRange state (Some tid) = None.
Proof.
  intros Hl. unfold findCommentMarkRange.
  destruct (negb (hasCommentMark (schema state))); [reflexivity|].
  induction (descendants (doc state)) as [|[y q] l IH]; [reflexivity|].
  rewrite fold_left_cons.
  destruct (Hl (y, q) (or_introl eq_refl)) as [Hy1 Hy2].
  unfold markedText, hasMarkOf in Hy2. cbn [fst] in Hy1, Hy2.
  cbv beta iota. rewrite Hy1, Hy2.
  apply IH. intros z Hz. apply Hl. right. exact Hz.
Qed.

Lemma reAttr_tokens target attrs (n : Node) :
  forall pos, tokens (reAttr target attrs n pos) = tokens n.
Proof.
  induction n as [t ms | ty a ms | ty a ms c IH] using Node_induction; intros pos.
  - reflexivity.
  - unfold reAttr. simpl. destruct (pos =? target); reflexivity.
  - rewrite reAttr_Inner. destruct (pos =? target); [reflexivity|].
    rewrite !tokens_Inner. do 2 f_equal.
    generalize (pos + 1) as q.
    induction IH as [|x c Hx _ IHc]; intros q; [reflexivity|].
    rewrite mapLoop_cons, setAttrsNode_single. cbn [app].
    rewrite !fragTokens_cons, Hx, IHc. reflexivity.
Qed.

Lemma setNodeMarkup_tokens (tr : Transaction) (target : Z) (attrs : Attrs) :
  fragTokens (trDoc (setNodeMarkup tr target attrs)) = fragTokens (trDoc tr).
Proof.
  unfold setNodeMarkup. cbn [trDoc]. generalize 0 as q.
  induction (trDoc tr) as [|x c IHc]; intros q; [reflexivity|].
  rewrite mapLoop_cons, setAttrsNode_single. cbn [app].
  rewrite !fragTokens_cons, reAttr_tokens, IHc. reflexivity.
Qed.

Section RemoveMark.
Variable tid : string.
Variable doc0 : Fragment.
Hypothesis Hne : noEmptyText doc0.

(** An image or a marked text of the thread. *)
Let hit (y : Node * Z) : bool :=
  ((isImage (fst y) && eqId (commentThreadId (attrsOf (fst y))) (Some tid))
   || markedText tid y)%bool.

(** The text nodes of the document [d] the loop has built once the
    nodes [done] of [doc0] have been visited. *)
Let textInv (done : list (Node * Z)) (d : Fragment) : Prop :=
  forall new,
    In new (descendants d) -> isText (fst new) = true ->
    0 < nodeSize (fst new)
    /\ exists orig,
         In orig (descendants doc0)
         /\ isText (fst orig) = true
         /\ snd orig <= snd new
         /\ snd new + nodeSize (fst new) <= snd orig + nodeSize (fst orig)
         /\ (forall m, In m (marksOf (fst new)) -> In m (marksOf (fst orig)))
         /\ (forall m, In m (marksOf (fst orig)) -> m <> createComment tid ->
                       In m (marksOf (fst new)))
         /\ (In orig done -> ~ In (createComment tid) (marksOf (fst new))).

(** The other nodes. *)
Let nodeInv (done : list (Node * Z)) (d : Fragment) : Prop :=
  forall new,
    In new (descendants d) -> isText (fst new) = false ->
    exists orig,
      In orig (descendants doc0)
      /\ isText (fst orig) = false
      /\ snd orig = snd new
      /\ typeName (fst new) = typeName (fst orig)
      /\ (forall m, In m (marksOf (fst new)) -> In m (marksOf (fst orig)))
      /\ (attrsOf (fst new) = attrsOf (fst orig)
          \/ attrsOf (fst new) = mkAttrs None (alt (attrsOf (fst orig))))
      /\ (In orig done -> isImage (fst orig) = true ->
          commentThreadId (attrsOf (fst orig)) = Some tid ->
          commentThreadId (attrsOf (fst new)) = None).

Let inv (done : list (Node * Z)) (acc : Transaction * bool) : Prop :=
  textInv done (trDoc (fst acc))
  /\ nodeInv done (trDoc (fst acc))
  /\ fragTokens (trDoc (fst acc)) = fragTokens doc0
  /\ textContent (trDoc (fst acc)) = textContent doc0
  /\ (snd acc = false ->
      fst acc = newTr doc0 /\ forall y, In y done -> hit y = false)
  /\ (snd acc = true -> exists y, In y done /\ hit y = true).

Lemma remove_inv_init : inv [] (newTr doc0, false).
Proof.
  unfold inv. cbn [fst snd newTr trDoc].
  split; [|split; [|split; [reflexivity | split; [reflexivity | split; [|discriminate]]]]].
  - intros new Hn Ht. split; [destruct new as [n p]; exact (Hne n p Hn Ht)|].
    exists new. repeat split; auto; try lia; try (intros []).
  - intros new Hn Ht. exists new. repeat split; auto; try (intros []).
  - intros _. split; [reflexivity | intros y []].
Qed.

(** A node that is neither a marked text nor an image of the thread. *)
Lemma remove_inv_skip done acc x :
  inv done acc -> hit x = false -> inv (done ++ [x]) acc.
Proof.
  intros [Ht [Hn [Htok [Htxt [Hf Hfound]]]]] Hx.
  unfold hit in Hx. apply orb_false_iff in Hx. destruct Hx as [Hx1 Hx2].
  split; [|split; [|split; [exact Htok | split; [exact Htxt | split]]]].
  - intros new Hin Hnt. destruct (Ht new Hin Hnt) as [Hs [orig [H1 [H2 [H3 [H4 [H5 [H6 H7]]]]]]]].
    split; [exact Hs|]. exists orig. repeat split; auto.
    intros Hd Hm. apply in_app_iff in Hd. destruct Hd as [Hd | [<- | []]]; [exact (H7 Hd Hm)|].
    unfold markedText in Hx2. rewrite H2 in Hx2. cbn [andb] in Hx2.
    apply H5 in Hm. apply hasMarkOf_created in Hm. congruence.
  - intros new Hin Hnt. destruct (Hn new Hin Hnt) as [orig [H1 [H2 [H3 [H4 [H5 [H6 H7]]]]]]].
    exists orig. repeat split; auto.
    intros Hd Hi Hc. apply in_app_iff in Hd. destruct Hd as [Hd | [<- | []]]; [exact (H7 Hd Hi Hc)|].
    rewrite Hi, Hc in Hx1. cbn in Hx1. rewrite String.eqb_refl in Hx1. discriminate Hx1.
  - intros Hs. destruct (Hf Hs) as [H1 H2]. split; [exact H1|].
    intros y Hy. apply in_app_iff in Hy. destruct Hy as [Hy | [<- | []]]; [exact (H2 y Hy)|].
    unfold hit. rewrite Hx1, Hx2. reflexivity.
  - intros Hs. destruct (Hfound Hs) as [y [Hy Hh]]. exists y. split; [|exact Hh].
    apply in_app_iff. left. exact Hy.
Qed.

(** A marked text of the thread: the mark is removed over its range. *)
Lemma remove_inv_text done acc (n : Node) (p : Z) :
  inv done acc -> In (n, p) (descendants doc0) -> isText n = true ->
  hasMarkOf tid n = true ->
  inv (done ++ [(n, p)])
      (removeMark (fst acc) p (p + nodeSize n) (createComment tid), true).
Proof.
  intros [Ht [Hn [Htok [Htxt [Hf Hfound]]]]] Hin Hnt Hmarked.
  split; [|split; [|split; [|split; [|split]]]]; cbn [fst snd removeMark trDoc].
  - intros new Hnew Hnewt.
    destruct (mapMarks_origin _ _ _ _ _ _ Hnew) as [mid [Hmid Hder]].
    destruct Hder as [D1 [D2 [D3 [_ [_ [_ [_ [D8 [D9 [_ [D11 _]]]]]]]]]]].
    rewrite Hnewt in D3. symmetry in D3.
    destruct (Ht mid Hmid D3) as [Hs [orig [H1 [H2 [H3 [H4 [H5 [H6 H7]]]]]]]].
    specialize (D11 Hs). split; [exact D11|].
    assert (Hsub : forall m, In m (marksOf (fst new)) -> In m (marksOf (fst mid))).
    { intros m Hm. destruct D8 as [E | E]; rewrite E in Hm; [exact Hm|].
      apply removeFromSet_In in Hm. tauto. }
    exists orig. split; [exact H1|]. split; [exact H2|]. split; [lia|]. split; [lia|].
    split; [intros m Hm; apply H5, Hsub; exact Hm|].
    split.
    { intros m Hm Hd. specialize (H6 m Hm Hd).
      destruct D8 as [E | E]; rewrite E; [exact H6|].
      apply removeFromSet_In. split; [exact H6 | exact Hd]. }
    intros Hd Hm. apply in_app_iff in Hd. destruct Hd as [Hd | [<- | []]].
    + apply (H7 Hd). apply Hsub. exact Hm.
    + cbn [fst snd] in H3, H4.
      assert (Ho : overlaps p (p + nodeSize n) (snd new) (nodeSize (fst new)) = true)
        by (unfold overlaps; apply Z.ltb_lt; lia).
      assert (Ha : affected false (fst mid) = true).
      { destruct (fst mid); try discriminate D3. apply affected_text. }
      rewrite (D9 Ha Ho) in Hm. apply removeFromSet_In in Hm. tauto.
  - intros new Hnew Hnewt.
    destruct (mapMarks_nontext _ _ _ _ _ _ Hnew Hnewt)
      as [mid [Hmid [M1 [M2 [M3 [M4 M5]]]]]].
    destruct (Hn mid Hmid M2) as [orig [H1 [H2 [H3 [H4 [H5 [H6 H7]]]]]]].
    exists orig. split; [exact H1|]. split; [exact H2|]. split; [congruence|].
    split; [congruence|].
    split.
    { intros m Hm. apply H5. destruct M5 as [E | E]; rewrite E in Hm; [exact Hm|].
      apply removeFromSet_In in Hm. tauto. }
    split; [rewrite M4; exact H6|].
    intros Hd Hi Hc. rewrite M4. apply in_app_iff in Hd.
    destruct Hd as [Hd | [<- | []]]; [exact (H7 Hd Hi Hc)|].
    cbn [fst] in H2. congruence.
  - rewrite mapMarks_tokens. exact Htok.
  - rewrite mapMarks_text. exact Htxt.
  - discriminate.
  - intros _. exists (n, p). split; [apply in_app_iff; right; left; reflexivity|].
    unfold hit, markedText. cbn [fst]. rewrite Hnt, Hmarked. apply orb_true_r.
Qed.

(** An image of the thread: its [commentThreadId] is cleared. *)
Lemma remove_inv_image done acc (n : Node) (p : Z) :
  inv done acc -> In (n, p) (descendants doc0) -> isText n = false ->
  (isImage n && eqId (commentThreadId (attrsOf n)) (Some tid))%bool = true ->
  inv (done ++ [(n, p)])
      (setNodeMarkup (fst acc) p (mkAttrs None (alt (attrsOf n))), true).
Proof.
  intros [Ht [Hn [Htok [Htxt [Hf Hfound]]]]] Hin Hnt Himage.
  split; [|split; [|split; [|split; [|split]]]]; cbn [fst snd].
  - intros new Hnew Hnewt. rewrite setNodeMarkup_descendants in Hnew.
    apply in_map_iff in Hnew. destruct Hnew as [mid [<- Hmid]].
    unfold reAttrCall in *. cbn [fst snd] in *.
    destruct (reAttr_kind p (mkAttrs None (alt (attrsOf n))) (fst mid) (snd mid))
      as [K1 [_ [K3 _]]].
    rewrite K1 in Hnewt. rewrite reAttr_size, K3.
    destruct (Ht mid Hmid Hnewt) as [Hs [orig [H1 [H2 [H3 [H4 [H5 [H6 H7]]]]]]]].
    split; [exact Hs|]. exists orig. repeat split; auto.
    intros Hd. apply in_app_iff in Hd. destruct Hd as [Hd | [<- | []]]; [exact (H7 Hd)|].
    cbn [fst] in H2. congruence.
  - intros new Hnew Hnewt. rewrite setNodeMarkup_descendants in Hnew.
    apply in_map_iff in Hnew. destruct Hnew as [mid [<- Hmid]].
    unfold reAttrCall in *. cbn [fst snd] in *.
    destruct (reAttr_kind p (mkAttrs None (alt (attrsOf n))) (fst mid) (snd mid))
      as [K1 [K2 [K3 [_ K5]]]].
    rewrite K1 in Hnewt. rewrite K2, K3, K5, Hnewt. cbn [negb andb].
    destruct (Hn mid Hmid Hnewt) as [orig [H1 [H2 [H3 [H4 [H5 [H6 H7]]]]]]].
    exists orig. split; [exact H1|]. split; [exact H2|]. split; [exact H3|].
    split; [exact H4|]. split; [exact H5|].
    destruct (snd mid =? p) eqn:E.
    + apply Z.eqb_eq in E.
      assert (Ho : orig = (n, p)).
      { apply (descendants_nontext_unique doc0); auto. cbn [snd]. lia. }
      subst orig. cbn [fst]. split; [right; reflexivity|]. intros _ _ _. reflexivity.
    + apply Z.eqb_neq in E. split; [exact H6|].
      intros Hd Hi Hc. apply in_app_iff in Hd.
      destruct Hd as [Hd | [<- | []]]; [exact (H7 Hd Hi Hc)|].
      cbn [snd] in H3. congruence.
  - rewrite setNodeMarkup_tokens. exact Htok.
  - rewrite setNodeMarkup_text. exact Htxt.
  - discriminate.
  - intros _. exists (n, p). split; [apply in_app_iff; right; left; reflexivity|].
    unfold hit. cbn [fst]. rewrite Himage. reflexivity.
Qed.

Lemma remove_inv_step done acc x :
  inv done acc -> In x (descendants doc0) -> inv (done ++ [x]) (removeStep tid acc x).
Proof.
  intros Hinv Hin. destruct x as [n p]. unfold removeStep.
  destruct (isText n) eqn:Et.
  - assert (Hi : isImage n = false) by (destruct n; [reflexivity | discriminate Et ..]).
    rewrite Hi. cbn [andb].
    destruct (existsb _ (marksOf n)) eqn:Em.
    + apply remove_inv_text; assumption.
    + apply remove_inv_skip; [exact Hinv|].
      unfold hit, markedText, hasMarkOf. cbn [fst]. rewrite Hi, Em, Et. reflexivity.
  - destruct (isImage n && eqId (commentThreadId (attrsOf n)) (Some tid))%bool eqn:Ei.
    + apply remove_inv_image; assumption.
    + apply remove_inv_skip; [exact Hinv|].
      unfold hit, markedText. cbn [fst]. rewrite Ei, Et. reflexivity.
Qed.

Lemma remove_inv_fold :
  inv (descendants doc0)
      (fold_left (removeStep tid) (descendants doc0) (newTr doc0, false)).
Proof.
  enough (H : forall l done acc,
            (forall x, In x l -> In x (descendants doc0)) ->
            inv done acc -> inv (done ++ l) (fold_left (removeStep tid) l acc)).
  { apply (H (descendants doc0) [] (newTr doc0, false)); [auto | apply remove_inv_init]. }
  induction l as [|x l IH]; intros done acc Hsub Hinv.
  - rewrite app_nil_r. exact Hinv.
  - simpl fold_left.
    replace (done ++ x :: l) with ((done ++ [x]) ++ l) by (rewrite <- app_assoc; reflexivity).
    apply IH; [intros y Hy; apply Hsub; right; exact Hy|].
    apply remove_inv_step; [exact Hinv | apply Hsub; left; reflexivity].
Qed.

(** The document the loop of [removeCommentMark] ends with. *)
Lemma remove_loop_result :
  let acc := fold_left (removeStep tid) (descendants doc0) (newTr doc0, false) in
  let d := trDoc (fst acc) in
  fragTokens d = fragTokens doc0
  /\ textContent d = textContent doc0
  /\ (forall y, In y (descendants d) -> hit y = false)
  /\ (forall new, In new (descendants d) -> isText (fst new) = true ->
        exists orig,
          In orig (descendants doc0) /\ isText (fst orig) = true
          /\ snd orig <= snd new
          /\ snd new + nodeSize (fst new) <= snd orig + nodeSize (fst orig)
          /\ forall m, m <> createComment tid ->
                       (In m (marksOf (fst new)) <-> In m (marksOf (fst orig))))
  /\ (forall new m, In new (descendants d) -> In m (marksOf (fst new)) ->
        exists orig, In orig (descendants doc0) /\ In m (marksOf (fst orig)))
  /\ (snd acc = false -> fst acc = newTr doc0)
  /\ (snd acc = true -> exists y, In y (descendants doc0) /\ hit y = true).
Proof.
  intros acc d. destruct remove_inv_fold as [Ht [Hn [Htok [Htxt [Hf Hfound]]]]].
  fold acc in Ht, Hn, Htok, Htxt, Hf, Hfound. fold d in Ht, Hn, Htok, Htxt.
  split; [exact Htok|]. split; [exact Htxt|].
  split; [|split; [|split; [|split; [intros Hs; exact (proj1 (Hf Hs)) | exact Hfound]]]].
  - intros y Hy. unfold hit, markedText. destruct (isText (fst y)) eqn:Et.
    + destruct (Ht y Hy Et) as [_ [orig [H1 [_ [_ [_ [_ [_ H7]]]]]]]].
      assert (Hi : isImage (fst y) = false)
        by (destruct (fst y); [reflexivity | discriminate Et ..]).
      rewrite Hi. cbn [andb orb].
      destruct (hasMarkOf tid (fst y)) eqn:Em; [|reflexivity].
      apply hasMarkOf_created_iff in Em. exfalso. exact (H7 H1 Em).
    + rewrite andb_false_l, orb_false_r.
      destruct (isImage (fst y)) eqn:Ei; [|reflexivity]. cbn [andb].
      destruct (Hn y Hy Et) as [orig [H1 [_ [_ [H4 [_ [H6 H7]]]]]]].
      assert (Hio : isImage (fst orig) = true) by (unfold isImage in *; congruence).
      destruct (eqId (commentThreadId (attrsOf (fst y))) (Some tid)) eqn:Ee; [|reflexivity].
      apply eqId_eq in Ee. exfalso.
      destruct H6 as [E | E]; rewrite E in Ee; [|discriminate Ee].
      pose proof (H7 H1 Hio Ee) as Hx. rewrite E in Hx. congruence.
  - intros new Hnew Hnewt.
    destruct (Ht new Hnew Hnewt) as [_ [orig [H1 [H2 [H3 [H4 [H5 [H6 _]]]]]]]].
    exists orig. repeat split; auto.
  - intros new m Hnew Hm. destruct (isText (fst new)) eqn:Et.
    + destruct (Ht new Hnew Et) as [_ [orig [H1 [_ [_ [_ [H5 _]]]]]]]. exists orig. auto.
    + destruct (Hn new Hnew Et) as [orig [H1 [_ [_ [_ [H5 _]]]]]]. exists orig. auto.
Qed.

End RemoveMark.

(** [removeCommentMark] for a thread either does nothing or dispatches
    one transaction.  On a document without empty text nodes whose
    schema has the comment mark, the document of that transaction (the
    document as it is, when nothing is dispatched) has no text node with
    the comment mark of the thread and no image with its id, so that
    [findCommentMarkRange] finds nothing for the thread in it.  It has
    the tokens of the document before, position by position: the same
    text and size; at every position of a text the marks other than the
    removed one are those the text had there before, and no node has a
    mark that was not in the document.  Where the document holds no
    marked text and no image of the thread, nothing is dispatched. *)
Theorem removeCommentMark_clears (tid : string) (w : World) (state : EditorState) :
  view w = Some state ->
  hasCommentMark (schema state) = true ->
  noEmptyText (doc state) ->
  (exists d,
     ((removeCommentMark tid w = w /\ d = doc state)
      \/ exists tr, removeCommentMark tid w = dispatch w state tr /\ d = trDoc tr)
     /\ fragTokens d = fragTokens (doc state)
     /\ textContent d = textContent (doc state)
     /\ fragSize d = fragSize (doc state)
     /\ (forall state', doc state' = d -> findCommentMarkRange state' (Some tid) = None)
     /\ (forall n p, In (n, p) (descendants d) -> isText n = true ->
                     ~ In (createComment tid) (marksOf n))
     /\ (forall n p, In (n, p) (descendants d) -> isImage n = true ->
                     commentThreadId (attrsOf n) <> Some tid)
     /\ (forall new q,
           In new (descendants d) -> isText (fst new) = true ->
           snd new <= q < snd new + nodeSize (fst new) ->
           exists orig,
             In orig (descendants (doc state)) /\ isText (fst orig) = true
             /\ snd orig <= q < snd orig + nodeSize (fst orig)
             /\ forall m, m <> createComment tid ->
                          (In m (marksOf (fst new)) <-> In m (marksOf (fst orig))))
     /\ (forall new m, In new (descendants d) -> In m (marksOf (fst new)) ->
           exists orig, In orig (descendants (doc state)) /\ In m (marksOf (fst orig))))
  /\ ((forall n p, In (n, p) (descendants (doc state)) ->
         (isText n = true -> ~ In (createComment tid) (marksOf n))
         /\ (isImage n = true -> commentThreadId (attrsOf n) <> Some tid)) ->
      removeCommentMark tid w = w).
Proof.
  intros Hv Hc Hne.
  pose proof (remove_loop_result tid (doc state) Hne) as H. cbv zeta in H.
  destruct H as [Htok [Htxt [Hhit [Hframe [Hmarks [Hnone Hsome]]]]]].
  unfold removeCommentMark. rewrite Hv, Hc. cbn [negb].
  destruct (fold_left (removeStep tid) (descendants (doc state)) (newTr (doc state), false))
    as [tr found] eqn:Efold.
  cbn [fst snd] in *.
  assert (Hclean : forall y, In y (descendants (trDoc tr)) ->
            (isImage (fst y) && eqId (commentThreadId (attrsOf (fst y))) (Some tid))%bool = false
            /\ markedText tid y = false).
  { intros y Hy. specialize (Hhit y Hy). apply orb_false_iff in Hhit. exact Hhit. }
  assert (Hdoc :
            fragTokens (trDoc tr) = fragTokens (doc state)
            /\ textContent (trDoc tr) = textContent (doc state)
            /\ fragSize (trDoc tr) = fragSize (doc state)
            /\ (forall state', doc state' = trDoc tr ->
                               findCommentMarkRange state' (Some tid) = None)
            /\ (forall n p, In (n, p) (descendants (trDoc tr)) -> isText n = true ->
                            ~ In (createComment tid) (marksOf n))
            /\ (forall n p, In (n, p) (descendants (trDoc tr)) -> isImage n = true ->
                            commentThreadId (attrsOf n) <> Some tid)
            /\ (forall new q,
                  In new (descendants (trDoc tr)) -> isText (fst new) = true ->
                  snd new <= q < snd new + nodeSize (fst new) ->
                  exists orig,
                    In orig (descendants (doc state)) /\ isText (fst orig) = true
                    /\ snd orig <= q < snd orig + nodeSize (fst orig)
                    /\ forall m, m <> createComment tid ->
                                 (In m (marksOf (fst new)) <-> In m (marksOf (fst orig))))
            /\ (forall new m, In new (descendants (trDoc tr)) -> In m (marksOf (fst new)) ->
                  exists orig, In orig (descendants (doc state))
                               /\ In m (marksOf (fst orig)))).
  { split; [exact Htok|]. split; [exact Htxt|].
    split; [rewrite <- !fragTokens_length, Htok; reflexivity|].
    split; [intros state' Hd; apply findCommentMarkRange_none; rewrite Hd; exact Hclean|].
    split.
    { intros n p Hin Ht Hm. destruct (Hclean (n, p) Hin) as [_ Hx].
      unfold markedText in Hx. cbn [fst] in Hx. rewrite Ht in Hx. cbn [andb] in Hx.
      apply hasMarkOf_created in Hm. congruence. }
    split.
    { intros n p Hin Hi He. destruct (Hclean (n, p) Hin) as [Hx _].
      cbn [fst] in Hx. rewrite Hi, He in Hx. cbn in Hx.
      rewrite String.eqb_refl in Hx. discriminate Hx. }
    split; [|exact Hmarks].
    intros new q Hnew Ht Hq. destruct (Hframe new Hnew Ht) as [orig [H1 [H2 [H3 [H4 H5]]]]].
    exists orig. split; [exact H1|]. split; [exact H2|]. split; [lia | exact H5]. }
  destruct found.
  - split.
    + exists (trDoc tr). split; [right; exists tr; split; reflexivity | exact Hdoc].
    + intros Hno. exfalso. destruct (Hsome eq_refl) as [[n p] [Hin Hh]].
      destruct (Hno n p Hin) as [N1 N2]. cbn [fst] in Hh.
      apply orb_true_iff in Hh. destruct Hh as [Hh | Hh].
      * apply andb_true_iff in Hh. destruct Hh as [Hi He]. apply eqId_eq in He.
        exact (N2 Hi He).
      * unfold markedText in Hh. cbn [fst] in Hh. apply andb_true_iff in Hh.
        destruct Hh as [Ht Hm]. apply hasMarkOf_created_iff in Hm. exact (N1 Ht Hm).
  - split; [|reflexivity].
    exists (doc state). split; [left; split; reflexivity|].
    rewrite (Hnone eq_refl) in Hdoc. exact Hdoc.
Qed.

(** The marked "quick fox" of the example: the removal dispatches a
    transaction in whose document nothing of thread "t1" is found. *)
Lemma removeCommentMark_clears_witness :
  exists d,
    ((removeCommentMark "t1" (worldOf threeThreads markedState)
      = worldOf threeThreads markedState /\ d = doc markedState)
     \/ exists tr,
          removeCommentMark "t1" (worldOf threeThreads markedState)
          = dispatch (worldOf threeThreads markedState) markedState tr
          /\ d = trDoc tr)
    /\ textContent d = textContent markedPara
    /\ forall state', doc state' = d -> findCommentMarkRange state' (Some "t1") = None.
Proof.
  assert (Hne : noEmptyText (doc markedState)).
  { intros n p Hin _. vm_compute in Hin.
    repeat (destruct Hin as [Hin | Hin]; [injection Hin as <- <-; reflexivity|]).
    destruct Hin. }
  destruct (removeCommentMark_clears "t1" (worldOf threeThreads markedState) markedState
              eq_refl eq_refl Hne)
    as [[d [H1 [_ [H2 [_ [H3 _]]]]]] _].
  exists d. split; [exact H1|]. split; [exact H2 | exact H3].
Defined.

(* ------------------------------------------------------------------ *)
(** ** The recovery of one thread *)
(* ------------------------------------------------------------------ *)

Lemma trimStart_allWhiteSpace (s : string) :
  JS.allWhiteSpace s = true -> JS.trimStart s = EmptyString.
Proof.
  induction s as [|c s IH]; [reflexivity|]. simpl.
  destruct (JS.isWhiteSpace c); [exact IH | discriminate].
Qed.

Lemma trim_allWhiteSpace (s : string) :
  JS.allWhiteSpace s = true -> JS.trim s = EmptyString.
Proof. intros H. unfold JS.trim. rewrite (trimStart_allWhiteSpace s H). reflexivity. Qed.

(** The threads the loop of [recoverMissingMarks] passes over. *)
Lemma recovery_skip (state : EditorState) (l : list (string * list Comment))
    (acc : bool * Transaction) :
  (forall tid comments, In (tid, comments) l ->
     setHas (getThreadIdsWithMarks state) (Some tid) = true \/ rootResolved comments = true) ->
  fold_left
    (fun (acc : bool * Transaction) (thread : string * list Comment) =>
       let '(tid, comments) := thread in
       if setHas (getThreadIdsWithMarks state) (Some tid) then acc
       else
         match rootComment comments with
         | None => acc
         | Some root =>
             if resolved root then acc
             else if (negb (JS.truthy (selectedText root))
                      || (JS.length (JS.trim (selectedText root)) =? 0))%bool then acc
             else
               match findBestMatchPosition (Some (doc state)) (selectedText root)
                                           (positionContext root) with
               | Some m =>
                   (true, addMark (commentExcludes (schema state)) (snd acc)
                                  (from m) (to m) (createComment tid))
               | None => acc
               end
         end)
    l acc = acc.
Proof.
  revert acc. induction l as [|[tid comments] l IH]; intros acc H; [reflexivity|].
  rewrite fold_left_cons.
  destruct (H tid comments (or_introl eq_refl)) as [Hl | Hr].
  - rewrite Hl. apply IH. intros t c Hin. apply H. right. exact Hin.
  - destruct (setHas _ _); [apply IH; intros t c Hin; apply H; right; exact Hin|].
    unfold rootResolved in Hr. destruct (rootComment comments) as [root|]; [|discriminate Hr].
    rewrite Hr. apply IH. intros t c Hin. apply H. right. exact Hin.
Qed.

(** A thread that lost its mark is anchored again by
    [recoverMissingMarks]: where the document (without empty text
    nodes, its schema with the comment mark) names the thread nowhere,
    the root comment is not resolved and its stored text, not blank, is
    found, and every other thread has a live mark or is resolved, the
    recovery dispatches the mark over the position found, and
    [findCommentMarkRange] then answers with a range inside it that
    covers the stored text. *)
Theorem recoverMissingMarks_anchors (w : World) (state : EditorState) (m : CommentsMap)
    (tid : string) (comments : list Comment) (root : Comment) (span : Span) :
  view w = Some state ->
  commentsMap (pluginState w) = Some m ->
  hasCommentMark (schema state) = true ->
  noEmptyText (doc state) ->
  In (tid, comments) (groupCommentsByThread m) ->
  rootComment comments = Some root ->
  resolved root = false ->
  JS.length (JS.trim (selectedText root)) <> 0 ->
  freshThread tid (doc state) ->
  findBestMatchPosition (Some (doc state)) (selectedText root) (positionContext root)
  = Some span ->
  (forall tid' comments',
     In (tid', comments') (groupCommentsByThread m) -> tid' <> tid ->
     setHas (getThreadIdsWithMarks state) (Some tid') = true
     \/ rootResolved comments' = true) ->
  let state' := applyTr state (markRange state tid (from span) (to span)) in
  recoverMissingMarks w = dispatch w state (markRange state tid (from span) (to span))
  /\ exists range,
       findCommentMarkRange state' (Some tid) = Some range
       /\ rangeIsImage range = false
       /\ from span <= rangeFrom range /\ rangeFrom range <= rangeTo range
       /\ rangeTo range <= to span
       /\ textBetween (doc state') (rangeFrom range) (rangeTo range) EmptyString
          = selectedText root.
Proof.
  intros Hv Hm Hc Hne Hin Hroot Hres Htrim Hfresh Hfind Hothers state'.
  (* the text at the position found *)
  destruct (findBestMatchPosition_In _ _ _ _ Hfind) as [Htruthy Hmatch].
  rewrite (collectMatches_allOccurrences _ _ Htruthy) in Hmatch.
  apply allOccurrences_In in Hmatch.
  destruct Hmatch as [text [ms [pos [a [b [Hd [Htext [Hf Hto]]]]]]]].
  assert (Hread : textBetween (doc state) (from span) (to span) EmptyString
                  = selectedText root).
  { rewrite textBetween_chars by exact Hne. rewrite Hto, Hf.
    apply (occurrence_chars (doc state) text ms pos a _ b Hd Htext). }
  assert (Hw : isOnlyWhitespace (textBetween (doc state) (from span) (to span) EmptyString)
               = false).
  { rewrite Hread. unfold isOnlyWhitespace. rewrite Htruthy. cbn [negb orb].
    destruct (JS.allWhiteSpace (selectedText root)) eqn:E; [|reflexivity].
    exfalso. apply Htrim. rewrite (trim_allWhiteSpace _ E). reflexivity. }
  (* the thread has no live mark *)
  assert (Hlive : setHas (getThreadIdsWithMarks state) (Some tid) = false).
  { destruct (setHas (getThreadIdsWithMarks state) (Some tid)) eqn:E; [|reflexivity].
    exfalso. apply setHas_In in E. apply getThreadIdsWithMarks_char in E.
    destruct E as [_ [n [p [Hnp Hl]]]]. destruct (Hfresh n p Hnp) as [F1 F2].
    destruct Hl as [[mk [Hmk [Hcm Hth]]] | [Hi [_ Hat]]].
    - assert (Hx : existsb (fun m0 => (isComment m0 && eqId (PM.threadId m0) (Some tid))%bool)
                          (marksOf n) = true).
      { apply existsb_exists. exists mk. split; [exact Hmk|].
        rewrite Hcm, Hth. simpl. apply String.eqb_refl. }
      congruence.
    - rewrite Hi, Hat in F2. simpl in F2. rewrite String.eqb_refl in F2. discriminate F2. }
  (* the transaction of the loop *)
  assert (Htr : recoveryTransaction state m
                = (true, markRange state tid (from span) (to span))).
  { unfold recoveryTransaction.
    pose proof (groupCommentsByThread_eq m) as Heq.
    destruct (in_split _ _ Hin) as [l1 [l2 Hsplit]].
    assert (Hnd : NoDup (map fst (groupCommentsByThread m))).
    { rewrite Heq, map_map. cbn [fst]. rewrite map_id. apply threadKeys_NoDup. }
    rewrite Hsplit in Hnd |- *. rewrite map_app in Hnd. cbn [map fst] in Hnd.
    assert (H1 : forall t c, In (t, c) l1 -> t <> tid).
    { intros t c Hi ->. apply NoDup_remove_2 in Hnd. apply Hnd. apply in_app_iff. left.
      apply in_map_iff. exists (tid, c). auto. }
    assert (H2 : forall t c, In (t, c) l2 -> t <> tid).
    { intros t c Hi ->. apply NoDup_remove_2 in Hnd. apply Hnd. apply in_app_iff. right.
      apply in_map_iff. exists (tid, c). auto. }
    rewrite fold_left_app, fold_left_cons.
    rewrite (recovery_skip state l1).
    2:{ intros t c Hi. apply Hothers; [|exact (H1 t c Hi)].
        rewrite Hsplit. apply in_app_iff. left. exact Hi. }
    cbv beta iota. rewrite Hlive, Hroot, Hres, Htruthy. cbn [negb orb].
    replace (JS.length (JS.trim (selectedText root)) =? 0) with false
      by (symmetry; apply Z.eqb_neq; exact Htrim).
    rewrite Hfind. cbn [snd].
    rewrite (recovery_skip state l2); [reflexivity|].
    intros t c Hi. apply Hothers; [|exact (H2 t c Hi)].
    rewrite Hsplit. apply in_app_iff. right. right. exact Hi. }
  pose proof (markRange_has_step state tid (from span) (to span) Hne Hfresh Hw) as Hstep.
  split.
  - unfold recoverMissingMarks. rewrite Hv, Hm, Hc, Htr. cbn [negb andb].
    destruct (steps (markRange state tid (from span) (to span))); [contradiction | reflexivity].
  - destruct (markRange_round_trip state tid (from span) (to span) Hc Hne Hfresh Hw)
      as [range [R1 [R2 [R3 [R4 [R5 R6]]]]]].
    exists range. repeat split; auto. fold state' in R6. rewrite R6. exact Hread.
Qed.

(** The thread "t1" of the example, its text "quick fox" unmarked in the
    paragraph: the recovery marks the first occurrence. *)
Lemma recoverMissingMarks_anchors_witness :
  let m := [("t1", rootOf "t1" "quick fox" 10)] in
  let w := worldOf m unmarkedState in
  recoverMissingMarks w = dispatch w unmarkedState (markRange unmarkedState "t1" 5 14)
  /\ exists range,
       findCommentMarkRange (applyTr unmarkedState (markRange unmarkedState "t1" 5 14))
                            (Some "t1")
       = Some range
       /\ rangeIsImage range = false.
Proof.
  intros m w.
  assert (Hne : noEmptyText (doc unmarkedState)).
  { intros n p Hin _. vm_compute in Hin.
    repeat (destruct Hin as [Hin | Hin]; [injection Hin as <- <-; reflexivity|]).
    destruct Hin. }
  assert (Hfresh : freshThread "t1" (doc unmarkedState)).
  { intros n p Hin. vm_compute in Hin.
    repeat (destruct Hin as [Hin | Hin]; [injection Hin as <- <-; split; reflexivity|]).
    destruct Hin. }
  assert (Hin : In ("t1", [rootOf "t1" "quick fox" 10]) (groupCommentsByThread m))
    by (vm_compute; auto).
  assert (Htrim : JS.length (JS.trim (selectedText (rootOf "t1" "quick fox" 10))) <> 0)
    by (vm_compute; discriminate).
  assert (Hothers : forall tid' comments',
             In (tid', comments') (groupCommentsByThread m) -> tid' <> "t1" ->
             setHas (getThreadIdsWithMarks unmarkedState) (Some tid') = true
             \/ rootResolved comments' = true).
  { intros tid' comments' H Hd. vm_compute in H. destruct H as [H | []].
    injection H as <- _. contradiction. }
  destruct (recoverMissingMarks_anchors w unmarkedState m "t1"
              [rootOf "t1" "quick fox" 10] (rootOf "t1" "quick fox" 10) (mkSpan 5 14)
              eq_refl eq_refl eq_refl Hne Hin eq_refl eq_refl Htrim Hfresh eq_refl Hothers)
    as [H1 [range [H2 [H3 _]]]].
  split; [exact H1|]. exists range. split; [exact H2 | exact H3].
Defined.

(* ------------------------------------------------------------------ *)
(** ** Typing next to a commented text *)
(* ------------------------------------------------------------------ *)

Lemma FOP_before {A : Type} (R : A -> A -> Prop) (l1 l2 : list A) (x : A) :
  ForallOrdPairs R (l1 ++ x :: l2) -> forall y, In y l1 -> R y x.
Proof.
  induction l1 as [|a l1 IH]; simpl; intros H y Hy; [destruct Hy|].
  inversion H as [|? ? Ha Hl]; subst. destruct Hy as [<- | Hy].
  - rewrite Forall_forall in Ha. apply Ha. apply in_app_iff. right. left. reflexivity.
  - exact (IH Hl y Hy).
Qed.

(** The mark the scan of one position finds: the first comment mark of
    the text node that holds the position, when its thread is known. *)
Lemma markOfTextNodes_at (valid : list string) (d : Fragment) (a : Z)
    (t : string) (ms : list Mark) (p : Z) (mark : Mark) :
  noEmptyText d ->
  In (Text t ms, p) (descendants d) ->
  p <= a -> a < p + JS.length t ->
  find isComment ms = Some mark ->
  isValidThread valid (PM.threadId mark) = true ->
  markOfTextNodes valid (nodesBetween d a (a + 1)) = Some mark.
Proof.
  intros Hne Hin Hpa Hap Hfind Hvalid.
  rewrite nodesBetween_filter by (apply all_positive; exact Hne).
  assert (Hf : In (Text t ms, p) (filter (inRange a (a + 1)) (descendants d))).
  { apply filter_In. split; [exact Hin|]. unfold inRange. cbn [fst snd nodeSize].
    apply andb_true_iff. split; apply Z.ltb_lt; lia. }
  destruct (in_split _ _ Hf) as [l1 [l2 Hsplit]].
  pose proof (descendants_order d) as [_ Hord].
  apply (FOP_filter _ (inRange a (a + 1))) in Hord. rewrite Hsplit in Hord.
  assert (Hl1 : forall y, In y l1 -> isText (fst y) = false).
  { intros y Hy. destruct (isText (fst y)) eqn:E; [|reflexivity]. exfalso.
    pose proof (FOP_before _ _ _ _ Hord y Hy E eq_refl) as Hb.
    assert (Hyf : In y (filter (inRange a (a + 1)) (descendants d)))
      by (rewrite Hsplit; apply in_app_iff; left; exact Hy).
    apply filter_In in Hyf. destruct Hyf as [_ Hr]. unfold inRange in Hr.
    apply andb_true_iff in Hr. destruct Hr as [R1 R2].
    apply Z.ltb_lt in R1, R2. unfold callEnd in Hb. cbn [fst snd] in Hb. lia. }
  rewrite Hsplit. unfold markOfTextNodes. rewrite fold_left_app, fold_left_cons.
  match goal with |- fold_left ?f _ _ = _ => set (step := f) end.
  assert (H1 : fold_left step l1 None = None).
  { clear Hsplit Hord. induction l1 as [|y l1 IH]; [reflexivity|].
    rewrite fold_left_cons. replace (step None y) with (@None Mark).
    - apply IH. intros z Hz. apply Hl1. right. exact Hz.
    - unfold step. rewrite (Hl1 y (or_introl eq_refl)). reflexivity. }
  rewrite H1. cbn [fst isText marksOf]. rewrite Hfind, Hvalid.
  clear. induction l2 as [|y l2 IH]; [reflexivity|]. rewrite fold_left_cons. exact IH.
Qed.

(** When one step of a transaction that is no paste inserts into the
    range from [newStart] to [newEnd], and the character before the
    place of the insertion lay in a text with the comment mark of a
    thread of the comments map, the maintainer answers with a
    transaction that puts this mark on every text and inline leaf of
    the inserted range and leaves the text of the new state as it
    is. *)
Theorem maintainCommentMarks_extends_mark (ps : PluginState) (tr : EditorTr)
    (oldState newState : EditorState) (oldStart oldEnd newStart newEnd : Z)
    (t : string) (ms : list Mark) (p : Z) (mark : Mark) :
  docChanged tr = true ->
  pasteMeta tr = false ->
  hasCommentMark (schema newState) = true ->
  stepMaps tr = [[(oldStart, oldEnd, newStart, newEnd)]] ->
  newStart < newEnd ->
  noEmptyText (doc oldState) ->
  In (Text t ms, p) (descendants (doc oldState)) ->
  p < oldStart -> oldStart <= p + JS.length t ->
  find isComment ms = Some mark ->
  isValidThread (validThreadIds ps) (PM.threadId mark) = true ->
  exists fixTr,
    maintainCommentMarks ps tr oldState newState = Some fixTr
    /\ (forall n q, In (n, q) (descendants (trDoc fixTr)) ->
                    isInline n = true -> isAtom n = true ->
                    overlaps newStart newEnd q (nodeSize n) = true ->
                    In mark (marksOf n))
    /\ textContent (trDoc fixTr) = textContent (doc newState).
Proof.
  intros Hd Hp Hc Hmaps Hlt Hne Hin Hps Hpe Hfind Hvalid.
  assert (Hp0 : 0 <= p).
  { pose proof (descLoop_within (doc oldState) 0 (Text t ms, p) Hin) as Hw.
    cbn [snd] in Hw. lia. }
  assert (Hmark : markToApply (validThreadIds ps) oldState oldStart oldEnd = Some mark).
  { unfold markToApply.
    replace (0 <? oldStart) with true by (symmetry; apply Z.ltb_lt; lia).
    assert (Hm : markOfTextNodes (validThreadIds ps)
                   (nodesBetween (doc oldState) (oldStart - 1) oldStart) = Some mark).
    { replace oldStart with (oldStart - 1 + 1) at 2 by lia.
      apply (markOfTextNodes_at (validThreadIds ps) (doc oldState) (oldStart - 1) t ms p mark);
        auto; lia. }
    rewrite Hm. reflexivity. }
  set (fixTr0 := removeGhostMarks (validThreadIds ps) newState).
  exists (addMark (commentExcludes (schema newState)) (orNew fixTr0 newState)
                  newStart newEnd mark).
  split; [|split].
  - unfold maintainCommentMarks. rewrite Hd, Hc, Hp. cbn [negb].
    unfold propagateMarks. rewrite Hmaps. cbn [List.concat app fold_left].
    replace (newStart <? newEnd) with true by (symmetry; apply Z.ltb_lt; lia).
    rewrite Hmark. reflexivity.
  - intros n q Hn Hi Ha Ho.
    exact (addMark_doc_marked _ _ _ _ _ (n, q) Hn Hi Ha Ho).
  - rewrite addMark_text.
    destruct fixTr0 as [t0|] eqn:E; [|reflexivity].
    cbn [orNew]. exact (proj1 (proj2 (removeGhostMarks_kept newState _ _ E))).
Qed.

(** A letter typed right after the marked "quick fox" of the example:
    the maintainer answers with a transaction that keeps the text. *)
Lemma maintainCommentMarks_extends_mark_witness :
  let ps := mkPlugin (Some threeThreads) None None true in
  let tr := mkEditorTr true false [[(14, 14, 14, 15)]] in
  let newState :=
    mkState [Inner paragraph noAttrs []
               [Text "The " []; Text "quick fox" [createComment "t1"]; Text "s jumps." []]]
            (TextSelection 15 15) None plainSchema in
  exists fixTr,
    maintainCommentMarks ps tr markedState newState = Some fixTr
    /\ textContent (trDoc fixTr) = textContent (doc newState).
Proof.
  intros ps tr newState.
  assert (Hne : noEmptyText (doc markedState)).
  { intros n p Hin _. vm_compute in Hin.
    repeat (destruct Hin as [Hin | Hin]; [injection Hin as <- <-; reflexivity|]).
    destruct Hin. }
  assert (Hin : In (Text "quick fox" [createComment "t1"], 5) (descendants (doc markedState)))
    by (vm_compute; auto).
  assert (Hlen : 14 <= 5 + JS.length "quick fox") by (vm_compute; discriminate).
  destruct (maintainCommentMarks_extends_mark ps tr markedState newState 14 14 14 15
              "quick fox" [createComment "t1"] 5 (createComment "t1")
              eq_refl eq_refl eq_refl eq_refl ltac:(lia) Hne Hin ltac:(lia) Hlen
              eq_refl eq_refl)
    as [fixTr [H1 [_ H2]]].
  exists fixTr. split; [exact H1 | exact H2].
Defined.

(* ------------------------------------------------------------------ *)
(** ** The bookkeeping run a second time *)
(* ------------------------------------------------------------------ *)

(** Grouping, sorting and the search for the root comment look at the
    thread, the time and the parent of a record only: two maps whose
    records agree on these, entry by entry, are grouped alike. *)
Section Related.

Variable R : Comment -> Comment -> Prop.
Hypothesis R_thread : forall c c', R c c' -> threadId c' = threadId c.
Hypothesis R_created : forall c c', R c c' -> createdAt c' = createdAt c.
Hypothesis R_parent : forall c c', R c c' -> parentId c' = parentId c.

Lemma related_threadKeys (m m' : CommentsMap) :
  Forall2 (fun e e' : string * Comment => R (snd e) (snd e')) m m' ->
  threadKeys m' = threadKeys m.
Proof.
  unfold threadKeys. generalize (@nil string) as acc. intros acc H. revert acc.
  induction H as [|e e' l l' He Hl IH]; intros acc; [reflexivity|].
  rewrite !fold_left_cons. rewrite (R_thread _ _ He). apply IH.
Qed.

Lemma related_commentsOf (m m' : CommentsMap) (tid : string) :
  Forall2 (fun e e' : string * Comment => R (snd e) (snd e')) m m' ->
  Forall2 R (commentsOf m tid) (commentsOf m' tid).
Proof.
  unfold commentsOf. induction 1 as [|e e' l l' He Hl IH]; [constructor|].
  cbn [map filter]. rewrite (R_thread _ _ He).
  destruct (String.eqb (threadId (snd e)) tid); [constructor; assumption | exact IH].
Qed.

Lemma related_insert (c c' : Comment) (l l' : list Comment) :
  R c c' -> Forall2 R l l' ->
  Forall2 R (insertByCreatedAt c l) (insertByCreatedAt c' l').
Proof.
  intros Hc H. induction H as [|x x' l l' Hx Hl IH]; cbn [insertByCreatedAt].
  - constructor; [exact Hc | constructor].
  - rewrite (R_created _ _ Hc), (R_created _ _ Hx).
    destruct (createdAt c <=? createdAt x).
    + constructor; [exact Hc|]. constructor; assumption.
    + constructor; [exact Hx | exact IH].
Qed.

Lemma related_sort (l l' : list Comment) :
  Forall2 R l l' -> Forall2 R (sortByCreatedAt l) (sortByCreatedAt l').
Proof.
  unfold sortByCreatedAt. induction 1 as [|x x' l l' Hx Hl IH]; cbn [fold_right];
    [constructor|]. apply related_insert; assumption.
Qed.

Lemma related_root (l l' : list Comment) :
  Forall2 R l l' ->
  match rootComment l, rootComment l' with
  | Some r, Some r' => R r r'
  | None, None => True
  | _, _ => False
  end.
Proof.
  unfold rootComment. induction 1 as [|x x' l l' Hx Hl IH]; cbn [find]; [exact I|].
  rewrite (R_parent _ _ Hx). destruct (isNull (parentId x)); [exact Hx | exact IH].
Qed.

End Related.

Lemma Forall2_of_map {A B C : Type} (g : A -> B) (P : B -> C -> Prop)
    (l : list A) (l' : list C) :
  Forall2 P (map g l) l' -> Forall2 (fun x y => P (g x) y) l l'.
Proof.
  revert l'. induction l as [|x l IH]; intros l' H; inversion H; subst; constructor; auto.
Qed.

(** The records after the two rewritings of a round and the refresh of
    the stored text. *)
Lemma round_flags (restored marked : list string) (now : Z) (m m3 : CommentsMap) :
  Forall2 (fun e e' : string * Comment => sameButText (snd e) (snd e'))
          (rewriteRoots marked (setOrphaned true (Some now))
             (rewriteRoots restored (setOrphaned false None) m)) m3 ->
  Forall2 (fun e e' : string * Comment => flagsAfter restored marked (snd e) (snd e')) m m3.
Proof.
  intros H. unfold rewriteRoots in H. rewrite map_map in H. apply Forall2_of_map in H.
  eapply Forall2_impl; [|exact H]. intros [k c] e' Hs. cbn [fst snd] in *.
  apply sameButText_fields in Hs.
  destruct Hs as [Ht [Hp [Hr [Ho [_ [Hc _]]]]]].
  unfold flagsAfter.
  destruct (includes restored (threadId c) && isNull (parentId c))%bool;
    cbn [fst snd setOrphaned threadId parentId] in *;
    destruct (includes marked (threadId c) && isNull (parentId c))%bool;
    cbn [fst snd setOrphaned threadId parentId resolved orphaned createdAt] in *;
    repeat split; assumption.
Qed.

Lemma flagsAfter_thread restored marked c c' :
  flagsAfter restored marked c c' -> threadId c' = threadId c.
Proof. intros H. apply H. Qed.

Lemma flagsAfter_created restored marked c c' :
  flagsAfter restored marked c c' -> createdAt c' = createdAt c.
Proof. intros H. apply H. Qed.

Lemma flagsAfter_parent restored marked c c' :
  flagsAfter restored marked c c' -> parentId c' = parentId c.
Proof. intros H. apply H. Qed.

Lemma restoreOrphanedComments_none live threads w :
  restoredIds live threads = [] -> restoreOrphanedComments live threads w = w.
Proof.
  intros H. unfold restoreOrphanedComments. rewrite H.
  destruct (commentsMap (pluginState w)); [|reflexivity].
  destruct (negb (initialSyncComplete (pluginState w))); reflexivity.
Qed.

Lemma markOrphanedComments_none now live threads w :
  newlyOrphanedIds live threads = [] -> markOrphanedComments now live threads w = w.
Proof.
  intros H. unfold markOrphanedComments. rewrite H.
  destruct (commentsMap (pluginState w)); [|reflexivity].
  destruct (negb (initialSyncComplete (pluginState w))); reflexivity.
Qed.

(** The refresh of the stored text finds nothing to do after itself. *)
Lemma updateCommentSelectedText_stable state live w m :
  commentsMap (pluginState w) = Some m ->
  NoDup (map fst m) ->
  NoDup live ->
  updateCommentSelectedText state live (updateCommentSelectedText state live w)
  = updateCommentSelectedText state live w.
Proof.
  intros Hm Hk Hl.
  destruct (updateCommentSelectedText_inv state live w m Hm Hk Hl)
    as [m' [H1 [_ [_ [_ [_ [_ H7]]]]]]].
  set (w' := updateCommentSelectedText state live w) in *.
  rewrite updateCommentSelectedText_fold, H1.
  destruct (negb (hasCommentMark (schema state))); [reflexivity|].
  assert (Hfix : forall l, incl l live -> fold_left (updateStep state) l w' = w').
  { induction l as [|tid l IH]; intros Hi; [reflexivity|].
    rewrite fold_left_cons.
    assert (Hs : updateStep state w' tid = w').
    { rewrite updateStep_eq.
      destruct (findCommentMarkRange state tid) as [range|] eqn:Er; [|reflexivity].
      destruct (findRootCommentEntry (pluginState w') tid) as [[key c]|] eqn:Ef;
        [|reflexivity].
      rewrite H1. cbn [snd].
      rewrite (H7 tid range key c (Hi tid (or_introl eq_refl)) Er Ef), String.eqb_refl.
      reflexivity. }
    rewrite Hs. apply IH. intros x Hx. apply Hi. right. exact Hx. }
  apply Hfix. apply incl_refl.
Qed.

(** The root comment of a thread of the map before a round, and the one
    the grouping finds after it. *)
Lemma round_roots (restored marked : list string) (m m3 : CommentsMap) (tid : string) :
  Forall2 (fun e e' : string * Comment => flagsAfter restored marked (snd e) (snd e')) m m3 ->
  match rootComment (sortByCreatedAt (commentsOf m tid)),
        rootComment (sortByCreatedAt (commentsOf m3 tid)) with
  | Some r, Some r' =>
      threadId r = tid /\ parentId r = None /\ resolved r' = resolved r
      /\ orphaned r' = (if includes marked tid then true
                        else if includes restored tid then false else orphaned r)
  | None, None => True
  | _, _ => False
  end.
Proof.
  intros H.
  pose proof (related_root (flagsAfter restored marked) (flagsAfter_parent restored marked)
                _ _
                (related_sort _ (flagsAfter_created restored marked) _ _
                   (related_commentsOf _ (flagsAfter_thread restored marked) m m3 tid H)))
    as Hroot.
  destruct (rootComment (sortByCreatedAt (commentsOf m tid))) as [r|] eqn:Er;
    destruct (rootComment (sortByCreatedAt (commentsOf m3 tid))) as [r'|] eqn:Er';
    try exact Hroot.
  unfold rootComment in Er. apply find_some in Er. destruct Er as [Hin Hnull].
  apply (proj1 (sortByCreatedAt_In _ _)) in Hin. apply commentsOf_In in Hin.
  destruct Hin as [_ Ht].
  assert (Hp : parentId r = None) by (destruct (parentId r); [discriminate Hnull | reflexivity]).
  destruct Hroot as [_ [_ [_ [Hres Horph]]]].
  rewrite Ht, Hp in Horph. cbn [isNull] in Horph. rewrite !andb_true_r in Horph.
  auto.
Qed.

(** Run again on the same document, the bookkeeping of
    [buildDecorations] changes nothing and dispatches no further event:
    on a map with one entry per key in which every thread has a root
    comment, the world after two rounds is the world after one, whatever
    the clock says at the second. *)
Theorem lifecyclePass_twice (now1 now2 : Z) (state : EditorState) (w : World)
    (m : CommentsMap) :
  commentsMap (pluginState w) = Some m ->
  NoDup (map fst m) ->
  (forall tid, In tid (threadKeys m) ->
               exists c, In c (commentsOf m tid) /\ parentId c = None) ->
  lifecyclePass now2 state (lifecyclePass now1 state w) = lifecyclePass now1 state w.
Proof.
  intros Hm Hk Hroot.
  destruct (getThreadIdsWithMarks_char state) as [Hlive _].
  set (w3 := lifecyclePass now1 state w).
  assert (Hw3 : w3 = updateCommentSelectedText state (getThreadIdsWithMarks state)
                       (markOrphanedComments now1 (getThreadIdsWithMarks state)
                          (groupCommentsByThread m)
                          (restoreOrphanedComments (getThreadIdsWithMarks state)
                             (groupCommentsByThread m) w))).
  { unfold w3, lifecyclePass. rewrite Hm. reflexivity. }
  set (live := getThreadIdsWithMarks state) in *.
  set (threads := groupCommentsByThread m) in *.
  unfold lifecyclePass. fold live. cbv zeta.
  destruct (initialSyncComplete (pluginState w)) eqn:Hs.
  - set (ids1 := restoredIds live threads).
    set (ids2 := newlyOrphanedIds live threads).
    set (w1 := restoreOrphanedComments live threads w) in *.
    set (m1 := rewriteRoots ids1 (setOrphaned false None) m).
    assert (Hm1 : commentsMap (pluginState w1) = Some m1)
      by (apply restoreOrphanedComments_map; assumption).
    assert (Hs1 : initialSyncComplete (pluginState w1) = true).
    { destruct (restoreOrphanedComments_rest live threads w) as [_ [_ [_ H]]].
      unfold w1. rewrite H. exact Hs. }
    set (w2 := markOrphanedComments now1 live threads w1) in *.
    set (m2 := rewriteRoots ids2 (setOrphaned true (Some now1)) m1).
    assert (Hm2 : commentsMap (pluginState w2) = Some m2)
      by (apply markOrphanedComments_map; assumption).
    assert (Hk2 : NoDup (map fst m2))
      by (unfold m2, m1; rewrite !rewriteRoots_keys; exact Hk).
    destruct (updateCommentSelectedText_inv state live w2 m2 Hm2 Hk2 Hlive)
      as [m3 [Hm3 [Hrel _]]].
    rewrite <- Hw3 in Hm3.
    assert (Hflags : Forall2 (fun e e' : string * Comment =>
                                flagsAfter ids1 ids2 (snd e) (snd e')) m m3).
    { apply (round_flags ids1 ids2 now1). eapply Forall2_impl; [|exact Hrel].
      intros e e' H. apply H. }
    assert (Hkeys : threadKeys m3 = threadKeys m)
      by (exact (related_threadKeys _ (flagsAfter_thread ids1 ids2) m m3 Hflags)).
    assert (Hnot2 : forall tid, setHas live (Some tid) = true -> includes ids2 tid = false).
    { intros tid Hl. destruct (includes ids2 tid) eqn:E; [|reflexivity].
      apply includes_In, newlyOrphanedIds_In in E. destruct E as [cs [_ [Hn _]]]. congruence. }
    assert (Hnot1 : forall tid, setHas live (Some tid) = false -> includes ids1 tid = false).
    { intros tid Hl. destruct (includes ids1 tid) eqn:E; [|reflexivity].
      apply includes_In, restoredIds_In in E. destruct E as [cs [_ [_ Hn]]]. congruence. }
    rewrite Hm3.
    assert (Ha : restoredIds live (groupCommentsByThread m3) = []).
    { destruct (restoredIds live (groupCommentsByThread m3)) as [|tid rest] eqn:E;
        [reflexivity|]. exfalso.
      assert (Hin : In tid (restoredIds live (groupCommentsByThread m3)))
        by (rewrite E; left; reflexivity).
      apply restoredIds_In in Hin. destruct Hin as [cs3 [Hin [Horph Hl]]].
      apply groupCommentsByThread_In in Hin. destruct Hin as [Hkey ->].
      rewrite Hkeys in Hkey.
      pose proof (round_roots ids1 ids2 m m3 tid Hflags) as Hr.
      unfold rootOrphaned in Horph.
      destruct (rootComment (sortByCreatedAt (commentsOf m tid))) as [r|] eqn:Er;
        destruct (rootComment (sortByCreatedAt (commentsOf m3 tid))) as [r'|] eqn:Er';
        try contradiction; try discriminate Horph.
      destruct Hr as [_ [_ [_ Ho]]]. rewrite (Hnot2 tid Hl) in Ho.
      destruct (includes ids1 tid) eqn:E1; [congruence|].
      assert (Hi : In tid ids1).
      { apply restoredIds_In. exists (sortByCreatedAt (commentsOf m tid)).
        split; [apply groupCommentsByThread_In; auto|]. split; [|exact Hl].
        unfold rootOrphaned. rewrite Er. congruence. }
      apply includes_In in Hi. congruence. }
    assert (Hb : newlyOrphanedIds live (groupCommentsByThread m3) = []).
    { destruct (newlyOrphanedIds live (groupCommentsByThread m3)) as [|tid rest] eqn:E;
        [reflexivity|]. exfalso.
      assert (Hin : In tid (newlyOrphanedIds live (groupCommentsByThread m3)))
        by (rewrite E; left; reflexivity).
      apply newlyOrphanedIds_In in Hin. destruct Hin as [cs3 [Hin [Hl [Hres Horph]]]].
      apply groupCommentsByThread_In in Hin. destruct Hin as [Hkey ->].
      rewrite Hkeys in Hkey.
      pose proof (round_roots ids1 ids2 m m3 tid Hflags) as Hr.
      unfold rootOrphaned in Horph. unfold rootResolved in Hres.
      destruct (rootComment (sortByCreatedAt (commentsOf m tid))) as [r|] eqn:Er.
      - destruct (rootComment (sortByCreatedAt (commentsOf m3 tid))) as [r'|] eqn:Er';
          [|contradiction].
        destruct Hr as [_ [_ [Hr Ho]]]. rewrite (Hnot1 tid Hl) in Ho.
        destruct (includes ids2 tid) eqn:E2; [congruence|].
        assert (Hi : In tid ids2).
        { apply newlyOrphanedIds_In. exists (sortByCreatedAt (commentsOf m tid)).
          split; [apply groupCommentsByThread_In; auto|]. split; [exact Hl|].
          unfold rootResolved, rootOrphaned. rewrite Er. split; congruence. }
        apply includes_In in Hi. congruence.
      - destruct (Hroot tid Hkey) as [c [Hc Hp]].
        unfold rootComment in Er.
        pose proof (find_none _ _ Er c (proj2 (sortByCreatedAt_In _ _) Hc)) as Hn.
        cbv beta in Hn. rewrite Hp in Hn. discriminate Hn. }
    rewrite (restoreOrphanedComments_none _ _ _ Ha), (markOrphanedComments_none _ _ _ _ Hb).
    rewrite Hw3. exact (updateCommentSelectedText_stable state live w2 m2 Hm2 Hk2 Hlive).
  - assert (H1 : restoreOrphanedComments live threads w = w)
      by (apply restoreOrphanedComments_before_sync; exact Hs).
    rewrite H1 in Hw3.
    rewrite (markOrphanedComments_before_sync now1 live threads w Hs) in Hw3.
    destruct (updateCommentSelectedText_inv state live w m Hm Hk Hlive)
      as [m3 [Hm3 [_ [_ [_ [_ [Hs3 _]]]]]]].
    rewrite <- Hw3 in Hm3, Hs3. rewrite Hs in Hs3.
    rewrite Hm3.
    rewrite (restoreOrphanedComments_before_sync _ _ _ Hs3).
    rewrite (markOrphanedComments_before_sync _ _ _ _ Hs3).
    rewrite Hw3. exact (updateCommentSelectedText_stable state live w m Hm Hk Hlive).
Qed.

(** The example with its three threads: a second round after the first
    leaves the world as it is. *)
Lemma lifecyclePass_twice_witness :
  let w := worldOf threeThreads markedState in
  lifecyclePass 200 markedState (lifecyclePass 100 markedState w)
  = lifecyclePass 100 markedState w.
Proof.
  apply (lifecyclePass_twice 100 200 markedState (worldOf threeThreads markedState)
           threeThreads eq_refl).
  - vm_compute. repeat constructor; simpl; intuition discriminate.
  - intros tid Hin. vm_compute in Hin.
    destruct Hin as [<- | [<- | [<- | []]]].
    + exists (rootOf "t1" "quick fox" 10). split; [vm_compute; auto | reflexivity].
    + exists (rootOf "t2" "lazy dog" 11). split; [vm_compute; auto | reflexivity].
    + exists (mkComment "t3" "t3" None "root" 13 true false None "jumps" None).
      split; [vm_compute; auto | reflexivity].
Defined.

(* ------------------------------------------------------------------ *)
(** ** The selection the button asks for, and the guards of the call *)
(* ------------------------------------------------------------------ *)

(** Where [hasValidCommentSelection] answers false for a selection that
    is no cell selection (it is collapsed, or covers only whitespace),
    [applyCommentMark] without options returns false and changes
    nothing, in the later and in the earlier revision of the plugin. *)
Theorem hasValidCommentSelection_guards (tid : string) (w : World) (state : EditorState) :
  view w = Some state ->
  (forall a b cells, selection state <> CellSelection a b cells) ->
  hasValidCommentSelection (Some state) = false ->
  applyCommentMark tid noOptions w = (false, w)
  /\ EarlierPlugin.applyCommentMark tid w = (false, w).
Proof.
  intros Hv Hcell Hvalid.
  unfold hasValidCommentSelection in Hvalid.
  destruct (isImageSelection state) eqn:Ei; [discriminate Hvalid|].
  unfold applyCommentMark, EarlierPlugin.applyCommentMark. rewrite Hv, Ei.
  cbn [noOptions optIsImage optSelectedText orb].
  change (JS.truthy EmptyString) with false. cbv iota.
  destruct (selection state) as [f t | f n | f t cells] eqn:Es;
    [| | exfalso; exact (Hcell f t cells eq_refl)];
    cbv zeta in *;
    (destruct (selFrom _ =? selTo _);
     [destruct (negb (hasCommentMark (schema state))); split; reflexivity|]);
    apply negb_false_iff in Hvalid; rewrite Hvalid;
    destruct (negb (hasCommentMark (schema state))); split; reflexivity.
Qed.

(** The two spaces between "a" and "b" are selected. *)
Lemma hasValidCommentSelection_guards_witness :
  applyCommentMark "t9" noOptions (worldOf [] spacesState) = (false, worldOf [] spacesState)
  /\ EarlierPlugin.applyCommentMark "t9" (worldOf [] spacesState)
     = (false, worldOf [] spacesState).
Proof.
  apply (hasValidCommentSelection_guards "t9" (worldOf [] spacesState) spacesState eq_refl).
  - intros a b cells H. discriminate H.
  - vm_compute. reflexivity.
Defined.

(* ------------------------------------------------------------------ *)
(** ** The root record the plugin reads *)
(* ------------------------------------------------------------------ *)

(** [findRootCommentEntry] returns an entry of the comments map whose
    record belongs to the thread and has no parent, and among these the
    last in the order of the map; it returns nothing exactly when the
    map has no such entry, or when there is no map. *)
Theorem findRootCommentEntry_spec (ps : PluginState) (tid : option string) :
  match commentsMap ps, findRootCommentEntry ps tid with
  | Some m, Some e =>
      exists l1 l2, m = l1 ++ e :: l2
                    /\ eqId (Some (threadId (snd e))) tid = true
                    /\ parentId (snd e) = None
                    /\ forall x, In x l2 ->
                                 eqId (Some (threadId (snd x))) tid = true ->
                                 parentId (snd x) <> None
  | Some m, None =>
      forall x, In x m -> eqId (Some (threadId (snd x))) tid = true ->
                parentId (snd x) <> None
  | None, r => r = None
  end.
Proof.
  destruct (commentsMap ps) as [m|] eqn:Hm.
  - pose proof (findRootCommentEntry_last ps m tid Hm) as H.
    assert (Hno : forall x, isRootOf tid x = false ->
                            eqId (Some (threadId (snd x))) tid = true ->
                            parentId (snd x) <> None).
    { intros x Hx He Hp. unfold isRootOf in Hx. rewrite He, Hp in Hx. discriminate Hx. }
    destruct (findRootCommentEntry ps tid) as [e|].
    + destruct H as [l1 [l2 [Hs [Hr Hrest]]]]. exists l1, l2.
      unfold isRootOf in Hr. apply andb_true_iff in Hr. destruct Hr as [Hr1 Hr2].
      split; [exact Hs|]. split; [exact Hr1|]. split.
      * destruct (parentId (snd e)); [discriminate Hr2 | reflexivity].
      * intros x Hx. apply Hno. apply Hrest. exact Hx.
    + intros x Hx. apply Hno. apply H. exact Hx.
  - unfold findRootCommentEntry. rewrite Hm. reflexivity.
Qed.

(* ------------------------------------------------------------------ *)
(** ** The mark of a thread and the transaction the plugin appends *)
(* ------------------------------------------------------------------ *)




































(** ** C2: the mark of a selection is found again *)


(** A thread the store has no record of: the plugin of either revision
    strips the mark again in the transaction it appends, and
    [findCommentMarkRange] finds nothing. *)
Example mark_of_unknown_thread_stripped :
  let w := worldOf [] foxSelected in
  let tr := markRange foxSelected "t9" 5 14 in
  let later := CommentPlugin.applyTransaction (pluginState w) foxSelected tr in
  let earlier := EarlierPlugin.applyTransaction (pluginState w) foxSelected tr in
  CommentPlugin.applyCommentMark "t9" noOptions w = (true, dispatch w foxSelected tr)
  /\ EarlierPlugin.applyCommentMark "t9" w = (true, dispatch w foxSelected tr)
  /\ findCommentMarkRange (applyTr foxSelected tr) (Some "t9") = Some (mkRange 5 14 false)
  /\ findCommentMarkRange later (Some "t9") = None
  /\ findCommentMarkRange earlier (Some "t9") = None
  /\ getThreadIdsWithMarks later = []
  /\ getThreadIdsWithMarks earlier = []
  /\ textContent (doc later) = foxText
  /\ textContent (doc earlier) = foxText.
Proof. vm_compute. repeat split. Qed.

(** Comment marks that exclude each other, in the earlier revision: the
    text "bb" between two texts of thread "t1" is marked for thread
    "t9"; the pass that fills the gaps of "t1" puts the mark of "t1" on
    "bb", which replaces the mark of "t9".  The later revision has no
    such pass and finds "bb". *)
Example earlier_gap_fill_replaces_mark :
  let w := worldOf twoThreads gapSelected in
  let tr := markRange gapSelected "t9" 3 5 in
  let later := CommentPlugin.applyTransaction (pluginState w) gapSelected tr in
  let earlier := EarlierPlugin.applyTransaction (pluginState w) gapSelected tr in
  commentExcludes (schema gapSelected) = true
  /\ EarlierPlugin.applyCommentMark "t9" w = (true, dispatch w gapSelected tr)
  /\ findCommentMarkRange later (Some "t9") = Some (mkRange 3 5 false)
  /\ findCommentMarkRange earlier (Some "t9") = None
  /\ findCommentMarkRange earlier (Some "t1") = Some (mkRange 1 7 false)
  /\ getThreadIdsWithMarks earlier = [Some "t1"]
  /\ getThreadIdsWithMarks later = [Some "t1"; Some "t9"].
Proof. vm_compute. repeat split. Qed.

(** With comment marks that do not exclude each other the earlier
    revision puts the mark of "t1" on "bb" next to the mark of "t9",
    and "bb" is found. *)
Example earlier_gap_fill_shares_mark :
  let w := worldOf twoThreads gapSelectedSharing in
  let tr := markRange gapSelectedSharing "t9" 3 5 in
  let earlier := EarlierPlugin.applyTransaction (pluginState w) gapSelectedSharing tr in
  findCommentMarkRange earlier (Some "t9") = Some (mkRange 3 5 false)
  /\ findCommentMarkRange earlier (Some "t1") = Some (mkRange 1 7 false)
  /\ getThreadIdsWithMarks earlier = [Some "t1"; Some "t9"].
Proof. vm_compute. repeat split. Qed.


